(** * CPAB 1-D transformer (numpy backend): a shallow embedding

    The embedded program is [cpab/backend/numpy/transformer.py]: the
    closed-form and numeric integrators of a one-dimensional, continuous
    piecewise-affine velocity field and the closed-form derivative of the
    flow with respect to the field parameters.

    Numbers.  A numpy [float64] is modelled as an IEEE-754 value whose
    finite part is an exact real: rounding and overflow are abstracted,
    the special values (infinities, not-a-number) and the rules that
    create and propagate them are kept, because the source computes both
    branches of every [np.where] and relies on
    [np.seterr(divide="ignore", invalid="ignore")].  Zero is unsigned.

    Arrays.  A one-dimensional numpy array is a list; an elementwise
    operation is a [map]/[zipWith]; boolean-mask selection [a[m]] and
    masked assignment [a[m] = v] are [select] and [scatter].  Cell
    indices are [int32] in the source and integers here: the indices the
    program builds lie between [-1] and [nc]. *)

From Stdlib Require Import Reals Lra Lia ZArith List Bool.
Import ListNotations.

Local Open Scope R_scope.

(** ** Floating-point values *)

Inductive float : Type :=
| Fin (r : R)
| PInf
| NInf
| NaN.

Definition Rleb (a b : R) : bool := if Rle_dec a b then true else false.
Definition Rltb (a b : R) : bool := if Rlt_dec a b then true else false.
Definition Req_bool (a b : R) : bool := if Req_dec_T a b then true else false.

Definition ofZ (z : Z) : float := Fin (IZR z).

Definition fneg (x : float) : float :=
  match x with
  | Fin a => Fin (- a)
  | PInf => NInf
  | NInf => PInf
  | NaN => NaN
  end.

Definition fadd (x y : float) : float :=
  match x, y with
  | Fin a, Fin b => Fin (a + b)
  | NaN, _ | _, NaN => NaN
  | PInf, NInf | NInf, PInf => NaN
  | PInf, _ | _, PInf => PInf
  | NInf, _ | _, NInf => NInf
  end.

Definition fsub (x y : float) : float := fadd x (fneg y).

(** The infinity of the sign of [s * a], for a real [a]; [0 * inf] is
    invalid. *)
Definition inf_times (pos : bool) (a : R) : float :=
  if Req_bool a 0 then NaN
  else if Bool.eqb pos (Rltb 0 a) then PInf else NInf.

Definition fmul (x y : float) : float :=
  match x, y with
  | Fin a, Fin b => Fin (a * b)
  | NaN, _ | _, NaN => NaN
  | Fin a, PInf | PInf, Fin a => inf_times true a
  | Fin a, NInf | NInf, Fin a => inf_times false a
  | PInf, PInf | NInf, NInf => PInf
  | PInf, NInf | NInf, PInf => NInf
  end.

Definition fdiv (x y : float) : float :=
  match x, y with
  | Fin a, Fin b =>
      if Req_bool b 0
      then (if Req_bool a 0 then NaN else if Rltb 0 a then PInf else NInf)
      else Fin (a / b)
  | NaN, _ | _, NaN => NaN
  | Fin _, (PInf | NInf) => Fin 0
  | PInf, Fin b => if Rltb b 0 then NInf else PInf
  | NInf, Fin b => if Rltb b 0 then PInf else NInf
  | _, _ => NaN
  end.

(** [np.exp] and [np.log]. *)
Definition fexp (x : float) : float :=
  match x with
  | Fin a => Fin (exp a)
  | PInf => PInf
  | NInf => Fin 0
  | NaN => NaN
  end.

Definition flog (x : float) : float :=
  match x with
  | Fin a => if Rltb 0 a then Fin (ln a)
             else if Req_bool a 0 then NInf else NaN
  | PInf => PInf
  | NInf => NaN
  | NaN => NaN
  end.

(** [np.floor]. *)
Definition ffloor (x : float) : float :=
  match x with
  | Fin a => Fin (IZR (Zfloor a))
  | _ => x
  end.

(** Comparisons: every comparison with not-a-number is false. *)
Definition fle (x y : float) : bool :=
  match x, y with
  | Fin a, Fin b => Rleb a b
  | NaN, _ | _, NaN => false
  | NInf, _ | _, PInf => true
  | _, _ => false
  end.

Definition fge (x y : float) : bool := fle y x.

Definition feq (x y : float) : bool :=
  match x, y with
  | Fin a, Fin b => Req_bool a b
  | PInf, PInf | NInf, NInf => true
  | _, _ => false
  end.

(** [np.maximum], [np.minimum] (both propagate not-a-number) and
    [np.clip a lo hi = minimum (maximum a lo) hi]. *)
Definition fmaximum (x y : float) : float :=
  match x, y with
  | NaN, _ | _, NaN => NaN
  | _, _ => if fle x y then y else x
  end.

Definition fminimum (x y : float) : float :=
  match x, y with
  | NaN, _ | _, NaN => NaN
  | _, _ => if fle x y then x else y
  end.

Definition fclip (a lo hi : float) : float := fminimum (fmaximum a lo) hi.

(** [np.sign]. *)
Definition fsign (x : float) : float :=
  match x with
  | Fin a => if Rltb 0 a then Fin 1 else if Rltb a 0 then Fin (-1) else Fin 0
  | PInf => Fin 1
  | NInf => Fin (-1)
  | NaN => NaN
  end.

(** [.astype(np.int32)]: truncation toward zero; a value that is not
    finite is cast to the most negative [int32]. *)
Definition astype_int32 (x : float) : Z :=
  match x with
  | Fin a => if Rleb 0 a then Zfloor a else (- Zfloor (- a))%Z
  | _ => (-2147483648)%Z
  end.

(** [np.where] on one element. *)
Definition fwhere {A : Type} (c : bool) (x y : A) : A := if c then x else y.

(** [eps = np.finfo(np.float32).eps], that is [2^-23]. *)
Definition eps_R : R := / 8388608.
Definition eps : float := Fin eps_R.

Declare Scope float_scope.
Delimit Scope float_scope with fl.
Bind Scope float_scope with float.
Infix "+" := fadd : float_scope.
Infix "-" := fsub : float_scope.
Infix "*" := fmul : float_scope.
Infix "/" := fdiv : float_scope.
Infix "<=?" := fle (at level 70) : float_scope.
Infix ">=?" := fge (at level 70) : float_scope.
Infix "==?" := feq (at level 70) : float_scope.

(** ** Arrays *)

Section Arrays.
Context {A B C D : Type}.

Fixpoint zipWith (f : A -> B -> C) (l1 : list A) (l2 : list B) : list C :=
  match l1, l2 with
  | a :: l1', b :: l2' => f a b :: zipWith f l1' l2'
  | _, _ => []
  end.

Fixpoint zipWith3 (f : A -> B -> C -> D)
         (l1 : list A) (l2 : list B) (l3 : list C) : list D :=
  match l1, l2, l3 with
  | a :: l1', b :: l2', c :: l3' => f a b c :: zipWith3 f l1' l2' l3'
  | _, _, _ => []
  end.

(** [a[m]]: the elements of [a] where the mask holds, in order. *)
Fixpoint select (m : list bool) (a : list A) : list A :=
  match m, a with
  | true :: m', x :: a' => x :: select m' a'
  | false :: m', _ :: a' => select m' a'
  | _, _ => []
  end.

(** [a[m] = v]: the positions of [a] where the mask holds take the
    elements of [v], in order. *)
Fixpoint scatter (m : list bool) (v : list A) (a : list A) : list A :=
  match m, a with
  | true :: m', x :: a' =>
      match v with
      | y :: v' => y :: scatter m' v' a'
      | [] => x :: scatter m' [] a'
      end
  | false :: m', x :: a' => x :: scatter m' v a'
  | _, _ => a
  end.
End Arrays.

(** [np.alltrue]. *)
Definition alltrue (m : list bool) : bool := forallb (fun b => b) m.

(** [~m]. *)
Definition vnot (m : list bool) : list bool := map negb m.

(** ** Exceptions *)

Inductive exn : Type :=
| BaseException
| ValueError
| IndexError
| ZeroDivisionError.

Inductive result (A : Type) : Type :=
| Ok (a : A)
| Raise (e : exn).
Arguments Ok {A} a.
Arguments Raise {A} e.

Definition bind {A B : Type} (m : result A) (k : A -> result B) : result B :=
  match m with
  | Ok a => k a
  | Raise e => Raise e
  end.

Notation "x <- m ;; k" := (bind m (fun x => k))
  (at level 61, m at next level, right associativity).
Notation "' p <- m ;; k" := (bind m (fun x => match x with p => k end))
  (at level 61, p pattern, m at next level, right associativity).

Fixpoint mapM {A B : Type} (f : A -> result B) (l : list A) : result (list B) :=
  match l with
  | [] => Ok []
  | a :: l' => b <- f a ;; bs <- mapM f l' ;; Ok (b :: bs)
  end.

(** Python indexing of a sequence by an integer: a negative index counts
    from the end, an index out of range raises [IndexError]. *)
Definition py_index {A : Type} (l : list A) (i : Z) : result A :=
  let n := Z.of_nat (length l) in
  let j := if (i <? 0)%Z then (i + n)%Z else i in
  if ((0 <=? j) && (j <? n))%Z
  then match nth_error l (Z.to_nat j) with
       | Some a => Ok a
       | None => Raise IndexError
       end
  else Raise IndexError.

(** Elementwise arithmetic on arrays of equal length. *)
Definition vadd : list float -> list float -> list float := zipWith fadd.
Definition vsub : list float -> list float -> list float := zipWith fsub.
Definition vmul : list float -> list float -> list float := zipWith fmul.
Definition vdiv : list float -> list float -> list float := zipWith fdiv.
Definition vwhere {T : Type} (c : list bool) (x y : list T) : list T :=
  zipWith3 fwhere c x y.
Definition vand : list bool -> list bool -> list bool := zipWith andb.

(** [a.reshape((n, -1))] of a flat array: [n] rows of equal length. *)
Fixpoint chunks {T : Type} (k n : nat) (l : list T) : list (list T) :=
  match n with
  | O => []
  | S n' => firstn k l :: chunks k n' (skipn k l)
  end.

Definition reshape_rows {T : Type} (n : nat) (l : list T)
  : result (list (list T)) :=
  if (n =? 0)%nat then Raise ValueError
  else if (length l mod n =? 0)%nat then Ok (chunks (length l / n) n l)
  else Raise ValueError.

(** ** Parameters *)

(** The parameter object: domain, cell count, basis matrix [B] (rows
    [2c] and [2c+1] give the slope and offset of cell [c]), step counts
    of the numeric integrator and the cache of the resolved field: [A]
    holds one row of [(a, b)] pairs per batch entry and [r] the batch
    entry of each flattened point.  [xmin] and [xmax] are Python floats,
    taken finite. *)
Record Params : Type := mkParams {
  xmin : R;
  xmax : R;
  nc : Z;
  B : list (list float);
  nSteps1 : Z;
  nSteps2 : Z;
  precomputed : bool;
  A : list (list (float * float));
  r : list Z
}.

Definition set_cache (p : Params) (flag : bool)
           (A' : list (list (float * float))) (r' : list Z) : Params :=
  mkParams (xmin p) (xmax p) (nc p) (B p) (nSteps1 p) (nSteps2 p) flag A' r'.

Definition set_r (p : Params) (r' : list Z) : Params :=
  set_cache p (precomputed p) (A p) r'.

(** ** Batch effect *)

(** [np.broadcast_to(x, (n_batch, n_points))] for a two-dimensional [x]
    (a one-dimensional [x] is a single row): a leading dimension of one
    is stretched, any other must equal [n_batch]. *)
Definition broadcast_to (x : list (list float)) (n_batch : nat)
  : result (list (list float)) :=
  match x with
  | [row] => Ok (repeat row n_batch)
  | _ => if (length x =? n_batch)%nat then Ok x else Raise ValueError
  end.

Definition batch_effect (x theta : list (list float)) : result (list float) :=
  let n_batch := length theta in
  xb <- broadcast_to x n_batch ;;
  Ok (concat xb).

(** ** Affine-field resolver *)

(** One entry of [B.dot(theta.T)]: the inner product of a row of [B]
    with a parameter vector; operands of different length do not
    multiply. *)
Definition dot (u v : list float) : result float :=
  if (length u =? length v)%nat
  then Ok (fold_left fadd (zipWith fmul u v) (Fin 0))
  else Raise ValueError.

(** [.reshape(n_batch, -1, 2)] on one batch row: consecutive entries are
    paired into [(a, b)]; an odd number of entries cannot be paired. *)
Fixpoint pairs (l : list float) : result (list (float * float)) :=
  match l with
  | [] => Ok []
  | a :: b :: l' => ps <- pairs l' ;; Ok ((a, b) :: ps)
  | _ => Raise ValueError
  end.

Definition resolve_row (Bm : list (list float)) (th : list float)
  : result (list (float * float)) :=
  coeffs <- mapM (fun row => dot row th) Bm ;;
  pairs coeffs.

Definition get_affine (x : list float) (theta : list (list float)) (params : Params)
  : result (list (list (float * float)) * list Z) :=
  if precomputed params then Ok (A params, r params)
  else
    let n_batch := length theta in
    let n_points := length x in
    if (n_batch =? 0)%nat then Raise ZeroDivisionError
    else
      let r' := flat_map (fun i => repeat (Z.of_nat i) (n_points / n_batch))
                         (seq 0 n_batch) in
      A' <- mapM (resolve_row (B params)) theta ;;
      Ok (A', r').

Definition precompute_affine (x : list float) (theta : list (list float))
           (params : Params) : result Params :=
  let params := set_cache params false (A params) (r params) in
  ' (A', r') <- get_affine x theta params ;;
  Ok (set_cache params true A' r').

(** [A[r, c, k]] for index arrays [r] and [c] of equal length; [proj]
    is the last index ([fst] for 0, [snd] for 1). *)
Fixpoint take (Am : list (list (float * float))) (proj : float * float -> float)
         (rs cs : list Z) : result (list float) :=
  match rs, cs with
  | [], [] => Ok []
  | ri :: rs', ci :: cs' =>
      row <- py_index Am ri ;;
      ab <- py_index row ci ;;
      rest <- take Am proj rs' cs' ;;
      Ok (proj ab :: rest)
  | _, _ => Raise IndexError
  end.

(** ** Cell locator *)

(** The three functions are elementwise; on an array they act through
    [map]. *)
Definition right_boundary (c : float) (params : Params) : float :=
  (Fin (xmin params)
   + (c + Fin 1) * Fin (xmax params - xmin params) / ofZ (nc params)
   + eps)%fl.

Definition left_boundary (c : float) (params : Params) : float :=
  (Fin (xmin params)
   + c * Fin (xmax params - xmin params) / ofZ (nc params)
   - eps)%fl.

Definition get_cell (x : float) (params : Params) : Z :=
  let c := ffloor ((x - Fin (xmin params))
                   / Fin (xmax params - xmin params) * ofZ (nc params))%fl in
  astype_int32 (fclip c (ofZ 0) (ofZ (nc params - 1))).

Definition cells (x : list float) (params : Params) : list Z :=
  map (fun xi => get_cell xi params) x.

(** ** Velocity, flow and hit time *)

Definition get_velocity (x : list float) (theta : list (list float))
           (params : Params) : result (list float) :=
  ' (Am, rs) <- get_affine x theta params ;;
  let c := cells x params in
  a <- take Am fst rs c ;;
  b <- take Am snd rs c ;;
  Ok (vadd (vmul a x) b).

(** The three arrays [cond], [x1], [x2] that [get_psi] builds before it
    selects. *)
Definition psi_branches (a b x t : list float)
  : list bool * list float * list float :=
  let cond := map (fun ai => ai ==? Fin 0)%fl a in
  let x1 := vadd x (vmul t b) in
  let x2 := vsub (vmul (map fexp (vmul t a)) (vadd x (vdiv b a))) (vdiv b a) in
  (cond, x1, x2).

Definition get_psi (x t : list float) (theta : list (list float))
           (params : Params) : result (list float) :=
  ' (Am, rs) <- get_affine x theta params ;;
  let c := cells x params in
  a <- take Am fst rs c ;;
  b <- take Am snd rs c ;;
  let '(cond, x1, x2) := psi_branches a b x t in
  Ok (vwhere cond x1 x2).

(** The arrays [cond], [x1], [x2] of [get_hit_time]. *)
Definition hit_branches (a b x xc : list float)
  : list bool * list float * list float :=
  let cond := map (fun ai => ai ==? Fin 0)%fl a in
  let x1 := vdiv (vsub xc x) b in
  let x2 := vdiv (map flog (vdiv (vadd xc (vdiv b a)) (vadd x (vdiv b a)))) a in
  (cond, x1, x2).

Definition get_hit_time (x : list float) (theta : list (list float))
           (params : Params) : result (list float) :=
  ' (Am, rs) <- get_affine x theta params ;;
  let c := cells x params in
  v <- get_velocity x theta params ;;
  let xc := vwhere (map (fun vi => vi >=? Fin 0)%fl v)
                   (map (fun ci => right_boundary (ofZ ci) params) c)
                   (map (fun ci => left_boundary (ofZ ci) params) c) in
  a <- take Am fst rs c ;;
  b <- take Am snd rs c ;;
  let '(cond, x1, x2) := hit_branches a b x xc in
  Ok (vwhere cond x1 x2).

(** ** Loops

    A [while True] loop is run with fuel: [None] means that the fuel ran
    out before the loop left, [Some] carries what the call did (a value
    or a raised exception). *)
Definition outcome (T : Type) : Type := option (result T).

Definition obind {T U : Type} (m : outcome T) (k : T -> outcome U) : outcome U :=
  match m with
  | None => None
  | Some (Raise e) => Some (Raise e)
  | Some (Ok a) => k a
  end.

Notation "x <~ m ;; k" := (obind m (fun x => k))
  (at level 61, m at next level, right associativity).

(** ** Numeric integrator *)

(** One midpoint sub-step of [get_phi_numeric]. *)
Definition midpoint_step (deltaT : R) (theta : list (list float))
           (params : Params) (yn : list float) : result (list float) :=
  v <- get_velocity yn theta params ;;
  let midpoint := vadd yn (map (fmul (Fin (deltaT / 2))) v) in
  vm <- get_velocity midpoint theta params ;;
  Ok (vadd yn (map (fmul (Fin deltaT)) vm)).

Fixpoint repeatM {T : Type} (n : nat) (f : T -> result T) (y : T) : result T :=
  match n with
  | O => Ok y
  | S n' => y' <- f y ;; repeatM n' f y'
  end.

(** [t] is a Python float and [nSteps2] a Python integer: their quotient
    raises when [nSteps2] is zero; [range] of a negative count is
    empty. *)
Definition get_phi_numeric (x : list float) (t : R) (theta : list (list float))
           (params : Params) : result (list float) :=
  if (nSteps2 params =? 0)%Z then Raise ZeroDivisionError
  else
    let deltaT := t / IZR (nSteps2 params) in
    repeatM (Z.to_nat (nSteps2 params)) (midpoint_step deltaT theta params) x.

(** The body of the outer loop of [integrate_numeric] on the pair
    [(xPrev, c)]; the scalar [deltaT] is broadcast over the points. *)
Definition numeric_step (deltaT : R) (theta : list (list float))
           (params : Params) (st : list float * list Z)
  : result (list float * list Z) :=
  let '(xPrev, c) := st in
  xTemp <- get_psi xPrev (map (fun _ => Fin deltaT) xPrev) theta params ;;
  let cTemp := cells xTemp params in
  xNum <- get_phi_numeric xPrev deltaT theta params ;;
  let xPrev := vwhere (zipWith Z.eqb c cTemp) xTemp xNum in
  Ok (xPrev, cells xPrev params).

Definition integrate_numeric (x theta : list (list float)) (params : Params)
  : result (list (list float)) :=
  x <- batch_effect x theta ;;
  let n_batch := length theta in
  params <- precompute_affine x theta params ;;
  if (nSteps1 params =? 0)%Z then Raise ZeroDivisionError
  else
    let deltaT := 1 / IZR (nSteps1 params) in
    ' (xPrev, _) <- repeatM (Z.to_nat (nSteps1 params))
                            (numeric_step deltaT theta params)
                            (x, cells x params) ;;
    reshape_rows n_batch xPrev.

(** ** Closed-form integrator *)

(** The variables of the cell-hopping loop: the active points [hx] with
    their remaining time [ht] and tracked cell [hc], the parameter
    object (whose [r] is re-sliced with the points), the output array
    [hout] and the flags [hdone] over all points, and the counter. *)
Record hop_state (T : Type) : Type := mkHop {
  hx : list float;
  ht : list float;
  hparams : Params;
  hc : list Z;
  hout : list T;
  hdone : list bool;
  hcont : Z
}.
Arguments mkHop {T}.
Arguments hx {T}.
Arguments ht {T}.
Arguments hparams {T}.
Arguments hc {T}.
Arguments hout {T}.
Arguments hdone {T}.
Arguments hcont {T}.

Section Hop.
Context {T : Type}.
(** What is stored for a point: [psi] in [integrate_closed_form],
    the row [(psi, t, c)] in [integrate_closed_form_trace]. *)
Variable record : float -> float -> Z -> T.
Variable theta : list (list float).

(** The validity mask of one pass. *)
Definition valid_mask (params : Params) (c : list Z) (v psi : list float)
  : list bool :=
  let left := map (fun ci => left_boundary (ofZ ci) params) c in
  let right := map (fun ci => right_boundary (ofZ ci) params) c in
  let cond1 := vand (zipWith fle left psi) (zipWith fle psi right) in
  let cond2 := vand (map (fun vi => vi >=? Fin 0)%fl v)
                    (map (fun ci => ci =? nc params - 1)%Z c) in
  let cond3 := vand (map (fun vi => vi <=? Fin 0)%fl v)
                    (map (fun ci => ci =? 0)%Z c) in
  zipWith3 (fun b1 b2 b3 => b1 || b2 || b3) cond1 cond2 cond3.

(** One pass of the [while True] body: [inl] is the [return], [inr]
    the state of the next pass, [Raise BaseException] the counter
    check. *)
Definition hop_body (st : hop_state T) : result (list T + hop_state T) :=
  let x := hx st in
  let t := ht st in
  let params := hparams st in
  let c := hc st in
  let left := map (fun ci => left_boundary (ofZ ci) params) c in
  let right := map (fun ci => right_boundary (ofZ ci) params) c in
  v <- get_velocity x theta params ;;
  psi <- get_psi x t theta params ;;
  let valid := valid_mask params c v psi in
  let out := scatter (vnot (hdone st)) (zipWith3 record psi t c) (hout st) in
  let done := scatter (vnot (hdone st)) valid (hdone st) in
  if alltrue valid then Ok (inl out)
  else
    let x := select (vnot valid) x in
    let t := select (vnot valid) t in
    let params := set_r params (select (vnot valid) (r params)) in
    thit <- get_hit_time x theta params ;;
    let t := vsub t thit in
    let x := select (vnot valid) (zipWith3 fclip psi left right) in
    let c := select (vnot valid)
               (zipWith (fun vi ci => if (vi >=? Fin 0)%fl
                                      then (ci + 1)%Z else (ci - 1)%Z) v c) in
    let cont := (hcont st + 1)%Z in
    if (cont >? nc params)%Z then Raise BaseException
    else Ok (inr (mkHop x t params c out done cont)).

Fixpoint hop_loop (fuel : nat) (st : hop_state T) : outcome (list T) :=
  match fuel with
  | O => None
  | S fuel' =>
      match hop_body st with
      | Raise e => Some (Raise e)
      | Ok (inl out) => Some (Ok out)
      | Ok (inr st') => hop_loop fuel' st'
      end
  end.

(** The setup shared by the two integrators, then the loop.  The
    output array starts from [np.empty]: [blank] stands for its
    unspecified contents, all overwritten by the first pass. *)
Definition hop_init (blank : T) (x : list float) (params : Params)
  : hop_state T :=
  mkHop x (map (fun _ => Fin 1) x) params (cells x params)
        (map (fun _ => blank) x) (map (fun _ => false) x) 0%Z.

Definition hop_run (fuel : nat) (blank : T) (x : list (list float))
           (params : Params) : outcome (list T) :=
  x <~ Some (batch_effect x theta) ;;
  params <~ Some (precompute_affine x theta params) ;;
  hop_loop fuel (hop_init blank x params).
End Hop.

Definition integrate_closed_form (fuel : nat) (x theta : list (list float))
           (params : Params) : outcome (list (list float)) :=
  phi <~ hop_run (fun psi _ _ => psi) theta fuel (Fin 0) x params ;;
  Some (reshape_rows (length theta) phi).

(** A row [(psi, t, c)] of the trace; the cell is stored as a float. *)
Definition trace_row (psi t : float) (c : Z) : float * float * float :=
  (psi, t, ofZ c).

Definition integrate_closed_form_trace (fuel : nat) (x theta : list (list float))
           (params : Params) : outcome (list (float * float * float)) :=
  hop_run trace_row theta fuel (Fin 0, Fin 0, Fin 0) x params.

(** ** Closed-form derivative *)

(** [params.B[rows, k]] for an index array [rows] and a column [k]. *)
Definition take_B (Bm : list (list float)) (rows : list Z) (k : Z)
  : result (list float) :=
  mapM (fun i => row <- py_index Bm i ;; py_index row k) rows.

Definition vsquare (a : list float) : list float := map (fun ai => ai * ai)%fl a.

Definition derivative_psi_theta (x t : list float) (theta : list (list float))
           (k : Z) (params : Params) : result (list float) :=
  ' (Am, rs) <- get_affine x theta params ;;
  let c := cells x params in
  a <- take Am fst rs c ;;
  b <- take Am snd rs c ;;
  ak <- take_B (B params) (map (fun ci => 2 * ci)%Z c) k ;;
  bk <- take_B (B params) (map (fun ci => 2 * ci + 1)%Z c) k ;;
  let cond := map (fun ai => ai ==? Fin 0)%fl a in
  let d1 := vmul t (vadd (vmul x ak) bk) in
  let d2 := vadd
              (vmul (vmul (vmul ak t) (map fexp (vmul a t))) (vadd x (vdiv b a)))
              (vdiv (vmul (vsub (map fexp (vmul t a)) (map (fun _ => Fin 1) a))
                          (vsub (vmul bk a) (vmul ak b)))
                    (vsquare a)) in
  Ok (vwhere cond d1 d2).

Definition derivative_phi_time (x t : list float) (theta : list (list float))
           (k : Z) (params : Params) : result (list float) :=
  ' (Am, rs) <- get_affine x theta params ;;
  let c := cells x params in
  a <- take Am fst rs c ;;
  b <- take Am snd rs c ;;
  let cond := map (fun ai => ai ==? Fin 0)%fl a in
  let d1 := b in
  let d2 := vmul (map fexp (vmul t a)) (vadd (vmul a x) b) in
  Ok (vwhere cond d1 d2).

Definition derivative_thit_theta (x : list float) (theta : list (list float))
           (k : Z) (params : Params) : result (list float) :=
  ' (Am, rs) <- get_affine x theta params ;;
  let c := cells x params in
  a <- take Am fst rs c ;;
  b <- take Am snd rs c ;;
  ak <- take_B (B params) (map (fun ci => 2 * ci)%Z c) k ;;
  bk <- take_B (B params) (map (fun ci => 2 * ci + 1)%Z c) k ;;
  v <- get_velocity x theta params ;;
  let xc := vwhere (map (fun vi => vi >=? Fin 0)%fl v)
                   (map (fun ci => right_boundary (ofZ ci) params) c)
                   (map (fun ci => left_boundary (ofZ ci) params) c) in
  let cond := map (fun ai => ai ==? Fin 0)%fl a in
  let d1 := vdiv (vmul (vsub x xc) bk) (vsquare b) in
  let d2 := vdiv (vmul (map fneg ak)
                       (map flog (vdiv (vadd (vmul a xc) b) (vadd (vmul a x) b))))
                 (vsquare a) in
  let d3 := vdiv (vmul (vsub x xc) (vsub (vmul bk a) (vmul ak b)))
                 (vmul (vmul a (vadd (vmul a x) b)) (vadd (vmul a xc) b)) in
  Ok (vwhere cond d1 (vadd d2 d3)).

(** The variables of the cell walk of [derivative_closed_form]: the
    accumulated hit-time sensitivity, the working positions and the
    working cells (floats from the first pass on, as [cm] is). *)
Record walk_state : Type := mkWalk {
  w_cum : list float;
  w_xm : list float;
  w_c : list float
}.

Section Walk.
Variable theta : list (list float).
Variable k : Z.
Variable params : Params.
Variable cm : list float.

(** One pass of the walk: [inl] is the [break]. *)
Definition walk_body (st : walk_state) : result (walk_state + walk_state) :=
  let c := w_c st in
  let valid := zipWith feq c cm in
  if alltrue valid then Ok (inl st)
  else
    let step := map fsign (vsub cm c) in
    dth <- derivative_thit_theta (w_xm st) theta k params ;;
    let cum := scatter (vnot valid)
                 (vsub (select (vnot valid) (w_cum st))
                       (select (vnot valid) dth))
                 (w_cum st) in
    let xm := scatter (vnot valid)
                (select (vnot valid)
                   (vwhere (map (fun s => s ==? Fin 1)%fl step)
                           (map (fun ci => right_boundary ci params) c)
                           (map (fun ci => left_boundary ci params) c)))
                (w_xm st) in
    Ok (inr (mkWalk cum xm (vadd c step))).

Fixpoint walk_loop (fuel : nat) (st : walk_state) : outcome walk_state :=
  match fuel with
  | O => None
  | S fuel' =>
      match walk_body st with
      | Raise e => Some (Raise e)
      | Ok (inl st') => Some (Ok st')
      | Ok (inr st') => walk_loop fuel' st'
      end
  end.

(** The body of the loop over the parameter components, for component
    [k]: the walk, then the two local derivatives at the final
    segment. *)
Definition derivative_component (fuel : nat) (x tm : list float)
  : outcome (list float) :=
  let c := map ofZ (cells x params) in
  st <~ walk_loop fuel (mkWalk (map (fun _ => Fin 0) x) x c) ;;
  dpsi_dtheta <~ Some (derivative_psi_theta (w_xm st) tm theta k params) ;;
  dpsi_dtime <~ Some (derivative_phi_time (w_xm st) tm theta k params) ;;
  Some (Ok (vadd dpsi_dtheta (vmul dpsi_dtime (w_cum st)))).
End Walk.

(** [a.reshape(n, m)]. *)
Definition reshape2 {T : Type} (n m : nat) (l : list T) : result (list (list T)) :=
  if (length l =? n * m)%nat then Ok (chunks m n l) else Raise ValueError.

Fixpoint omapM {T U : Type} (f : T -> outcome U) (l : list T) : outcome (list U) :=
  match l with
  | [] => Some (Ok [])
  | a :: l' => b <~ f a ;; bs <~ omapM f l' ;; Some (Ok (b :: bs))
  end.

(** The gradient is returned as the list of its slices [der[:, :, k]],
    one [n_batch] by [n_points] matrix per parameter component.  The
    first fuel bounds the cell-hopping loop of the trace, the second the
    cell walk. *)
Definition derivative_closed_form (fuel wfuel : nat) (x theta : list (list float))
           (params : Params)
  : outcome (list (list float) * list (list (list float))) :=
  let n_points := length (hd [] x) in
  let n_batch := length theta in
  let d := length (hd [] theta) in
  res <~ integrate_closed_form_trace fuel x theta params ;;
  phi <~ Some (reshape_rows n_batch (map (fun row => fst (fst row)) res)) ;;
  let tm := map (fun row => snd (fst row)) res in
  let cm := map snd res in
  x <~ Some (batch_effect x theta) ;;
  params <~ Some (precompute_affine x theta params) ;;
  der <~ omapM (fun k =>
                  dphi <~ derivative_component theta (Z.of_nat k) params cm
                            wfuel x tm ;;
                  Some (reshape2 n_batch n_points dphi))
               (seq 0 d) ;;
  Some (Ok (phi, der)).

(** ** Auxiliary definitions for the statements *)

(** The state after [n] passes that went on to a next pass ([None] when
    one of them returned or raised). *)
Fixpoint hop_passes {T : Type} (record : float -> float -> Z -> T)
         (theta : list (list float)) (n : nat) (st : hop_state T)
  : option (hop_state T) :=
  match n with
  | O => Some st
  | S n' =>
      match hop_body record theta st with
      | Ok (inr st') => hop_passes record theta n' st'
      | _ => None
      end
  end.


(** *** The passes of the loop, point by point

    Every array of the loop is indexed by the active points.  A point
    carries its position, its remaining time, its batch entry and its
    tracked cell; the functions below are what one pass computes for one
    point. *)
Record fpt : Type := mkFpt {
  fx : float;
  ft : float;
  fr : Z;
  fc : Z
}.

(** [A[ri, ci, :]] when both indices are in range. *)
Definition coef (Am : list (list (float * float))) (ri ci : Z)
  : result (float * float) :=
  row <- py_index Am ri ;; py_index row ci.

Definition coef_ok (Am : list (list (float * float))) (ri ci : Z) : bool :=
  match coef Am ri ci with Ok _ => true | Raise _ => false end.

Definition coefD (Am : list (list (float * float))) (ri ci : Z)
  : float * float :=
  match coef Am ri ci with Ok ab => ab | Raise _ => (NaN, NaN) end.

Definition vel_k (ab : float * float) (x : float) : float :=
  (fst ab * x + snd ab)%fl.

Definition psi_k (ab : float * float) (x t : float) : float :=
  let a := fst ab in
  let b := snd ab in
  fwhere (a ==? Fin 0)%fl (x + t * b)%fl (fexp (t * a) * (x + b / a) - b / a)%fl.

Definition hit_k (ab : float * float) (x xc : float) : float :=
  let a := fst ab in
  let b := snd ab in
  fwhere (a ==? Fin 0)%fl ((xc - x) / b)%fl
         (flog ((xc + b / a) / (x + b / a)) / a)%fl.

Section PointKernels.
Variable params : Params.

Definition pt_ok (q : fpt) : bool :=
  coef_ok (A params) (fr q) (get_cell (fx q) params).

Definition ab_of (q : fpt) : float * float :=
  coefD (A params) (fr q) (get_cell (fx q) params).

Definition v_of (q : fpt) : float := vel_k (ab_of q) (fx q).

Definition psi_of (q : fpt) : float := psi_k (ab_of q) (fx q) (ft q).

Definition valid_of (q : fpt) : bool :=
  ((left_boundary (ofZ (fc q)) params <=? psi_of q)%fl
   && (psi_of q <=? right_boundary (ofZ (fc q)) params)%fl)
  || ((v_of q >=? Fin 0)%fl && (fc q =? nc params - 1)%Z)
  || ((v_of q <=? Fin 0)%fl && (fc q =? 0)%Z).

(** The boundary of the cell of [x] in the direction of travel. *)
Definition xc_of (q : fpt) : float :=
  fwhere (v_of q >=? Fin 0)%fl
         (right_boundary (ofZ (get_cell (fx q) params)) params)
         (left_boundary (ofZ (get_cell (fx q) params)) params).

Definition thit_of (q : fpt) : float := hit_k (ab_of q) (fx q) (xc_of q).

(** The point after a crossing. *)
Definition step_of (q : fpt) : fpt :=
  mkFpt (fclip (psi_of q) (left_boundary (ofZ (fc q)) params)
               (right_boundary (ofZ (fc q)) params))
        (ft q - thit_of q)%fl
        (fr q)
        (if (v_of q >=? Fin 0)%fl then (fc q + 1)%Z else (fc q - 1)%Z).

Definition invalid_of (q : fpt) : bool := negb (valid_of q).
End PointKernels.

(** What a pass stores for a point. *)
Definition record_of {T : Type} (record : float -> float -> Z -> T)
           (params : Params) (q : fpt) : T :=
  record (psi_of params q) (ft q) (fc q).

(** The loop state whose active points are [pts]. *)
Definition pack {T : Type} (params : Params) (pts : list fpt)
           (out : list T) (done : list bool) (cont : Z) : hop_state T :=
  mkHop (map fx pts) (map ft pts) (set_r params (map fr pts)) (map fc pts)
        out done cont.

(** The bookkeeping of the shrinking active set.  [ys] lists one item
    per original point; a finished point ([done] true) has an output
    that satisfies [Final], a point still active is the next of [pts]
    and satisfies [Inv]. *)
Inductive aligned {T Y : Type} (Inv : fpt -> Y -> Prop) (Final : T -> Y -> Prop)
  : list bool -> list T -> list fpt -> list Y -> Prop :=
| aligned_nil : aligned Inv Final [] [] [] []
| aligned_done (o : T) (y : Y) done out pts ys :
    Final o y -> aligned Inv Final done out pts ys ->
    aligned Inv Final (true :: done) (o :: out) pts (y :: ys)
| aligned_active (o : T) (q : fpt) (y : Y) done out pts ys :
    Inv q y -> aligned Inv Final done out pts ys ->
    aligned Inv Final (false :: done) (o :: out) (q :: pts) (y :: ys).

(** *** Finite inputs *)

Definition is_finite (x : float) : Prop := exists a : R, x = Fin a.

(** A field with real coefficients. *)
Definition fin_pair (ab : R * R) : float * float := (Fin (fst ab), Fin (snd ab)).

Definition fin_field (AR : list (list (R * R))) : list (list (float * float)) :=
  map (map fin_pair) AR.

Definition coefR (AR : list (list (R * R))) (ri ci : Z) : R * R :=
  nth (Z.to_nat ci) (nth (Z.to_nat ri) AR []) (0, 0).

(** An array of [n] rows of [m] entries. *)
Definition rect {T : Type} (n m : nat) (x : list (list T)) : Prop :=
  length x = n /\ Forall (fun row => length row = m) x.

(** The flattened points of a batch with the batch entry of each, from
    entry [i] on. *)
Fixpoint tag_rows {T : Type} (i : nat) (xb : list (list T)) : list (T * Z) :=
  match xb with
  | [] => []
  | row :: xb' => map (fun xi => (xi, Z.of_nat i)) row ++ tag_rows (S i) xb'
  end.

(** The parameter object after [precompute_affine]. *)
Definition resolved (params : Params) (Am : list (list (float * float)))
           (rs : list Z) : Params :=
  set_cache params true Am rs.

(** The active points when the loop starts. *)
Definition init_pt (params : Params) (xr : float * Z) : fpt :=
  mkFpt (fst xr) (Fin 1) (snd xr) (get_cell (fst xr) params).

Definition init_pts (params : Params) (xb : list (list float)) : list fpt :=
  map (init_pt params) (tag_rows 0 xb).

(** The closed-form flow, the velocity and the cell over the reals. *)
Definition psiR (ab : R * R) (x t : R) : R :=
  if Req_dec_T (fst ab) 0 then x + t * snd ab
  else exp (t * fst ab) * (x + snd ab / fst ab) - snd ab / fst ab.

Definition velR (ab : R * R) (x : R) : R := fst ab * x + snd ab.

Definition cellR (params : Params) (x : R) : Z :=
  Z.min (Z.max (Zfloor ((x - xmin params) / (xmax params - xmin params)
                        * IZR (nc params))) 0)
        (nc params - 1).

(** The coefficients that govern a real point of batch entry [ri]. *)
Definition abR (params : Params) (AR : list (list (R * R))) (ri : Z) (x : R)
  : R * R :=
  coefR AR ri (cellR params x).

Definition leftR (params : Params) (c : Z) : R :=
  xmin params + IZR c * (xmax params - xmin params) / IZR (nc params) - eps_R.

Definition rightR (params : Params) (c : Z) : R :=
  xmin params + (IZR c + 1) * (xmax params - xmin params) / IZR (nc params)
  + eps_R.

(** *** Invariants of the loop in a constant field [(0, b)]

    In the zero field a real point stays where it started; in a
    constant field a point of the domain keeps [x + t * b] equal to the
    translated start while it hops from cell to cell. *)
Definition still_inv (p : Params) (AR : list (list (R * R)))
           (cont : Z) (q : fpt) (x0 : R) : Prop :=
  fx q = Fin x0 /\ ft q = Fin 1 /\ fc q = cellR p x0 /\
  (0 <= fr q < Z.of_nat (length AR))%Z.

Definition drift_inv (p : Params) (AR : list (list (R * R))) (b : R)
           (cont : Z) (q : fpt) (x0 : R) : Prop :=
  exists x t,
    fx q = Fin x /\ ft q = Fin t /\
    (0 <= fr q < Z.of_nat (length AR))%Z /\
    x + t * b = x0 + b /\ 0 <= t /\
    fc q = cellR p x /\
    leftR p (fc q) <= x <= rightR p (fc q) /\
    (0 < b -> (cont <= fc q)%Z) /\
    (b < 0 -> (fc q <= nc p - 1 - cont)%Z).

(** A batch of real points as an array. *)
Definition fin_rows (xs : list (list R)) : list (list float) :=
  map (map Fin) xs.

(** *** Concrete inputs

    The domain [[0, 1]] in two cells, with a given basis matrix. *)
Definition two_cells (Bm : list (list float)) : Params :=
  mkParams 0 1 2 Bm 1 1 false [] [].

(** The basis matrix whose cells both have slope [a * theta] and offset
    [b * theta], for a single parameter [theta]. *)
Definition uniform_B (a b : R) : list (list float) :=
  [[Fin a]; [Fin b]; [Fin a]; [Fin b]].

(** The field with coefficients [(a, b)] in both cells, for one batch
    entry, and the parameter object of a call on a single point once
    [precompute_affine] has resolved that field. *)
Definition uniform_field (a b : R) : list (list (R * R)) := [[(a, b); (a, b)]].

Definition two_cells_resolved (Bm : list (list float)) (a b : R) : Params :=
  resolved (two_cells Bm) (fin_field (uniform_field a b)) [0%Z].

(** *** Hit times over the reals *)

Definition thitR (ab : R * R) (x xc : R) : R :=
  if Req_dec_T (fst ab) 0 then (xc - x) / snd ab
  else ln ((xc + snd ab / fst ab) / (x + snd ab / fst ab)) / fst ab.

(** What makes the hit time of a point well defined: a real position
    with real coefficients and a velocity that is not zero; for a slope
    that is not zero, velocities of the same sign at the point and at
    the boundary [xc] it travels to, hence a positive argument of the
    logarithm; for a zero slope, an offset that is not zero. *)
Definition hit_ok (p : Params) (q : fpt) : Prop :=
  exists x a b xc,
    fx q = Fin x /\ ab_of p q = (Fin a, Fin b) /\ xc_of p q = Fin xc /\
    a * x + b <> 0 /\
    (a <> 0 -> 0 < (a * x + b) * (a * xc + b) /\
               0 < (xc + b / a) / (x + b / a)) /\
    (a = 0 -> b <> 0) /\
    thit_of p q = Fin (thitR (a, b) x xc).

(** The invariant of an active point of the domain: real position and
    time, time not negative, and the tracked cell is the cell of the
    position, which it contains. *)
Definition in_cell_inv (p : Params) (AR : list (list (R * R))) (q : fpt) : Prop :=
  exists x t,
    fx q = Fin x /\ ft q = Fin t /\
    (0 <= fr q < Z.of_nat (length AR))%Z /\
    0 <= t /\
    fc q = cellR p x /\
    leftR p (fc q) <= x <= rightR p (fc q).

(** *** The cell walk of the derivative *)

(** The state after [n] passes of the walk that went on to a next pass. *)
Fixpoint walk_passes (theta : list (list float)) (k : Z) (params : Params)
         (cm : list float) (n : nat) (st : walk_state) : option walk_state :=
  match n with
  | O => Some st
  | S n' =>
      match walk_body theta k params cm st with
      | Ok (inr st') => walk_passes theta k params cm n' st'
      | _ => None
      end
  end.

(** One step of a working cell toward the final cell. *)
Definition toward (a m : Z) : Z := (a + Z.sgn (m - a))%Z.

(** Every working cell is within [d] cells of its final cell. *)
Definition within (zm : list Z) (d : nat) (zc : list Z) : Prop :=
  Forall2 (fun a m => (Z.abs (m - a) <= Z.of_nat d)%Z) zc zm.

(** What the trace loop keeps of a point for the walk: a point whose
    position is a number has a tracked cell among the cells (a position
    that is not a number never finalizes), and the cell of a finalized
    point is recorded as such. *)
Definition range_inv (p : Params) (AR : list (list (R * R))) (q : fpt) : Prop :=
  fx q = NaN \/
  exists x, fx q = Fin x /\
            (0 <= fr q < Z.of_nat (length AR))%Z /\
            (0 <= fc q <= nc p - 1)%Z.

Definition cell_recorded (p : Params) (row : float * float * float) : Prop :=
  exists z, snd row = ofZ z /\ (0 <= z <= nc p - 1)%Z.

(** *** The derivative, point by point *)

(** [B[i, k]] when both indices are in range. *)
Definition B_at (Bm : list (list float)) (i k : Z) : result float :=
  row <- py_index Bm i ;; py_index row k.

Definition B_ok (Bm : list (list float)) (i k : Z) : bool :=
  match B_at Bm i k with Ok _ => true | Raise _ => false end.

Definition B_D (Bm : list (list float)) (i k : Z) : float :=
  match B_at Bm i k with Ok v => v | Raise _ => NaN end.

(** What [derivative_thit_theta], [derivative_psi_theta] and
    [derivative_phi_time] compute for one point: position [fx], time
    [ft] and batch entry [fr]; the cell is the cell of the position. *)
Section DerivativeKernels.
Variable params : Params.
Variable k : Z.

Definition basis_ok (q : fpt) : bool :=
  B_ok (B params) (2 * get_cell (fx q) params) k
  && B_ok (B params) (2 * get_cell (fx q) params + 1) k.

Definition ak_of (q : fpt) : float :=
  B_D (B params) (2 * get_cell (fx q) params) k.

Definition bk_of (q : fpt) : float :=
  B_D (B params) (2 * get_cell (fx q) params + 1) k.

Definition dthit_of (q : fpt) : float :=
  let a := fst (ab_of params q) in
  let b := snd (ab_of params q) in
  let x := fx q in
  let xc := xc_of params q in
  let ak := ak_of q in
  let bk := bk_of q in
  fwhere (a ==? Fin 0)%fl
         ((x - xc) * bk / (b * b))%fl
         (fneg ak * flog ((a * xc + b) / (a * x + b)) / (a * a)
          + (x - xc) * (bk * a - ak * b) / (a * (a * x + b) * (a * xc + b)))%fl.

Definition dpsi_theta_of (q : fpt) : float :=
  let a := fst (ab_of params q) in
  let b := snd (ab_of params q) in
  let x := fx q in
  let t := ft q in
  let ak := ak_of q in
  let bk := bk_of q in
  fwhere (a ==? Fin 0)%fl
         (t * (x * ak + bk))%fl
         (ak * t * fexp (a * t) * (x + b / a)
          + (fexp (t * a) - Fin 1) * (bk * a - ak * b) / (a * a))%fl.

Definition dphi_time_of (q : fpt) : float :=
  let a := fst (ab_of params q) in
  let b := snd (ab_of params q) in
  fwhere (a ==? Fin 0)%fl b (fexp (ft q * a) * (a * fx q + b))%fl.
End DerivativeKernels.

(** A point of the cell walk: the working position with the time of the
    final segment and the batch entry, the accumulated sensitivity of
    the hit times, the working cell and the final cell of the trace. *)
Record wpt : Type := mkWpt {
  w_at : fpt;
  w_sens : float;
  w_cell : float;
  w_final : float
}.

Definition set_fx (q : fpt) (x : float) : fpt := mkFpt x (ft q) (fr q) (fc q).

Section WalkKernels.
Variable params : Params.
Variable k : Z.

Definition wvalid (w : wpt) : bool := (w_cell w ==? w_final w)%fl.

Definition wdir (w : wpt) : float := fsign (w_final w - w_cell w)%fl.

(** The boundary the point is moved to by a pass that finds it short of
    its final cell. *)
Definition wedge (w : wpt) : float :=
  fwhere (wdir w ==? Fin 1)%fl
         (right_boundary (w_cell w) params) (left_boundary (w_cell w) params).

(** One pass of the array loop, seen from one point: the masked
    assignments leave a point alone that is in its final cell, and the
    cell array is updated everywhere. *)
Definition wstep (w : wpt) : wpt :=
  mkWpt (set_fx (w_at w) (if negb (wvalid w) then wedge w else fx (w_at w)))
        (if negb (wvalid w) then (w_sens w - dthit_of params k (w_at w))%fl
         else w_sens w)
        (w_cell w + wdir w)%fl
        (w_final w).

(** The state of the walk whose points are [pts]. *)
Definition wpack (pts : list wpt) : walk_state :=
  mkWalk (map w_sens pts) (map (fun w => fx (w_at w)) pts) (map w_cell pts).

(** Following the claim's words, for one point: a crossing subtracts the
    sensitivity of the hit time from the accumulator and moves the point
    to the boundary and the cell one step toward the final cell; the
    walk makes crossings until the working cell is the final cell; the
    gradient is the chain rule at the final segment. *)
Definition crossing (w : wpt) : wpt :=
  mkWpt (set_fx (w_at w) (wedge w))
        (w_sens w - dthit_of params k (w_at w))%fl
        (w_cell w + wdir w)%fl
        (w_final w).

Fixpoint walk_point (fuel : nat) (w : wpt) : wpt :=
  match fuel with
  | O => w
  | S fuel' => if wvalid w then w else walk_point fuel' (crossing w)
  end.

Definition chain_rule_point (fuel : nat) (w : wpt) : float :=
  let w' := walk_point fuel w in
  (dpsi_theta_of params k (w_at w')
   + dphi_time_of params (w_at w') * w_sens w')%fl.
End WalkKernels.

(** The points of the walk at its start: the flattened inputs with
    their batch entries, each with the time and the cell of its trace
    row. *)
Definition walk_start (params : Params) (xr : R * Z)
           (row : float * float * float) : wpt :=
  mkWpt (mkFpt (Fin (fst xr)) (snd (fst row)) (snd xr)
               (get_cell (Fin (fst xr)) params))
        (Fin 0)
        (ofZ (get_cell (Fin (fst xr)) params))
        (snd row).

(** What the walk keeps of a point: a real position, a batch entry of
    the field, and cells that are integers. *)
Definition walk_inv (AR : list (list (R * R))) (w : wpt) : Prop :=
  (exists x, fx (w_at w) = Fin x) /\
  (0 <= fr (w_at w) < Z.of_nat (length AR))%Z /\
  (exists zc, w_cell w = ofZ zc) /\
  (exists zm, w_final w = ofZ zm).

(** *** Further definitions for the properties of the whole module *)

(** The loop state with every stored item mapped by [f]. *)
Definition hop_map {T U : Type} (f : T -> U) (st : hop_state T) : hop_state U :=
  mkHop (hx st) (ht st) (hparams st) (hc st) (map f (hout st)) (hdone st)
        (hcont st).

(** The outcome of a loop with its value mapped by [f]. *)
Definition outcome_map {T U : Type} (f : T -> U) (o : outcome T) : outcome U :=
  match o with
  | Some (Ok a) => Some (Ok (f a))
  | Some (Raise e) => Some (Raise e)
  | None => None
  end.

(** A parameter object whose cache holds a field with real
    coefficients, one row of [nc] pairs per batch entry, on a grid with
    [xmin < xmax] and a positive cell count: what [precompute_affine]
    leaves for a real [theta] and a real basis. *)
Definition real_field (p : Params) (AR : list (list (R * R))) : Prop :=
  precomputed p = true /\
  A p = fin_field AR /\
  Forall (fun row => Z.of_nat (length row) = nc p) AR /\
  (0 < nc p)%Z /\
  xmin p < xmax p.

(** Points with real positions whose batch entries are rows of the
    field. *)
Definition real_points (AR : list (list (R * R))) (pts : list fpt) : Prop :=
  Forall (fun q => is_finite (fx q) /\
                   (0 <= fr q < Z.of_nat (length AR))%Z) pts.

(** The point [q] with the time [tau]. *)
Definition retime (tau : float) (q : fpt) : fpt :=
  mkFpt (fx q) tau (fr q) (fc q).

(** The point [q] moved to [x]. *)
Definition move_to (x : float) (q : fpt) : fpt :=
  mkFpt x (ft q) (fr q) (fc q).

(** The point [q] translated by [d]. *)
Definition shift (d : R) (q : fpt) : fpt := move_to (fx q + Fin d)%fl q.

(** ** Finite-difference derivative *)

(** [row[k] += h] on one row of [theta] (the column index of the loop
    is within the row). *)
Fixpoint add_at (k : nat) (h : float) (row : list float) : list float :=
  match row, k with
  | [], _ => []
  | a :: row', O => (a + h)%fl :: row'
  | a :: row', S k' => a :: add_at k' h row'
  end.

(** [(phi_2 - phi_1) / h] on two-dimensional arrays. *)
Definition difference_quotient (h : float) (phi_2 phi_1 : list (list float))
  : list (list float) :=
  zipWith (zipWith (fun a b => ((a - b) / h)%fl)) phi_2 phi_1.

(** The gradient is returned as the list of its slices [der[:, :, k]],
    as for [derivative_closed_form]; the assignment of a slice needs the
    quotient to have the shape [(n_batch, n_points)]. *)
Definition derivative_numeric (x theta : list (list float)) (params : Params)
           (h : float)
  : result (list (list float) * list (list (list float))) :=
  let n_points := length (hd [] x) in
  let n_batch := length theta in
  let d := length (hd [] theta) in
  phi_1 <- integrate_numeric x theta params ;;
  der <- mapM (fun k =>
                 let theta2 := map (add_at k h) theta in
                 phi_2 <- integrate_numeric x theta2 params ;;
                 reshape2 n_batch n_points
                          (concat (difference_quotient h phi_2 phi_1)))
              (seq 0 d) ;;
  Ok (phi_1, der).

(** A trace row with real entries, a time between zero and one and a
    cell of the grid. *)
Definition trace_row_ok (p : Params) (row : float * float * float) : Prop :=
  exists psi t z,
    row = (Fin psi, Fin t, ofZ z) /\ 0 <= t <= 1 /\ (0 <= z <= nc p - 1)%Z.

(** The invariant of the loop on domain points, with the bound of the
    remaining time. *)
Definition timed_inv (p : Params) (AR : list (list (R * R))) (q : fpt) : Prop :=
  in_cell_inv p AR q /\ exists t, ft q = Fin t /\ t <= 1.

(** ** Gradients of the kernels

    The first lines of every entry point (the batch effect and the
    refresh of the cache), followed by a call [f] on the flattened
    points and the refreshed parameter object. *)
Definition with_setup {T : Type} (x theta : list (list float)) (params : Params)
           (f : list float -> Params -> result T) : result T :=
  xf <- batch_effect x theta ;;
  p <- precompute_affine xf theta params ;;
  f xf p.

(** [theta[:, k] += h] on a copy of [theta], as [derivative_numeric]
    bumps it. *)
Definition bump (k : nat) (h : float) (theta : list (list float))
  : list (list float) :=
  map (add_at k h) theta.

(** Entry [i] of a returned array as a real number; zero stands for a
    raised exception and for an entry that is not finite. *)
Definition real_of (v : float) : R :=
  match v with Fin a => a | _ => 0 end.

Definition real_at (res : result (list float)) (i : nat) : R :=
  match res with
  | Ok l => real_of (nth i l NaN)
  | Raise _ => 0
  end.

(** The resolver over the reals: the inner product, the pairing of the
    coefficients and the field [B.dot(theta.T)] of real operands, and
    the bump of one component. *)
Definition dotR (u v : list R) : R := fold_left Rplus (zipWith Rmult u v) 0.

Fixpoint pairsR (l : list R) : list (R * R) :=
  match l with
  | a :: b :: l' => (a, b) :: pairsR l'
  | _ => []
  end.

Definition fieldR (BR TH : list (list R)) : list (list (R * R)) :=
  map (fun th => pairsR (map (fun row => dotR row th) BR)) TH.

Fixpoint add_atR (k : nat) (h : R) (row : list R) : list R :=
  match row, k with
  | [], _ => []
  | a :: row', O => (a + h) :: row'
  | a :: row', S k' => a :: add_atR k' h row'
  end.

(** A real point of batch entry [snd (fst e)] with its time. *)
Definition timed_pt (e : R * Z * R) : fpt :=
  mkFpt (Fin (fst (fst e))) (Fin (snd e)) (snd (fst e)) 0.

(** The point [q] carried by the flow of its cell for the time [s]. *)
Definition flowed (p : Params) (s : R) (q : fpt) : fpt :=
  move_to (psi_of p (retime (Fin s) q)) q.

(** * Properties *)

(** ** Real comparisons as booleans *)

Lemma Rleb_true (a b : R) : a <= b -> Rleb a b = true.
Proof. intros H. unfold Rleb. destruct (Rle_dec a b); [reflexivity | contradiction]. Qed.

Lemma Rleb_false (a b : R) : b < a -> Rleb a b = false.
Proof. intros H. unfold Rleb. destruct (Rle_dec a b); [lra | reflexivity]. Qed.

Lemma Rleb_iff (a b : R) : Rleb a b = true <-> a <= b.
Proof. unfold Rleb. destruct (Rle_dec a b); split; intros; try easy. Qed.

Lemma Rleb_false_iff (a b : R) : Rleb a b = false <-> b < a.
Proof. unfold Rleb. destruct (Rle_dec a b); split; intros; try easy; lra. Qed.

Lemma Rltb_true (a b : R) : a < b -> Rltb a b = true.
Proof. intros H. unfold Rltb. destruct (Rlt_dec a b); [reflexivity | contradiction]. Qed.

Lemma Rltb_false (a b : R) : b <= a -> Rltb a b = false.
Proof. intros H. unfold Rltb. destruct (Rlt_dec a b); [lra | reflexivity]. Qed.

Lemma Req_bool_true (a b : R) : a = b -> Req_bool a b = true.
Proof. intros H. unfold Req_bool. destruct (Req_dec_T a b); [reflexivity | contradiction]. Qed.

Lemma Req_bool_false (a b : R) : a <> b -> Req_bool a b = false.
Proof. intros H. unfold Req_bool. destruct (Req_dec_T a b); [contradiction | reflexivity]. Qed.

Lemma Req_bool_iff (a b : R) : Req_bool a b = true <-> a = b.
Proof. unfold Req_bool. destruct (Req_dec_T a b); split; intros; try easy. Qed.

Lemma Rleb_IZR (a b : Z) : Rleb (IZR a) (IZR b) = (a <=? b)%Z.
Proof.
  destruct (Z.leb_spec a b) as [H | H].
  - apply Rleb_true, IZR_le, H.
  - apply Rleb_false, IZR_lt, H.
Qed.

Lemma eps_R_pos : 0 < eps_R.
Proof. unfold eps_R. lra. Qed.

(** ** Finite arithmetic *)

Lemma fdiv_Fin (a b : R) : b <> 0 -> (Fin a / Fin b)%fl = Fin (a / b).
Proof. intros H. simpl. rewrite Req_bool_false by exact H. reflexivity. Qed.

Lemma fsub_Fin (a b : R) : (Fin a - Fin b)%fl = Fin (a - b).
Proof. reflexivity. Qed.

Lemma fmaximum_ofZ (a b : Z) : fmaximum (ofZ a) (ofZ b) = ofZ (Z.max a b).
Proof.
  unfold fmaximum, ofZ, fle. rewrite Rleb_IZR.
  destruct (Z.leb_spec a b); f_equal; f_equal; lia.
Qed.

Lemma fminimum_ofZ (a b : Z) : fminimum (ofZ a) (ofZ b) = ofZ (Z.min a b).
Proof.
  unfold fminimum, ofZ, fle. rewrite Rleb_IZR.
  destruct (Z.leb_spec a b); f_equal; f_equal; lia.
Qed.

Lemma fclip_ofZ (a lo hi : Z) :
  fclip (ofZ a) (ofZ lo) (ofZ hi) = ofZ (Z.min (Z.max a lo) hi).
Proof. unfold fclip. rewrite fmaximum_ofZ, fminimum_ofZ. reflexivity. Qed.

Lemma Zfloor_IZR (z : Z) : Zfloor (IZR z) = z.
Proof. apply Zfloor_eq. lra. Qed.

Lemma astype_int32_ofZ (z : Z) : astype_int32 (ofZ z) = z.
Proof.
  unfold astype_int32, ofZ. rewrite <- opp_IZR, !Zfloor_IZR.
  destruct (Rleb 0 (IZR z)); lia.
Qed.

(** ** Cell locator *)

(** The cell of a finite position is the clamped floor. *)
Lemma get_cell_Fin (p : Params) (x : R) :
  xmax p - xmin p <> 0 ->
  get_cell (Fin x) p =
  Z.min (Z.max (Zfloor ((x - xmin p) / (xmax p - xmin p) * IZR (nc p))) 0)
        (nc p - 1).
Proof.
  intros Hw. unfold get_cell.
  rewrite fsub_Fin, fdiv_Fin by exact Hw.
  cbn [fmul ofZ ffloor].
  change (Fin (IZR ?z)) with (ofZ z).
  rewrite fclip_ofZ, astype_int32_ofZ. reflexivity.
Qed.

Lemma right_boundary_Fin (p : Params) (c : R) :
  nc p <> 0%Z ->
  right_boundary (Fin c) p =
  Fin (xmin p + (c + 1) * (xmax p - xmin p) / IZR (nc p) + eps_R).
Proof.
  intros Hn. unfold right_boundary, ofZ, eps. cbn [fadd fmul].
  rewrite fdiv_Fin by (apply not_0_IZR; exact Hn). reflexivity.
Qed.

Lemma left_boundary_Fin (p : Params) (c : R) :
  nc p <> 0%Z ->
  left_boundary (Fin c) p =
  Fin (xmin p + c * (xmax p - xmin p) / IZR (nc p) - eps_R).
Proof.
  intros Hn. unfold left_boundary, ofZ, eps. cbn [fadd fmul].
  rewrite fdiv_Fin by (apply not_0_IZR; exact Hn). reflexivity.
Qed.

(** For a position of the domain the clamped floor is the floor, except
    at [xmax] where it is the last cell. *)
Lemma cell_bounds (p : Params) (x : R) :
  xmin p < xmax p -> (0 < nc p)%Z -> xmin p <= x <= xmax p ->
  let c := get_cell (Fin x) p in
  (0 <= c <= nc p - 1)%Z /\
  xmin p + IZR c * (xmax p - xmin p) / IZR (nc p) <= x /\
  x <= xmin p + (IZR c + 1) * (xmax p - xmin p) / IZR (nc p).
Proof.
  intros Hd Hn Hx. cbv zeta.
  rewrite get_cell_Fin by lra.
  set (w := xmax p - xmin p). set (n := IZR (nc p)).
  assert (Hw : 0 < w) by (unfold w; lra).
  assert (Hn' : 0 < n) by (unfold n; apply IZR_lt; exact Hn).
  set (q := (x - xmin p) / w * n).
  assert (Hiw : 0 < / w) by (apply Rinv_0_lt_compat; exact Hw).
  assert (Hin : 0 < / n) by (apply Rinv_0_lt_compat; exact Hn').
  assert (Hwi : w * / w = 1) by (apply Rinv_r; lra).
  assert (Hni : n * / n = 1) by (apply Rinv_r; lra).
  set (u := (x - xmin p) * / w).
  assert (Hu : x - xmin p = u * w) by (unfold u; nra).
  assert (Hu0 : 0 <= u) by (unfold u; nra).
  assert (Hxw : x - xmin p <= w) by (unfold w; lra).
  assert (Hu1 : u <= 1).
  { unfold u. pose proof (Rmult_le_compat_r (/ w) _ _ (Rlt_le _ _ Hiw) Hxw). lra. }
  assert (Hq : q = u * n) by reflexivity.
  assert (Hq0 : 0 <= q) by nra.
  assert (Hqn : q <= n) by nra.
  pose proof (Zfloor_bound q) as [Hf1 Hf2].
  assert (Hf0 : (0 <= Zfloor q)%Z) by (apply Zfloor_lub; exact Hq0).
  assert (Hfn : (Zfloor q <= nc p)%Z).
  { apply le_IZR. fold n. lra. }
  assert (Hx' : x = xmin p + q * (w * / n)) by nra.
  assert (Hwn : 0 < w * / n) by nra.
  destruct (Z.eq_dec (Zfloor q) (nc p)) as [E | E].
  - replace (Z.min (Z.max (Zfloor q) 0) (nc p - 1)) with (nc p - 1)%Z by lia.
    rewrite E in Hf1. fold n in Hf1.
    assert (q = n) by lra.
    rewrite minus_IZR. fold n.
    split; [lia|]. unfold Rdiv in *. split; nra.
  - replace (Z.min (Z.max (Zfloor q) 0) (nc p - 1)) with (Zfloor q) by lia.
    split; [lia|]. unfold Rdiv in *. split; nra.
Qed.



(** ** The cell-hopping loop is bounded *)

Section HopBounded.
Context {T : Type}.
Variable record : float -> float -> Z -> T.
Variable theta : list (list float).

Lemma hop_body_next (st st' : hop_state T) :
  hop_body record theta st = Ok (inr st') ->
  hcont st' = (hcont st + 1)%Z /\
  (hcont st' <= nc (hparams st))%Z /\
  nc (hparams st') = nc (hparams st).
Proof.
  unfold hop_body. cbv zeta.
  destruct (get_velocity _ _ _) as [v|e]; [|discriminate]. cbn [bind].
  destruct (get_psi _ _ _ _) as [psi|e]; [|discriminate]. cbn [bind].
  destruct (alltrue _); [discriminate|].
  destruct (get_hit_time _ _ _) as [thit|e]; [|discriminate]. cbn [bind].
  cbn [nc set_r set_cache].
  destruct (hcont st + 1 >? nc (hparams st))%Z eqn:Hle; [discriminate|].
  rewrite Z.gtb_ltb, Z.ltb_ge in Hle.
  intros H. inversion H; subst; clear H. cbn. repeat split. exact Hle.
Qed.

(** A pass that starts with the counter at [nc] or beyond cannot go on
    to a next pass. *)
Lemma hop_body_last (st st' : hop_state T) :
  (nc (hparams st) <= hcont st)%Z ->
  hop_body record theta st <> Ok (inr st').
Proof.
  intros Hc H. apply hop_body_next in H. lia.
Qed.

(** When the counter check is reached beyond [nc], it raises. *)
Lemma hop_body_raises (st : hop_state T) (v psi thit : list float) :
  (nc (hparams st) <= hcont st)%Z ->
  get_velocity (hx st) theta (hparams st) = Ok v ->
  get_psi (hx st) (ht st) theta (hparams st) = Ok psi ->
  alltrue (valid_mask (hparams st) (hc st) v psi) = false ->
  get_hit_time
    (select (vnot (valid_mask (hparams st) (hc st) v psi)) (hx st)) theta
    (set_r (hparams st)
       (select (vnot (valid_mask (hparams st) (hc st) v psi))
               (r (hparams st)))) = Ok thit ->
  hop_body record theta st = Raise BaseException.
Proof.
  intros Hc Hv Hpsi Hall Hhit. unfold hop_body. cbv zeta.
  rewrite Hv. cbn [bind]. rewrite Hpsi. cbn [bind]. rewrite Hall.
  rewrite Hhit. cbn [bind nc set_r set_cache].
  destruct (hcont st + 1 >? nc (hparams st))%Z eqn:Hgt; [reflexivity|].
  rewrite Z.gtb_ltb, Z.ltb_ge in Hgt. lia.
Qed.

Lemma hop_loop_total (fuel : nat) (st : hop_state T) :
  (Z.to_nat (nc (hparams st) - hcont st) < fuel)%nat ->
  exists res, hop_loop record theta fuel st = Some res.
Proof.
  revert st. induction fuel as [|fuel IH]; intros st Hf; [lia|].
  cbn [hop_loop].
  destruct (hop_body record theta st) as [[out | st'] | e] eqn:Hb.
  - eexists; reflexivity.
  - apply hop_body_next in Hb. destruct Hb as (Hc & Hle & Hn).
    apply IH. rewrite Hn, Hc. lia.
  - eexists; reflexivity.
Qed.

Lemma hop_passes_count (n : nat) (st st' : hop_state T) :
  hop_passes record theta n st = Some st' ->
  hcont st' = (hcont st + Z.of_nat n)%Z /\
  nc (hparams st') = nc (hparams st) /\
  (n = O \/ (hcont st + Z.of_nat n <= nc (hparams st))%Z).
Proof.
  revert st. induction n as [|n IH]; intros st H.
  - injection H as <-. repeat split; [lia | now left].
  - cbn [hop_passes] in H.
    destruct (hop_body record theta st) as [[out | st1] | e] eqn:Hb;
      try discriminate.
    apply hop_body_next in Hb. destruct Hb as (Hc & Hle & Hn).
    apply IH in H. destruct H as (Hc' & Hn' & Hb').
    rewrite Hc', Hn', Hc, Hn. repeat split; [lia|].
    right. destruct Hb' as [-> | Hb']; lia.
Qed.

Lemma precompute_affine_nc (x : list float) (params params' : Params) :
  precompute_affine x theta params = Ok params' ->
  nc params' = nc params.
Proof.
  unfold precompute_affine.
  destruct (get_affine _ _ _) as [[A' r']|e]; [|discriminate].
  cbn. intros H. injection H as <-. reflexivity.
Qed.

Lemma hop_run_total (fuel : nat) (blank : T) (x : list (list float))
      (params : Params) :
  (Z.to_nat (nc params) < fuel)%nat ->
  exists res, hop_run record theta fuel blank x params = Some res.
Proof.
  intros Hf. unfold hop_run.
  destruct (batch_effect x theta) as [xf|e]; cbn [obind];
    [|eexists; reflexivity].
  destruct (precompute_affine xf theta params) as [p'|e] eqn:Hp; cbn [obind];
    [|eexists; reflexivity].
  apply hop_loop_total. cbn.
  rewrite (precompute_affine_nc _ _ _ Hp), Z.sub_0_r. exact Hf.
Qed.
End HopBounded.

(** C1: the cell-hopping loop of [integrate_closed_form] and of
    [integrate_closed_form_trace] is bounded for every input.  With more
    fuel than [nc] both calls end, with a value or with a raised
    exception, so the functions are total.  In a call, a run of [n]
    passes that each went on to the next has counted [n] crossings and
    [n] is at most [nc]; the pass that starts after [nc] crossings never
    goes on to another one: it returns or it raises, and it raises
    [BaseException] when a point is still not finalized at the counter
    check. *)
Theorem cell_hopping_loop_bounded
        (T : Type) (record : float -> float -> Z -> T) (blank : T)
        (fuel : nat) (x theta : list (list float)) (params : Params) :
  (Z.to_nat (nc params) < fuel)%nat ->
  (exists res, integrate_closed_form fuel x theta params = Some res) /\
  (exists res, integrate_closed_form_trace fuel x theta params = Some res) /\
  (forall xf p' n st,
      batch_effect x theta = Ok xf ->
      precompute_affine xf theta params = Ok p' ->
      hop_passes record theta n (hop_init blank xf p') = Some st ->
      hcont st = Z.of_nat n /\
      (Z.of_nat n <= Z.max 0 (nc params))%Z /\
      ((nc params <= Z.of_nat n)%Z ->
       (forall st', hop_body record theta st <> Ok (inr st')) /\
       (forall v psi thit,
           get_velocity (hx st) theta (hparams st) = Ok v ->
           get_psi (hx st) (ht st) theta (hparams st) = Ok psi ->
           alltrue (valid_mask (hparams st) (hc st) v psi) = false ->
           get_hit_time
             (select (vnot (valid_mask (hparams st) (hc st) v psi)) (hx st))
             theta
             (set_r (hparams st)
                (select (vnot (valid_mask (hparams st) (hc st) v psi))
                        (r (hparams st)))) = Ok thit ->
           hop_body record theta st = Raise BaseException))).
Proof.
  intros Hf. split; [|split].
  - unfold integrate_closed_form.
    destruct (hop_run_total (fun psi _ _ => psi) theta fuel (Fin 0) x params Hf)
      as [[phi | e] ->]; cbn [obind]; eexists; reflexivity.
  - apply hop_run_total. exact Hf.
  - intros xf p' n st _ Hp H.
    apply hop_passes_count in H. cbn in H. destruct H as (Hc & Hn & Hb).
    rewrite (precompute_affine_nc _ _ _ _ Hp) in Hn, Hb.
    split; [lia|]. split; [destruct Hb as [-> | Hb]; lia|].
    intros Hge.
    assert (Hlast : (nc (hparams st) <= hcont st)%Z) by (rewrite Hn, Hc; lia).
    split.
    + intros st'. apply hop_body_last. exact Hlast.
    + intros v psi thit. apply hop_body_raises. exact Hlast.
Qed.

Lemma cell_hopping_loop_bounded_witness :
  exists res,
    integrate_closed_form 3 [[Fin (1 / 2)]] [[Fin 1]]
      (mkParams 0 1 2 [[Fin 0]; [Fin 1]; [Fin 0]; [Fin 1]] 1 1 false [] [])
    = Some res.
Proof.
  exact (proj1 (cell_hopping_loop_bounded float (fun psi _ _ => psi) (Fin 0)
                  3%nat [[Fin (1 / 2)]] [[Fin 1]]
                  (mkParams 0 1 2 [[Fin 0]; [Fin 1]; [Fin 0]; [Fin 1]]
                            1 1 false [] [])
                  ltac:(simpl; lia))).
Defined.

(** ** Arrays as maps over the active points *)

Section MapFusion.
Context {P T U V W : Type}.

Lemma zipWith_map (f : T -> U -> V) (g : P -> T) (h : P -> U) (l : list P) :
  zipWith f (map g l) (map h l) = map (fun q => f (g q) (h q)) l.
Proof. induction l as [|q l IH]; cbn; [reflexivity | now rewrite IH]. Qed.

Lemma zipWith3_map (f : T -> U -> V -> W) (g : P -> T) (h : P -> U)
      (i : P -> V) (l : list P) :
  zipWith3 f (map g l) (map h l) (map i l)
  = map (fun q => f (g q) (h q) (i q)) l.
Proof. induction l as [|q l IH]; cbn; [reflexivity | now rewrite IH]. Qed.

Lemma select_map (m : P -> bool) (g : P -> T) (l : list P) :
  select (map m l) (map g l) = map g (filter m l).
Proof.
  induction l as [|q l IH]; cbn; [reflexivity|].
  destruct (m q); cbn; now rewrite IH.
Qed.

Lemma alltrue_map (m : P -> bool) (l : list P) :
  alltrue (map m l) = forallb m l.
Proof.
  unfold alltrue. induction l as [|q l IH]; cbn; [reflexivity | now rewrite IH].
Qed.
End MapFusion.

Lemma forallb_filter {P : Type} (f m : P -> bool) (l : list P) :
  forallb f l = true -> forallb f (filter m l) = true.
Proof.
  induction l as [|q l IH]; cbn; [reflexivity|].
  intros H. apply andb_prop in H. destruct H as [Hq Hl].
  destruct (m q); cbn; [rewrite Hq|]; auto.
Qed.

(** ** Field lookups *)

Lemma py_index_exn {T : Type} (l : list T) (i : Z) (e : exn) :
  py_index l i = Raise e -> e = IndexError.
Proof.
  unfold py_index.
  destruct (_ && _); [|intros H; now injection H].
  destruct (nth_error _ _); [discriminate | intros H; now injection H].
Qed.

Lemma coef_exn Am ri ci e : coef Am ri ci = Raise e -> e = IndexError.
Proof.
  unfold coef. destruct (py_index Am ri) as [row|e'] eqn:H1; cbn.
  - apply py_index_exn.
  - intros H. injection H as <-. apply py_index_exn in H1. exact H1.
Qed.

Lemma take_map {P : Type} Am proj (f g : P -> Z) (pts : list P) :
  take Am proj (map f pts) (map g pts)
  = if forallb (fun q => coef_ok Am (f q) (g q)) pts
    then Ok (map (fun q => proj (coefD Am (f q) (g q))) pts)
    else Raise IndexError.
Proof.
  induction pts as [|q pts IH]; cbn [map take forallb]; [reflexivity|].
  unfold coef_ok at 1, coefD at 1.
  destruct (coef Am (f q) (g q)) as [ab|e] eqn:Hc.
  - unfold coef in Hc.
    destruct (py_index Am (f q)) as [row|e1]; cbn [bind] in *; [|discriminate].
    rewrite Hc. cbn [bind andb]. rewrite IH.
    destruct (forallb _ pts); reflexivity.
  - cbn [andb]. pose proof (coef_exn _ _ _ _ Hc) as ->.
    unfold coef in Hc.
    destruct (py_index Am (f q)) as [row|e1]; cbn [bind] in *;
      [rewrite Hc|]; cbn [bind]; congruence.
Qed.

(** ** One pass, point by point *)

Ltac fuse :=
  repeat first [ rewrite zipWith_map | rewrite zipWith3_map | rewrite map_map ].

Section Pointwise.
Variable theta : list (list float).
Variable p : Params.
Hypothesis Hpre : precomputed p = true.

Lemma get_affine_pre (x : list float) (rs : list Z) :
  get_affine x theta (set_r p rs) = Ok (A p, rs).
Proof. unfold get_affine. cbn. rewrite Hpre. reflexivity. Qed.

Lemma get_velocity_pts (pts : list fpt) :
  get_velocity (map fx pts) theta (set_r p (map fr pts))
  = if forallb (pt_ok p) pts then Ok (map (v_of p) pts) else Raise IndexError.
Proof.
  unfold get_velocity. rewrite get_affine_pre. cbn [bind].
  unfold cells. rewrite map_map, !take_map.
  change (forallb _ pts) with (forallb (pt_ok p) pts).
  destruct (forallb (pt_ok p) pts); cbn [bind]; [|reflexivity].
  unfold vadd, vmul. fuse. reflexivity.
Qed.

Lemma get_psi_pts (pts : list fpt) :
  get_psi (map fx pts) (map ft pts) theta (set_r p (map fr pts))
  = if forallb (pt_ok p) pts then Ok (map (psi_of p) pts) else Raise IndexError.
Proof.
  unfold get_psi. rewrite get_affine_pre. cbn [bind].
  unfold cells. rewrite map_map, !take_map.
  change (forallb _ pts) with (forallb (pt_ok p) pts).
  destruct (forallb (pt_ok p) pts); cbn [bind]; [|reflexivity].
  unfold psi_branches, vwhere, vadd, vsub, vmul, vdiv. fuse. reflexivity.
Qed.

Lemma get_hit_time_pts (pts : list fpt) :
  get_hit_time (map fx pts) theta (set_r p (map fr pts))
  = if forallb (pt_ok p) pts then Ok (map (thit_of p) pts) else Raise IndexError.
Proof.
  unfold get_hit_time. rewrite get_affine_pre. cbn [bind].
  rewrite get_velocity_pts.
  unfold cells. rewrite map_map, !take_map.
  change (forallb (fun q => coef_ok _ _ _) pts) with (forallb (pt_ok p) pts).
  destruct (forallb (pt_ok p) pts); cbn [bind]; [|reflexivity].
  unfold hit_branches, vwhere, vadd, vsub, vmul, vdiv. fuse. reflexivity.
Qed.
End Pointwise.

Section HopPointwise.
Context {T : Type}.
Variable record : float -> float -> Z -> T.
Variable theta : list (list float).
Variable p : Params.
Hypothesis Hpre : precomputed p = true.

Lemma valid_mask_pts (rs : list Z) (pts : list fpt) :
  valid_mask (set_r p rs) (map fc pts) (map (v_of p) pts) (map (psi_of p) pts)
  = map (valid_of p) pts.
Proof.
  unfold valid_mask, vand. fuse. reflexivity.
Qed.

(** The pass on the state whose active points are [pts]. *)
Lemma hop_body_pts (pts : list fpt) (out : list T) (done : list bool) (cont : Z) :
  hop_body record theta (pack p pts out done cont)
  = if forallb (pt_ok p) pts then
      if forallb (valid_of p) pts
      then Ok (inl (scatter (vnot done) (map (record_of record p) pts) out))
      else if (cont + 1 >? nc p)%Z then Raise BaseException
           else Ok (inr (pack p (map (step_of p) (filter (invalid_of p) pts))
                              (scatter (vnot done) (map (record_of record p) pts) out)
                              (scatter (vnot done) (map (valid_of p) pts) done)
                              (cont + 1)%Z))
    else Raise IndexError.
Proof.
  unfold hop_body, pack. cbn [hx ht hparams hc hout hdone hcont].
  rewrite (get_velocity_pts theta p Hpre), (get_psi_pts theta p Hpre).
  destruct (forallb (pt_ok p) pts) eqn:Hok; cbn [bind]; [|reflexivity].
  rewrite valid_mask_pts, alltrue_map.
  destruct (forallb (valid_of p) pts) eqn:Hall.
  - fuse. reflexivity.
  - unfold vnot. cbn [r set_r set_cache]. rewrite !map_map.
    change (fun x => negb (valid_of p x)) with (invalid_of p).
    rewrite !select_map.
    change (set_r (set_r p (map fr pts)) ?rs) with (set_r p rs).
    rewrite (get_hit_time_pts theta p Hpre).
    rewrite (forallb_filter _ _ _ Hok). cbn [bind].
    cbn [nc set_r set_cache].
    destruct (cont + 1 >? nc p)%Z; [reflexivity|].
    f_equal. f_equal. unfold vsub. fuse. rewrite !select_map.
    reflexivity.
Qed.
End HopPointwise.

(** ** Rules for the cell-hopping loop *)

Section Aligned.
Context {T Y : Type}.
Variables (Inv Inv' : fpt -> Y -> Prop) (Final : T -> Y -> Prop).
Variables (valid : fpt -> bool) (rec : fpt -> T) (step : fpt -> fpt).
Hypothesis Hvalid : forall q y, Inv q y -> valid q = true -> Final (rec q) y.
Hypothesis Hstep : forall q y, Inv q y -> valid q = false -> Inv' (step q) y.

Lemma aligned_pass done out pts ys :
  aligned Inv Final done out pts ys ->
  aligned Inv' Final
          (scatter (vnot done) (map valid pts) done)
          (scatter (vnot done) (map rec pts) out)
          (map step (filter (fun q => negb (valid q)) pts))
          ys.
Proof.
  induction 1 as [| o y done out pts ys Hf _ IH | o q y done out pts ys Hi _ IH].
  - constructor.
  - cbn. constructor; assumption.
  - cbn. destruct (valid q) eqn:Hq; cbn.
    + constructor; [apply Hvalid; assumption | exact IH].
    + constructor; [apply Hstep; assumption | exact IH].
Qed.

Lemma aligned_Forall done out pts ys :
  aligned Inv Final done out pts ys ->
  forall P : fpt -> Prop, (forall q y, Inv q y -> P q) -> Forall P pts.
Proof.
  induction 1; intros P HP; try constructor; eauto.
Qed.

Lemma aligned_no_active done out ys :
  aligned Inv Final done out [] ys -> Forall2 Final out ys.
Proof.
  intros H. remember [] as pts eqn:E.
  induction H; try discriminate; constructor; auto.
Qed.

Lemma aligned_exists_invalid done out pts ys :
  aligned Inv Final done out pts ys ->
  forallb valid pts = false ->
  exists q y, Inv q y /\ valid q = false.
Proof.
  induction 1 as [| o y done out pts ys Hf _ IH | o q y done out pts ys Hi _ IH];
    cbn; intros Hall; try discriminate; auto.
  destruct (valid q) eqn:Hq; cbn in Hall; eauto.
Qed.
End Aligned.

Lemma filter_none {P : Type} (m : P -> bool) (l : list P) :
  forallb m l = true -> filter (fun q => negb (m q)) l = [].
Proof.
  induction l as [|q l IH]; cbn; [reflexivity|].
  intros H. apply andb_prop in H. destruct H as [-> Hl]. cbn. auto.
Qed.

Lemma aligned_init {T Y : Type} (Inv : fpt -> Y -> Prop) (Final : T -> Y -> Prop)
      (blank : T) (pts : list fpt) (ys : list Y) :
  Forall2 Inv pts ys ->
  aligned Inv Final (map (fun _ => false) pts) (map (fun _ => blank) pts) pts ys.
Proof.
  induction 1; cbn; constructor; assumption.
Qed.

Section LoopRules.
Context {T Y : Type}.
Variable record : float -> float -> Z -> T.
Variable theta : list (list float).
Variable p : Params.
Hypothesis Hpre : precomputed p = true.
Variable Inv : Z -> fpt -> Y -> Prop.
Variable Final : T -> Y -> Prop.

(** Partial correctness: what holds of the output when the loop
    returns. *)
Lemma hop_loop_returns :
  (forall cont q y, Inv cont q y -> pt_ok p q = true -> valid_of p q = true ->
                    Final (record_of record p q) y) ->
  (forall cont q y, Inv cont q y -> pt_ok p q = true -> valid_of p q = false ->
                    Inv (cont + 1)%Z (step_of p q) y) ->
  forall fuel pts out done cont ys out',
    aligned (Inv cont) Final done out pts ys ->
    hop_loop record theta fuel (pack p pts out done cont) = Some (Ok out') ->
    Forall2 Final out' ys.
Proof.
  intros Hv Hs. induction fuel as [|fuel IH];
    intros pts out done cont ys out' Hal Hrun; [discriminate|].
  cbn [hop_loop] in Hrun. rewrite (hop_body_pts record theta p Hpre) in Hrun.
  destruct (forallb (pt_ok p) pts) eqn:Hok; [|discriminate].
  rewrite forallb_forall in Hok.
  assert (Hal' : aligned (fun q y => Inv cont q y /\ pt_ok p q = true) Final
                         done out pts ys).
  { clear - Hal Hok. induction Hal; constructor; auto.
    - split; [assumption|]. apply Hok. now left.
    - apply IHHal. intros x Hx. apply Hok. now right. }
  assert (Hpass := aligned_pass
                      (fun q y => Inv cont q y /\ pt_ok p q = true)
                      (Inv (cont + 1)%Z) Final (valid_of p)
                      (record_of record p) (step_of p)
                      (fun q y H => Hv cont q y (proj1 H) (proj2 H))
                      (fun q y H => Hs cont q y (proj1 H) (proj2 H))
                      _ _ _ _ Hal').
  destruct (forallb (valid_of p) pts) eqn:Hall.
  - injection Hrun as <-.
    rewrite (filter_none _ _ Hall) in Hpass.
    apply (aligned_no_active _ _ _ _ _ Hpass).
  - destruct (cont + 1 >? nc p)%Z; [discriminate|].
    apply (IH _ _ _ _ _ _ Hpass Hrun).
Qed.

(** Total correctness: the loop returns when every active point can be
    looked up and a point that is not finalized leaves room under the
    counter. *)
Lemma hop_loop_reaches :
  (forall cont q y, Inv cont q y -> pt_ok p q = true) ->
  (forall cont q y, Inv cont q y -> valid_of p q = true ->
                    Final (record_of record p q) y) ->
  (forall cont q y, Inv cont q y -> valid_of p q = false ->
                    (cont + 1 <= nc p)%Z /\ Inv (cont + 1)%Z (step_of p q) y) ->
  forall fuel pts out done cont ys,
    aligned (Inv cont) Final done out pts ys ->
    (Z.to_nat (nc p - cont) < fuel)%nat ->
    exists out',
      hop_loop record theta fuel (pack p pts out done cont) = Some (Ok out') /\
      Forall2 Final out' ys.
Proof.
  intros Ho Hv Hs. induction fuel as [|fuel IH];
    intros pts out done cont ys Hal Hfuel; [lia|].
  cbn [hop_loop]. rewrite (hop_body_pts record theta p Hpre).
  assert (Hok : forallb (pt_ok p) pts = true).
  { apply forallb_forall. apply Forall_forall.
    apply (aligned_Forall _ _ _ _ _ _ Hal). intros q y. apply Ho. }
  rewrite Hok.
  assert (Hpass := aligned_pass (Inv cont) (Inv (cont + 1)%Z) Final (valid_of p)
                      (record_of record p) (step_of p)
                      (Hv cont) (fun q y Hi Hq => proj2 (Hs cont q y Hi Hq))
                      _ _ _ _ Hal).
  destruct (forallb (valid_of p) pts) eqn:Hall.
  - eexists. split; [reflexivity|].
    rewrite (filter_none _ _ Hall) in Hpass.
    apply (aligned_no_active _ _ _ _ _ Hpass).
  - destruct (aligned_exists_invalid _ _ (valid_of p) _ _ _ _ Hal Hall)
      as (q & y & Hi & Hq).
    destruct (Hs cont q y Hi Hq) as [Hc _].
    destruct (cont + 1 >? nc p)%Z eqn:Hgt.
    + rewrite Z.gtb_ltb, Z.ltb_lt in Hgt. lia.
    + apply IH; [exact Hpass | lia].
Qed.
End LoopRules.

(** ** Setup of a call: batch effect and field resolution *)

Lemma length_concat_rect {T : Type} (n m : nat) (x : list (list T)) :
  rect n m x -> length (concat x) = (n * m)%nat.
Proof.
  intros [Hn Hm]. subst n. induction Hm as [|row x Hr _ IH]; cbn; [reflexivity|].
  rewrite length_app, IH, Hr. reflexivity.
Qed.

Lemma tag_rows_fst {T : Type} (i : nat) (xb : list (list T)) :
  map fst (tag_rows i xb) = concat xb.
Proof.
  revert i. induction xb as [|row xb IH]; intros i; cbn; [reflexivity|].
  rewrite map_app, map_map, IH. cbn. now rewrite map_id.
Qed.

Lemma tag_rows_snd {T : Type} (i n m : nat) (xb : list (list T)) :
  rect n m xb ->
  map snd (tag_rows i xb)
  = flat_map (fun j => repeat (Z.of_nat j) m) (seq i n).
Proof.
  intros [Hn Hm]. subst n. revert i.
  induction Hm as [|row x Hr _ IH]; intros i; cbn; [reflexivity|].
  rewrite map_app, map_map, IH. cbn. f_equal.
  rewrite <- Hr. clear. induction row; cbn; congruence.
Qed.

Lemma tag_rows_range {T : Type} (i : nat) (xb : list (list T)) :
  Forall (fun xr => (Z.of_nat i <= snd xr < Z.of_nat (i + length xb))%Z)
         (tag_rows i xb).
Proof.
  revert i. induction xb as [|row xb IH]; intros i; cbn; [constructor|].
  apply Forall_app. split.
  - apply Forall_forall. intros xr Hin. apply in_map_iff in Hin.
    destruct Hin as (xi & <- & _). cbn. lia.
  - eapply Forall_impl; [|apply IH]. cbn. intros xr. lia.
Qed.

Lemma mapM_length {T U : Type} (f : T -> result U) (l : list T) (l' : list U) :
  mapM f l = Ok l' -> length l' = length l.
Proof.
  revert l'. induction l as [|a l IH]; cbn; intros l' H.
  - injection H as <-. reflexivity.
  - destruct (f a); cbn in H; [|discriminate].
    destruct (mapM f l); cbn in H; [|discriminate].
    injection H as <-. cbn. f_equal. now apply IH.
Qed.

Lemma set_r_self (p : Params) : set_r p (r p) = p.
Proof. destruct p. reflexivity. Qed.

Section Setup.
Variable theta : list (list float).
Variable params : Params.
Variable Am : list (list (float * float)).
Hypothesis Hres : mapM (resolve_row (B params)) theta = Ok Am.

Lemma precompute_affine_resolved (n m : nat) (xb : list (list float)) :
  length theta = n -> n <> O -> rect n m xb ->
  precompute_affine (concat xb) theta params
  = Ok (resolved params Am (map snd (tag_rows 0 xb))).
Proof.
  intros Hn Hn0 Hx. unfold precompute_affine, get_affine.
  cbn [precomputed set_cache B]. rewrite Hn.
  destruct (Nat.eqb_spec n 0) as [|_]; [contradiction|].
  rewrite Hres. cbn [bind]. unfold resolved.
  rewrite (length_concat_rect n m _ Hx), (tag_rows_snd 0 n m _ Hx).
  rewrite Nat.mul_comm, Nat.div_mul by exact Hn0. reflexivity.
Qed.

Lemma hop_init_pack {T : Type} (blank : T) (xb : list (list float)) :
  let p := resolved params Am (map snd (tag_rows 0 xb)) in
  hop_init blank (concat xb) p
  = pack p (init_pts p xb)
         (map (fun _ => blank) (init_pts p xb))
         (map (fun _ => false) (init_pts p xb)) 0.
Proof.
  cbv zeta. unfold hop_init, pack, init_pts, cells.
  rewrite !map_map. cbn [fx ft fr fc init_pt].
  rewrite <- (tag_rows_fst 0 xb) at 1 2 3 4 5.
  rewrite !map_map. reflexivity.
Qed.
End Setup.

(** ** Points with real coordinates in a field with real coefficients *)

Lemma py_index_ok {T : Type} (l : list T) (i : Z) (d : T) :
  (0 <= i < Z.of_nat (length l))%Z ->
  py_index l i = Ok (nth (Z.to_nat i) l d).
Proof.
  intros Hi. unfold py_index.
  destruct (Z.ltb_spec i 0) as [|_]; [lia|].
  destruct (Z.leb_spec 0 i) as [_|]; [|lia].
  destruct (Z.ltb_spec i (Z.of_nat (length l))) as [_|]; [|lia].
  cbn [andb].
  destruct (nth_error l (Z.to_nat i)) as [a|] eqn:E.
  - f_equal. symmetry. apply nth_error_nth. exact E.
  - apply nth_error_None in E. lia.
Qed.

Lemma coef_fin_field (AR : list (list (R * R))) (ri ci : Z) :
  (0 <= ri < Z.of_nat (length AR))%Z ->
  (0 <= ci < Z.of_nat (length (nth (Z.to_nat ri) AR [])))%Z ->
  coef (fin_field AR) ri ci = Ok (fin_pair (coefR AR ri ci)).
Proof.
  intros Hr Hc. unfold coef, fin_field, coefR.
  rewrite (py_index_ok _ ri []) by (rewrite length_map; exact Hr).
  cbn [bind].
  change [] with (map fin_pair []) at 1. rewrite map_nth.
  rewrite (py_index_ok _ ci (fin_pair (0, 0))) by (rewrite length_map; exact Hc).
  rewrite map_nth. reflexivity.
Qed.

Lemma psi_k_fin (ab : R * R) (x t : R) :
  psi_k (fin_pair ab) (Fin x) (Fin t) = Fin (psiR ab x t).
Proof.
  destruct ab as [a b]. unfold psi_k, psiR, fin_pair. cbn [fst snd].
  cbn [feq]. unfold Req_bool.
  destruct (Req_dec_T a 0) as [Ha | Ha]; cbn [fwhere].
  - reflexivity.
  - rewrite fdiv_Fin by exact Ha. reflexivity.
Qed.

Lemma vel_k_fin (ab : R * R) (x : R) :
  vel_k (fin_pair ab) (Fin x) = Fin (velR ab x).
Proof. reflexivity. Qed.

Lemma fclip_fin (a lo hi : R) :
  lo <= hi ->
  fclip (Fin a) (Fin lo) (Fin hi) = Fin (Rmin (Rmax a lo) hi).
Proof.
  intros Hlh. unfold fclip, fmaximum, fminimum, fle, Rleb.
  destruct (Rle_dec a lo) as [H1 | H1].
  - rewrite Rmax_right by exact H1.
    destruct (Rle_dec lo hi); [|contradiction].
    now rewrite Rmin_left.
  - rewrite Rmax_left by lra.
    destruct (Rle_dec a hi) as [H2 | H2].
    + now rewrite Rmin_left.
    + rewrite Rmin_right by lra. reflexivity.
Qed.

Section RealPoints.
Variable p : Params.
Variable AR : list (list (R * R)).
Hypothesis HA : A p = fin_field AR.
Hypothesis Hrows : Forall (fun row => Z.of_nat (length row) = nc p) AR.
Hypothesis Hnc : (0 < nc p)%Z.
Hypothesis Hdom : xmin p < xmax p.

Lemma get_cell_cellR (x : R) : get_cell (Fin x) p = cellR p x.
Proof. apply get_cell_Fin. lra. Qed.

Lemma cellR_range (x : R) : (0 <= cellR p x <= nc p - 1)%Z.
Proof. unfold cellR. lia. Qed.

Lemma left_boundary_R (c : Z) : left_boundary (ofZ c) p = Fin (leftR p c).
Proof. unfold ofZ. rewrite left_boundary_Fin by lia. reflexivity. Qed.

Lemma right_boundary_R (c : Z) : right_boundary (ofZ c) p = Fin (rightR p c).
Proof. unfold ofZ. rewrite right_boundary_Fin by lia. reflexivity. Qed.

Lemma coef_real (ri : Z) (x : R) :
  (0 <= ri < Z.of_nat (length AR))%Z ->
  coef (A p) ri (get_cell (Fin x) p) = Ok (fin_pair (abR p AR ri x)).
Proof.
  intros Hr. rewrite HA, get_cell_cellR. apply coef_fin_field; [exact Hr|].
  assert (Hin : In (nth (Z.to_nat ri) AR []) AR) by (apply nth_In; lia).
  rewrite Forall_forall in Hrows. rewrite (Hrows _ Hin).
  pose proof (cellR_range x). lia.
Qed.

Section OnePoint.
Variable q : fpt.
Variable x : R.
Hypothesis Hx : fx q = Fin x.
Hypothesis Hr : (0 <= fr q < Z.of_nat (length AR))%Z.

Lemma pt_ok_real : pt_ok p q = true.
Proof. unfold pt_ok, coef_ok. rewrite Hx, coef_real by exact Hr. reflexivity. Qed.

Lemma ab_of_real : ab_of p q = fin_pair (abR p AR (fr q) x).
Proof. unfold ab_of, coefD. rewrite Hx, coef_real by exact Hr. reflexivity. Qed.

Lemma v_of_real : v_of p q = Fin (velR (abR p AR (fr q) x) x).
Proof. unfold v_of. rewrite ab_of_real, Hx. reflexivity. Qed.

Lemma psi_of_real (t : R) :
  ft q = Fin t -> psi_of p q = Fin (psiR (abR p AR (fr q) x) x t).
Proof.
  intros Ht. unfold psi_of. rewrite ab_of_real, Hx, Ht. apply psi_k_fin.
Qed.

Lemma valid_of_real (t : R) :
  ft q = Fin t ->
  valid_of p q
  = (Rleb (leftR p (fc q)) (psiR (abR p AR (fr q) x) x t)
     && Rleb (psiR (abR p AR (fr q) x) x t) (rightR p (fc q)))
    || (Rleb 0 (velR (abR p AR (fr q) x) x) && (fc q =? nc p - 1)%Z)
    || (Rleb (velR (abR p AR (fr q) x) x) 0 && (fc q =? 0)%Z).
Proof.
  intros Ht. unfold valid_of.
  rewrite (psi_of_real t Ht), v_of_real, left_boundary_R, right_boundary_R.
  reflexivity.
Qed.

Lemma xc_of_real :
  xc_of p q = Fin (if Rleb 0 (velR (abR p AR (fr q) x) x)
                   then rightR p (cellR p x) else leftR p (cellR p x)).
Proof.
  unfold xc_of. rewrite v_of_real, Hx, get_cell_cellR.
  rewrite left_boundary_R, right_boundary_R. unfold fge, fle, fwhere.
  destruct (Rleb 0 _); reflexivity.
Qed.
End OnePoint.
End RealPoints.

(** ** Cells of real positions *)

Section CellsReal.
Variable p : Params.
Hypothesis Hnc : (0 < nc p)%Z.
Hypothesis Hdom : xmin p < xmax p.

Let w := xmax p - xmin p.
Let n := IZR (nc p).

Lemma width_pos : 0 < w / n.
Proof.
  apply Rdiv_lt_0_compat; [unfold w; lra | unfold n; apply IZR_lt; exact Hnc].
Qed.

(** The position scaled to cell units. *)
Lemma scaled_position (x : R) (c : R) :
  (x - xmin p) / (xmax p - xmin p) * IZR (nc p) = c <->
  x = xmin p + c * (w / n).
Proof.
  fold w n.
  assert (Hw : 0 < w) by (unfold w; lra).
  assert (Hn : 0 < n) by (unfold n; apply IZR_lt; exact Hnc).
  split; intros H.
  - rewrite <- H. field. lra.
  - rewrite H. field. lra.
Qed.

Lemma leftR_alt (c : Z) : leftR p c = xmin p + IZR c * (w / n) - eps_R.
Proof. unfold leftR, w, n, Rdiv. ring. Qed.

Lemma rightR_alt (c : Z) : rightR p c = xmin p + (IZR c + 1) * (w / n) + eps_R.
Proof. unfold rightR, w, n, Rdiv. ring. Qed.

Lemma cellR_of_scaled (x : R) (u : R) :
  x = xmin p + u * (w / n) ->
  cellR p x = Z.min (Z.max (Zfloor u) 0) (nc p - 1).
Proof.
  intros H. unfold cellR. apply scaled_position in H. rewrite H. reflexivity.
Qed.

Lemma scaled_exists (x : R) : exists u, x = xmin p + u * (w / n).
Proof.
  exists ((x - xmin p) / (xmax p - xmin p) * IZR (nc p)).
  now apply scaled_position.
Qed.

(** A cell below the last one ends right of the position; a cell above
    the first one starts left of it. *)
Lemma cellR_right (x : R) :
  (cellR p x < nc p - 1)%Z -> x < xmin p + (IZR (cellR p x) + 1) * (w / n).
Proof.
  destruct (scaled_exists x) as [u Hu]. rewrite (cellR_of_scaled x u Hu).
  intros Hc. pose proof (Zfloor_bound u) as [_ Hf]. pose proof width_pos.
  assert (Hle : (Zfloor u <= Z.min (Z.max (Zfloor u) 0) (nc p - 1))%Z) by lia.
  apply IZR_le in Hle. rewrite Hu. nra.
Qed.

Lemma cellR_left (x : R) :
  (0 < cellR p x)%Z -> xmin p + IZR (cellR p x) * (w / n) <= x.
Proof.
  destruct (scaled_exists x) as [u Hu]. rewrite (cellR_of_scaled x u Hu).
  intros Hc. pose proof (Zfloor_bound u) as [Hf _]. pose proof width_pos.
  assert (Hle : (Z.min (Z.max (Zfloor u) 0) (nc p - 1) <= Zfloor u)%Z) by lia.
  apply IZR_le in Hle. rewrite Hu. nra.
Qed.

(** A position of the domain lies in its cell. *)
Lemma cellR_contains (x : R) :
  xmin p <= x <= xmax p ->
  leftR p (cellR p x) <= x <= rightR p (cellR p x).
Proof.
  intros Hx. unfold cellR. rewrite <- (get_cell_Fin p x) by lra.
  destruct (cell_bounds p x Hdom Hnc Hx) as (_ & Hl & Hr).
  pose proof eps_R_pos. unfold leftR, rightR. lra.
Qed.

Lemma boundaries_order (c : Z) : leftR p c <= rightR p c.
Proof.
  rewrite leftR_alt, rightR_alt. pose proof eps_R_pos. pose proof width_pos. lra.
Qed.

Hypothesis Heps : eps_R < w / n.

(** The widened right boundary of a cell lies in the next cell, the
    widened left boundary in the previous one. *)
Lemma cellR_rightR (c : Z) :
  (0 <= c)%Z -> (c + 1 <= nc p - 1)%Z -> cellR p (rightR p c) = (c + 1)%Z.
Proof.
  intros H0 H1. pose proof eps_R_pos as He. pose proof width_pos as Hw.
  rewrite (cellR_of_scaled _ (IZR (c + 1) + eps_R / (w / n))).
  - rewrite (Zfloor_eq (c + 1)); [lia|].
    assert (0 <= eps_R / (w / n) < 1); [|lra].
    split.
    + apply Rlt_le, Rdiv_lt_0_compat; assumption.
    + apply Rmult_lt_reg_r with (w / n); [exact Hw|].
      unfold Rdiv at 1. rewrite Rmult_assoc, Rinv_l by lra. lra.
  - rewrite rightR_alt, plus_IZR. field_simplify_eq; [ring|].
    unfold w, n in *. split.
    + apply not_0_IZR. lia.
    + lra.
Qed.

Lemma cellR_leftR (c : Z) :
  (1 <= c)%Z -> (c <= nc p - 1)%Z -> cellR p (leftR p c) = (c - 1)%Z.
Proof.
  intros H0 H1. pose proof eps_R_pos as He. pose proof width_pos as Hw.
  rewrite (cellR_of_scaled _ (IZR (c - 1) + (1 - eps_R / (w / n)))).
  - rewrite (Zfloor_eq (c - 1)); [lia|].
    assert (0 < eps_R / (w / n) < 1); [|lra].
    split.
    + apply Rdiv_lt_0_compat; assumption.
    + apply Rmult_lt_reg_r with (w / n); [exact Hw|].
      unfold Rdiv at 1. rewrite Rmult_assoc, Rinv_l by lra. lra.
  - rewrite leftR_alt, minus_IZR. field_simplify_eq; [ring|].
    unfold w, n in *. split.
    + apply not_0_IZR. lia.
    + lra.
Qed.

End CellsReal.

(** ** Constant fields *)

Lemma psiR_const (b x t : R) : psiR (0, b) x t = x + t * b.
Proof.
  unfold psiR. cbn [fst snd]. destruct (Req_dec_T 0 0); [reflexivity | lra].
Qed.

Lemma hit_k_const (b x xc : R) :
  b <> 0 -> hit_k (fin_pair (0, b)) (Fin x) (Fin xc) = Fin ((xc - x) / b).
Proof.
  intros Hb. unfold hit_k, fin_pair. cbn [fst snd feq].
  rewrite Req_bool_true by reflexivity. cbn [fwhere].
  rewrite fsub_Fin, fdiv_Fin by exact Hb. reflexivity.
Qed.

Section ConstantField.
Variable p : Params.
Variable AR : list (list (R * R)).
Variable b : R.
Hypothesis HA : A p = fin_field AR.
Hypothesis Hrows : Forall (fun row => Z.of_nat (length row) = nc p) AR.
Hypothesis Hnc : (0 < nc p)%Z.
Hypothesis Hdom : xmin p < xmax p.
Hypothesis Hconst :
  forall ri x, (0 <= ri < Z.of_nat (length AR))%Z -> abR p AR ri x = (0, b).

Lemma valid_of_const (q : fpt) (x t : R) :
  fx q = Fin x -> ft q = Fin t -> (0 <= fr q < Z.of_nat (length AR))%Z ->
  valid_of p q
  = (Rleb (leftR p (fc q)) (x + t * b) && Rleb (x + t * b) (rightR p (fc q)))
    || (Rleb 0 b && (fc q =? nc p - 1)%Z)
    || (Rleb b 0 && (fc q =? 0)%Z).
Proof.
  intros Hx Ht Hr.
  rewrite (valid_of_real p AR HA Hrows Hnc Hdom q x Hx Hr t Ht).
  rewrite (Hconst _ _ Hr), psiR_const. unfold velR. cbn [fst snd].
  replace (0 * x + b) with b by ring. reflexivity.
Qed.

Lemma record_of_const {T : Type} (record : float -> float -> Z -> T)
      (q : fpt) (x t : R) :
  fx q = Fin x -> ft q = Fin t -> (0 <= fr q < Z.of_nat (length AR))%Z ->
  record_of record p q = record (Fin (x + t * b)) (Fin t) (fc q).
Proof.
  intros Hx Ht Hr. unfold record_of.
  rewrite (psi_of_real p AR HA Hrows Hnc Hdom q x Hx Hr t Ht).
  rewrite (Hconst _ _ Hr), psiR_const, Ht. reflexivity.
Qed.

(** The point after a crossing in a constant field that moves. *)
Lemma step_of_const (q : fpt) (x t : R) :
  fx q = Fin x -> ft q = Fin t -> (0 <= fr q < Z.of_nat (length AR))%Z ->
  b <> 0 ->
  step_of p q
  = mkFpt (Fin (Rmin (Rmax (x + t * b) (leftR p (fc q))) (rightR p (fc q))))
          (Fin (t - ((if Rleb 0 b then rightR p (cellR p x)
                      else leftR p (cellR p x)) - x) / b))
          (fr q)
          (if Rleb 0 b then (fc q + 1)%Z else (fc q - 1)%Z).
Proof.
  intros Hx Ht Hr Hb. unfold step_of, thit_of.
  rewrite (psi_of_real p AR HA Hrows Hnc Hdom q x Hx Hr t Ht).
  rewrite (v_of_real p AR HA Hrows Hnc Hdom q x Hx Hr).
  rewrite (ab_of_real p AR HA Hrows Hnc Hdom q x Hx Hr).
  rewrite (xc_of_real p AR HA Hrows Hnc Hdom q x Hx Hr).
  rewrite (left_boundary_R p Hnc), (right_boundary_R p Hnc).
  rewrite (Hconst _ _ Hr), psiR_const, Hx, Ht.
  rewrite fclip_fin by apply (boundaries_order p Hnc Hdom).
  unfold velR, fge, fle. cbn [fst snd].
  replace (0 * x + b) with b by ring.
  rewrite hit_k_const by exact Hb. reflexivity.
Qed.

(** *** The zero field leaves every real point where it is *)

Lemma still_valid (cont : Z) (q : fpt) (x0 : R) :
  b = 0 -> still_inv p AR cont q x0 -> valid_of p q = true.
Proof.
  intros Hb (Hx & Ht & Hc & Hr).
  rewrite (valid_of_const q x0 1 Hx Ht Hr). subst b.
  rewrite (Rleb_true 0 0) by lra. cbn [andb].
  destruct (Z.eqb_spec (fc q) (nc p - 1)) as [|Hlast];
    [now rewrite orb_true_r|].
  destruct (Z.eqb_spec (fc q) 0) as [|Hfirst]; [now rewrite orb_true_r|].
  pose proof (cellR_range p Hnc x0) as Hrange.
  pose proof (cellR_right p Hnc Hdom x0) as Hright.
  pose proof (cellR_left p Hnc Hdom x0) as Hleft.
  rewrite <- Hc in *.
  specialize (Hright ltac:(lia)). specialize (Hleft ltac:(lia)).
  pose proof eps_R_pos.
  rewrite (leftR_alt p), (rightR_alt p).
  rewrite !Rleb_true by lra. reflexivity.
Qed.

(** *** A constant field translates every point of the domain *)

Hypothesis Heps : eps_R < (xmax p - xmin p) / IZR (nc p).

Lemma drift_ok (cont : Z) (q : fpt) (x0 : R) :
  drift_inv p AR b cont q x0 -> pt_ok p q = true.
Proof.
  intros (x & t & Hx & _ & Hr & _).
  apply (pt_ok_real p AR HA Hrows Hnc Hdom q x Hx Hr).
Qed.

Lemma drift_valid {T : Type} (record : float -> float -> Z -> T)
      (cont : Z) (q : fpt) (x0 : R) :
  drift_inv p AR b cont q x0 ->
  exists t, record_of record p q = record (Fin (x0 + b)) (Fin t) (fc q).
Proof.
  intros (x & t & Hx & Ht & Hr & Hsum & _).
  exists t. rewrite (record_of_const record q x t Hx Ht Hr), Hsum. reflexivity.
Qed.

Lemma drift_step (cont : Z) (q : fpt) (x0 : R) :
  drift_inv p AR b cont q x0 -> valid_of p q = false ->
  (cont + 1 <= nc p)%Z /\ drift_inv p AR b (cont + 1) (step_of p q) x0.
Proof.
  intros (x & t & Hx & Ht & Hr & Hsum & Ht0 & Hc & [Hl Hrt] & Hup & Hdown) Hinv.
  rewrite (valid_of_const q x t Hx Ht Hr) in Hinv.
  apply orb_false_elim in Hinv. destruct Hinv as [Hinv H3].
  apply orb_false_elim in Hinv. destruct Hinv as [H1 H2].
  pose proof (cellR_range p Hnc x) as Hrange. rewrite <- Hc in Hrange.
  pose proof eps_R_pos as He.
  pose proof (boundaries_order p Hnc Hdom (fc q)) as Hord.
  assert (Hstep :
    step_of p q
    = mkFpt (Fin (Rmin (Rmax (x + t * b) (leftR p (fc q))) (rightR p (fc q))))
            (ft q - thit_of p q)%fl (fr q)
            (if Rleb 0 b then (fc q + 1)%Z else (fc q - 1)%Z)).
  { unfold step_of.
    rewrite (psi_of_real p AR HA Hrows Hnc Hdom q x Hx Hr t Ht).
    rewrite (v_of_real p AR HA Hrows Hnc Hdom q x Hx Hr).
    rewrite (left_boundary_R p Hnc), (right_boundary_R p Hnc).
    rewrite (Hconst _ _ Hr), psiR_const, fclip_fin by exact Hord.
    unfold velR, fge, fle. cbn [fst snd].
    replace (0 * x + b) with b by ring. reflexivity. }
  assert (Hthit : b <> 0 ->
    thit_of p q
    = Fin (((if Rleb 0 b then rightR p (fc q) else leftR p (fc q)) - x) / b)).
  { intros Hb. unfold thit_of.
    rewrite (ab_of_real p AR HA Hrows Hnc Hdom q x Hx Hr).
    rewrite (xc_of_real p AR HA Hrows Hnc Hdom q x Hx Hr).
    rewrite (Hconst _ _ Hr), Hx, <- Hc. unfold velR. cbn [fst snd].
    replace (0 * x + b) with b by ring.
    apply hit_k_const. exact Hb. }
  destruct (Rtotal_order b 0) as [Hb | [Hb | Hb]].
  - (* leftward *)
    rewrite (Rleb_false 0 b) in * by lra. rewrite (Rleb_true b 0) in H3 by lra.
    cbn [andb] in H3. apply Z.eqb_neq in H3.
    assert (Hpsi : x + t * b < leftR p (fc q)).
    { apply andb_false_elim in H1. destruct H1 as [H1 | H1].
      - now apply Rleb_false_iff in H1.
      - apply Rleb_false_iff in H1. nra. }
    specialize (Hdown Hb). split; [lia|].
    rewrite Hstep, Hthit, Ht by lra.
    exists (leftR p (fc q)), (t - (leftR p (fc q) - x) / b).
    cbn [fx ft fr fc]. repeat split.
    + rewrite Rmax_right, Rmin_left by lra. reflexivity.
    + exact (proj1 Hr).
    + exact (proj2 Hr).
    + rewrite <- Hsum. field. lra.
    + assert (Hq : (leftR p (fc q) - x) / b <= t); [|lra].
      apply Rmult_le_reg_r with (- b); [lra|].
      replace ((leftR p (fc q) - x) / b * - b) with (x - leftR p (fc q))
        by (field; lra).
      nra.
    + symmetry. apply (cellR_leftR p Hnc Hdom Heps); lia.
    + rewrite !(leftR_alt p), minus_IZR.
      pose proof (width_pos p Hnc Hdom). lra.
    + rewrite (leftR_alt p), (rightR_alt p), minus_IZR. lra.
    + intros; lra.
    + intros _. lia.
  - (* no motion *)
    rewrite Hb, Rmult_0_r, Rplus_0_r in H1.
    rewrite !Rleb_true in H1 by lra. discriminate.
  - (* rightward *)
    rewrite (Rleb_true 0 b) in * by lra.
    cbn [andb] in H2. apply Z.eqb_neq in H2.
    assert (Hpsi : rightR p (fc q) < x + t * b).
    { apply andb_false_elim in H1. destruct H1 as [H1 | H1].
      - apply Rleb_false_iff in H1. nra.
      - now apply Rleb_false_iff in H1. }
    specialize (Hup Hb). split; [lia|].
    rewrite Hstep, Hthit, Ht by lra.
    exists (rightR p (fc q)), (t - (rightR p (fc q) - x) / b).
    cbn [fx ft fr fc]. repeat split.
    + rewrite Rmax_left, Rmin_right by lra. reflexivity.
    + exact (proj1 Hr).
    + exact (proj2 Hr).
    + rewrite <- Hsum. field. lra.
    + assert (Hq : (rightR p (fc q) - x) / b <= t); [|lra].
      apply Rmult_le_reg_r with b; [lra|].
      replace ((rightR p (fc q) - x) / b * b) with (rightR p (fc q) - x)
        by (field; lra).
      nra.
    + symmetry. apply (cellR_rightR p Hnc Hdom Heps); lia.
    + rewrite (leftR_alt p), (rightR_alt p), plus_IZR. lra.
    + rewrite !(rightR_alt p), plus_IZR.
      pose proof (width_pos p Hnc Hdom). lra.
    + intros _. lia.
    + intros; lra.
Qed.
End ConstantField.

(** ** From the loop to the call *)

Lemma chunks_concat {T : Type} (n m : nat) (xb : list (list T)) :
  rect n m xb -> chunks m n (concat xb) = xb.
Proof.
  intros [Hn Hm]. subst n. induction Hm as [|row xb Hr _ IH]; cbn; [reflexivity|].
  rewrite <- Hr, firstn_app, Nat.sub_diag, firstn_all, firstn_O, app_nil_r.
  rewrite skipn_app, Nat.sub_diag, skipn_all, skipn_O. cbn. rewrite Hr.
  f_equal. exact IH.
Qed.

Lemma reshape_rows_concat {T : Type} (n m : nat) (xb : list (list T)) :
  n <> O -> rect n m xb -> reshape_rows n (concat xb) = Ok xb.
Proof.
  intros Hn Hx. unfold reshape_rows.
  destruct (Nat.eqb_spec n 0) as [|_]; [contradiction|].
  rewrite (length_concat_rect n m xb Hx).
  rewrite Nat.mul_comm, Nat.Div0.mod_mul, Nat.div_mul by exact Hn. cbn.
  rewrite (chunks_concat n m xb Hx). reflexivity.
Qed.

Lemma rect_map {T U : Type} (f : T -> U) (n m : nat) (xb : list (list T)) :
  rect n m xb -> rect n m (map (map f) xb).
Proof.
  intros [Hn Hm]. split; [now rewrite length_map|].
  apply Forall_map. eapply Forall_impl; [|exact Hm].
  cbn. intros row Hr. now rewrite length_map.
Qed.

Lemma tag_rows_map {T U : Type} (f : T -> U) (i : nat) (xb : list (list T)) :
  tag_rows i (map (map f) xb)
  = map (fun xr => (f (fst xr), snd xr)) (tag_rows i xb).
Proof.
  revert i. induction xb as [|row xb IH]; intros i; cbn; [reflexivity|].
  rewrite map_app, !map_map, IH. reflexivity.
Qed.

Lemma Forall2_eq_map {T Y : Type} (g : Y -> T) (out : list T) (ys : list Y) :
  Forall2 (fun o y => o = g y) out ys -> out = map g ys.
Proof. induction 1; cbn; congruence. Qed.

Lemma tag_rows_In_fst {T : Type} (P : T -> Prop) (i : nat) (xb : list (list T)) :
  Forall (Forall P) xb -> Forall (fun xr => P (fst xr)) (tag_rows i xb).
Proof.
  intros H. apply Forall_forall. intros xr Hin.
  assert (Hc : In (fst xr) (concat xb)).
  { rewrite <- (tag_rows_fst i xb). now apply in_map. }
  apply in_concat in Hc. destruct Hc as (row & Hrow & Hx).
  rewrite Forall_forall in H. specialize (H row Hrow).
  rewrite Forall_forall in H. now apply H.
Qed.

Lemma Forall2_map_same {P T Y : Type} (R : T -> Y -> Prop)
      (f : P -> T) (g : P -> Y) (l : list P) :
  Forall (fun a => R (f a) (g a)) l -> Forall2 R (map f l) (map g l).
Proof. induction 1; cbn; constructor; assumption. Qed.

Section IntegrateRule.
Variable theta : list (list float).
Variable params : Params.
Variable AR : list (list (R * R)).
Variables n m : nat.
Variable xs xsb : list (list R).
Hypothesis Hres : mapM (resolve_row (B params)) theta = Ok (fin_field AR).
Hypothesis Hn : length theta = n.
Hypothesis Hn0 : n <> O.
Hypothesis Hbc : broadcast_to (fin_rows xs) n = Ok (fin_rows xsb).
Hypothesis Hrect : rect n m xsb.

(** The parameter object and the active points when the loop starts. *)
Let p' : Params :=
  resolved params (fin_field AR) (map snd (tag_rows 0 (fin_rows xsb))).

Lemma resolved_length : length AR = n.
Proof.
  apply mapM_length in Hres. unfold fin_field in Hres.
  rewrite length_map in Hres. congruence.
Qed.

Lemma init_pts_real :
  init_pts p' (fin_rows xsb)
  = map (fun xr => mkFpt (Fin (fst xr)) (Fin 1) (snd xr)
                         (get_cell (Fin (fst xr)) p'))
        (tag_rows 0 xsb).
Proof.
  unfold init_pts, fin_rows. rewrite tag_rows_map, map_map. reflexivity.
Qed.

(** A call returns [g] of every start position as soon as an invariant
    of the active points yields [g] at every finalization and leaves
    room under the counter at every crossing. *)
Lemma integrate_closed_form_rule
      (Inv : Z -> fpt -> R -> Prop) (g : R -> float) (fuel : nat) :
  (forall xr, In xr (tag_rows 0 xsb) ->
              (0 <= snd xr < Z.of_nat n)%Z ->
              Inv 0%Z (mkFpt (Fin (fst xr)) (Fin 1) (snd xr)
                             (get_cell (Fin (fst xr)) p'))
                  (fst xr)) ->
  (forall cont q y, Inv cont q y -> pt_ok p' q = true) ->
  (forall cont q y, Inv cont q y -> valid_of p' q = true -> psi_of p' q = g y) ->
  (forall cont q y, Inv cont q y -> valid_of p' q = false ->
                    (cont + 1 <= nc params)%Z /\
                    Inv (cont + 1)%Z (step_of p' q) y) ->
  (Z.to_nat (nc params) < fuel)%nat ->
  integrate_closed_form fuel (fin_rows xs) theta params
  = Some (Ok (map (map g) xsb)).
Proof.
  intros Hinit Hok Hvalid Hstep Hfuel.
  unfold integrate_closed_form, hop_run, batch_effect.
  rewrite Hn, Hbc. cbn [bind obind].
  rewrite (precompute_affine_resolved theta params _ Hres n m)
    by (try apply rect_map; assumption).
  cbn [obind]. rewrite hop_init_pack. fold p'.
  destruct (hop_loop_reaches (fun psi _ _ => psi) theta p' eq_refl Inv
              (fun o y => o = g y) Hok Hvalid Hstep fuel
              (init_pts p' (fin_rows xsb))
              (map (fun _ => Fin 0) (init_pts p' (fin_rows xsb)))
              (map (fun _ => false) (init_pts p' (fin_rows xsb)))
              0%Z (concat xsb))
    as (out' & Hrun & Hout).
  - apply aligned_init. rewrite init_pts_real, <- (tag_rows_fst 0 xsb).
    apply Forall2_map_same. apply Forall_forall. intros xr Hin.
    apply Hinit; [exact Hin|].
    pose proof (tag_rows_range 0 xsb) as Hrange.
    rewrite Forall_forall in Hrange. specialize (Hrange xr Hin).
    destruct Hrect as [Hlen _]. rewrite Hlen in Hrange. cbn in Hrange. lia.
  - cbn. lia.
  - rewrite Hrun. cbn [obind]. f_equal.
    apply Forall2_eq_map in Hout. rewrite Hout, concat_map.
    apply (reshape_rows_concat n m); [exact Hn0|].
    apply rect_map. exact Hrect.
Qed.
End IntegrateRule.

(** ** The zero parameter vector resolves to the zero field *)

Lemma fold_zero_products (row : list R) (d : nat) (acc : R) :
  fold_left fadd (zipWith fmul (map Fin row) (repeat (Fin 0) d)) (Fin acc)
  = Fin acc.
Proof.
  revert d acc. induction row as [|a row IH]; intros d acc; [reflexivity|].
  destruct d as [|d]; [reflexivity|]. cbn. rewrite IH. f_equal. ring.
Qed.

Lemma dot_zero (row : list R) (d : nat) :
  length row = d -> dot (map Fin row) (repeat (Fin 0) d) = Ok (Fin 0).
Proof.
  intros Hd. unfold dot. rewrite length_map, repeat_length, Hd, Nat.eqb_refl.
  now rewrite fold_zero_products.
Qed.

Lemma mapM_const {T U : Type} (f : T -> result U) (u : U) (l : list T) :
  Forall (fun a => f a = Ok u) l -> mapM f l = Ok (repeat u (length l)).
Proof.
  induction 1 as [|a l Ha _ IH]; cbn; [reflexivity|].
  rewrite Ha, IH. reflexivity.
Qed.

Lemma pairs_repeat (u : float) (k : nat) :
  pairs (repeat u (2 * k)) = Ok (repeat (u, u) k).
Proof.
  induction k as [|k IH]; [reflexivity|].
  replace (2 * S k)%nat with (S (S (2 * k))) by lia. cbn [repeat pairs].
  rewrite IH. reflexivity.
Qed.

Lemma resolve_zero_theta (Bm : list (list R)) (k d n : nat) :
  rect (2 * k) d Bm ->
  mapM (resolve_row (fin_rows Bm)) (repeat (repeat (Fin 0) d) n)
  = Ok (fin_field (repeat (repeat (0, 0) k) n)).
Proof.
  intros [Hlen Hrows].
  assert (Hrow : resolve_row (fin_rows Bm) (repeat (Fin 0) d)
                 = Ok (map fin_pair (repeat (0, 0) k))).
  { unfold resolve_row, fin_rows.
    rewrite (mapM_const _ (Fin 0)).
    - rewrite length_map, Hlen. cbn [bind]. rewrite pairs_repeat, map_repeat.
      reflexivity.
    - apply Forall_map. eapply Forall_impl; [|exact Hrows].
      cbn. intros row Hr. now apply dot_zero. }
  rewrite (mapM_const _ (map fin_pair (repeat (0, 0) k))).
  - rewrite repeat_length. unfold fin_field. now rewrite !map_repeat.
  - apply Forall_forall. intros th Hin. apply repeat_spec in Hin. now subst th.
Qed.

(** ** Broadcast of a real batch *)

Lemma fin_rows_inj (a b : list (list R)) : fin_rows a = fin_rows b -> a = b.
Proof.
  unfold fin_rows. revert b. induction a as [|ra a IH]; intros [|rb b] H;
    try discriminate; [reflexivity|].
  cbn in H. injection H as Hr Ht. f_equal; [|now apply IH].
  clear - Hr. revert rb Hr. induction ra as [|u ra IH]; intros [|v rb] H;
    try discriminate; [reflexivity|].
  cbn in H. injection H as Hu Ht. f_equal; [exact Hu | now apply IH].
Qed.

Lemma broadcast_to_real (P : R -> Prop) (xs xsb : list (list R)) (n : nat) :
  broadcast_to (fin_rows xs) n = Ok (fin_rows xsb) ->
  Forall (Forall P) xs -> Forall (Forall P) xsb.
Proof.
  intros Hbc HP.
  assert (Hcases : xsb = xs \/ exists row, xs = [row] /\ xsb = repeat row n).
  { unfold broadcast_to in Hbc.
    destruct xs as [|r1 [|r2 xs']]; cbn [fin_rows map] in Hbc.
    - destruct (Nat.eqb _ n); [|discriminate].
      injection Hbc as Hbc. left. symmetry. now apply fin_rows_inj.
    - right. exists r1. split; [reflexivity|].
      injection Hbc as Hbc. apply fin_rows_inj.
      unfold fin_rows. now rewrite map_repeat.
    - destruct (Nat.eqb _ n); [|discriminate].
      injection Hbc as Hbc. left. symmetry. now apply fin_rows_inj. }
  destruct Hcases as [-> | (row & -> & ->)]; [exact HP|].
  apply Forall_forall. intros r' Hin. apply repeat_spec in Hin. subst r'.
  now inversion HP.
Qed.

Lemma nth_repeat_in {T : Type} (a d : T) (i n : nat) :
  (i < n)%nat -> nth i (repeat a n) d = a.
Proof.
  revert i. induction n as [|n IH]; intros [|i] H; cbn; try lia; auto.
  apply IH. lia.
Qed.

(** ** C8 *)

Section Translation.
Variable params : Params.
Variable theta : list (list float).
Variables xs xsb : list (list R).
Variables n m : nat.
Variable b : R.
Hypothesis Hdom : xmin params < xmax params.
Hypothesis Hnc : (0 < nc params)%Z.
Hypothesis Hn : length theta = n.
Hypothesis Hn0 : n <> O.
Hypothesis Hbc : broadcast_to (fin_rows xs) n = Ok (fin_rows xsb).
Hypothesis Hrect : rect n m xsb.

Let AR : list (list (R * R)) := repeat (repeat (0, b) (Z.to_nat (nc params))) n.
Hypothesis Hres : mapM (resolve_row (B params)) theta = Ok (fin_field AR).

Let p' : Params :=
  resolved params (fin_field AR) (map snd (tag_rows 0 (fin_rows xsb))).

Lemma const_rows :
  Forall (fun row => Z.of_nat (length row) = nc p') AR.
Proof.
  apply Forall_forall. intros row Hin. apply repeat_spec in Hin. subst row.
  rewrite repeat_length. cbn. lia.
Qed.

Lemma const_abR (ri : Z) (x : R) :
  (0 <= ri < Z.of_nat (length AR))%Z -> abR p' AR ri x = (0, b).
Proof.
  intros Hr. unfold abR, coefR, AR in *. rewrite repeat_length in Hr.
  rewrite (nth_repeat_in _ [] _ n) by lia.
  apply nth_repeat_in.
  pose proof (cellR_range p' Hnc x) as Hc. cbn [nc p' resolved set_cache] in Hc.
  lia.
Qed.

Lemma zero_field_fixes (fuel : nat) :
  b = 0 -> (Z.to_nat (nc params) < fuel)%nat ->
  integrate_closed_form fuel (fin_rows xs) theta params
  = Some (Ok (fin_rows xsb)).
Proof.
  intros Hb Hfuel.
  apply (integrate_closed_form_rule theta params AR n m xs xsb Hres Hn Hn0 Hbc
           Hrect (still_inv p' AR) Fin fuel); fold p'.
  - intros xr _ Hr. unfold still_inv. cbn [fx ft fr fc].
    repeat split; try lia.
    + apply (get_cell_cellR p'); assumption.
    + unfold AR. rewrite repeat_length. lia.
  - intros cont q y (Hx & _ & _ & Hr).
    apply (pt_ok_real p' AR eq_refl const_rows Hnc Hdom q y Hx Hr).
  - intros cont q y (Hx & Ht & _ & Hr) _.
    rewrite (psi_of_real p' AR eq_refl const_rows Hnc Hdom q y Hx Hr 1 Ht).
    rewrite const_abR by exact Hr. rewrite psiR_const, Hb. f_equal. ring.
  - intros cont q y Hi Hv. exfalso.
    rewrite (still_valid p' AR b eq_refl const_rows Hnc Hdom const_abR
               cont q y Hb Hi) in Hv.
    discriminate.
  - exact Hfuel.
Qed.

Lemma constant_field_shifts (fuel : nat) :
  Forall (Forall (fun v => xmin params <= v <= xmax params)) xs ->
  eps_R < (xmax params - xmin params) / IZR (nc params) ->
  (Z.to_nat (nc params) < fuel)%nat ->
  integrate_closed_form fuel (fin_rows xs) theta params
  = Some (Ok (map (map (fun v => Fin (v + b))) xsb)).
Proof.
  intros Hin Heps Hfuel.
  pose proof (broadcast_to_real _ xs xsb n Hbc Hin) as Hinb.
  apply (integrate_closed_form_rule theta params AR n m xs xsb Hres Hn Hn0 Hbc
           Hrect (drift_inv p' AR b) (fun v => Fin (v + b)) fuel); fold p'.
  - intros xr Hxr Hr.
    pose proof (tag_rows_In_fst _ 0 xsb Hinb) as Hall.
    rewrite Forall_forall in Hall. specialize (Hall xr Hxr). cbn beta in Hall.
    exists (fst xr), 1. cbn [fx ft fr fc].
    rewrite (get_cell_cellR p') by assumption.
    pose proof (cellR_range p' Hnc (fst xr)).
    repeat split; try lia; try lra.
    + unfold AR. rewrite repeat_length. lia.
    + apply (cellR_contains p' Hnc Hdom). exact Hall.
    + apply (cellR_contains p' Hnc Hdom). exact Hall.
  - intros cont q y Hi.
    apply (drift_ok p' AR b eq_refl const_rows Hnc Hdom cont q y Hi).
  - intros cont q y (x & t & Hx & Ht & Hr & Hsum & _) _.
    rewrite (psi_of_real p' AR eq_refl const_rows Hnc Hdom q x Hx Hr t Ht).
    rewrite const_abR by exact Hr. rewrite psiR_const, Hsum. reflexivity.
  - intros cont q y Hi Hv.
    apply (drift_step p' AR b eq_refl const_rows Hnc Hdom const_abR Heps
             cont q y Hi Hv).
  - exact Hfuel.
Qed.
End Translation.


(** ** Concrete runs in a constant field on two cells *)

Lemma resolve_uniform (a b : R) :
  mapM (resolve_row (uniform_B a b)) [[Fin 1]]
  = Ok (fin_field (uniform_field a b)).
Proof.
  cbn. unfold fin_pair. cbn [fst snd]. repeat f_equal; ring.
Qed.

Section TwoCellsGeometry.
Variable Bm : list (list float).
Variables a b : R.

Let AR : list (list (R * R)) := uniform_field a b.
Let p1 : Params := two_cells_resolved Bm a b.

Lemma two_cells_rows : Forall (fun row => Z.of_nat (length row) = nc p1) AR.
Proof. repeat constructor. Qed.

Lemma two_cells_nc : (0 < nc p1)%Z.
Proof. cbn. lia. Qed.

Lemma two_cells_dom : xmin p1 < xmax p1.
Proof. cbn. lra. Qed.

Lemma two_cells_abR (ri : Z) (x : R) :
  (0 <= ri < Z.of_nat (length AR))%Z -> abR p1 AR ri x = (a, b).
Proof.
  intros Hr. unfold AR, uniform_field in *. cbn in Hr.
  assert (ri = 0%Z) by lia. subst ri.
  unfold abR, coefR. pose proof (cellR_range p1 two_cells_nc x) as Hc.
  cbn [nc p1 two_cells_resolved resolved set_cache two_cells] in Hc.
  assert (Hcases : cellR p1 x = 0%Z \/ cellR p1 x = 1%Z) by lia.
  destruct Hcases as [-> | ->]; reflexivity.
Qed.

Lemma two_cells_cell (x : R) (c : Z) :
  (c = 0 \/ c = 1)%Z ->
  (c = 0%Z -> x < 1 / 2) -> (c = 1%Z -> 1 / 2 <= x) ->
  get_cell (Fin x) p1 = c.
Proof.
  intros Hc H0 H1. rewrite (get_cell_cellR p1 two_cells_dom). unfold cellR.
  cbn [xmin xmax nc p1 two_cells_resolved resolved set_cache two_cells].
  pose proof (Zfloor_bound ((x - 0) / (1 - 0) * 2)) as [Hf1 Hf2].
  destruct Hc as [-> | ->].
  - specialize (H0 eq_refl).
    assert ((Zfloor ((x - 0) / (1 - 0) * 2) < 1)%Z); [|lia].
    apply lt_IZR. lra.
  - specialize (H1 eq_refl).
    assert ((1 <= Zfloor ((x - 0) / (1 - 0) * 2))%Z); [|lia].
    apply Zfloor_lub. lra.
Qed.

Lemma two_cells_left (c : Z) : leftR p1 c = IZR c / 2 - eps_R.
Proof.
  unfold leftR.
  cbn [xmin xmax nc p1 two_cells_resolved resolved set_cache two_cells]. lra.
Qed.

Lemma two_cells_right (c : Z) : rightR p1 c = (IZR c + 1) / 2 + eps_R.
Proof.
  unfold rightR.
  cbn [xmin xmax nc p1 two_cells_resolved resolved set_cache two_cells]. lra.
Qed.
End TwoCellsGeometry.

Section TwoCells.
Variable Bm : list (list float).
Variable theta : list (list float).
Variable b : R.
Hypothesis Hres : mapM (resolve_row Bm) theta = Ok (fin_field (uniform_field 0 b)).

Let AR : list (list (R * R)) := uniform_field 0 b.
Let p1 : Params := two_cells_resolved Bm 0 b.

(** The setup of a call on one point. *)
Lemma two_cells_start {T : Type} (record : float -> float -> Z -> T)
      (blank : T) (fuel : nat) (x : R) (c : Z) :
  get_cell (Fin x) p1 = c ->
  hop_run record theta fuel blank [[Fin x]] (two_cells Bm)
  = hop_loop record theta fuel
             (pack p1 [mkFpt (Fin x) (Fin 1) 0 c] [blank] [false] 0).
Proof.
  intros Hc. unfold hop_run, batch_effect.
  assert (Hlen : length theta = 1%nat).
  { apply mapM_length in Hres. cbn in Hres. congruence. }
  rewrite Hlen. cbn [length broadcast_to bind obind repeat].
  rewrite (precompute_affine_resolved theta (two_cells Bm)
             (fin_field AR) Hres 1 1 [[Fin x]] Hlen)
    by (try discriminate; repeat constructor).
  cbn [obind]. rewrite hop_init_pack. fold p1. cbn [tag_rows map app].
  rewrite <- Hc. reflexivity.
Qed.

(** One pass on one real point. *)
Lemma two_cells_pass {T : Type} (record : float -> float -> Z -> T)
      (x t : R) (c : Z) (out : list T) (cont : Z) :
  hop_body record theta (pack p1 [mkFpt (Fin x) (Fin t) 0 c] out [false] cont)
  = if (Rleb (leftR p1 c) (x + t * b) && Rleb (x + t * b) (rightR p1 c))
       || (Rleb 0 b && (c =? 1)%Z) || (Rleb b 0 && (c =? 0)%Z)
    then Ok (inl (scatter [true] [record (Fin (x + t * b)) (Fin t) c] out))
    else if (cont + 1 >? 2)%Z then Raise BaseException
         else Ok (inr (pack p1 [step_of p1 (mkFpt (Fin x) (Fin t) 0 c)]
                            (scatter [true] [record (Fin (x + t * b)) (Fin t) c] out)
                            [false] (cont + 1)%Z)).
Proof.
  rewrite (hop_body_pts record theta p1 eq_refl). cbn [forallb map filter].
  set (q := mkFpt (Fin x) (Fin t) 0 c).
  assert (Hr : (0 <= fr q < Z.of_nat (length AR))%Z) by (cbn; lia).
  rewrite (pt_ok_real p1 AR eq_refl (two_cells_rows Bm 0 b) (two_cells_nc Bm 0 b)
             (two_cells_dom Bm 0 b)
             q x eq_refl Hr).
  rewrite (valid_of_const p1 AR b eq_refl (two_cells_rows Bm 0 b)
             (two_cells_nc Bm 0 b) (two_cells_dom Bm 0 b) (two_cells_abR Bm 0 b)
             q x t eq_refl eq_refl Hr).
  rewrite (record_of_const p1 AR b eq_refl (two_cells_rows Bm 0 b)
             (two_cells_nc Bm 0 b) (two_cells_dom Bm 0 b) (two_cells_abR Bm 0 b)
             record q x t eq_refl eq_refl Hr).
  cbn [andb fc q nc p1 two_cells_resolved resolved set_cache two_cells Z.sub vnot negb map].
  unfold invalid_of.
  rewrite (valid_of_const p1 AR b eq_refl (two_cells_rows Bm 0 b)
             (two_cells_nc Bm 0 b) (two_cells_dom Bm 0 b) (two_cells_abR Bm 0 b)
             q x t eq_refl eq_refl Hr).
  cbn [fc q nc p1 two_cells_resolved resolved set_cache two_cells Z.sub].
  destruct (_ || _ || _); cbn [negb map]; reflexivity.
Qed.
End TwoCells.

Lemma reshape_rows_single {T : Type} (v : T) : reshape_rows 1 [v] = Ok [[v]].
Proof. reflexivity. Qed.

Lemma eps_R_small : eps_R < / 4.
Proof. unfold eps_R. lra. Qed.



(** ** C2 *)

Lemma unit_velocity_first_pass {T : Type} (record : float -> float -> Z -> T)
      (Bm theta : list (list float)) (blank : T) (fuel : nat) :
  mapM (resolve_row Bm) theta = Ok (fin_field (uniform_field 0 1)) ->
  (1 <= fuel)%nat ->
  hop_run record theta fuel blank [[Fin (1 / 2)]] (two_cells Bm)
  = Some (Ok [record (Fin (3 / 2)) (Fin 1) 1%Z]).
Proof.
  intros Hres Hfuel. pose proof eps_R_pos as He. pose proof eps_R_small as He'.
  destruct fuel as [|fuel]; [lia|].
  rewrite (two_cells_start Bm theta 1 Hres record blank (S fuel) (1 / 2) 1)
    by (apply two_cells_cell; intros; try discriminate; lra || lia).
  cbn [hop_loop]. rewrite (two_cells_pass Bm theta 1).
  rewrite (Rleb_true 0 1) by lra. cbn [Z.eqb andb]. rewrite orb_true_r.
  cbn [orb scatter]. replace (1 / 2 + 1 * 1) with (3 / 2) by lra. reflexivity.
Qed.

(** The trace of the scenario. *)
Lemma unit_velocity_trace (Bm theta : list (list float)) (fuel : nat) :
  mapM (resolve_row Bm) theta = Ok (fin_field (uniform_field 0 1)) ->
  (1 <= fuel)%nat ->
  integrate_closed_form_trace fuel [[Fin (1 / 2)]] theta (two_cells Bm)
  = Some (Ok [(Fin (3 / 2), Fin 1, ofZ 1)]).
Proof.
  intros Hres Hfuel. unfold integrate_closed_form_trace.
  apply (unit_velocity_first_pass trace_row Bm theta _ fuel Hres Hfuel).
Qed.

(** The loop of the scenario has no pass that goes on to a next one. *)
Lemma unit_velocity_single_pass (Bm theta : list (list float)) (p' : Params) :
  mapM (resolve_row Bm) theta = Ok (fin_field (uniform_field 0 1)) ->
  precompute_affine [Fin (1 / 2)] theta (two_cells Bm) = Ok p' ->
  hop_passes trace_row theta 1 (hop_init (Fin 0, Fin 0, Fin 0) [Fin (1 / 2)] p')
  = None.
Proof.
  intros Hres Hp'.
  assert (Hlen : length theta = 1%nat).
  { apply mapM_length in Hres. cbn in Hres. congruence. }
  pose proof (unit_velocity_first_pass trace_row Bm theta
                (Fin 0, Fin 0, Fin 0) 1 Hres (le_n 1)) as Hrun.
  unfold hop_run, batch_effect in Hrun. rewrite Hlen in Hrun.
  cbn [length broadcast_to bind obind repeat concat app] in Hrun.
  rewrite Hp' in Hrun. cbn [obind hop_loop] in Hrun.
  cbn [hop_passes].
  destruct (hop_body trace_row theta _) as [[out | st'] | e];
    try reflexivity; discriminate.
Qed.

(** C2 (amended): on the domain [[0, 1]] in two cells, for one batch
    entry whose field resolves to the constant velocity one ([a = 0],
    [b = 1] in both cells) and the single point [x = 0.5],
    [integrate_closed_form] returns [phi = x + 1 = 1.5]; the point
    starts in the last cell and the first pass finalizes it by the
    edge-continuation rule, so the loop returns in its first pass and
    the trace row is [(1.5, 1, 1)]: the whole unit of time is applied in
    the last cell and no hit time is computed. *)
Theorem unit_velocity_scenario (Bm theta : list (list float)) (fuel : nat) :
  mapM (resolve_row Bm) theta = Ok (fin_field (uniform_field 0 1)) ->
  (1 <= fuel)%nat ->
  integrate_closed_form fuel [[Fin (1 / 2)]] theta (two_cells Bm)
  = Some (Ok [[Fin (3 / 2)]]) /\
  integrate_closed_form_trace fuel [[Fin (1 / 2)]] theta (two_cells Bm)
  = Some (Ok [(Fin (3 / 2), Fin 1, ofZ 1)]) /\
  get_cell (Fin (1 / 2)) (two_cells Bm) = 1%Z /\
  forall p',
    precompute_affine [Fin (1 / 2)] theta (two_cells Bm) = Ok p' ->
    hop_passes trace_row theta 1 (hop_init (Fin 0, Fin 0, Fin 0) [Fin (1 / 2)] p')
    = None.
Proof.
  intros Hres Hfuel.
  assert (Hlen : length theta = 1%nat).
  { apply mapM_length in Hres. cbn in Hres. congruence. }
  split; [|split; [|split]].
  - unfold integrate_closed_form.
    rewrite (unit_velocity_first_pass _ Bm theta _ fuel Hres Hfuel).
    cbn [obind]. rewrite Hlen, reshape_rows_single. reflexivity.
  - apply (unit_velocity_trace Bm theta fuel Hres Hfuel).
  - rewrite get_cell_Fin by (cbn; lra). cbn [xmin xmax nc two_cells].
    rewrite (Zfloor_eq 1); [reflexivity | lra].
  - intros p'. apply (unit_velocity_single_pass Bm theta p' Hres).
Qed.

Lemma unit_velocity_scenario_witness :
  integrate_closed_form 3 [[Fin (1 / 2)]] [[Fin 1]] (two_cells (uniform_B 0 1))
  = Some (Ok [[Fin (3 / 2)]]).
Proof.
  exact (proj1 (unit_velocity_scenario (uniform_B 0 1) [[Fin 1]] 3
                  (resolve_uniform 0 1) ltac:(lia))).
Defined.

(** C2, counterexample: in the scenario of the claim the trace does not
    hold a hit-time event.  The loop has no pass that goes on to a next
    one, and the recorded time is the whole unit, not the unit less the
    hit time [right_boundary(1) - 0.5]. *)
Lemma unit_velocity_no_hit_event :
  let params := two_cells (uniform_B 0 1) in
  let t_hit := (right_boundary (ofZ 1) params - Fin (1 / 2))%fl in
  integrate_closed_form_trace 3 [[Fin (1 / 2)]] [[Fin 1]] params
  = Some (Ok [(Fin (3 / 2), Fin 1, ofZ 1)]) /\
  Fin 1 <> (Fin 1 - t_hit)%fl /\
  (forall p',
      precompute_affine [Fin (1 / 2)] [[Fin 1]] params = Ok p' ->
      hop_passes trace_row [[Fin 1]] 1
                 (hop_init (Fin 0, Fin 0, Fin 0) [Fin (1 / 2)] p') = None).
Proof.
  cbv zeta.
  split; [apply (unit_velocity_trace _ _ 3 (resolve_uniform 0 1)); lia|].
  split; [|intros p'; apply (unit_velocity_single_pass _ _ p' (resolve_uniform 0 1))].
  unfold ofZ. rewrite right_boundary_Fin by (cbn; lia).
  cbn [xmin xmax nc two_cells fsub fadd fneg].
  intros H. injection H as H. pose proof eps_R_pos. lra.
Qed.

(** ** The closed-form flow inside a cell *)

Lemma exp_ge_1 (z : R) : 0 <= z -> 1 <= exp z.
Proof. intros Hz. pose proof (exp_ineq1_le z). lra. Qed.

Lemma exp_le_1 (z : R) : z <= 0 -> exp z <= 1.
Proof.
  intros Hz. pose proof (exp_ge_1 (- z) ltac:(lra)) as H1.
  pose proof (exp_pos z) as Hp.
  assert (H : exp z * exp (- z) = 1).
  { rewrite <- exp_plus. replace (z + - z) with 0 by ring. apply exp_0. }
  nra.
Qed.

Lemma ln_lt_of_exp (z rho : R) : 0 < rho -> rho < exp z -> ln rho < z.
Proof.
  intros Hr H. rewrite <- (ln_exp z). apply ln_increasing; assumption.
Qed.

Lemma ln_gt_of_exp (z rho : R) : exp z < rho -> z < ln rho.
Proof.
  intros H. rewrite <- (ln_exp z) at 1. apply ln_increasing; [apply exp_pos | exact H].
Qed.

Section FlowInCell.
Variables a b x t : R.
Hypothesis Ht : 0 <= t.

Let psi := psiR (a, b) x t.
Let v := velR (a, b) x.

(** At rest the flow stays. *)
Lemma flow_rest : v = 0 -> psi = x.
Proof.
  unfold v, velR, psi, psiR. cbn [fst snd]. intros Hv.
  destruct (Req_dec_T a 0) as [Ha | Ha].
  - subst a. assert (b = 0) by lra. subst b. ring.
  - assert (Hu : x + b / a = 0) by (field_simplify_eq; lra).
    rewrite Hu. unfold Rdiv in *. lra.
Qed.

(** The displacement has the sign of the velocity. *)
Lemma flow_forward : 0 < v -> x <= psi.
Proof.
  unfold v, velR, psi, psiR. cbn [fst snd]. intros Hv.
  destruct (Req_dec_T a 0) as [Ha | Ha].
  - subst a. nra.
  - set (u := x + b / a). assert (Hau : a * u = a * x + b) by (unfold u; field; lra).
    assert (Hd : exp (t * a) * u - b / a - x = (exp (t * a) - 1) * u)
      by (unfold u; ring).
    destruct (Rtotal_order a 0) as [Hneg | [|Hpos]]; [|contradiction|].
    + pose proof (exp_le_1 (t * a) ltac:(nra)). assert (u < 0) by nra. nra.
    + pose proof (exp_ge_1 (t * a) ltac:(nra)). assert (0 < u) by nra. nra.
Qed.

Lemma flow_backward : v < 0 -> psi <= x.
Proof.
  unfold v, velR, psi, psiR. cbn [fst snd]. intros Hv.
  destruct (Req_dec_T a 0) as [Ha | Ha].
  - subst a. nra.
  - set (u := x + b / a). assert (Hau : a * u = a * x + b) by (unfold u; field; lra).
    assert (Hd : exp (t * a) * u - b / a - x = (exp (t * a) - 1) * u)
      by (unfold u; ring).
    destruct (Rtotal_order a 0) as [Hneg | [|Hpos]]; [|contradiction|].
    + pose proof (exp_le_1 (t * a) ltac:(nra)). assert (0 < u) by nra. nra.
    + pose proof (exp_ge_1 (t * a) ltac:(nra)). assert (u < 0) by nra. nra.
Qed.

(** When the flow passes a boundary [xc] that lies beyond the point in
    the direction of travel, the velocity keeps its sign up to [xc], the
    argument of the logarithm is positive and the hit time is at most
    the time left. *)
Lemma flow_hits (xc : R) :
  (0 < v /\ x <= xc /\ xc < psi) \/ (v < 0 /\ xc <= x /\ psi < xc) ->
  (a = 0 -> b <> 0) /\
  (a <> 0 -> 0 < (a * x + b) * (a * xc + b) /\
             0 < (xc + b / a) / (x + b / a)) /\
  thitR (a, b) x xc <= t.
Proof.
  unfold v, velR, psi, psiR, thitR. cbn [fst snd]. intros Hcase.
  destruct (Req_dec_T a 0) as [Ha | Ha].
  - subst a. split; [intros _; lra|]. split; [intros H; now contradiction H|].
    assert (Hb : b <> 0) by lra.
    destruct Hcase as [(Hv & Hx & Hp) | (Hv & Hx & Hp)].
    + apply Rmult_le_reg_r with b; [lra|].
      replace ((xc - x) / b * b) with (xc - x) by (field; lra). lra.
    + apply Rmult_le_reg_r with (- b); [lra|].
      replace ((xc - x) / b * - b) with (x - xc) by (field; lra). nra.
  - split; [intros H; now contradiction Ha|].
    set (u := x + b / a) in *. set (uc := xc + b / a) in *.
    assert (Hau : a * x + b = a * u) by (unfold u; field; lra).
    assert (Hauc : a * xc + b = a * uc) by (unfold uc; field; lra).
    assert (Huc : uc = xc + b / a) by reflexivity.
    assert (Hudef : u = x + b / a) by reflexivity.
    pose proof (exp_pos (t * a)) as HE.
    assert (HEu : 0 < u -> 0 < exp (t * a) * u) by (intros; nra).
    assert (HEu' : u < 0 -> exp (t * a) * u < 0) by (intros; nra).
    assert (Hsame : (0 < u /\ 0 < uc) \/ (u < 0 /\ uc < 0)).
    { destruct (Rtotal_order a 0) as [Hneg | [|Hpos]]; [|contradiction|];
        destruct Hcase as [(Hv & Hx & Hp) | (Hv & Hx & Hp)].
      - right. assert (Hn : u < 0) by nra. specialize (HEu' Hn). lra.
      - left. assert (Hn : 0 < u) by nra. specialize (HEu Hn). lra.
      - left. assert (Hn : 0 < u) by nra. lra.
      - right. assert (Hn : u < 0) by nra. lra. }
    assert (Hrho : 0 < uc / u).
    { destruct Hsame as [[Hu Hc] | [Hu Hc]].
      - apply Rdiv_lt_0_compat; assumption.
      - replace (uc / u) with ((- uc) / (- u)) by (field; lra).
        apply Rdiv_lt_0_compat; lra. }
    split.
    { intros _. split; [|exact Hrho].
      rewrite Hau, Hauc.
      replace (a * u * (a * uc)) with ((a * a) * (u * uc)) by ring.
      apply Rmult_lt_0_compat; [nra|].
      destruct Hsame as [[Hu Hc] | [Hu Hc]]; nra. }
    assert (Hq : uc = uc / u * u) by (field; destruct Hsame; lra).
    destruct (Rtotal_order a 0) as [Hneg | [|Hpos]]; [|contradiction|].
    + (* a < 0: exp (t a) < rho *)
      assert (Hlt : exp (t * a) < uc / u).
      { destruct Hcase as [(Hv & Hx & Hp) | (Hv & Hx & Hp)].
        - assert (u < 0) by nra. nra.
        - assert (0 < u) by nra. nra. }
      apply ln_gt_of_exp in Hlt.
      apply Rmult_le_reg_r with (- a); [lra|].
      replace (ln (uc / u) / a * - a) with (- ln (uc / u)) by (field; lra).
      nra.
    + (* 0 < a: rho < exp (t a) *)
      assert (Hlt : uc / u < exp (t * a)).
      { destruct Hcase as [(Hv & Hx & Hp) | (Hv & Hx & Hp)].
        - assert (0 < u) by nra. nra.
        - assert (u < 0) by nra. nra. }
      apply ln_lt_of_exp in Hlt; [|exact Hrho].
      apply Rmult_le_reg_r with a; [lra|].
      replace (ln (uc / u) / a * a) with (ln (uc / u)) by (field; lra).
      lra.
Qed.
End FlowInCell.

Lemma hit_k_fin (a b x xc : R) :
  (a = 0 -> b <> 0) ->
  (a <> 0 -> x + b / a <> 0 /\ 0 < (xc + b / a) / (x + b / a)) ->
  hit_k (fin_pair (a, b)) (Fin x) (Fin xc) = Fin (thitR (a, b) x xc).
Proof.
  intros H0 H1. unfold hit_k, thitR, fin_pair. cbn [fst snd feq].
  unfold Req_bool. destruct (Req_dec_T a 0) as [Ha | Ha]; cbn [fwhere].
  - rewrite fsub_Fin, fdiv_Fin by auto. reflexivity.
  - destruct (H1 Ha) as [Hu Hrho].
    rewrite (fdiv_Fin b a) by exact Ha. cbn [fadd].
    rewrite fdiv_Fin by exact Hu. cbn [flog].
    rewrite Rltb_true by exact Hrho.
    rewrite fdiv_Fin by exact Ha. reflexivity.
Qed.

(** ** The invariant of the points of the domain *)

Section InCell.
Variable p : Params.
Variable AR : list (list (R * R)).
Hypothesis HA : A p = fin_field AR.
Hypothesis Hrows : Forall (fun row => Z.of_nat (length row) = nc p) AR.
Hypothesis Hnc : (0 < nc p)%Z.
Hypothesis Hdom : xmin p < xmax p.

Lemma in_cell_ok (q : fpt) : in_cell_inv p AR q -> pt_ok p q = true.
Proof.
  intros (x & t & Hx & _ & Hr & _).
  apply (pt_ok_real p AR HA Hrows Hnc Hdom q x Hx Hr).
Qed.

(** What the failed validity test says of a point of the invariant. *)
Lemma in_cell_invalid (q : fpt) (x t : R) :
  fx q = Fin x -> ft q = Fin t -> (0 <= fr q < Z.of_nat (length AR))%Z ->
  0 <= t -> fc q = cellR p x -> leftR p (fc q) <= x <= rightR p (fc q) ->
  valid_of p q = false ->
  let ab := abR p AR (fr q) x in
  (0 < velR ab x /\ (fc q + 1 <= nc p - 1)%Z /\
   rightR p (fc q) < psiR ab x t /\ Rleb 0 (velR ab x) = true) \/
  (velR ab x < 0 /\ (1 <= fc q)%Z /\
   psiR ab x t < leftR p (fc q) /\ Rleb 0 (velR ab x) = false).
Proof.
  intros Hx Hft Hr Ht Hc Hin Hinv. cbv zeta.
  rewrite (valid_of_real p AR HA Hrows Hnc Hdom q x Hx Hr t Hft) in Hinv.
  apply orb_false_elim in Hinv. destruct Hinv as [Hinv H3].
  apply orb_false_elim in Hinv. destruct Hinv as [H1 H2].
  pose proof (cellR_range p Hnc x) as Hrange. rewrite <- Hc in Hrange.
  destruct (abR p AR (fr q) x) as [a b] eqn:Hab.
  assert (Hout : psiR (a, b) x t < leftR p (fc q)
                 \/ rightR p (fc q) < psiR (a, b) x t).
  { apply andb_false_elim in H1. destruct H1 as [H1 | H1];
      apply Rleb_false_iff in H1; auto. }
  destruct (Rtotal_order (velR (a, b) x) 0) as [Hv | [Hv | Hv]].
  - right. rewrite (Rleb_true _ 0) in H3 by lra. cbn [andb] in H3.
    apply Z.eqb_neq in H3.
    pose proof (flow_backward a b x t Ht Hv).
    repeat split; [exact Hv | lia | lra | apply Rleb_false; exact Hv].
  - exfalso. pose proof (flow_rest a b x t Hv). lra.
  - left. rewrite (Rleb_true 0) in H2 by lra. cbn [andb] in H2.
    apply Z.eqb_neq in H2.
    pose proof (flow_forward a b x t Ht Hv).
    repeat split; [exact Hv | lia | lra | apply Rleb_true; lra].
Qed.

Lemma in_cell_hit_ok (q : fpt) :
  in_cell_inv p AR q -> valid_of p q = false -> hit_ok p q.
Proof.
  intros (x & t & Hx & Hft & Hr & Ht & Hc & Hin) Hinv.
  pose proof (in_cell_invalid q x t Hx Hft Hr Ht Hc Hin Hinv) as Hcase.
  cbv zeta in Hcase.
  pose proof (ab_of_real p AR HA Hrows Hnc Hdom q x Hx Hr) as Hab.
  pose proof (xc_of_real p AR HA Hrows Hnc Hdom q x Hx Hr) as Hxc.
  rewrite <- Hc in Hxc.
  destruct (abR p AR (fr q) x) as [a b] eqn:Habr.
  set (xc := if Rleb 0 (velR (a, b) x) then rightR p (fc q) else leftR p (fc q))
    in *.
  assert (Hhits : (0 < velR (a, b) x /\ x <= xc /\ xc < psiR (a, b) x t)
                  \/ (velR (a, b) x < 0 /\ xc <= x /\ psiR (a, b) x t < xc)).
  { unfold xc. destruct Hcase as [(Hv & _ & Hp & ->) | (Hv & _ & Hp & ->)];
      [left | right]; repeat split; lra. }
  destruct (flow_hits a b x t xc Hhits) as (H0 & H1 & _).
  assert (Hv : a * x + b <> 0).
  { unfold velR in Hhits. cbn [fst snd] in Hhits. lra. }
  exists x, a, b, xc. repeat split; try assumption.
  - apply H1. assumption.
  - apply H1. assumption.
  - unfold thit_of. rewrite Hab, Hx, Hxc. apply hit_k_fin; [exact H0|].
    intros Ha. split; [|apply H1; exact Ha].
    intros Hu. apply Hv.
    replace (a * x + b) with (a * (x + b / a)) by (field; exact Ha).
    rewrite Hu. ring.
Qed.

Hypothesis Heps : eps_R < (xmax p - xmin p) / IZR (nc p).

Lemma in_cell_step (q : fpt) :
  in_cell_inv p AR q -> valid_of p q = false -> in_cell_inv p AR (step_of p q).
Proof.
  intros Hinv0 Hinv.
  pose proof (in_cell_hit_ok q Hinv0 Hinv) as (x' & a & b & xc & Hx' & Hab & Hxc
                                              & _ & _ & _ & Hthit).
  destruct Hinv0 as (x & t & Hx & Hft & Hr & Ht & Hc & Hin).
  assert (x' = x) by congruence. subst x'.
  pose proof (in_cell_invalid q x t Hx Hft Hr Ht Hc Hin Hinv) as Hcase.
  cbv zeta in Hcase.
  pose proof (ab_of_real p AR HA Hrows Hnc Hdom q x Hx Hr) as Hab'.
  rewrite Hab in Hab'. unfold fin_pair in Hab'.
  assert (Habr : abR p AR (fr q) x = (a, b)).
  { destruct (abR p AR (fr q) x) as [a' b']. cbn [fst snd] in Hab'.
    injection Hab' as -> ->. reflexivity. }
  rewrite Habr in Hcase.
  pose proof (xc_of_real p AR HA Hrows Hnc Hdom q x Hx Hr) as Hxc'.
  rewrite Hxc, Habr, <- Hc in Hxc'. injection Hxc' as Hxc'.
  pose proof (boundaries_order p Hnc Hdom (fc q)) as Hord.
  pose proof eps_R_pos as He.
  pose proof (width_pos p Hnc Hdom) as Hw.
  assert (Hhits : (0 < velR (a, b) x /\ x <= xc /\ xc < psiR (a, b) x t)
                  \/ (velR (a, b) x < 0 /\ xc <= x /\ psiR (a, b) x t < xc)).
  { rewrite Hxc'. destruct Hcase as [(Hv & _ & Hp & ->) | (Hv & _ & Hp & ->)];
      [left | right]; repeat split; lra. }
  destruct (flow_hits a b x t xc Hhits) as (_ & _ & Hle).
  assert (Hstep :
    step_of p q
    = mkFpt (Fin (Rmin (Rmax (psiR (a, b) x t) (leftR p (fc q)))
                       (rightR p (fc q))))
            (Fin (t - thitR (a, b) x xc)) (fr q)
            (if Rleb 0 (velR (a, b) x) then (fc q + 1)%Z else (fc q - 1)%Z)).
  { unfold step_of.
    rewrite (psi_of_real p AR HA Hrows Hnc Hdom q x Hx Hr t Hft).
    rewrite (v_of_real p AR HA Hrows Hnc Hdom q x Hx Hr).
    rewrite (left_boundary_R p Hnc), (right_boundary_R p Hnc).
    rewrite Habr, fclip_fin, Hthit, Hft by exact Hord. reflexivity. }
  rewrite Hstep.
  destruct Hcase as [(Hv & Hcell & Hp & Hb) | (Hv & Hcell & Hp & Hb)];
    rewrite Hb in *.
  - exists (rightR p (fc q)), (t - thitR (a, b) x xc). cbn [fx ft fr fc].
    pose proof (cellR_range p Hnc x) as Hrange. rewrite <- Hc in Hrange.
    repeat split; try (exact (proj1 Hr)); try (exact (proj2 Hr)); try lra.
    + rewrite Rmax_left, Rmin_right by lra. reflexivity.
    + symmetry. apply (cellR_rightR p Hnc Hdom Heps); lia.
    + rewrite (leftR_alt p), (rightR_alt p), plus_IZR. lra.
    + rewrite !(rightR_alt p), plus_IZR. lra.
  - exists (leftR p (fc q)), (t - thitR (a, b) x xc). cbn [fx ft fr fc].
    pose proof (cellR_range p Hnc x) as Hrange. rewrite <- Hc in Hrange.
    repeat split; try (exact (proj1 Hr)); try (exact (proj2 Hr)); try lra.
    + rewrite Rmax_right, Rmin_left by lra. reflexivity.
    + symmetry. apply (cellR_leftR p Hnc Hdom Heps); lia.
    + rewrite !(leftR_alt p), minus_IZR. lra.
    + rewrite (leftR_alt p), (rightR_alt p), minus_IZR. lra.
Qed.
End InCell.

(** ** Invariants of the reachable states *)

Section Reachable.
Context {T : Type}.
Variable record : float -> float -> Z -> T.
Variable theta : list (list float).
Variable p : Params.
Hypothesis Hpre : precomputed p = true.
Variable J : fpt -> Prop.
Hypothesis Hstep :
  forall q, J q -> pt_ok p q = true -> valid_of p q = false -> J (step_of p q).

Lemma hop_passes_inv (n : nat) :
  forall pts out done cont st,
    Forall J pts ->
    hop_passes record theta n (pack p pts out done cont) = Some st ->
    exists pts' out' done' cont',
      st = pack p pts' out' done' cont' /\ Forall J pts'.
Proof.
  induction n as [|n IH]; intros pts out done cont st HJ Hrun.
  - injection Hrun as <-. exists pts, out, done, cont. split; [reflexivity | exact HJ].
  - cbn [hop_passes] in Hrun.
    rewrite (hop_body_pts record theta p Hpre) in Hrun.
    destruct (forallb (pt_ok p) pts) eqn:Hok; [|discriminate].
    destruct (forallb (valid_of p) pts); [discriminate|].
    destruct (cont + 1 >? nc p)%Z; [discriminate|].
    apply IH in Hrun; [exact Hrun|].
    apply Forall_map. apply Forall_forall. intros q Hin.
    apply filter_In in Hin. destruct Hin as [Hin Hq].
    rewrite forallb_forall in Hok. rewrite Forall_forall in HJ.
    apply Hstep; [apply HJ | apply Hok | ]; try assumption.
    unfold invalid_of in Hq. now apply negb_true_iff in Hq.
Qed.
End Reachable.

(** The arrays of a pass on a state of points that can all be looked
    up. *)
Lemma pass_arrays (theta : list (list float)) (p : Params) (pts : list fpt) :
  precomputed p = true -> forallb (pt_ok p) pts = true ->
  let x := map fx pts in
  let params := set_r p (map fr pts) in
  let v := map (v_of p) pts in
  let psi := map (psi_of p) pts in
  let valid := valid_mask params (map fc pts) v psi in
  get_velocity x theta params = Ok v /\
  get_psi x (map ft pts) theta params = Ok psi /\
  valid = map (valid_of p) pts /\
  select (vnot valid) v = map (v_of p) (filter (invalid_of p) pts) /\
  get_hit_time (select (vnot valid) x) theta
               (set_r params (select (vnot valid) (r params)))
  = Ok (map (thit_of p) (filter (invalid_of p) pts)).
Proof.
  intros Hpre Hok. cbv zeta.
  rewrite (get_velocity_pts theta p Hpre), (get_psi_pts theta p Hpre), Hok.
  rewrite valid_mask_pts.
  assert (Hnot : vnot (map (valid_of p) pts) = map (invalid_of p) pts).
  { unfold vnot. rewrite map_map. reflexivity. }
  rewrite Hnot. cbn [r set_r set_cache]. rewrite !select_map.
  change (set_r (set_r p (map fr pts)) ?rs) with (set_r p rs).
  rewrite (get_hit_time_pts theta p Hpre), (forallb_filter _ _ _ Hok).
  repeat split; reflexivity.
Qed.

(** ** C9 *)

Section HitTimes.
Context {T : Type}.
Variable record : float -> float -> Z -> T.
Variable blank : T.
Variable params : Params.
Variable theta : list (list float).
Variable AR : list (list (R * R)).
Variables xs xsb : list (list R).
Variables n m : nat.
Hypothesis Hdom : xmin params < xmax params.
Hypothesis Hnc : (0 < nc params)%Z.
Hypothesis Heps : eps_R < (xmax params - xmin params) / IZR (nc params).
Hypothesis Hres : mapM (resolve_row (B params)) theta = Ok (fin_field AR).
Hypothesis Hrows : Forall (fun row => Z.of_nat (length row) = nc params) AR.
Hypothesis Hn : length theta = n.
Hypothesis Hn0 : n <> O.
Hypothesis Hbc : broadcast_to (fin_rows xs) n = Ok (fin_rows xsb).
Hypothesis Hrect : rect n m xsb.
Hypothesis Hin : Forall (Forall (fun v => xmin params <= v <= xmax params)) xs.

Let xf : list float := concat (fin_rows xsb).
Let p : Params :=
  resolved params (fin_field AR) (map snd (tag_rows 0 (fin_rows xsb))).

Lemma domain_setup :
  batch_effect (fin_rows xs) theta = Ok xf /\
  precompute_affine xf theta params = Ok p.
Proof.
  split.
  - unfold batch_effect. rewrite Hn, Hbc. reflexivity.
  - apply (precompute_affine_resolved theta params _ Hres n m);
      try apply rect_map; assumption.
Qed.

Lemma domain_init : Forall (in_cell_inv p AR) (init_pts p (fin_rows xsb)).
Proof.
  pose proof (broadcast_to_real _ xs xsb n Hbc Hin) as Hinb.
  unfold p. rewrite (init_pts_real params AR xsb). fold p. apply Forall_map.
  pose proof (tag_rows_In_fst _ 0 xsb Hinb) as Hall.
  pose proof (tag_rows_range 0 xsb) as Hrange.
  destruct Hrect as [Hlen _]. rewrite Hlen in Hrange.
  pose proof (resolved_length theta params AR n Hres Hn) as HlenA.
  rewrite Forall_forall in *. intros xr Hxr.
  specialize (Hall xr Hxr). specialize (Hrange xr Hxr). cbn beta in *.
  exists (fst xr), 1. cbn [fx ft fr fc].
  rewrite (get_cell_cellR p Hdom).
  repeat split; try lia; try lra; apply (cellR_contains p Hnc Hdom); exact Hall.
Qed.

Lemma domain_reachable (k : nat) (st : hop_state T) :
  hop_passes record theta k (hop_init blank xf p) = Some st ->
  exists pts,
    st = pack p pts (hout st) (hdone st) (hcont st) /\
    Forall (in_cell_inv p AR) pts.
Proof.
  intros Hrun. unfold xf, p in Hrun. rewrite hop_init_pack in Hrun. fold p in Hrun.
  destruct (hop_passes_inv record theta p eq_refl (in_cell_inv p AR)
              (fun q HJ _ Hv => in_cell_step p AR eq_refl Hrows Hnc Hdom Heps
                                             q HJ Hv)
              k _ _ _ _ st domain_init Hrun)
    as (pts & out & done & cont & -> & HJ).
  exists pts. split; [reflexivity | exact HJ].
Qed.
End HitTimes.

Lemma hit_ok_finite (p : Params) (q : fpt) :
  hit_ok p q ->
  is_finite (thit_of p q) /\ is_finite (v_of p q) /\ v_of p q <> Fin 0.
Proof.
  intros (x & a & b & xc & Hx & Hab & _ & Hv & _ & _ & Hthit).
  split; [rewrite Hthit; eexists; reflexivity|].
  unfold v_of, vel_k. rewrite Hab, Hx. cbn [fst snd fmul fadd].
  split; [eexists; reflexivity|].
  intros H. injection H as H. contradiction.
Qed.



Lemma exp_minus_1_lower : / 3 <= exp (1 * -1).
Proof.
  replace (1 * -1) with (Ropp 1) by lra. rewrite exp_Ropp.
  pose proof exp_le_3. pose proof (exp_pos 1).
  apply Rinv_le_contravar; assumption.
Qed.


(** ** The cell walk of the derivative ends *)

Lemma feq_ofZ (a m : Z) : (ofZ a ==? ofZ m)%fl = (a =? m)%Z.
Proof.
  unfold feq, ofZ. destruct (Z.eqb_spec a m) as [-> | Hne].
  - apply Req_bool_true. reflexivity.
  - apply Req_bool_false. intros H. apply eq_IZR in H. contradiction.
Qed.

Lemma toward_ofZ (a m : Z) :
  (ofZ a + fsign (ofZ m - ofZ a))%fl = ofZ (toward a m).
Proof.
  unfold toward, ofZ, fsub, fneg, fadd, fsign.
  rewrite <- opp_IZR, <- plus_IZR.
  destruct (Z.lt_total (m + - a) 0) as [H | [H | H]].
  - rewrite Rltb_false by (apply IZR_le; lia).
    rewrite Rltb_true by (apply IZR_lt; lia).
    rewrite <- plus_IZR. do 2 f_equal. lia.
  - rewrite H. rewrite !Rltb_false by lra.
    rewrite <- plus_IZR. do 2 f_equal. lia.
  - rewrite Rltb_true by (apply IZR_lt; lia).
    rewrite <- plus_IZR. do 2 f_equal. lia.
Qed.

Lemma walk_valid_ofZ (zc zm : list Z) :
  zipWith feq (map ofZ zc) (map ofZ zm) = zipWith Z.eqb zc zm.
Proof.
  revert zm. induction zc as [|a zc IH]; intros [|m zm]; cbn [map zipWith];
    try reflexivity.
  rewrite feq_ofZ, IH. reflexivity.
Qed.

Lemma walk_cells_ofZ (zc zm : list Z) :
  vadd (map ofZ zc) (map fsign (vsub (map ofZ zm) (map ofZ zc)))
  = map ofZ (zipWith toward zc zm).
Proof.
  unfold vadd, vsub. revert zm.
  induction zc as [|a zc IH]; intros [|m zm]; cbn [map zipWith]; try reflexivity.
  rewrite toward_ofZ, IH. reflexivity.
Qed.

Section WalkEnds.
Variable theta : list (list float).
Variable k : Z.
Variable params : Params.
Variable zm : list Z.

Let cm : list float := map ofZ zm.

Lemma within_0_valid (zc : list Z) :
  within zm 0 zc -> alltrue (zipWith Z.eqb zc zm) = true.
Proof.
  unfold within, alltrue. induction 1 as [|a m zc zm' Ha _ IH]; cbn; [reflexivity|].
  rewrite IH, andb_true_r. apply Z.eqb_eq. lia.
Qed.

Lemma within_step (d : nat) (zc : list Z) :
  within zm (S d) zc -> within zm d (zipWith toward zc zm).
Proof.
  unfold within, toward. induction 1 as [|a m zc zm' Ha _ IH]; cbn; constructor;
    [lia | exact IH].
Qed.

Lemma walk_body_next (st st' : walk_state) (zc : list Z) :
  w_c st = map ofZ zc ->
  walk_body theta k params cm st = Ok (inr st') ->
  w_c st' = map ofZ (zipWith toward zc zm) /\
  alltrue (zipWith Z.eqb zc zm) = false.
Proof.
  intros Hc. unfold walk_body, cm. rewrite Hc, walk_valid_ofZ.
  destruct (alltrue (zipWith Z.eqb zc zm)); [discriminate|].
  destruct (derivative_thit_theta _ _ _ _) as [dth|e]; cbn [bind];
    [|discriminate].
  intros H. inversion H; subst; clear H. cbn [w_c].
  split; [apply walk_cells_ofZ | reflexivity].
Qed.

Lemma walk_loop_total (d : nat) :
  forall fuel st zc,
    w_c st = map ofZ zc -> within zm d zc -> (d < fuel)%nat ->
    exists res, walk_loop theta k params cm fuel st = Some res.
Proof.
  induction d as [|d IH]; intros fuel st zc Hc Hw Hfuel;
    (destruct fuel as [|fuel]; [lia|]); cbn [walk_loop].
  - unfold walk_body, cm. rewrite Hc, walk_valid_ofZ, (within_0_valid zc Hw).
    eexists; reflexivity.
  - destruct (walk_body theta k params cm st) as [[st' | st'] | e] eqn:Hb;
      try (eexists; reflexivity).
    destruct (walk_body_next st st' zc Hc Hb) as [Hc' _].
    apply (IH fuel st' _ Hc' (within_step d zc Hw)). lia.
Qed.

Lemma walk_passes_bound (d : nat) :
  forall j st st' zc,
    w_c st = map ofZ zc -> within zm d zc ->
    walk_passes theta k params cm j st = Some st' -> (j <= d)%nat.
Proof.
  induction d as [|d IH]; intros j st st' zc Hc Hw Hrun;
    (destruct j as [|j]; [lia|]); cbn [walk_passes] in Hrun;
    destruct (walk_body theta k params cm st) as [[st1 | st1] | e] eqn:Hb;
    try discriminate;
    destruct (walk_body_next st st1 zc Hc Hb) as [Hc' Hnot].
  - rewrite (within_0_valid zc Hw) in Hnot. discriminate.
  - apply le_n_S.
    apply (IH j st1 st' _ Hc' (within_step d zc Hw) Hrun).
Qed.
End WalkEnds.

(** ** The cells that a trace records *)

Lemma fle_NaN_r (x : float) : fle x NaN = false.
Proof. destruct x; reflexivity. Qed.

Lemma fmul_NaN_r (x : float) : fmul x NaN = NaN.
Proof. destruct x; reflexivity. Qed.

Lemma fadd_NaN_r (x : float) : fadd x NaN = NaN.
Proof. destruct x; reflexivity. Qed.

Lemma nan_psi (ab : float * float) (t : float) : psi_k ab NaN t = NaN.
Proof.
  unfold psi_k, fwhere. cbn [fadd]. rewrite fmul_NaN_r. cbn [fsub fadd].
  destruct (fst ab ==? Fin 0)%fl; reflexivity.
Qed.

Lemma nan_invalid (p : Params) (q : fpt) : fx q = NaN -> valid_of p q = false.
Proof.
  intros Hx. unfold valid_of, psi_of, v_of, vel_k. rewrite Hx, nan_psi.
  rewrite fmul_NaN_r. cbn [fadd]. unfold fge. rewrite !fle_NaN_r.
  reflexivity.
Qed.

Lemma nan_step (p : Params) (q : fpt) : fx q = NaN -> fx (step_of p q) = NaN.
Proof.
  intros Hx. unfold step_of, psi_of. rewrite Hx, nan_psi. reflexivity.
Qed.

Lemma fclip_finite_bounds (y : float) (l r : R) :
  fclip y (Fin l) (Fin r) = NaN \/ exists z, fclip y (Fin l) (Fin r) = Fin z.
Proof.
  unfold fclip, fmaximum, fminimum.
  destruct y as [a | | |]; cbn [fle].
  - destruct (Rleb a l); cbn [fle]; [destruct (Rleb l r) | destruct (Rleb a r)];
      right; eexists; reflexivity.
  - right. eexists; reflexivity.
  - cbn. destruct (Rleb l r); right; eexists; reflexivity.
  - now left.
Qed.

Section TraceCells.
Variable p : Params.
Variable AR : list (list (R * R)).
Hypothesis HA : A p = fin_field AR.
Hypothesis Hrows : Forall (fun row => Z.of_nat (length row) = nc p) AR.
Hypothesis Hnc : (0 < nc p)%Z.
Hypothesis Hdom : xmin p < xmax p.

Lemma range_valid (q : fpt) :
  range_inv p AR q -> valid_of p q = true ->
  cell_recorded p (record_of trace_row p q).
Proof.
  intros [Hnan | (x & Hx & Hr & Hc)] Hv.
  - rewrite (nan_invalid p q Hnan) in Hv. discriminate.
  - exists (fc q). split; [reflexivity | exact Hc].
Qed.

Lemma range_step (q : fpt) :
  range_inv p AR q -> valid_of p q = false -> range_inv p AR (step_of p q).
Proof.
  intros [Hnan | (x & Hx & Hr & Hc)] Hv.
  - left. apply nan_step. exact Hnan.
  - unfold valid_of in Hv.
    rewrite (v_of_real p AR HA Hrows Hnc Hdom q x Hx Hr) in Hv.
    apply orb_false_elim in Hv. destruct Hv as [Hv H3].
    apply orb_false_elim in Hv. destruct Hv as [_ H2].
    unfold fge, fle in H2, H3.
    unfold step_of. rewrite (left_boundary_R p Hnc), (right_boundary_R p Hnc).
    rewrite (v_of_real p AR HA Hrows Hnc Hdom q x Hx Hr).
    unfold fge, fle.
    destruct (fclip_finite_bounds (psi_of p q) (leftR p (fc q)) (rightR p (fc q)))
      as [Hclip | [z Hclip]]; rewrite Hclip; [now left | right].
    exists z. cbn [fx fr fc]. repeat split; try lia.
    + destruct (Rleb 0 (velR (abR p AR (fr q) x) x)) eqn:Hpos; [lia|].
      apply Rleb_false_iff in Hpos.
      rewrite Rleb_true in H3 by lra. cbn [andb] in H3.
      apply Z.eqb_neq in H3. lia.
    + destruct (Rleb 0 (velR (abR p AR (fr q) x) x)) eqn:Hpos; [|lia].
      cbn [andb] in H2. apply Z.eqb_neq in H2. lia.
Qed.

Lemma ofZ_map_exists (res : list (float * float * float)) (ys : list R) :
  Forall2 (fun row _ => cell_recorded p row) res ys ->
  exists zm, map snd res = map ofZ zm /\
             Forall (fun z => (0 <= z <= nc p - 1)%Z) zm /\
             length zm = length ys.
Proof.
  induction 1 as [|row y res ys (z & Hz & Hr) _ (zm & Hm & Hf & Hl)].
  - exists []. repeat split. constructor.
  - exists (z :: zm). cbn. rewrite Hz, Hm, Hl. repeat split. now constructor.
Qed.
End TraceCells.

Lemma omapM_total {T U : Type} (f : T -> outcome U) (l : list T) :
  (forall a, exists res, f a = Some res) -> exists res, omapM f l = Some res.
Proof.
  intros Hf. induction l as [|a l [res IH]]; cbn [omapM].
  - eexists; reflexivity.
  - destruct (Hf a) as [[b | e] ->]; cbn [obind]; [|eexists; reflexivity].
    rewrite IH. destruct res; cbn [obind]; eexists; reflexivity.
Qed.

Lemma within_cells (p : Params) (zc zm : list Z) :
  (0 < nc p)%Z ->
  Forall (fun z => (0 <= z <= nc p - 1)%Z) zc ->
  Forall (fun z => (0 <= z <= nc p - 1)%Z) zm ->
  length zm = length zc ->
  within zm (Z.to_nat (nc p - 1)) zc.
Proof.
  intros Hnc Hc. revert zm. unfold within.
  induction Hc as [|a zc Ha _ IH]; intros [|m zm] Hm Hlen; try discriminate;
    constructor.
  - inversion Hm; subst. lia.
  - apply IH; [now inversion Hm | now injection Hlen].
Qed.

(** ** C10 *)

Section WalkOfTrace.
Variable params : Params.
Variable theta : list (list float).
Variable AR : list (list (R * R)).
Variables xs xsb : list (list R).
Variables n m : nat.
Hypothesis Hdom : xmin params < xmax params.
Hypothesis Hnc : (0 < nc params)%Z.
Hypothesis Hres : mapM (resolve_row (B params)) theta = Ok (fin_field AR).
Hypothesis Hrows : Forall (fun row => Z.of_nat (length row) = nc params) AR.
Hypothesis Hn : length theta = n.
Hypothesis Hn0 : n <> O.
Hypothesis Hbc : broadcast_to (fin_rows xs) n = Ok (fin_rows xsb).
Hypothesis Hrect : rect n m xsb.

Let xf : list float := concat (fin_rows xsb).
Let p : Params :=
  resolved params (fin_field AR) (map snd (tag_rows 0 (fin_rows xsb))).

Lemma start_cells :
  cells xf p = map (cellR p) (concat xsb) /\
  Forall (fun z => (0 <= z <= nc p - 1)%Z) (map (cellR p) (concat xsb)).
Proof.
  split.
  - unfold xf, fin_rows, cells. rewrite <- concat_map, map_map.
    apply map_ext. intros x. apply (get_cell_cellR p Hdom).
  - apply Forall_map. apply Forall_forall. intros x _.
    apply (cellR_range p Hnc).
Qed.

Lemma trace_cells (fuel : nat) (res : list (float * float * float)) :
  integrate_closed_form_trace fuel (fin_rows xs) theta params = Some (Ok res) ->
  exists zm, map snd res = map ofZ zm /\
             Forall (fun z => (0 <= z <= nc p - 1)%Z) zm /\
             length zm = length (concat xsb).
Proof.
  intros Htrace. unfold integrate_closed_form_trace, hop_run in Htrace.
  destruct (domain_setup params theta AR xs xsb n m Hres Hn Hn0 Hbc Hrect)
    as [Hbe Hpre].
  rewrite Hbe in Htrace. cbn [obind] in Htrace.
  rewrite Hpre in Htrace. cbn [obind] in Htrace.
  rewrite hop_init_pack in Htrace. fold p in Htrace.
  apply (ofZ_map_exists p res (concat xsb)).
  refine (hop_loop_returns trace_row theta p eq_refl
            (fun _ q (_ : R) => range_inv p AR q)
            (fun row _ => cell_recorded p row)
            (fun _ q _ Hq _ Hv => range_valid p AR q Hq Hv)
            (fun _ q _ Hq _ Hv => range_step p AR eq_refl Hrows Hnc Hdom q Hq Hv)
            fuel _ _ _ 0%Z (concat xsb) res _ Htrace).
  apply aligned_init. unfold p at 2. rewrite (init_pts_real params AR xsb).
  fold p. rewrite <- (tag_rows_fst 0 xsb).
  apply Forall2_map_same. apply Forall_forall. intros xr Hxr.
  right. exists (fst xr). cbn [fx fr fc].
  pose proof (tag_rows_range 0 xsb) as Hrange.
  rewrite Forall_forall in Hrange. specialize (Hrange xr Hxr).
  destruct Hrect as [Hlen _]. rewrite Hlen in Hrange.
  rewrite (resolved_length theta params AR n Hres Hn).
  rewrite (get_cell_cellR p Hdom).
  pose proof (cellR_range p Hnc (fst xr)).
  repeat split; lia.
Qed.

Lemma walk_of_trace (fuel wfuel : nat) (res : list (float * float * float))
      (k : Z) (cum xm : list float) :
  integrate_closed_form_trace fuel (fin_rows xs) theta params = Some (Ok res) ->
  (Z.to_nat (nc params) <= wfuel)%nat ->
  let start := mkWalk cum xm (map ofZ (cells xf p)) in
  (exists out, walk_loop theta k p (map snd res) wfuel start = Some out) /\
  (forall j st,
      walk_passes theta k p (map snd res) j start = Some st ->
      (Z.of_nat j <= nc params - 1)%Z).
Proof.
  intros Htrace Hfuel. cbv zeta.
  destruct (trace_cells fuel res Htrace) as (zm & Hzm & Hrange & Hlen).
  destruct start_cells as [Hcells Hcrange].
  rewrite Hzm, Hcells.
  assert (Hw : within zm (Z.to_nat (nc p - 1)) (map (cellR p) (concat xsb))).
  { apply within_cells; try assumption. now rewrite length_map. }
  split.
  - apply (walk_loop_total theta k p zm (Z.to_nat (nc p - 1)) wfuel
                           (mkWalk cum xm (map ofZ (map (cellR p) (concat xsb))))
                           (map (cellR p) (concat xsb)) eq_refl Hw).
    cbn [nc p resolved set_cache]. lia.
  - intros j st Hrun.
    pose proof (walk_passes_bound theta k p zm (Z.to_nat (nc p - 1)) j
                  (mkWalk cum xm (map ofZ (map (cellR p) (concat xsb)))) st
                  (map (cellR p) (concat xsb)) eq_refl Hw Hrun) as Hj.
    cbn [nc p resolved set_cache] in Hj. lia.
Qed.

Lemma derivative_of_trace (fuel wfuel : nat)
      (res : list (float * float * float)) :
  integrate_closed_form_trace fuel (fin_rows xs) theta params = Some (Ok res) ->
  (Z.to_nat (nc params) <= wfuel)%nat ->
  exists out,
    derivative_closed_form fuel wfuel (fin_rows xs) theta params = Some out.
Proof.
  intros Htrace Hfuel. unfold derivative_closed_form.
  rewrite Htrace. cbn [obind].
  destruct (reshape_rows _ _) as [phi|e]; cbn [obind]; [|eexists; reflexivity].
  destruct (domain_setup params theta AR xs xsb n m Hres Hn Hn0 Hbc Hrect)
    as [Hbe Hpre].
  rewrite Hbe. cbn [obind]. rewrite Hpre. cbn [obind]. fold xf p.
  match goal with
  | |- context [omapM ?f ?l] =>
      destruct (omapM_total f l) as [[der | e] Hder]
  end.
  - intros k. unfold derivative_component.
    destruct (walk_of_trace fuel wfuel res (Z.of_nat k)
                (map (fun _ => Fin 0) xf) xf Htrace Hfuel) as [[out Hout] _].
    cbv zeta in Hout. rewrite Hout.
    destruct out as [st|e]; cbn [obind]; [|eexists; reflexivity].
    destruct (derivative_psi_theta _ _ _ _ _); cbn [obind];
      [|eexists; reflexivity].
    destruct (derivative_phi_time _ _ _ _ _); cbn [obind];
      eexists; reflexivity.
  - rewrite Hder. cbn [obind]. eexists; reflexivity.
  - rewrite Hder. cbn [obind]. eexists; reflexivity.
Qed.
End WalkOfTrace.

(** C10: the cell walk of [derivative_closed_form] ends for every trace
    that [integrate_closed_form_trace] produces from real inputs, though
    the loop has no counter: a pass adds [sign (cm - c)] to every
    working cell, the recorded cells [cm] and the start cells are cells
    of the grid, so the largest distance shrinks by one at every pass;
    the loop goes on at most [nc - 1] times, fuel [nc] is enough for it,
    and the call returns. *)
Theorem derivative_walk_terminates
        (params : Params) (theta : list (list float))
        (AR : list (list (R * R))) (xs xsb : list (list R)) (n m : nat)
        (fuel wfuel : nat) (res : list (float * float * float)) (k : Z) :
  xmin params < xmax params -> (0 < nc params)%Z ->
  mapM (resolve_row (B params)) theta = Ok (fin_field AR) ->
  Forall (fun row => Z.of_nat (length row) = nc params) AR ->
  length theta = n -> n <> O ->
  broadcast_to (fin_rows xs) n = Ok (fin_rows xsb) -> rect n m xsb ->
  integrate_closed_form_trace fuel (fin_rows xs) theta params = Some (Ok res) ->
  (Z.to_nat (nc params) <= wfuel)%nat ->
  let xf := concat (fin_rows xsb) in
  let p := resolved params (fin_field AR)
                    (map snd (tag_rows 0 (fin_rows xsb))) in
  let start := mkWalk (map (fun _ => Fin 0) xf) xf (map ofZ (cells xf p)) in
  batch_effect (fin_rows xs) theta = Ok xf /\
  precompute_affine xf theta params = Ok p /\
  (exists out, walk_loop theta k p (map snd res) wfuel start = Some out) /\
  (forall j st,
      walk_passes theta k p (map snd res) j start = Some st ->
      (Z.of_nat j <= nc params - 1)%Z) /\
  (exists out,
      derivative_closed_form fuel wfuel (fin_rows xs) theta params = Some out).
Proof.
  intros Hdom Hnc Hres Hrows Hn Hn0 Hbc Hrect Htrace Hfuel. cbv zeta.
  destruct (domain_setup params theta AR xs xsb n m Hres Hn Hn0 Hbc Hrect)
    as [Hbe Hpre].
  destruct (walk_of_trace params theta AR xs xsb n m Hdom Hnc Hres Hrows Hn Hn0
              Hbc Hrect fuel wfuel res k
              (map (fun _ => Fin 0) (concat (fin_rows xsb)))
              (concat (fin_rows xsb)) Htrace Hfuel) as [Hloop Hpasses].
  repeat split; try assumption.
  apply (derivative_of_trace params theta AR xs xsb n m Hdom Hnc Hres Hrows Hn
           Hn0 Hbc Hrect fuel wfuel res Htrace Hfuel).
Qed.

Lemma derivative_walk_terminates_witness :
  exists out,
    derivative_closed_form 3 2 (fin_rows [[1 / 2]]) [[Fin 1]]
                           (two_cells (uniform_B 0 1)) = Some out.
Proof.
  exact (proj2 (proj2 (proj2 (proj2
           (derivative_walk_terminates
              (two_cells (uniform_B 0 1)) [[Fin 1]] (uniform_field 0 1)
              [[1 / 2]] [[1 / 2]] 1 1 3 2
              [(Fin (3 / 2), Fin 1, ofZ 1)] 0%Z
              ltac:(cbn; lra) ltac:(cbn; lia)
              (resolve_uniform 0 1)
              ltac:(repeat constructor)
              eq_refl ltac:(discriminate) eq_refl
              ltac:(split; repeat constructor)
              (unit_velocity_trace (uniform_B 0 1) [[Fin 1]] 3
                                   (resolve_uniform 0 1) ltac:(lia))
              ltac:(cbn; lia)))))).
Defined.

(** ** C4: both branches are computed, then one is selected *)

Lemma div_by_zero_cases (b : R) :
  (Fin b / Fin 0)%fl = NaN \/ (Fin b / Fin 0)%fl = PInf
  \/ (Fin b / Fin 0)%fl = NInf.
Proof.
  cbn [fdiv]. rewrite Req_bool_true by reflexivity.
  destruct (Req_bool b 0); [now left|].
  destruct (Rltb 0 b); [right; now left | right; now right].
Qed.

Lemma psi_x2_at_zero (b x t : R) :
  (fexp (Fin t * Fin 0) * (Fin x + Fin b / Fin 0) - Fin b / Fin 0)%fl = NaN.
Proof.
  pose proof (exp_pos (t * 0)) as HE.
  destruct (div_by_zero_cases b) as [-> | [-> | ->]]; cbn [fmul fexp fadd];
    try reflexivity; unfold inf_times;
    rewrite Req_bool_false, Rltb_true by lra; reflexivity.
Qed.

Lemma hit_x2_at_zero (b x xc : R) :
  (flog ((Fin xc + Fin b / Fin 0) / (Fin x + Fin b / Fin 0)) / Fin 0)%fl = NaN.
Proof.
  destruct (div_by_zero_cases b) as [-> | [-> | ->]]; reflexivity.
Qed.

(** The elements of the arrays of a call, as tuples [(a, b, x, t)]. *)
Lemma psi_branches_pointwise (l : list (R * R * R * R)) :
  psi_branches (map (fun '(a, _, _, _) => Fin a) l)
               (map (fun '(_, b, _, _) => Fin b) l)
               (map (fun '(_, _, x, _) => Fin x) l)
               (map (fun '(_, _, _, t) => Fin t) l)
  = (map (fun '(a, _, _, _) => Req_bool a 0) l,
     map (fun '(_, b, x, t) => Fin (x + t * b)) l,
     map (fun '(a, b, x, t) =>
            if Req_bool a 0 then NaN
            else Fin (exp (t * a) * (x + b / a) - b / a)) l).
Proof.
  unfold psi_branches, vadd, vsub, vmul, vdiv. fuse.
  f_equal; [f_equal|]; apply map_ext; intros [[[a b] x] t]; try reflexivity.
  unfold Req_bool. destruct (Req_dec_T a 0) as [-> | Ha].
  - apply psi_x2_at_zero.
  - rewrite fdiv_Fin by exact Ha. reflexivity.
Qed.

Lemma hit_branches_pointwise (l : list (R * R * R * R)) :
  hit_branches (map (fun '(a, _, _, _) => Fin a) l)
               (map (fun '(_, b, _, _) => Fin b) l)
               (map (fun '(_, _, x, _) => Fin x) l)
               (map (fun '(_, _, _, xc) => Fin xc) l)
  = (map (fun '(a, _, _, _) => Req_bool a 0) l,
     map (fun '(_, b, x, xc) => (Fin (xc - x) / Fin b)%fl) l,
     map (fun '(a, b, x, xc) =>
            if Req_bool a 0 then NaN
            else (flog (Fin ((xc + b / a)) / Fin (x + b / a)) / Fin a)%fl) l).
Proof.
  unfold hit_branches, vadd, vsub, vmul, vdiv. fuse.
  f_equal; [f_equal|]; apply map_ext; intros [[[a b] x] xc]; try reflexivity.
  unfold Req_bool. destruct (Req_dec_T a 0) as [-> | Ha].
  - apply hit_x2_at_zero.
  - rewrite (fdiv_Fin b a) by exact Ha. reflexivity.
Qed.

Lemma vwhere_pointwise {P T : Type} (c : P -> bool) (f g : P -> T) (l : list P) :
  vwhere (map c l) (map f l) (map g l)
  = map (fun e => if c e then f e else g e) l.
Proof. unfold vwhere. fuse. reflexivity. Qed.

(** C4 (amended): [get_psi] and [get_hit_time] compute both branches for
    every element and select afterwards by [a == 0].  For real inputs,
    at every element whose slope is zero the branch for a slope that is
    not zero is computed all the same and is not a number (the division
    by zero goes through, its warning is silenced); the selection drops
    it, and the selected value is [x + t * b] in [get_psi] and
    [(xc - x) / b] in [get_hit_time]. *)
Theorem branches_selected_after_computing (l : list (R * R * R * R)) :
  let a := map (fun '(a, _, _, _) => Fin a) l in
  let b := map (fun '(_, b, _, _) => Fin b) l in
  let x := map (fun '(_, _, x, _) => Fin x) l in
  let t := map (fun '(_, _, _, t) => Fin t) l in
  (let '(cond, x1, x2) := psi_branches a b x t in
   cond = map (fun '(a, _, _, _) => Req_bool a 0) l /\
   x1 = map (fun '(_, b, x, t) => Fin (x + t * b)) l /\
   x2 = map (fun '(a, b, x, t) =>
               if Req_bool a 0 then NaN
               else Fin (exp (t * a) * (x + b / a) - b / a)) l /\
   vwhere cond x1 x2 = map (fun '(a, b, x, t) => Fin (psiR (a, b) x t)) l) /\
  (let '(cond, x1, x2) := hit_branches a b x t in
   cond = map (fun '(a, _, _, _) => Req_bool a 0) l /\
   x1 = map (fun '(_, b, x, xc) => (Fin (xc - x) / Fin b)%fl) l /\
   Forall2 (fun e x2i => let '(a, _, _, _) := e in a = 0 -> x2i = NaN) l x2 /\
   Forall2 (fun e r => let '(a, b, x, xc) := e in
                       a = 0 -> r = (Fin (xc - x) / Fin b)%fl)
           l (vwhere cond x1 x2)).
Proof.
  cbv zeta. split.
  - rewrite psi_branches_pointwise. repeat split.
    rewrite vwhere_pointwise. apply map_ext. intros [[[a b] x] t].
    unfold psiR, Req_bool. cbn [fst snd].
    destruct (Req_dec_T a 0); reflexivity.
  - rewrite hit_branches_pointwise. repeat split.
    + induction l as [|[[[a b] x] xc] l IH]; cbn [map]; constructor;
        [|exact IH].
      intros ->. rewrite Req_bool_true; reflexivity.
    + rewrite vwhere_pointwise.
      induction l as [|[[[a b] x] xc] l IH]; cbn [map]; constructor;
        [|exact IH].
      intros ->. rewrite Req_bool_true; reflexivity.
Qed.

(** C4, counterexample: for the slope [a = 0] (offset [b = 1], point
    [x = 0.5], time [t = 1], boundary [xc = 1]) the division [b / a] is
    carried out and is infinite, and the branch that the selection
    suppresses holds not-a-number, in [get_psi] as in [get_hit_time]:
    the invalid input is selected away after the arithmetic, not masked
    before it. *)
Lemma suppressed_branch_is_computed :
  (Fin 1 / Fin 0)%fl = PInf /\
  snd (psi_branches [Fin 0] [Fin 1] [Fin (1 / 2)] [Fin 1]) = [NaN] /\
  snd (hit_branches [Fin 0] [Fin 1] [Fin (1 / 2)] [Fin 1]) = [NaN].
Proof.
  split; [|split].
  - cbn [fdiv]. rewrite Req_bool_true, Req_bool_false, Rltb_true by lra.
    reflexivity.
  - pose proof (psi_branches_pointwise [(0, 1, 1 / 2, 1)]) as H.
    cbn [map] in H. rewrite H. cbn [snd].
    rewrite Req_bool_true; reflexivity.
  - pose proof (hit_branches_pointwise [(0, 1, 1 / 2, 1)]) as H.
    cbn [map] in H. rewrite H. cbn [snd].
    rewrite Req_bool_true; reflexivity.
Qed.

(** ** C6: the outer step of the numeric integrator *)

Lemma vwhere_same_cell (p : Params) (c : list Z) (xTemp xNum : list float) :
  vwhere (zipWith Z.eqb c (cells xTemp p)) xTemp xNum
  = zipWith3 (fun ci psi num => if (ci =? get_cell psi p)%Z then psi else num)
             c xTemp xNum.
Proof.
  unfold vwhere, cells. revert xTemp xNum.
  induction c as [|ci c IH]; intros xTemp xNum.
  - destruct xTemp, xNum; reflexivity.
  - destruct xTemp as [|psi xTemp]; [reflexivity|].
    destruct xNum as [|num xNum]; [reflexivity|].
    cbn [map zipWith zipWith3]. unfold fwhere at 1. f_equal. apply IH.
Qed.

Lemma numeric_step_spec (deltaT : R) (theta : list (list float)) (p : Params)
      (xPrev : list float) (c : list Z) (res : list float * list Z) :
  numeric_step deltaT theta p (xPrev, c) = Ok res ->
  exists xTemp xNum,
    get_psi xPrev (map (fun _ => Fin deltaT) xPrev) theta p = Ok xTemp /\
    get_phi_numeric xPrev deltaT theta p = Ok xNum /\
    nSteps2 p <> 0%Z /\
    repeatM (Z.to_nat (nSteps2 p))
            (midpoint_step (deltaT / IZR (nSteps2 p)) theta p) xPrev = Ok xNum /\
    fst res
    = zipWith3 (fun ci psi num => if (ci =? get_cell psi p)%Z then psi else num)
               c xTemp xNum /\
    snd res = cells (fst res) p.
Proof.
  unfold numeric_step.
  destruct (get_psi _ _ _ _) as [xTemp|e]; cbn [bind]; [|discriminate].
  destruct (get_phi_numeric _ _ _ _) as [xNum|e] eqn:Hnum; cbn [bind];
    [|discriminate].
  intros H. injection H as <-. exists xTemp, xNum. cbn [fst snd].
  rewrite vwhere_same_cell. unfold get_phi_numeric in Hnum.
  destruct (Z.eqb_spec (nSteps2 p) 0) as [|Hne]; [discriminate|].
  repeat split; assumption.
Qed.


(** *** One point in a uniform field on two cells *)

Section UniformPoint.
Variable Bm : list (list float).
Variable theta : list (list float).
Variables a b : R.

Let p : Params := two_cells_resolved Bm a b.
Let AR : list (list (R * R)) := uniform_field a b.

Lemma two_cells_velocity (y : R) :
  get_velocity [Fin y] theta p = Ok [Fin (velR (a, b) y)].
Proof.
  set (q := mkFpt (Fin y) (Fin 0) 0 0).
  assert (Hr : (0 <= fr q < Z.of_nat (length AR))%Z) by (cbn; lia).
  pose proof (get_velocity_pts theta p eq_refl [q]) as H.
  cbn [map fx fr q forallb] in H. change (set_r p [0%Z]) with p in H.
  rewrite (pt_ok_real p AR eq_refl (two_cells_rows Bm a b) (two_cells_nc Bm a b)
             (two_cells_dom Bm a b) q y eq_refl Hr) in H.
  rewrite (v_of_real p AR eq_refl (two_cells_rows Bm a b) (two_cells_nc Bm a b)
             (two_cells_dom Bm a b) q y eq_refl Hr) in H.
  rewrite (two_cells_abR Bm a b _ _ Hr) in H. exact H.
Qed.

Lemma two_cells_psi (y t : R) :
  get_psi [Fin y] [Fin t] theta p = Ok [Fin (psiR (a, b) y t)].
Proof.
  set (q := mkFpt (Fin y) (Fin t) 0 0).
  assert (Hr : (0 <= fr q < Z.of_nat (length AR))%Z) by (cbn; lia).
  pose proof (get_psi_pts theta p eq_refl [q]) as H.
  cbn [map fx ft fr q forallb] in H. change (set_r p [0%Z]) with p in H.
  rewrite (pt_ok_real p AR eq_refl (two_cells_rows Bm a b) (two_cells_nc Bm a b)
             (two_cells_dom Bm a b) q y eq_refl Hr) in H.
  rewrite (psi_of_real p AR eq_refl (two_cells_rows Bm a b) (two_cells_nc Bm a b)
             (two_cells_dom Bm a b) q y eq_refl Hr t eq_refl) in H.
  rewrite (two_cells_abR Bm a b _ _ Hr) in H. exact H.
Qed.

Lemma two_cells_midpoint (deltaT y : R) :
  midpoint_step deltaT theta p [Fin y]
  = Ok [Fin (y + deltaT * velR (a, b) (y + deltaT / 2 * velR (a, b) y))].
Proof.
  unfold midpoint_step. rewrite two_cells_velocity. cbn [bind map vadd zipWith fmul fadd].
  rewrite two_cells_velocity. reflexivity.
Qed.
End UniformPoint.

(** The run of the counterexample: field [v(x) = -x] in both cells,
    one outer step, one midpoint sub-step, start [x = 1/4]. *)
Lemma decay_run :
  let params := two_cells (uniform_B (-1) 0) in
  let theta := [[Fin 1]] in
  let p := two_cells_resolved (uniform_B (-1) 0) (-1) 0 in
  precompute_affine [Fin (1 / 4)] theta params = Ok p /\
  get_phi_numeric [Fin (1 / 4)] (1 / 1) theta p = Ok [Fin (1 / 8)] /\
  integrate_numeric [[Fin (1 / 4)]] theta params = Ok [[Fin (exp (-1) / 4)]].
Proof.
  cbv zeta.
  assert (Hpre : precompute_affine [Fin (1 / 4)] [[Fin 1]]
                                   (two_cells (uniform_B (-1) 0))
                 = Ok (two_cells_resolved (uniform_B (-1) 0) (-1) 0)).
  { apply (precompute_affine_resolved [[Fin 1]] (two_cells (uniform_B (-1) 0))
             _ (resolve_uniform (-1) 0) 1 1 [[Fin (1 / 4)]] eq_refl);
      [discriminate | split; repeat constructor]. }
  assert (Hnum : get_phi_numeric [Fin (1 / 4)] (1 / 1) [[Fin 1]]
                   (two_cells_resolved (uniform_B (-1) 0) (-1) 0)
                 = Ok [Fin (1 / 8)]).
  { unfold get_phi_numeric.
    cbn [nSteps2 two_cells_resolved resolved set_cache two_cells Z.eqb].
    change (Z.to_nat 1) with 1%nat. cbn [repeatM].
    rewrite two_cells_midpoint. cbn [bind]. unfold velR. cbn [fst snd].
    do 3 f_equal. lra. }
  pose proof (exp_pos (-1)) as He. pose proof (exp_le_1 (-1) ltac:(lra)) as He1.
  assert (Hpsi : psiR (-1, 0) (1 / 4) (1 / 1) = exp (-1) / 4).
  { unfold psiR. cbn [fst snd]. destruct (Req_dec_T (-1) 0) as [|_]; [lra|].
    replace (1 / 1 * -1) with (-1) by lra. lra. }
  split; [exact Hpre|]. split; [exact Hnum|].
  unfold integrate_numeric, batch_effect.
  cbn [length broadcast_to bind repeat concat app]. rewrite Hpre. cbn [bind].
  cbn [nSteps1 two_cells_resolved resolved set_cache two_cells Z.eqb].
  change (Z.to_nat 1) with 1%nat. cbn [repeatM].
  unfold numeric_step. cbn [map]. rewrite two_cells_psi. cbn [bind].
  rewrite Hnum. cbn [bind]. rewrite Hpsi.
  unfold cells. cbn [map].
  rewrite !(two_cells_cell (uniform_B (-1) 0) (-1) 0 _ 0)
    by (intros; try discriminate; lra || lia).
  cbn [zipWith Z.eqb vwhere zipWith3 fwhere bind].
  apply reshape_rows_single.
Qed.



(** ** The derivative, point by point *)

Lemma scatter_map {P T : Type} (m : P -> bool) (g h : P -> T) (l : list P) :
  scatter (map m l) (map g (filter m l)) (map h l)
  = map (fun q => if m q then g q else h q) l.
Proof.
  induction l as [|q l IH]; cbn [map filter scatter]; [reflexivity|].
  destruct (m q); cbn [map scatter]; now rewrite IH.
Qed.

Lemma forallb_andb {P : Type} (f g : P -> bool) (l : list P) :
  forallb (fun q => f q && g q) l = forallb f l && forallb g l.
Proof.
  induction l as [|q l IH]; cbn [forallb]; [reflexivity|].
  rewrite IH. destruct (f q), (g q), (forallb f l); reflexivity.
Qed.

Lemma take_B_map {P : Type} (Bm : list (list float)) (f : P -> Z) (k : Z)
      (pts : list P) :
  forallb (fun q => B_ok Bm (f q) k) pts = true ->
  take_B Bm (map f pts) k = Ok (map (fun q => B_D Bm (f q) k) pts).
Proof.
  unfold take_B. induction pts as [|q pts IH]; cbn [map forallb mapM];
    intros H; [reflexivity|].
  apply andb_prop in H. destruct H as [Hq Hl].
  unfold B_ok in Hq. unfold B_D at 1.
  change (bind (py_index Bm (f q)) (fun row => py_index row k))
    with (B_at Bm (f q) k).
  destruct (B_at Bm (f q) k); [|discriminate].
  cbn [bind]. rewrite (IH Hl). reflexivity.
Qed.

Section DerivativePointwise.
Variable theta : list (list float).
Variable p : Params.
Variable k : Z.
Hypothesis Hpre : precomputed p = true.

Section Kernels.
Variable pts : list fpt.
Hypothesis Hok : forallb (pt_ok p) pts = true.
Hypothesis Hbasis : forallb (basis_ok p k) pts = true.

Lemma basis_rows_ok :
  forallb (fun q => B_ok (B p) (2 * get_cell (fx q) p) k) pts = true /\
  forallb (fun q => B_ok (B p) (2 * get_cell (fx q) p + 1) k) pts = true.
Proof.
  unfold basis_ok in Hbasis. rewrite forallb_andb in Hbasis.
  now apply andb_prop in Hbasis.
Qed.

Lemma derivative_thit_theta_pts :
  derivative_thit_theta (map fx pts) theta k (set_r p (map fr pts))
  = Ok (map (dthit_of p k) pts).
Proof.
  destruct basis_rows_ok as [Ha Hb].
  unfold derivative_thit_theta. rewrite get_affine_pre by exact Hpre.
  cbn [bind]. rewrite (get_velocity_pts theta p Hpre).
  unfold cells. rewrite !map_map, !take_map.
  change (forallb (fun q => coef_ok _ _ _) pts) with (forallb (pt_ok p) pts).
  rewrite Hok. cbn [bind].
  rewrite (take_B_map _ (fun q => (2 * get_cell (fx q) p)%Z)) by exact Ha.
  cbn [bind].
  rewrite (take_B_map _ (fun q => (2 * get_cell (fx q) p + 1)%Z)) by exact Hb.
  cbn [bind].
  unfold vwhere, vadd, vsub, vmul, vdiv, vsquare. fuse. reflexivity.
Qed.

Lemma derivative_psi_theta_pts :
  derivative_psi_theta (map fx pts) (map ft pts) theta k (set_r p (map fr pts))
  = Ok (map (dpsi_theta_of p k) pts).
Proof.
  destruct basis_rows_ok as [Ha Hb].
  unfold derivative_psi_theta. rewrite get_affine_pre by exact Hpre.
  cbn [bind]. unfold cells. rewrite !map_map, !take_map.
  change (forallb (fun q => coef_ok _ _ _) pts) with (forallb (pt_ok p) pts).
  rewrite Hok. cbn [bind].
  rewrite (take_B_map _ (fun q => (2 * get_cell (fx q) p)%Z)) by exact Ha.
  cbn [bind].
  rewrite (take_B_map _ (fun q => (2 * get_cell (fx q) p + 1)%Z)) by exact Hb.
  cbn [bind].
  unfold vwhere, vadd, vsub, vmul, vdiv, vsquare. fuse. reflexivity.
Qed.

Lemma derivative_phi_time_pts :
  derivative_phi_time (map fx pts) (map ft pts) theta k (set_r p (map fr pts))
  = Ok (map (dphi_time_of p) pts).
Proof.
  unfold derivative_phi_time. rewrite get_affine_pre by exact Hpre.
  cbn [bind]. unfold cells. rewrite !map_map, !take_map.
  change (forallb (fun q => coef_ok _ _ _) pts) with (forallb (pt_ok p) pts).
  rewrite Hok. cbn [bind].
  unfold vwhere, vadd, vsub, vmul, vdiv. fuse. reflexivity.
Qed.
End Kernels.

(** One pass of the walk on the state whose points are [pts]. *)
Lemma walk_body_pts (pts : list wpt) :
  r p = map (fun w => fr (w_at w)) pts ->
  forallb (pt_ok p) (map w_at pts) = true ->
  forallb (basis_ok p k) (map w_at pts) = true ->
  walk_body theta k p (map w_final pts) (wpack pts)
  = if forallb wvalid pts then Ok (inl (wpack pts))
    else Ok (inr (wpack (map (wstep p k) pts))).
Proof.
  intros Hr Hok Hbasis. unfold walk_body, wpack. cbn [w_c w_xm w_cum].
  rewrite zipWith_map, alltrue_map.
  change (forallb _ pts) with (forallb wvalid pts).
  destruct (forallb wvalid pts); [reflexivity|].
  replace (derivative_thit_theta (map (fun w => fx (w_at w)) pts) theta k p)
    with (derivative_thit_theta (map fx (map w_at pts)) theta k
                                (set_r p (map fr (map w_at pts))))
    by (rewrite !map_map, <- Hr, set_r_self; reflexivity).
  rewrite (derivative_thit_theta_pts _ Hok Hbasis). cbn [bind].
  unfold vnot, vwhere, vadd, vsub. fuse.
  rewrite !select_map. fuse.
  rewrite !scatter_map. fuse. reflexivity.
Qed.
End DerivativePointwise.

(** ** The walk keeps its points in the grid *)

Lemma toward_self (a : Z) : toward a a = a.
Proof. unfold toward. rewrite Z.sub_diag. cbn. lia. Qed.

Lemma B_ok_in_range (Bm : list (list float)) (i k : Z) :
  (0 <= i < Z.of_nat (length Bm))%Z ->
  Forall (fun row => (0 <= k < Z.of_nat (length row))%Z) Bm ->
  B_ok Bm i k = true.
Proof.
  intros Hi Hrow. unfold B_ok, B_at.
  rewrite (py_index_ok Bm i []) by exact Hi. cbn [bind].
  assert (Hin : In (nth (Z.to_nat i) Bm []) Bm) by (apply nth_In; lia).
  rewrite Forall_forall in Hrow. specialize (Hrow _ Hin).
  rewrite (py_index_ok _ k NaN) by exact Hrow. reflexivity.
Qed.

Section WalkInvariant.
Variable p : Params.
Variable AR : list (list (R * R)).
Variable k : Z.
Hypothesis HA : A p = fin_field AR.
Hypothesis Hrows : Forall (fun row => Z.of_nat (length row) = nc p) AR.
Hypothesis Hnc : (0 < nc p)%Z.
Hypothesis Hdom : xmin p < xmax p.
Hypothesis HBlen : Z.of_nat (length (B p)) = (2 * nc p)%Z.
Hypothesis HBrow : Forall (fun row => (0 <= k < Z.of_nat (length row))%Z) (B p).

Lemma walk_inv_ok (w : wpt) :
  walk_inv AR w -> pt_ok p (w_at w) = true /\ basis_ok p k (w_at w) = true.
Proof.
  intros ([x Hx] & Hr & _). split.
  - apply (pt_ok_real p AR HA Hrows Hnc Hdom (w_at w) x Hx Hr).
  - unfold basis_ok. rewrite Hx, (get_cell_cellR p Hdom).
    pose proof (cellR_range p Hnc x) as Hc.
    rewrite !B_ok_in_range by (try exact HBrow; lia). reflexivity.
Qed.

Lemma wedge_real (w : wpt) (zc : Z) :
  w_cell w = ofZ zc -> exists y, wedge p w = Fin y.
Proof.
  intros Hc. unfold wedge. rewrite Hc.
  rewrite (left_boundary_R p Hnc), (right_boundary_R p Hnc).
  destruct (_ ==? _)%fl; eexists; reflexivity.
Qed.

Lemma walk_inv_step (w : wpt) : walk_inv AR w -> walk_inv AR (wstep p k w).
Proof.
  intros ([x Hx] & Hr & [zc Hc] & [zm Hm]). unfold walk_inv, wstep.
  cbn [w_at w_cell w_final set_fx fx fr]. repeat split.
  - destruct (negb (wvalid w)); [apply (wedge_real w zc Hc) | now exists x].
  - lia.
  - lia.
  - exists (toward zc zm). unfold wdir. rewrite Hc, Hm. apply toward_ofZ.
  - now exists zm.
Qed.

Lemma wstep_valid (w : wpt) :
  walk_inv AR w -> wvalid w = true -> wstep p k w = w.
Proof.
  intros (_ & _ & [zc Hc] & [zm Hm]) Hv. unfold wstep, wdir.
  rewrite Hv. unfold wvalid in Hv. rewrite Hc, Hm in *.
  rewrite feq_ofZ in Hv. apply Z.eqb_eq in Hv. subst zm.
  rewrite toward_ofZ, toward_self. cbn [negb].
  destruct w as [[x t ri c] s cell final]. unfold set_fx. cbn in *.
  subst. reflexivity.
Qed.

Lemma wstep_crossing (w : wpt) :
  wvalid w = false -> wstep p k w = crossing p k w.
Proof. intros Hv. unfold wstep, crossing. rewrite Hv. reflexivity. Qed.

Lemma walk_inv_iter (j : nat) (w : wpt) :
  walk_inv AR w -> walk_inv AR (Nat.iter j (wstep p k) w).
Proof.
  intros Hw. induction j as [|j IH]; cbn [Nat.iter nat_rect]; [exact Hw|].
  apply walk_inv_step. exact IH.
Qed.

Lemma iter_valid (j : nat) (w : wpt) :
  walk_inv AR w -> wvalid w = true -> Nat.iter j (wstep p k) w = w.
Proof.
  intros Hw Hv. induction j as [|j IH]; [reflexivity|].
  rewrite Nat.iter_succ, IH. apply wstep_valid; assumption.
Qed.

(** The walk of one point, as the claim words it, ends where the passes
    of the array loop leave the point. *)
Lemma walk_point_iter :
  forall (fuel j : nat) (w : wpt),
    walk_inv AR w ->
    wvalid (Nat.iter j (wstep p k) w) = true -> (j <= fuel)%nat ->
    walk_point p k fuel w = Nat.iter j (wstep p k) w.
Proof.
  induction fuel as [|fuel IH]; intros j w Hw Hv Hj.
  - replace j with O by lia. reflexivity.
  - cbn [walk_point]. destruct (wvalid w) eqn:Hvw.
    + symmetry. apply iter_valid; assumption.
    + destruct j as [|j]; [cbn in Hv; congruence|].
      rewrite Nat.iter_succ_r in Hv |- *.
      rewrite <- (wstep_crossing w Hvw).
      apply IH; [apply walk_inv_step; exact Hw | exact Hv | lia].
Qed.

Section Loop.
Variable theta : list (list float).
Hypothesis Hpre : precomputed p = true.

Lemma walk_inv_all_ok (pts : list wpt) :
  Forall (walk_inv AR) pts ->
  forallb (pt_ok p) (map w_at pts) = true /\
  forallb (basis_ok p k) (map w_at pts) = true.
Proof.
  intros H. rewrite !forallb_forall. split; intros q Hq;
    apply in_map_iff in Hq; destruct Hq as (w & <- & Hin);
    rewrite Forall_forall in H; apply (walk_inv_ok w (H w Hin)).
Qed.

(** A walk that returns made some number of passes, each the pass of
    every point, and stopped with every point in its final cell. *)
Lemma walk_loop_pts :
  forall (fuel : nat) (pts : list wpt) out,
    r p = map (fun w => fr (w_at w)) pts ->
    Forall (walk_inv AR) pts ->
    walk_loop theta k p (map w_final pts) fuel (wpack pts) = Some out ->
    exists j,
      (j < fuel)%nat /\
      out = Ok (wpack (map (Nat.iter j (wstep p k)) pts)) /\
      forallb wvalid (map (Nat.iter j (wstep p k)) pts) = true.
Proof.
  induction fuel as [|fuel IH]; intros pts out Hr Hinv Hrun;
    cbn [walk_loop] in Hrun; [discriminate|].
  destruct (walk_inv_all_ok pts Hinv) as [Hok Hbasis].
  rewrite (walk_body_pts theta p k Hpre pts Hr Hok Hbasis) in Hrun.
  destruct (forallb wvalid pts) eqn:Hall.
  - exists O. cbn [Nat.iter nat_rect]. rewrite map_id.
    repeat split; [lia | congruence | exact Hall].
  - destruct (IH (map (wstep p k) pts) out) as (j & Hj & Hout & Hv).
    + rewrite map_map. exact Hr.
    + apply Forall_map. eapply Forall_impl; [|exact Hinv].
      apply walk_inv_step.
    + rewrite map_map. exact Hrun.
    + exists (S j). rewrite map_map in Hout, Hv.
      rewrite (map_ext (Nat.iter (S j) (wstep p k))
                       (fun w => Nat.iter j (wstep p k) (wstep p k w)))
        by (intros w; apply Nat.iter_succ_r).
      repeat split; [lia | exact Hout | exact Hv].
Qed.
End Loop.
End WalkInvariant.

(** ** The shape of the basis matrix *)

Lemma pairs_length (ps : list (float * float)) :
  forall l, pairs l = Ok ps -> length l = (2 * length ps)%nat.
Proof.
  induction ps as [|ab ps IH]; intros [|a [|b l]]; cbn [pairs]; intros H;
    try discriminate; try reflexivity.
  - destruct (pairs l); discriminate.
  - destruct (pairs l) as [ps'|] eqn:Hl; cbn [bind] in H; [|discriminate].
    injection H as _ ->. cbn [length]. rewrite (IH l Hl). lia.
Qed.

Lemma dot_rows_length (th : list float) (Bm : list (list float)) :
  forall coeffs,
    mapM (fun row => dot row th) Bm = Ok coeffs ->
    Forall (fun row => length row = length th) Bm.
Proof.
  induction Bm as [|row Bm IH]; intros coeffs H; [constructor|].
  cbn [mapM] in H. unfold dot at 1 in H.
  destruct (Nat.eqb_spec (length row) (length th)) as [Hlen|];
    [|discriminate].
  cbn [bind] in H.
  destruct (mapM _ Bm) as [cs|] eqn:Hcs; [|discriminate].
  constructor; [exact Hlen | apply (IH cs eq_refl)].
Qed.

Lemma basis_shape (params : Params) (th : list float)
      (theta : list (list float)) (AR : list (list (R * R))) :
  mapM (resolve_row (B params)) (th :: theta) = Ok (fin_field AR) ->
  Forall (fun row => Z.of_nat (length row) = nc params) AR ->
  Z.of_nat (length (B params)) = (2 * nc params)%Z /\
  Forall (fun row => length row = length th) (B params).
Proof.
  intros Hres Hrows. cbn [mapM] in Hres.
  destruct (resolve_row (B params) th) as [row|] eqn:Hrow; [|discriminate].
  cbn [bind] in Hres.
  destruct (mapM _ theta) as [rest|]; [|discriminate].
  cbn [bind] in Hres. destruct AR as [|ar AR']; [discriminate|].
  injection Hres as Hr _. inversion Hrows as [|? ? Har _]; subst.
  unfold resolve_row in Hrow.
  destruct (mapM _ (B params)) as [coeffs|] eqn:Hdot; [|discriminate].
  cbn [bind] in Hrow. split.
  - apply pairs_length in Hrow. apply mapM_length in Hdot.
    rewrite length_map in Hrow. lia.
  - apply (dot_rows_length th _ coeffs Hdot).
Qed.

(** ** One component of the gradient *)

Section ZipLemmas.
Context {T U V W : Type}.

Lemma zipWith_length (g : T -> U -> V) (l1 : list T) (l2 : list U) :
  length l1 = length l2 -> length (zipWith g l1 l2) = length l1.
Proof.
  revert l2. induction l1 as [|a l1 IH]; intros [|b l2] H; try discriminate;
    cbn; [reflexivity|]. f_equal. apply IH. now injection H.
Qed.

Lemma map_zipWith_l (f : V -> W) (g : T -> U -> V) (h : T -> W)
      (l1 : list T) (l2 : list U) :
  length l1 = length l2 -> (forall a b, f (g a b) = h a) ->
  map f (zipWith g l1 l2) = map h l1.
Proof.
  intros Hlen Hf. revert l2 Hlen.
  induction l1 as [|a l1 IH]; intros [|b l2] H; try discriminate; cbn;
    [reflexivity|]. rewrite Hf. f_equal. apply IH. now injection H.
Qed.

Lemma map_zipWith_r (f : V -> W) (g : T -> U -> V) (h : U -> W)
      (l1 : list T) (l2 : list U) :
  length l1 = length l2 -> (forall a b, f (g a b) = h b) ->
  map f (zipWith g l1 l2) = map h l2.
Proof.
  intros Hlen Hf. revert l2 Hlen.
  induction l1 as [|a l1 IH]; intros [|b l2] H; try discriminate; cbn;
    [reflexivity|]. rewrite Hf. f_equal. apply IH. now injection H.
Qed.

Lemma Forall_zipWith (Q : V -> Prop) (g : T -> U -> V)
      (l1 : list T) (l2 : list U) :
  (forall a b, In a l1 -> In b l2 -> Q (g a b)) -> Forall Q (zipWith g l1 l2).
Proof.
  revert l2. induction l1 as [|a l1 IH]; intros [|b l2] H; cbn;
    try constructor.
  - apply H; now left.
  - apply IH. intros a' b' Ha Hb. apply H; now right.
Qed.
End ZipLemmas.

Lemma wstep_keeps (p : Params) (k : Z) (j : nat) (w : wpt) :
  ft (w_at (Nat.iter j (wstep p k) w)) = ft (w_at w) /\
  fr (w_at (Nat.iter j (wstep p k) w)) = fr (w_at w) /\
  w_final (Nat.iter j (wstep p k) w) = w_final w.
Proof.
  induction j as [|j (IH1 & IH2 & IH3)]; [repeat split|].
  rewrite Nat.iter_succ. unfold wstep at 1 3 5.
  cbn [w_at w_final set_fx ft fr]. repeat split; assumption.
Qed.

Lemma omapM_map {T U : Type} (f : T -> outcome U) (g : T -> U) (l : list T) :
  (forall a, In a l -> f a = Some (Ok (g a))) ->
  omapM f l = Some (Ok (map g l)).
Proof.
  induction l as [|a l IH]; intros H; cbn [omapM map]; [reflexivity|].
  rewrite (H a) by now left. cbn [obind].
  rewrite IH by (intros a' Ha'; apply H; now right). reflexivity.
Qed.

Section Component.
Variable p : Params.
Variable AR : list (list (R * R)).
Variable k : Z.
Variable theta : list (list float).
Hypothesis Hpre : precomputed p = true.
Hypothesis HA : A p = fin_field AR.
Hypothesis Hrows : Forall (fun row => Z.of_nat (length row) = nc p) AR.
Hypothesis Hnc : (0 < nc p)%Z.
Hypothesis Hdom : xmin p < xmax p.
Hypothesis HBlen : Z.of_nat (length (B p)) = (2 * nc p)%Z.
Hypothesis HBrow : Forall (fun row => (0 <= k < Z.of_nat (length row))%Z) (B p).

Variable pts : list wpt.
Hypothesis Hr : r p = map (fun w => fr (w_at w)) pts.
Hypothesis Hinv : Forall (walk_inv AR) pts.
Hypothesis Hstart :
  Forall (fun w => w_sens w = Fin 0 /\
                   w_cell w = ofZ (get_cell (fx (w_at w)) p)) pts.

(** The body of the loop over the components, on the walk points: when
    the walk returns, every point has the value of the chain rule at the
    end of its own walk, and that walk has reached the final cell. *)
Lemma derivative_component_pts (wfuel : nat) :
  (exists out, walk_loop theta k p (map w_final pts) wfuel (wpack pts)
               = Some out) ->
  derivative_component theta k p (map w_final pts) wfuel
                       (map (fun w => fx (w_at w)) pts)
                       (map (fun w => ft (w_at w)) pts)
  = Some (Ok (map (chain_rule_point p k wfuel) pts)) /\
  Forall (fun w => wvalid (walk_point p k wfuel w) = true) pts.
Proof.
  intros [out Hout].
  destruct (walk_loop_pts p AR k HA Hrows Hnc Hdom HBlen HBrow theta Hpre
              wfuel pts out Hr Hinv Hout) as (j & Hj & -> & Hv).
  assert (Hwalk : forall w, In w pts ->
                            walk_point p k wfuel w = Nat.iter j (wstep p k) w).
  { intros w Hin. rewrite Forall_forall in Hinv.
    apply (walk_point_iter p AR k Hnc); [apply Hinv; exact Hin | | lia].
    rewrite forallb_forall in Hv. apply Hv. now apply in_map. }
  split.
  - unfold derivative_component.
    replace (mkWalk _ _ _) with (wpack pts).
    2:{ unfold wpack, cells. rewrite !map_map. f_equal.
        - apply map_ext_in. intros w Hin. rewrite Forall_forall in Hstart.
          apply (Hstart w Hin).
        - apply map_ext_in. intros w Hin. rewrite Forall_forall in Hstart.
          apply (Hstart w Hin). }
    rewrite Hout. cbn [obind].
    set (ends := map (Nat.iter j (wstep p k)) pts).
    assert (Hends : Forall (walk_inv AR) ends).
    { apply Forall_map. eapply Forall_impl; [|exact Hinv].
      intros w. apply (walk_inv_iter p AR k Hnc). }
    destruct (walk_inv_all_ok p AR k HA Hrows Hnc Hdom HBlen HBrow ends Hends)
      as [Hok Hbasis].
    assert (Ht : map (fun w => ft (w_at w)) pts = map ft (map w_at ends)).
    { unfold ends. rewrite !map_map. apply map_ext. intros w.
      symmetry. apply (wstep_keeps p k j w). }
    assert (Hre : p = set_r p (map fr (map w_at ends))).
    { unfold ends. rewrite !map_map.
      rewrite (map_ext _ (fun w => fr (w_at w)))
        by (intros w; apply (wstep_keeps p k j w)).
      rewrite <- Hr. symmetry. apply set_r_self. }
    cbn [w_xm w_cum wpack]. rewrite Ht.
    rewrite <- (map_map w_at fx ends).
    rewrite Hre at 1.
    rewrite (derivative_psi_theta_pts theta p k Hpre _ Hok Hbasis).
    cbn [obind]. rewrite Hre at 1.
    rewrite (derivative_phi_time_pts theta p k Hpre _ Hok).
    cbn [obind]. unfold vadd, vmul. fuse. unfold ends. rewrite map_map.
    do 2 f_equal. apply map_ext_in. intros w Hin.
    unfold chain_rule_point. rewrite (Hwalk w Hin). reflexivity.
  - apply Forall_forall. intros w Hin. rewrite (Hwalk w Hin).
    rewrite forallb_forall in Hv. apply Hv. now apply in_map.
Qed.
End Component.

(** ** C3 *)

Lemma broadcast_points (x xb : list (list float)) (n m : nat) :
  broadcast_to x n = Ok xb -> n <> O -> rect n m xb ->
  length (hd [] x) = m.
Proof.
  unfold broadcast_to. intros Hbc Hn0 [Hlen Hm].
  destruct x as [|row [|row2 x']].
  - cbn in Hbc. destruct n; [contradiction | discriminate].
  - injection Hbc as <-. destruct n as [|n']; [contradiction|].
    cbn in Hm. now inversion Hm.
  - destruct (_ =? _)%nat; [|discriminate]. injection Hbc as <-.
    cbn. now inversion Hm.
Qed.

Lemma reshape_rows_rect {T : Type} (n m : nat) (l : list T) :
  n <> O -> length l = (n * m)%nat -> reshape_rows n l = Ok (chunks m n l).
Proof.
  intros Hn Hl. unfold reshape_rows.
  destruct (Nat.eqb_spec n 0) as [|_]; [contradiction|].
  rewrite Hl, Nat.mul_comm, Nat.Div0.mod_mul, Nat.div_mul by exact Hn.
  reflexivity.
Qed.

Section ChainRule.
Variable params : Params.
Variable theta : list (list float).
Variable AR : list (list (R * R)).
Variables xs xsb : list (list R).
Variables n m : nat.
Hypothesis Hdom : xmin params < xmax params.
Hypothesis Hnc : (0 < nc params)%Z.
Hypothesis Hres : mapM (resolve_row (B params)) theta = Ok (fin_field AR).
Hypothesis Hrows : Forall (fun row => Z.of_nat (length row) = nc params) AR.
Hypothesis Hn : length theta = n.
Hypothesis Hn0 : n <> O.
Hypothesis Hbc : broadcast_to (fin_rows xs) n = Ok (fin_rows xsb).
Hypothesis Hrect : rect n m xsb.

Variables fuel wfuel : nat.
Variable res : list (float * float * float).
Hypothesis Htrace :
  integrate_closed_form_trace fuel (fin_rows xs) theta params = Some (Ok res).
Hypothesis Hfuel : (Z.to_nat (nc params) <= wfuel)%nat.

Let xf : list float := concat (fin_rows xsb).
Let p : Params :=
  resolved params (fin_field AR) (map snd (tag_rows 0 (fin_rows xsb))).
Let pts : list wpt := zipWith (walk_start p) (tag_rows 0 xsb) res.

Lemma trace_rows :
  length (tag_rows 0 xsb) = length res /\
  length res = (n * m)%nat /\
  Forall (fun row => exists z, snd row = ofZ z) res.
Proof.
  destruct (trace_cells params theta AR xs xsb n m Hdom Hnc Hres Hrows Hn Hn0
              Hbc Hrect fuel res Htrace) as (zm & Hzm & _ & Hlen).
  assert (Hres_len : length res = length (concat xsb)).
  { rewrite <- Hlen, <- (length_map snd res), Hzm. apply length_map. }
  repeat split.
  - rewrite <- (length_map fst), tag_rows_fst. congruence.
  - rewrite Hres_len. apply (length_concat_rect n m xsb Hrect).
  - apply Forall_forall. intros row Hin.
    apply (in_map snd) in Hin. rewrite Hzm in Hin.
    apply in_map_iff in Hin. destruct Hin as (z & Hz & _). now exists z.
Qed.

Lemma walk_points_facts :
  length pts = (n * m)%nat /\
  map (fun w => fx (w_at w)) pts = xf /\
  map (fun w => ft (w_at w)) pts = map (fun row => snd (fst row)) res /\
  map w_final pts = map snd res /\
  r p = map (fun w => fr (w_at w)) pts /\
  Forall (walk_inv AR) pts /\
  Forall (fun w => w_sens w = Fin 0 /\
                   w_cell w = ofZ (get_cell (fx (w_at w)) p)) pts.
Proof.
  destruct trace_rows as (Hlen & Hnm & Hfinal). unfold pts.
  repeat split.
  - rewrite (zipWith_length _ _ _ Hlen). congruence.
  - rewrite (map_zipWith_l _ _ (fun xr => Fin (fst xr)) _ _ Hlen)
      by reflexivity.
    unfold xf, fin_rows. rewrite <- concat_map, <- (tag_rows_fst 0 xsb).
    now rewrite map_map.
  - apply (map_zipWith_r _ _ _ _ _ Hlen). reflexivity.
  - apply (map_zipWith_r _ _ _ _ _ Hlen). reflexivity.
  - rewrite (map_zipWith_l _ _ snd _ _ Hlen) by reflexivity.
    cbn [r p resolved set_cache]. unfold fin_rows.
    rewrite tag_rows_map, map_map. reflexivity.
  - apply Forall_zipWith. intros xr row Hxr Hrow.
    unfold walk_inv, walk_start. cbn [w_at w_cell w_final fx fr].
    pose proof (tag_rows_range 0 xsb) as Hrange.
    rewrite Forall_forall in Hrange. specialize (Hrange xr Hxr).
    destruct Hrect as [Hlenx _]. rewrite Hlenx in Hrange.
    rewrite (resolved_length theta params AR n Hres Hn).
    rewrite Forall_forall in Hfinal.
    repeat split; try lia; [eexists; reflexivity | eexists; reflexivity
                           | apply (Hfinal row Hrow)].
  - apply Forall_zipWith. intros xr row _ _. split; reflexivity.
Qed.

Lemma derivative_slices :
  derivative_closed_form fuel wfuel (fin_rows xs) theta params
  = Some (Ok (chunks m n (map (fun row => fst (fst row)) res),
              map (fun k => chunks m n
                              (map (chain_rule_point p (Z.of_nat k) wfuel) pts))
                  (seq 0 (length (hd [] theta))))) /\
  (forall k, (k < length (hd [] theta))%nat ->
             Forall (fun w => wvalid (walk_point p (Z.of_nat k) wfuel w) = true)
                    pts).
Proof.
  destruct trace_rows as (Hlen & Hnm & _).
  destruct walk_points_facts as (Hpl & Hx & Ht & Hm & Hr & Hinv & Hstart).
  destruct theta as [|th theta'] eqn:Htheta; [cbn in Hn; congruence|].
  rewrite <- Htheta in *.
  assert (Hshape := Hres). rewrite Htheta in Hshape.
  apply basis_shape in Hshape; [|exact Hrows].
  destruct Hshape as [HBlen HBrow].
  assert (Hcomp : forall k, (k < length th)%nat ->
             derivative_component theta (Z.of_nat k) p (map snd res) wfuel xf
                                  (map (fun row => snd (fst row)) res)
             = Some (Ok (map (chain_rule_point p (Z.of_nat k) wfuel) pts)) /\
             Forall (fun w => wvalid (walk_point p (Z.of_nat k) wfuel w) = true)
                    pts).
  { intros k Hk. rewrite <- Hm, <- Hx, <- Ht.
    apply (derivative_component_pts p AR (Z.of_nat k) theta eq_refl eq_refl
             Hrows Hnc Hdom HBlen).
    - eapply Forall_impl; [|exact HBrow]. cbn. intros row Hrow. lia.
    - exact Hr.
    - exact Hinv.
    - exact Hstart.
    - rewrite Hm.
      destruct (walk_of_trace params theta AR xs xsb n m Hdom Hnc Hres Hrows Hn
                  Hn0 Hbc Hrect fuel wfuel res (Z.of_nat k)
                  (map w_sens pts) (map (fun w => fx (w_at w)) pts)
                  Htrace Hfuel) as [Hloop _].
      cbv zeta in Hloop. unfold wpack.
      replace (map w_cell pts)
        with (map ofZ (cells (concat (fin_rows xsb))
                             (resolved params (fin_field AR)
                                (map snd (tag_rows 0 (fin_rows xsb)))))).
      + exact Hloop.
      + fold xf p. rewrite <- Hx. unfold cells. rewrite !map_map.
        apply map_ext_in. intros w Hin. rewrite Forall_forall in Hstart.
        symmetry. apply (Hstart w Hin). }
  split.
  - unfold derivative_closed_form. rewrite Htrace. cbn [obind].
    rewrite Hn.
    rewrite (reshape_rows_rect n m) by (try rewrite length_map; assumption).
    cbn [obind].
    destruct (domain_setup params theta AR xs xsb n m Hres Hn Hn0 Hbc Hrect)
      as [Hbe Hpre].
    rewrite Hbe. cbn [obind]. rewrite Hpre. cbn [obind]. fold xf p.
    rewrite (omapM_map _ (fun k => chunks m n
                             (map (chain_rule_point p (Z.of_nat k) wfuel) pts))).
    + cbn [obind]. reflexivity.
    + intros k Hk. apply in_seq in Hk.
      rewrite Htheta in Hk |- *. cbn [hd] in Hk |- *.
      rewrite <- Htheta.
      destruct (Hcomp k) as [-> _]; [lia|]. cbn [obind].
      unfold reshape2.
      rewrite (broadcast_points (fin_rows xs) (fin_rows xsb) n m Hbc Hn0)
        by (apply rect_map; exact Hrect).
      rewrite length_map, Hpl, Nat.eqb_refl. reflexivity.
  - intros k Hk. rewrite Htheta in Hk. cbn [hd] in Hk.
    apply (Hcomp k Hk).
Qed.
End ChainRule.

(** ** A gradient through one crossing

    The domain [[0, 1]] in two cells, the basis whose only parameter is
    the constant velocity, [theta = 1] and the point [x = 1/4]: the
    flow is [phi = x + theta], the point crosses from cell 0 to cell 1,
    and the gradient is [1]. *)

Lemma quarter_trace :
  integrate_closed_form_trace 3 [[Fin (1 / 4)]] [[Fin 1]]
                              (two_cells (uniform_B 0 1))
  = Some (Ok [(Fin (5 / 4), Fin (3 / 4 - eps_R), ofZ 1)]).
Proof.
  pose proof eps_R_pos as He. pose proof eps_R_small as He'.
  unfold integrate_closed_form_trace.
  rewrite (two_cells_start (uniform_B 0 1) [[Fin 1]] 1
             (resolve_uniform 0 1) trace_row (Fin 0, Fin 0, Fin 0) 3 (1 / 4) 0)
    by (apply two_cells_cell; intros; try discriminate; lra || lia).
  cbn [hop_loop]. rewrite two_cells_pass.
  rewrite two_cells_left, two_cells_right.
  rewrite (Rleb_false (1 / 4 + 1 * 1)) by lra.
  rewrite (Rleb_false 1 0), (Rleb_true 0 1) by lra.
  rewrite andb_false_r.
  cbn [andb orb Z.eqb Z.add Z.gtb Z.compare Pos.compare Pos.compare_cont].
  rewrite (step_of_const (two_cells_resolved (uniform_B 0 1) 0 1)
             (uniform_field 0 1) 1 eq_refl
             (two_cells_rows _ 0 1) (two_cells_nc _ 0 1)
             (two_cells_dom _ 0 1) (two_cells_abR _ 0 1)
             (mkFpt (Fin (1 / 4)) (Fin 1) 0 0) (1 / 4) 1 eq_refl eq_refl)
    by (cbn; lia || lra).
  rewrite (Rleb_true 0 1) by lra. cbn [fc fr Z.add].
  cbv iota beta.
  rewrite two_cells_pass.
  rewrite (Rleb_true 0 1) by lra.
  cbn [Z.eqb andb]. rewrite orb_true_r. cbn [orb scatter].
  unfold trace_row.
  rewrite <- (get_cell_cellR _ (two_cells_dom (uniform_B 0 1) 0 1)).
  rewrite (two_cells_cell (uniform_B 0 1) 0 1 (1 / 4) 0)
    by (intros; try discriminate; lra || lia).
  rewrite two_cells_left, two_cells_right.
  rewrite Rmax_left, Rmin_right by lra.
  assert (Hrow : forall u v u' v' : R,
             u = u' -> v = v' ->
             Some (Ok [(Fin u, Fin v, ofZ 1)])
             = Some (Ok [(Fin u', Fin v', ofZ 1)]))
    by (intros; subst; reflexivity).
  apply Hrow; lra.
Qed.

Section UnitField.
Let p1 : Params := two_cells_resolved (uniform_B 0 1) 0 1.
Variable q : fpt.
Variables x t : R.
Hypothesis Hx : fx q = Fin x.
Hypothesis Ht : ft q = Fin t.
Hypothesis Hr : fr q = 0%Z.

Lemma unit_field_entry : (0 <= fr q < Z.of_nat (length (uniform_field 0 1)))%Z.
Proof. rewrite Hr. cbn. lia. Qed.

Lemma unit_field_ab : ab_of p1 q = (Fin 0, Fin 1).
Proof.
  rewrite (ab_of_real p1 (uniform_field 0 1) eq_refl (two_cells_rows _ 0 1)
             (two_cells_nc _ 0 1) (two_cells_dom _ 0 1) q x Hx unit_field_entry).
  unfold p1. rewrite two_cells_abR by exact unit_field_entry. reflexivity.
Qed.

Lemma unit_field_basis : ak_of p1 0 q = Fin 0 /\ bk_of p1 0 q = Fin 1.
Proof.
  unfold ak_of, bk_of. rewrite Hx.
  rewrite (get_cell_cellR p1 (two_cells_dom _ 0 1)).
  pose proof (cellR_range p1 (two_cells_nc _ 0 1) x) as Hc.
  cbn [nc p1 two_cells_resolved resolved set_cache two_cells] in Hc.
  assert (Hcases : cellR p1 x = 0%Z \/ cellR p1 x = 1%Z) by lia.
  destruct Hcases as [-> | ->]; split; reflexivity.
Qed.

Lemma unit_field_xc : xc_of p1 q = Fin (rightR p1 (cellR p1 x)).
Proof.
  rewrite (xc_of_real p1 (uniform_field 0 1) eq_refl (two_cells_rows _ 0 1)
             (two_cells_nc _ 0 1) (two_cells_dom _ 0 1) q x Hx unit_field_entry).
  unfold p1. rewrite two_cells_abR by exact unit_field_entry.
  unfold velR. cbn [fst snd]. rewrite Rleb_true by lra. reflexivity.
Qed.

Lemma unit_field_dthit : dthit_of p1 0 q = Fin (x - rightR p1 (cellR p1 x)).
Proof.
  unfold dthit_of. destruct unit_field_basis as [-> ->].
  rewrite unit_field_ab, unit_field_xc, Hx. cbn [fst snd feq].
  rewrite Req_bool_true by reflexivity. cbn [fwhere fsub fneg fadd fmul].
  rewrite fdiv_Fin by lra. f_equal. field.
Qed.

Lemma unit_field_dpsi : dpsi_theta_of p1 0 q = Fin t.
Proof.
  unfold dpsi_theta_of. destruct unit_field_basis as [-> ->].
  rewrite unit_field_ab, Hx, Ht. cbn [fst snd feq].
  rewrite Req_bool_true by reflexivity. cbn [fwhere fadd fmul].
  f_equal. ring.
Qed.

Lemma unit_field_dtime : dphi_time_of p1 q = Fin 1.
Proof.
  unfold dphi_time_of. rewrite unit_field_ab. cbn [fst snd feq].
  rewrite Req_bool_true by reflexivity. reflexivity.
Qed.
End UnitField.

(** The walk of the point makes the one crossing of its trace, and the
    chain rule gives the gradient of [phi = x + theta]. *)
Lemma unit_field_gradient :
  let p := two_cells_resolved (uniform_B 0 1) 0 1 in
  let w := walk_start p (1 / 4, 0%Z) (Fin (5 / 4), Fin (3 / 4 - eps_R), ofZ 1) in
  wvalid w = false /\
  walk_point p 0 2 w = crossing p 0 w /\
  w_sens (crossing p 0 w) = Fin (1 / 4 + eps_R) /\
  chain_rule_point p 0 2 w = Fin 1.
Proof.
  cbv zeta. pose proof eps_R_pos as He. pose proof eps_R_small as He'.
  set (p := two_cells_resolved (uniform_B 0 1) 0 1).
  assert (Hc0 : get_cell (Fin (1 / 4)) p = 0%Z)
    by (apply two_cells_cell; intros; try discriminate; lra || lia).
  set (w := walk_start p (1 / 4, 0%Z) (Fin (5 / 4), Fin (3 / 4 - eps_R), ofZ 1)).
  assert (Hcell : w_cell w = ofZ 0) by (cbn; now rewrite Hc0).
  assert (Hv : wvalid w = false).
  { unfold wvalid. rewrite Hcell. cbn [w_final w walk_start snd].
    now rewrite feq_ofZ. }
  assert (Hdir : wdir w = Fin 1).
  { unfold wdir. rewrite Hcell. cbn [w_final w walk_start snd].
    unfold ofZ, fsub, fneg, fadd, fsign.
    rewrite Rltb_true by lra. reflexivity. }
  assert (Hedge : wedge p w = Fin (1 / 2 + eps_R)).
  { unfold wedge. rewrite Hdir, Hcell. cbn [feq].
    rewrite Req_bool_true by reflexivity. cbn [fwhere].
    rewrite (right_boundary_R p (two_cells_nc _ 0 1)).
    unfold p. rewrite two_cells_right. f_equal. lra. }
  assert (Hsens : w_sens (crossing p 0 w) = Fin (1 / 4 + eps_R)).
  { unfold crossing. cbn [w_sens]. unfold p at 1.
    rewrite (unit_field_dthit (w_at w) (1 / 4) eq_refl eq_refl).
    rewrite <- (get_cell_cellR _ (two_cells_dom (uniform_B 0 1) 0 1)).
    fold p. rewrite Hc0. unfold p. rewrite two_cells_right.
    cbn [w_sens w walk_start fsub fneg fadd]. f_equal. lra. }
  assert (Hv' : wvalid (crossing p 0 w) = true).
  { unfold wvalid, crossing. cbn [w_cell w_final]. rewrite Hdir, Hcell.
    cbn [w_final w walk_start snd]. unfold ofZ. cbn [fadd feq].
    apply Req_bool_true. lra. }
  assert (Hwalk : walk_point p 0 2 w = crossing p 0 w).
  { cbn [walk_point]. rewrite Hv, Hv'. reflexivity. }
  repeat split; try assumption.
  unfold chain_rule_point. rewrite Hwalk, Hsens. unfold p at 1 3.
  rewrite (unit_field_dpsi (w_at (crossing p 0 w)) (1 / 2 + eps_R)
             (3 / 4 - eps_R))
    by (cbn [crossing w_at set_fx fx ft fr w walk_start fst snd];
        try rewrite Hedge; reflexivity).
  rewrite (unit_field_dtime (w_at (crossing p 0 w)) (1 / 2 + eps_R))
    by (cbn [crossing w_at set_fx fx ft fr w walk_start fst snd];
        try rewrite Hedge; reflexivity).
  cbn [fmul fadd]. f_equal. lra.
Qed.

(** The call on this input: the transformed point and the one slice of
    the gradient. *)
Lemma unit_field_derivative :
  derivative_closed_form 3 2 [[Fin (1 / 4)]] [[Fin 1]]
                         (two_cells (uniform_B 0 1))
  = Some (Ok ([[Fin (5 / 4)]], [[[Fin 1]]])).
Proof.
  destruct (derivative_slices
              (two_cells (uniform_B 0 1)) [[Fin 1]] (uniform_field 0 1)
              [[1 / 4]] [[1 / 4]] 1 1
              ltac:(cbn; lra) ltac:(cbn; lia)
              (resolve_uniform 0 1)
              ltac:(repeat constructor)
              eq_refl ltac:(discriminate) eq_refl
              ltac:(split; repeat constructor)
              3%nat 2%nat [(Fin (5 / 4), Fin (3 / 4 - eps_R), ofZ 1)]
              quarter_trace ltac:(cbn; lia)) as [Hcall _].
  etransitivity; [exact Hcall|].
  exact (f_equal (fun v => Some (Ok ([[Fin (5 / 4)]], [[[v]]])))
                 (proj2 (proj2 (proj2 unit_field_gradient)))).
Qed.



(** ** C5: shapes *)

Lemma broadcast_to_mismatch (x : list (list float)) (n : nat) :
  length x <> 1%nat -> length x <> n -> broadcast_to x n = Raise ValueError.
Proof.
  intros H1 Hn. unfold broadcast_to.
  destruct x as [|r1 [|r2 x']]; cbn [length] in *; try contradiction.
  - destruct (Nat.eqb_spec 0 n); [contradiction | reflexivity].
  - destruct (Nat.eqb_spec (S (S (length x'))) n); [contradiction | reflexivity].
Qed.

Lemma precompute_affine_mismatch (xf : list float) (th row : list float)
      (theta Bm : list (list float)) (params : Params) :
  B params = row :: Bm -> length row <> length th ->
  precompute_affine xf (th :: theta) params = Raise ValueError.
Proof.
  intros HB Hlen. unfold precompute_affine, get_affine.
  cbn [precomputed set_cache B length Nat.eqb mapM]. rewrite HB.
  unfold resolve_row at 1. cbn [mapM]. unfold dot at 1.
  destruct (Nat.eqb_spec (length row) (length th)); [contradiction|].
  reflexivity.
Qed.

(** C5 (amended): the entry points contain no validation of their own.
    A batch [x] whose leading dimension is neither one nor the number of
    parameter vectors, and a basis matrix whose rows do not have the
    length of the parameter vectors, are rejected by the array
    operations of the setup ([batch_effect], [precompute_affine]) with
    [ValueError], before the loop of the call starts. *)
Theorem shape_mismatch_raises_in_setup
        (fuel wfuel : nat) (x theta : list (list float)) (params : Params) :
  (length x <> 1%nat -> length x <> length theta ->
   integrate_closed_form fuel x theta params = Some (Raise ValueError) /\
   integrate_numeric x theta params = Raise ValueError /\
   derivative_closed_form fuel wfuel x theta params = Some (Raise ValueError)) /\
  (forall xf th theta' row Bm,
      batch_effect x theta = Ok xf ->
      theta = th :: theta' -> B params = row :: Bm ->
      length row <> length th ->
      integrate_closed_form fuel x theta params = Some (Raise ValueError) /\
      integrate_numeric x theta params = Raise ValueError /\
      derivative_closed_form fuel wfuel x theta params
      = Some (Raise ValueError)).
Proof.
  split.
  - intros H1 Hn.
    assert (Hbe : batch_effect x theta = Raise ValueError).
    { unfold batch_effect. now rewrite broadcast_to_mismatch. }
    unfold integrate_closed_form, integrate_numeric, derivative_closed_form,
      integrate_closed_form_trace, hop_run.
    rewrite Hbe. repeat split; reflexivity.
  - intros xf th theta' row Bm Hbe Hth HB Hlen.
    assert (Hpre : precompute_affine xf theta params = Raise ValueError).
    { rewrite Hth. apply (precompute_affine_mismatch xf th row theta' Bm params HB Hlen). }
    unfold integrate_closed_form, integrate_numeric, derivative_closed_form,
      integrate_closed_form_trace, hop_run.
    rewrite Hbe. cbn [bind obind]. rewrite Hpre. repeat split; reflexivity.
Qed.

Lemma py_index_beyond {T : Type} (l : list T) (i : Z) :
  (Z.of_nat (length l) <= i)%Z -> py_index l i = Raise IndexError.
Proof.
  intros Hi. unfold py_index.
  destruct (Z.ltb_spec i 0) as [|_]; [lia|].
  destruct (Z.ltb_spec i (Z.of_nat (length l))) as [|_]; [lia|].
  now rewrite andb_false_r.
Qed.

(** The basis matrix of the counterexample holds the coefficients of a
    single cell, for a grid of two. *)
Lemma resolve_one_cell :
  mapM (resolve_row [[Fin 0]; [Fin 0]]) [[Fin 1]] = Ok (fin_field [[(0, 0)]]).
Proof. cbn. unfold fin_pair. cbn [fst snd]. repeat f_equal; ring. Qed.

Lemma one_cell_setup (x : R) :
  precompute_affine [Fin x] [[Fin 1]] (two_cells [[Fin 0]; [Fin 0]])
  = Ok (resolved (two_cells [[Fin 0]; [Fin 0]]) (fin_field [[(0, 0)]]) [0%Z]).
Proof.
  apply (precompute_affine_resolved [[Fin 1]] (two_cells [[Fin 0]; [Fin 0]])
           _ resolve_one_cell 1 1 [[Fin x]] eq_refl);
    [discriminate | split; repeat constructor].
Qed.

Lemma one_cell_cell (x : R) (c : Z) :
  (c = 0 \/ c = 1)%Z ->
  (c = 0%Z -> x < 1 / 2) -> (c = 1%Z -> 1 / 2 <= x) ->
  get_cell (Fin x)
           (resolved (two_cells [[Fin 0]; [Fin 0]]) (fin_field [[(0, 0)]]) [0%Z])
  = c.
Proof.
  apply (two_cells_cell [[Fin 0]; [Fin 0]] 0 0 x c).
Qed.

(** C5, counterexample: a basis matrix with the rows of one cell only,
    for a grid of two cells, passes the setup of the call.  A point that
    stays in the first cell is integrated without any error; a point of
    the second cell makes the first pass of the loop raise [IndexError],
    after the setup and after the cells have been computed. *)
Lemma short_basis_not_validated :
  let params := two_cells [[Fin 0]; [Fin 0]] in
  let theta := [[Fin 1]] in
  Z.of_nat (length (B params)) <> (2 * nc params)%Z /\
  integrate_closed_form 3 [[Fin (1 / 4)]] theta params
  = Some (Ok [[Fin (1 / 4)]]) /\
  (exists p, precompute_affine [Fin (3 / 4)] theta params = Ok p /\
             cells [Fin (3 / 4)] p = [1%Z]) /\
  integrate_closed_form 3 [[Fin (3 / 4)]] theta params
  = Some (Raise IndexError).
Proof.
  cbv zeta.
  set (p := resolved (two_cells [[Fin 0]; [Fin 0]]) (fin_field [[(0, 0)]]) [0%Z]).
  assert (Hstart : forall x c,
             get_cell (Fin x) p = c ->
             integrate_closed_form 3 [[Fin x]] [[Fin 1]]
                                   (two_cells [[Fin 0]; [Fin 0]])
             = (phi <~ hop_loop (fun psi _ _ => psi) [[Fin 1]] 3
                         (pack p [mkFpt (Fin x) (Fin 1) 0 c] [Fin 0] [false] 0) ;;
                Some (reshape_rows 1 phi))).
  { intros x c Hc. unfold integrate_closed_form, hop_run, batch_effect.
    cbn [length broadcast_to bind obind repeat concat app].
    rewrite one_cell_setup. cbn [obind].
    rewrite <- Hc. reflexivity. }
  split; [cbn; lia|]. split; [|split].
  - rewrite (Hstart (1 / 4) 0%Z)
      by (apply one_cell_cell; intros; try discriminate; lra || lia).
    cbn [hop_loop]. rewrite (hop_body_pts _ [[Fin 1]] p eq_refl).
    cbn [forallb map].
    set (q := mkFpt (Fin (1 / 4)) (Fin 1) 0 0).
    assert (Hcoef : coef (A p) (fr q) (get_cell (fx q) p) = Ok (fin_pair (0, 0))).
    { cbn [fx fr q]. rewrite one_cell_cell with (c := 0%Z)
        by (intros; try discriminate; lra || lia).
      apply (coef_fin_field [[(0, 0)]] 0 0); cbn; lia. }
    assert (Hok : pt_ok p q = true) by (unfold pt_ok, coef_ok; now rewrite Hcoef).
    assert (Hab : ab_of p q = fin_pair (0, 0))
      by (unfold ab_of, coefD; now rewrite Hcoef).
    assert (Hpsi : psi_of p q = Fin (1 / 4)).
    { unfold psi_of. rewrite Hab. cbn [fx ft q]. rewrite psi_k_fin, psiR_const.
      f_equal. lra. }
    assert (Hvalid : valid_of p q = true).
    { unfold valid_of, v_of. rewrite Hab. cbn [fx fc q]. rewrite vel_k_fin.
      unfold velR. cbn [fst snd fle fge Z.eqb].
      rewrite (Rleb_true (0 * (1 / 4) + 0) 0) by lra.
      cbn [andb]. now rewrite orb_true_r. }
    rewrite Hok, Hvalid. cbn [andb scatter vnot map negb obind].
    unfold record_of. rewrite Hpsi. apply f_equal. apply reshape_rows_single.
  - exists p. split; [apply one_cell_setup|].
    unfold cells. cbn [map]. f_equal.
    apply one_cell_cell; intros; try discriminate; lra || lia.
  - rewrite (Hstart (3 / 4) 1%Z)
      by (apply one_cell_cell; intros; try discriminate; lra || lia).
    cbn [hop_loop]. rewrite (hop_body_pts _ [[Fin 1]] p eq_refl).
    cbn [forallb map].
    set (q := mkFpt (Fin (3 / 4)) (Fin 1) 0 1).
    assert (Hok : pt_ok p q = false).
    { unfold pt_ok, coef_ok, coef. cbn [fx fr q].
      rewrite one_cell_cell with (c := 1%Z)
        by (intros; try discriminate; lra || lia).
      rewrite (py_index_ok (A p) 0 []) by (cbn; lia). cbn [bind].
      rewrite py_index_beyond by (cbn; lia). reflexivity. }
    rewrite Hok. reflexivity.
Qed.

Lemma shape_mismatch_raises_in_setup_witness :
  integrate_closed_form 3 [[Fin 0]; [Fin 0]; [Fin 0]] [[Fin 1]; [Fin 1]]
                        (two_cells (uniform_B 0 1))
  = Some (Raise ValueError).
Proof.
  exact (proj1 (proj1 (shape_mismatch_raises_in_setup
                         3 3 [[Fin 0]; [Fin 0]; [Fin 0]] [[Fin 1]; [Fin 1]]
                         (two_cells (uniform_B 0 1)))
                      ltac:(discriminate) ltac:(discriminate))).
Defined.

(** * Further properties of the module *)

(** ** The two closed-form integrators run the same loop *)

Lemma scatter_fmap {T U : Type} (f : T -> U) (m : list bool) :
  forall (v a : list T),
    scatter m (map f v) (map f a) = map f (scatter m v a).
Proof.
  induction m as [|b m IH]; intros v a; [destruct a; reflexivity|].
  destruct a as [|x a]; [destruct b; reflexivity|].
  destruct b; cbn [scatter map].
  - destruct v as [|y v]; cbn [map]; f_equal; [apply (IH [] a) | apply IH].
  - f_equal. apply IH.
Qed.

Lemma zipWith3_fmap {P Q S T U : Type} (f : T -> U) (g : P -> Q -> S -> T) :
  forall l1 l2 l3,
    zipWith3 (fun a b c => f (g a b c)) l1 l2 l3 = map f (zipWith3 g l1 l2 l3).
Proof.
  induction l1 as [|a l1 IH]; intros [|b l2] [|c l3]; cbn; try reflexivity.
  f_equal. apply IH.
Qed.

Section SameLoop.
Context {T U : Type}.
Variable record : float -> float -> Z -> T.
Variable f : T -> U.
Variable theta : list (list float).

Lemma hop_body_map (st : hop_state T) :
  hop_body (fun psi t c => f (record psi t c)) theta (hop_map f st)
  = match hop_body record theta st with
    | Ok (inl out) => Ok (inl (map f out))
    | Ok (inr st') => Ok (inr (hop_map f st'))
    | Raise e => Raise e
    end.
Proof.
  unfold hop_body, hop_map. cbn [hx ht hparams hc hout hdone hcont].
  destruct (get_velocity _ _ _) as [v|e]; cbn [bind]; [|reflexivity].
  destruct (get_psi _ _ _ _) as [psi|e]; cbn [bind]; [|reflexivity].
  rewrite (zipWith3_fmap f record), scatter_fmap.
  destruct (alltrue _); [reflexivity|].
  destruct (get_hit_time _ _ _) as [thit|e]; cbn [bind]; [|reflexivity].
  destruct (_ >? _)%Z; reflexivity.
Qed.

Lemma hop_loop_map (fuel : nat) :
  forall st,
    hop_loop (fun psi t c => f (record psi t c)) theta fuel (hop_map f st)
    = outcome_map (map f) (hop_loop record theta fuel st).
Proof.
  induction fuel as [|fuel IH]; intros st; [reflexivity|].
  cbn [hop_loop]. rewrite hop_body_map.
  destruct (hop_body record theta st) as [[out | st'] | e];
    [reflexivity | apply IH | reflexivity].
Qed.

Lemma hop_run_map (fuel : nat) (blank : T) (x : list (list float))
      (params : Params) :
  hop_run (fun psi t c => f (record psi t c)) theta fuel (f blank) x params
  = outcome_map (map f) (hop_run record theta fuel blank x params).
Proof.
  unfold hop_run.
  destruct (batch_effect x theta) as [xf|e]; cbn [obind]; [|reflexivity].
  destruct (precompute_affine xf theta params) as [p|e]; cbn [obind];
    [|reflexivity].
  rewrite <- hop_loop_map. unfold hop_init, hop_map.
  cbn [hx ht hparams hc hout hdone hcont]. rewrite map_map. reflexivity.
Qed.
End SameLoop.

(** X1: [integrate_closed_form] is the first column of
    [integrate_closed_form_trace], reshaped to one row per batch entry:
    on every input and with every fuel the two calls run out of fuel
    together, raise the same exception, or return the same positions. *)
Theorem closed_form_is_trace_column
        (fuel : nat) (x theta : list (list float)) (params : Params) :
  integrate_closed_form fuel x theta params
  = (res <~ integrate_closed_form_trace fuel x theta params ;;
     Some (reshape_rows (length theta) (map (fun row => fst (fst row)) res))).
Proof.
  unfold integrate_closed_form, integrate_closed_form_trace.
  pose proof (hop_run_map trace_row (fun row => fst (fst row)) theta fuel
                (Fin 0, Fin 0, Fin 0) x params) as H.
  unfold trace_row in *. cbn [fst] in H. rewrite H.
  destruct (hop_run (fun psi t c => (psi, t, ofZ c)) theta fuel
                    (Fin 0, Fin 0, Fin 0) x params) as [[res | e]|];
    reflexivity.
Qed.

Lemma derivative_phi (fuel wfuel : nat) (x theta : list (list float))
      (params : Params) (phi : list (list float))
      (der : list (list (list float))) :
  derivative_closed_form fuel wfuel x theta params = Some (Ok (phi, der)) ->
  exists res,
    integrate_closed_form_trace fuel x theta params = Some (Ok res) /\
    reshape_rows (length theta) (map (fun row => fst (fst row)) res) = Ok phi.
Proof.
  unfold derivative_closed_form. intros H.
  destruct (integrate_closed_form_trace fuel x theta params)
    as [[res | e]|]; cbn [obind] in H; try discriminate.
  exists res. split; [reflexivity|].
  destruct (reshape_rows _ _) as [phi'|e]; cbn [obind] in H; [|discriminate].
  destruct (batch_effect x theta) as [xf|e]; cbn [obind] in H; [|discriminate].
  destruct (precompute_affine xf theta params) as [p|e]; cbn [obind] in H;
    [|discriminate].
  destruct (omapM _ _) as [[d | e]|]; cbn [obind] in H; try discriminate.
  injection H as -> _. reflexivity.
Qed.

(** X2: the transformed points that [derivative_closed_form] returns
    next to the gradient are the points that [integrate_closed_form]
    returns for the same arguments. *)
Theorem derivative_returns_integrated_points
        (fuel wfuel : nat) (x theta : list (list float)) (params : Params)
        (phi : list (list float)) (der : list (list (list float))) :
  derivative_closed_form fuel wfuel x theta params = Some (Ok (phi, der)) ->
  integrate_closed_form fuel x theta params = Some (Ok phi).
Proof.
  intros H. apply derivative_phi in H. destruct H as (res & Htrace & Hphi).
  unfold integrate_closed_form, integrate_closed_form_trace in *.
  pose proof (hop_run_map trace_row (fun row => fst (fst row)) theta fuel
                (Fin 0, Fin 0, Fin 0) x params) as Hmap.
  unfold trace_row in Hmap. cbn [fst] in Hmap.
  unfold trace_row in Htrace.
  rewrite Hmap, Htrace. cbn [outcome_map obind]. now rewrite Hphi.
Qed.

Lemma derivative_returns_integrated_points_witness :
  integrate_closed_form 3 [[Fin (1 / 4)]] [[Fin 1]] (two_cells (uniform_B 0 1))
  = Some (Ok [[Fin (5 / 4)]]).
Proof.
  exact (derivative_returns_integrated_points
           3 2 [[Fin (1 / 4)]] [[Fin 1]] (two_cells (uniform_B 0 1))
           [[Fin (5 / 4)]] [[[Fin 1]]] unit_field_derivative).
Defined.

(** ** Shapes of the results *)

Lemma length_scatter {T : Type} (m : list bool) :
  forall (v a : list T), length (scatter m v a) = length a.
Proof.
  induction m as [|b m IH]; intros v a; [destruct a; reflexivity|].
  destruct a as [|x a]; [destruct b; reflexivity|].
  destruct b; cbn [scatter].
  - destruct v as [|y v]; cbn [length]; f_equal; apply IH.
  - cbn [length]. f_equal. apply IH.
Qed.

Lemma chunks_rect {T : Type} (k n : nat) :
  forall l : list T,
    length l = (n * k)%nat ->
    rect n k (chunks k n l) /\ concat (chunks k n l) = l.
Proof.
  induction n as [|n IH]; intros l Hl.
  - destruct l; [|discriminate]. repeat split. constructor.
  - cbn [chunks concat].
    assert (Hk : length (firstn k l) = k) by (rewrite length_firstn; lia).
    assert (Hs : length (skipn k l) = (n * k)%nat) by (rewrite length_skipn; lia).
    destruct (IH (skipn k l) Hs) as [[Hlen Hrows] Hcat].
    repeat split.
    + cbn [length]. now rewrite Hlen.
    + constructor; assumption.
    + rewrite Hcat. apply firstn_skipn.
Qed.

Lemma reshape_rows_shape {T : Type} (n : nat) (l : list T) (rows : list (list T)) :
  reshape_rows n l = Ok rows ->
  rect n (length l / n) rows /\ concat rows = l.
Proof.
  unfold reshape_rows. destruct (Nat.eqb_spec n 0) as [|Hn]; [discriminate|].
  destruct (Nat.eqb_spec (length l mod n) 0) as [Hmod|]; [|discriminate].
  intros H. injection H as <-. apply chunks_rect.
  pose proof (Nat.div_mod_eq (length l) n). lia.
Qed.

Lemma reshape2_shape {T : Type} (n m : nat) (l : list T) (rows : list (list T)) :
  reshape2 n m l = Ok rows -> rect n m rows /\ concat rows = l.
Proof.
  unfold reshape2. destruct (Nat.eqb_spec (length l) (n * m)) as [Hl|];
    [|discriminate].
  intros H. injection H as <-. now apply chunks_rect.
Qed.

Lemma hop_body_length {T : Type} (record : float -> float -> Z -> T)
      (theta : list (list float)) (st : hop_state T) :
  match hop_body record theta st with
  | Ok (inl out) => length out = length (hout st)
  | Ok (inr st') => length (hout st') = length (hout st)
  | Raise _ => True
  end.
Proof.
  unfold hop_body.
  destruct (get_velocity _ _ _) as [v|]; cbn [bind]; [|exact I].
  destruct (get_psi _ _ _ _) as [psi|]; cbn [bind]; [|exact I].
  destruct (alltrue _); [apply length_scatter|].
  destruct (get_hit_time _ _ _) as [thit|]; cbn [bind]; [|exact I].
  destruct (_ >? _)%Z; [exact I|]. cbn [hout]. apply length_scatter.
Qed.

Lemma hop_loop_length {T : Type} (record : float -> float -> Z -> T)
      (theta : list (list float)) (fuel : nat) :
  forall st out,
    hop_loop record theta fuel st = Some (Ok out) ->
    length out = length (hout st).
Proof.
  induction fuel as [|fuel IH]; intros st out H; [discriminate|].
  cbn [hop_loop] in H. pose proof (hop_body_length record theta st) as Hb.
  destruct (hop_body record theta st) as [[o | st'] | e]; try discriminate.
  - injection H as <-. exact Hb.
  - rewrite (IH _ _ H). exact Hb.
Qed.

Lemma hop_run_length {T : Type} (record : float -> float -> Z -> T)
      (theta : list (list float)) (fuel : nat) (blank : T)
      (x : list (list float)) (params : Params) (out : list T) :
  hop_run record theta fuel blank x params = Some (Ok out) ->
  exists xf, batch_effect x theta = Ok xf /\ length out = length xf.
Proof.
  unfold hop_run. intros H.
  destruct (batch_effect x theta) as [xf|]; cbn [obind] in H; [|discriminate].
  destruct (precompute_affine xf theta params) as [p|]; cbn [obind] in H;
    [|discriminate].
  exists xf. split; [reflexivity|].
  rewrite (hop_loop_length _ _ _ _ _ H). unfold hop_init. cbn [hout].
  apply length_map.
Qed.

(** X3: whenever [integrate_closed_form] returns, its result has one
    row per batch entry, the rows have equal length, and together they
    hold exactly one position per flattened input point; the trace of
    [integrate_closed_form_trace] has one row per flattened input
    point. *)
Theorem closed_form_result_shape
        (fuel : nat) (x theta : list (list float)) (params : Params) :
  (forall phi,
      integrate_closed_form fuel x theta params = Some (Ok phi) ->
      exists xf,
        batch_effect x theta = Ok xf /\
        rect (length theta) (length xf / length theta) phi /\
        length (concat phi) = length xf) /\
  (forall res,
      integrate_closed_form_trace fuel x theta params = Some (Ok res) ->
      exists xf, batch_effect x theta = Ok xf /\ length res = length xf).
Proof.
  split.
  - intros phi H. unfold integrate_closed_form in H.
    destruct (hop_run _ theta fuel (Fin 0) x params) as [[out | e]|] eqn:Hrun;
      cbn [obind] in H; try discriminate.
    destruct (hop_run_length _ _ _ _ _ _ _ Hrun) as (xf & Hbe & Hlen).
    exists xf. injection H as H. apply reshape_rows_shape in H.
    destruct H as [Hrect Hcat]. rewrite Hlen in Hrect.
    repeat split; try assumption; try apply Hrect. now rewrite Hcat.
  - intros res H. apply (hop_run_length _ _ _ _ _ _ _ H).
Qed.

Lemma omapM_length {T U : Type} (f : T -> outcome U) (l : list T) :
  forall r,
    omapM f l = Some (Ok r) ->
    length r = length l /\
    forall b, In b r -> exists a, In a l /\ f a = Some (Ok b).
Proof.
  induction l as [|a l IH]; intros r H; cbn [omapM] in H.
  - injection H as <-. split; [reflexivity | intros b []].
  - destruct (f a) as [[b | e]|] eqn:Hfa; cbn [obind] in H; try discriminate.
    destruct (omapM f l) as [[bs | e]|]; cbn [obind] in H; try discriminate.
    injection H as <-. destruct (IH bs eq_refl) as [Hlen Hin].
    split; [cbn; now rewrite Hlen|].
    intros b' [<- | Hb'].
    + exists a. split; [now left | exact Hfa].
    + destruct (Hin b' Hb') as (a' & Ha' & Hf'). exists a'.
      split; [now right | exact Hf'].
Qed.

(** X4: whenever [derivative_closed_form] returns, the gradient has one
    slice per parameter component, and every slice has [n_batch] rows
    of [n_points] entries, where [n_points] is the length of the rows of
    [x]. *)
Theorem derivative_result_shape
        (fuel wfuel : nat) (x theta : list (list float)) (params : Params)
        (phi : list (list float)) (der : list (list (list float))) :
  derivative_closed_form fuel wfuel x theta params = Some (Ok (phi, der)) ->
  length der = length (hd [] theta) /\
  Forall (rect (length theta) (length (hd [] x))) der.
Proof.
  unfold derivative_closed_form. intros H.
  destruct (integrate_closed_form_trace fuel x theta params)
    as [[res | e]|]; cbn [obind] in H; try discriminate.
  destruct (reshape_rows _ _) as [phi'|e]; cbn [obind] in H; [|discriminate].
  destruct (batch_effect x theta) as [xf|e]; cbn [obind] in H; [|discriminate].
  destruct (precompute_affine xf theta params) as [p|e]; cbn [obind] in H;
    [|discriminate].
  destruct (omapM _ _) as [[d | e]|] eqn:Hd; cbn [obind] in H; try discriminate.
  injection H as _ <-. apply omapM_length in Hd. destruct Hd as [Hlen Hin].
  split; [now rewrite Hlen, length_seq|].
  apply Forall_forall. intros slice Hs.
  destruct (Hin slice Hs) as (k & _ & Hk).
  destruct (derivative_component _ _ _ _ _ _ _) as [[dphi | e]|];
    cbn [obind] in Hk; try discriminate.
  injection Hk as Hk. apply (reshape2_shape _ _ _ _ Hk).
Qed.

Lemma derivative_result_shape_witness :
  length [[[Fin 1]]] = length (hd [] [[Fin 1]]) /\
  Forall (rect (length [[Fin 1]]) (length (hd [] [[Fin (1 / 4)]]))) [[[Fin 1]]].
Proof.
  exact (derivative_result_shape
           3 2 [[Fin (1 / 4)]] [[Fin 1]] (two_cells (uniform_B 0 1))
           [[Fin (5 / 4)]] [[[Fin 1]]] unit_field_derivative).
Defined.

(** ** The cell locator on the whole line *)

Lemma Zfloor_mono (a b : R) : a <= b -> (Zfloor a <= Zfloor b)%Z.
Proof.
  intros H. apply Zfloor_lub. pose proof (Zfloor_bound a). lra.
Qed.

Section CellLocator.
Variable p : Params.
Hypothesis Hdom : xmin p < xmax p.
Hypothesis Hnc : (0 < nc p)%Z.

Lemma scaled_mono (x y : R) :
  x <= y ->
  (x - xmin p) / (xmax p - xmin p) * IZR (nc p)
  <= (y - xmin p) / (xmax p - xmin p) * IZR (nc p).
Proof.
  intros Hxy. assert (Hn : 0 < IZR (nc p)) by (apply IZR_lt; exact Hnc).
  assert (Hw : 0 < / (xmax p - xmin p)) by (apply Rinv_0_lt_compat; lra).
  unfold Rdiv. apply Rmult_le_compat_r; [lra|].
  apply Rmult_le_compat_r; lra.
Qed.

Lemma scaled_at_xmin :
  (xmin p - xmin p) / (xmax p - xmin p) * IZR (nc p) = 0.
Proof. unfold Rdiv. replace (xmin p - xmin p) with 0 by ring. ring. Qed.

Lemma scaled_at_xmax :
  (xmax p - xmin p) / (xmax p - xmin p) * IZR (nc p) = IZR (nc p).
Proof. field. lra. Qed.

Lemma get_cell_pinf : get_cell PInf p = (nc p - 1)%Z.
Proof.
  assert (Hn : 0 < IZR (nc p)) by (apply IZR_lt; exact Hnc).
  unfold get_cell. cbn [fsub fneg fadd fdiv].
  rewrite Rltb_false by lra. unfold ofZ at 1. cbn [fmul]. unfold inf_times.
  rewrite Req_bool_false, Rltb_true by lra. cbn [Bool.eqb ffloor].
  unfold fclip, fmaximum, fminimum, ofZ. cbn [fle].
  change (Fin (IZR (nc p - 1))) with (ofZ (nc p - 1)).
  apply astype_int32_ofZ.
Qed.

Lemma get_cell_ninf : get_cell NInf p = 0%Z.
Proof.
  assert (Hn : 0 < IZR (nc p)) by (apply IZR_lt; exact Hnc).
  unfold get_cell. cbn [fsub fneg fadd fdiv].
  rewrite Rltb_false by lra. unfold ofZ at 1. cbn [fmul]. unfold inf_times.
  rewrite Req_bool_false, Rltb_true by lra. cbn [Bool.eqb ffloor].
  unfold fclip, fmaximum, fminimum, ofZ. cbn [fle].
  rewrite Rleb_IZR. destruct (Z.leb_spec 0 (nc p - 1)); [|lia].
  change (Fin 0) with (ofZ 0). apply astype_int32_ofZ.
Qed.

Lemma get_cell_mono_real (x y : R) :
  x <= y -> (get_cell (Fin x) p <= get_cell (Fin y) p)%Z.
Proof.
  intros Hxy. rewrite !get_cell_Fin by lra.
  pose proof (Zfloor_mono _ _ (scaled_mono x y Hxy)). lia.
Qed.
End CellLocator.









(** ** Arrays of real points in a real field *)

Lemma psiR_zero (ab : R * R) (x : R) : psiR ab x 0 = x.
Proof.
  unfold psiR. destruct (Req_dec_T (fst ab) 0) as [Ha | Ha]; [ring|].
  rewrite Rmult_0_l, exp_0. ring.
Qed.

Lemma psiR_compose (ab : R * R) (x s t : R) :
  psiR ab (psiR ab x s) t = psiR ab x (s + t).
Proof.
  unfold psiR. destruct (Req_dec_T (fst ab) 0) as [Ha | Ha]; [ring|].
  rewrite Rmult_plus_distr_r, exp_plus. ring.
Qed.

(** Flowing for the hit time reaches the boundary. *)
Lemma hit_then_flow (a b x xc tau : R) :
  hit_k (fin_pair (a, b)) (Fin x) (Fin xc) = Fin tau ->
  psi_k (fin_pair (a, b)) (Fin x) (Fin tau) = Fin xc.
Proof.
  unfold hit_k, psi_k, fin_pair. cbn [fst snd feq]. unfold Req_bool.
  destruct (Req_dec_T a 0) as [Ha | Ha]; cbn [fwhere].
  - rewrite fsub_Fin. cbn [fdiv]. unfold Req_bool.
    destruct (Req_dec_T b 0) as [Hb | Hb].
    + destruct (Req_dec_T (xc - x) 0); [discriminate|].
      destruct (Rltb 0 (xc - x)); discriminate.
    + intros H. injection H as <-. cbn [fmul fadd]. f_equal. field. exact Hb.
  - rewrite fdiv_Fin by exact Ha. cbn [fadd].
    destruct (Req_dec_T (x + b / a) 0) as [Hu | Hu].
    + cbn [fdiv]. rewrite Hu, Req_bool_true by reflexivity.
      destruct (Req_bool (xc + b / a) 0); cbn [flog fdiv]; [discriminate|].
      destruct (Rltb 0 (xc + b / a)); cbn [flog fdiv];
        [destruct (Rltb a 0) | ]; discriminate.
    + rewrite fdiv_Fin by exact Hu. cbn [flog].
      destruct (Rlt_dec 0 ((xc + b / a) / (x + b / a))) as [Hrho | Hrho].
      * rewrite Rltb_true by exact Hrho. rewrite fdiv_Fin by exact Ha.
        intros H. injection H as <-. cbn [fmul fexp fadd fsub fneg].
        f_equal.
        replace (ln ((xc + b / a) / (x + b / a)) / a * a)
          with (ln ((xc + b / a) / (x + b / a))) by (field; exact Ha).
        rewrite exp_ln by exact Hrho. field. split; [exact Ha|].
        intros H. apply Hu.
        replace (x + b / a) with ((x * a + b) / a) by (field; exact Ha).
        rewrite H. unfold Rdiv. ring.
      * rewrite Rltb_false by lra.
        destruct (Req_bool _ 0); cbn [fdiv]; [destruct (Rltb a 0)|];
          discriminate.
Qed.

(** The time derivative of the flow is the velocity law at the flowed
    point. *)
Lemma flow_rate (a b x t : R) :
  fwhere (Fin a ==? Fin 0)%fl (Fin b)
         (fexp (Fin t * Fin a) * (Fin a * Fin x + Fin b))%fl
  = vel_k (fin_pair (a, b)) (psi_k (fin_pair (a, b)) (Fin x) (Fin t)).
Proof.
  rewrite psi_k_fin. unfold vel_k, psiR, fin_pair. cbn [fst snd feq].
  unfold Req_bool. destruct (Req_dec_T a 0) as [Ha | Ha]; cbn [fwhere].
  - cbn [fmul fadd]. f_equal. subst a. ring.
  - cbn [fmul fadd fexp]. f_equal. field. exact Ha.
Qed.

Lemma map_eq_pointwise {T U : Type} (f g : T -> U) (l : list T) :
  map f l = map g l -> forall a, In a l -> f a = g a.
Proof.
  induction l as [|b l IH]; cbn; intros H a Ha; [contradiction|].
  injection H as Hb Hl. destruct Ha as [<- | Ha]; auto.
Qed.

Section RealBatch.
Variable theta : list (list float).
Variable p : Params.
Variable AR : list (list (R * R)).
Hypothesis Hfield : real_field p AR.
Variable pts : list fpt.
Hypothesis Hpts : real_points AR pts.

Lemma real_field_pre : precomputed p = true.
Proof. apply Hfield. Qed.

Lemma real_point_ab (q : fpt) (x : R) :
  fx q = Fin x -> (0 <= fr q < Z.of_nat (length AR))%Z ->
  pt_ok p q = true /\ ab_of p q = fin_pair (abR p AR (fr q) x).
Proof.
  destruct Hfield as (_ & HA & Hrows & Hnc & Hdom). intros Hx Hr. split.
  - apply (pt_ok_real p AR HA Hrows Hnc Hdom q x Hx Hr).
  - apply (ab_of_real p AR HA Hrows Hnc Hdom q x Hx Hr).
Qed.

(** Lookups succeed for the points at any times and after any move to
    real positions. *)
Lemma real_points_ok (g : fpt -> fpt) :
  (forall q, is_finite (fx q) -> is_finite (fx (g q))) ->
  (forall q, fr (g q) = fr q) ->
  forallb (pt_ok p) (map g pts) = true.
Proof.
  intros Hgx Hgr. apply forallb_forall. intros q' Hin.
  apply in_map_iff in Hin. destruct Hin as (q & <- & Hq).
  unfold real_points in Hpts. rewrite Forall_forall in Hpts.
  destruct (Hpts q Hq) as [Hx Hr]. destruct (Hgx q Hx) as [y Hy].
  apply (real_point_ab (g q) y Hy). now rewrite Hgr.
Qed.

Lemma real_points_ok_id : forallb (pt_ok p) pts = true.
Proof.
  rewrite <- (map_id pts). apply (real_points_ok (fun q => q)); auto.
Qed.

Lemma get_psi_at (tau : fpt -> float) :
  get_psi (map fx pts) (map tau pts) theta (set_r p (map fr pts))
  = Ok (map (fun q => psi_of p (retime (tau q) q)) pts).
Proof.
  pose proof (get_psi_pts theta p real_field_pre
                (map (fun q => retime (tau q) q) pts)) as H.
  rewrite !map_map in H. cbn [retime fx ft fr] in H.
  rewrite (real_points_ok (fun q => retime (tau q) q)) in H by auto.
  exact H.
Qed.

Lemma get_velocity_at :
  get_velocity (map fx pts) theta (set_r p (map fr pts))
  = Ok (map (v_of p) pts).
Proof.
  rewrite (get_velocity_pts theta p real_field_pre), real_points_ok_id.
  reflexivity.
Qed.

Lemma get_hit_time_at :
  get_hit_time (map fx pts) theta (set_r p (map fr pts))
  = Ok (map (thit_of p) pts).
Proof.
  rewrite (get_hit_time_pts theta p real_field_pre), real_points_ok_id.
  reflexivity.
Qed.

Lemma psi_of_retime (q : fpt) (x t : R) :
  In q pts -> fx q = Fin x ->
  psi_of p (retime (Fin t) q) = Fin (psiR (abR p AR (fr q) x) x t).
Proof.
  intros Hq Hx. unfold real_points in Hpts. rewrite Forall_forall in Hpts.
  destruct (Hpts q Hq) as [_ Hr]. unfold psi_of.
  destruct (real_point_ab (retime (Fin t) q) x Hx Hr) as [_ ->].
  cbn [retime fx ft fr]. rewrite Hx. apply psi_k_fin.
Qed.
End RealBatch.

(** ** The closed-form flow inside a cell *)

Lemma real_points_moved (p : Params) (AR : list (list (R * R)))
      (pts : list fpt) (g : fpt -> float) :
  real_points AR pts ->
  (forall q, In q pts -> is_finite (g q)) ->
  real_points AR (map (fun q => move_to (g q) q) pts).
Proof.
  unfold real_points. intros Hpts Hg. apply Forall_map.
  rewrite Forall_forall in *. intros q Hq. cbn [move_to fx fr].
  split; [apply Hg; exact Hq | apply (Hpts q Hq)].
Qed.

(** The coefficients that govern a point do not change while it stays
    in its cell. *)
Lemma same_cell_same_field (p : Params) (AR : list (list (R * R)))
      (ri : Z) (x y : R) :
  real_field p AR ->
  get_cell (Fin y) p = get_cell (Fin x) p -> abR p AR ri y = abR p AR ri x.
Proof.
  intros (_ & _ & _ & _ & Hdom) Hc. unfold abR.
  rewrite !(get_cell_cellR p Hdom) in Hc. now rewrite Hc.
Qed.

Lemma two_cells_real_field (Bm : list (list float)) (a b : R) :
  real_field (two_cells_resolved Bm a b) (uniform_field a b).
Proof.
  exact (conj eq_refl (conj eq_refl
           (conj (two_cells_rows Bm a b)
              (conj (two_cells_nc Bm a b) (two_cells_dom Bm a b))))).
Qed.




(** The facts of the example point: [x = 1/4] on the two cells of
    [[0, 1]] in the field of constant velocity one. *)
Lemma quarter_point_facts (s : R) :
  0 <= s < 1 / 4 ->
  let p := two_cells_resolved (uniform_B 0 1) 0 1 in
  real_field p (uniform_field 0 1) /\
  real_points (uniform_field 0 1) [mkFpt (Fin (1 / 4)) (Fin s) 0 0] /\
  get_psi [Fin (1 / 4)] [Fin s] [[Fin 1]] p = Ok [Fin (psiR (0, 1) (1 / 4) s)] /\
  cells [Fin (psiR (0, 1) (1 / 4) s)] p = cells [Fin (1 / 4)] p.
Proof.
  intros Hs. cbv zeta. split; [|split; [|split]].
  - apply two_cells_real_field.
  - repeat constructor; [eexists; reflexivity | cbn; lia].
  - apply two_cells_psi.
  - unfold cells. cbn [map]. rewrite psiR_const.
    rewrite !(two_cells_cell (uniform_B 0 1) 0 1 _ 0)
      by (intros; try discriminate; lra || lia).
    reflexivity.
Qed.



Lemma quarter_point_hit :
  let p := two_cells_resolved (uniform_B 0 1) 0 1 in
  let q := mkFpt (Fin (1 / 4)) (Fin 1) 0 0 in
  get_velocity [Fin (1 / 4)] [[Fin 1]] p = Ok [v_of p q] /\
  get_hit_time [Fin (1 / 4)] [[Fin 1]] p = Ok [thit_of p q] /\
  Forall is_finite [thit_of p q].
Proof.
  cbv zeta.
  set (p := two_cells_resolved (uniform_B 0 1) 0 1).
  set (q := mkFpt (Fin (1 / 4)) (Fin 1) 0 0).
  assert (Hp : real_points (uniform_field 0 1) [q])
    by (repeat constructor; [eexists; reflexivity | cbn; lia]).
  pose proof (two_cells_real_field (uniform_B 0 1) 0 1) as Hf. fold p in Hf.
  split; [|split].
  - apply (get_velocity_at [[Fin 1]] p _ Hf [q] Hp).
  - apply (get_hit_time_at [[Fin 1]] p _ Hf [q] Hp).
  - constructor; [|constructor].
    assert (Hr : (0 <= fr q < Z.of_nat (length (uniform_field 0 1)))%Z)
      by (cbn; lia).
    destruct (real_point_ab p _ Hf q (1 / 4) eq_refl Hr) as [_ Hab].
    destruct Hf as (_ & HA & Hrows & Hnc & Hdom).
    pose proof (xc_of_real p _ HA Hrows Hnc Hdom q (1 / 4) eq_refl Hr) as Hxc.
    unfold thit_of. rewrite Hab, Hxc. unfold p.
    rewrite two_cells_abR by exact Hr. cbn [fx q].
    rewrite hit_k_const by lra. eexists; reflexivity.
Qed.




(** ** The numeric integrator *)

Lemma vwhere_same {T : Type} (m : list bool) :
  forall l : list T, length m = length l -> vwhere m l l = l.
Proof.
  unfold vwhere. induction m as [|b m IH]; intros [|a l] H; try discriminate;
    [reflexivity|].
  cbn [zipWith3]. unfold fwhere at 1. injection H as H.
  rewrite (IH l H). now destruct b.
Qed.

Lemma length_zipWith {T U V : Type} (f : T -> U -> V) (l1 : list T) :
  forall l2, length l1 = length l2 -> length (zipWith f l1 l2) = length l1.
Proof.
  induction l1 as [|a l1 IH]; intros [|b l2] H; try discriminate;
    [reflexivity|].
  cbn. f_equal. apply IH. now injection H.
Qed.

Lemma repeatM_zero {T : Type} (f : T -> result T) (y : T) :
  repeatM 0 f y = Ok y.
Proof. reflexivity. Qed.

Lemma repeatM_succ_r {T : Type} (f : T -> result T) (k : nat) :
  forall y, repeatM (S k) f y = (y' <- repeatM k f y ;; f y').
Proof.
  induction k as [|k IH]; intros y.
  - cbn. destruct (f y); reflexivity.
  - change (repeatM (S (S k)) f y) with (y' <- f y ;; repeatM (S k) f y').
    cbn [repeatM]. destruct (f y) as [y1|e]; cbn [bind]; [|reflexivity].
    apply IH.
Qed.

Section ConstantNumeric.
Variable theta : list (list float).
Variable p : Params.
Variable AR : list (list (R * R)).
Variable b : R.
Hypothesis Hf : real_field p AR.
Hypothesis Hconst :
  forall ri x, (0 <= ri < Z.of_nat (length AR))%Z -> abR p AR ri x = (0, b).

Lemma shift_real (d : R) (pts : list fpt) :
  real_points AR pts -> real_points AR (map (shift d) pts).
Proof.
  intros Hp. apply (real_points_moved p AR pts _ Hp).
  intros q Hq. unfold real_points in Hp. rewrite Forall_forall in Hp.
  destruct (Hp q Hq) as [[x ->] _]. eexists; reflexivity.
Qed.

Lemma shift_fr (d : R) (pts : list fpt) :
  map fr (map (shift d) pts) = map fr pts.
Proof. rewrite map_map. reflexivity. Qed.

Lemma shift_shift (d e : R) (pts : list fpt) :
  real_points AR pts ->
  map fx (map (shift e) (map (shift d) pts)) = map fx (map (shift (d + e)) pts).
Proof.
  intros Hp. rewrite !map_map. apply map_ext_in. intros q Hq.
  unfold real_points in Hp. rewrite Forall_forall in Hp.
  destruct (Hp q Hq) as [[x Hx] _]. cbn [shift move_to fx]. rewrite Hx.
  cbn [fadd]. f_equal. ring.
Qed.

Lemma shift_zero (pts : list fpt) :
  real_points AR pts -> map fx (map (shift 0) pts) = map fx pts.
Proof.
  intros Hp. rewrite map_map. apply map_ext_in. intros q Hq.
  unfold real_points in Hp. rewrite Forall_forall in Hp.
  destruct (Hp q Hq) as [[x Hx] _]. cbn [shift move_to fx]. rewrite Hx.
  cbn [fadd]. f_equal. ring.
Qed.

Lemma const_velocity (pts : list fpt) :
  real_points AR pts ->
  get_velocity (map fx pts) theta (set_r p (map fr pts))
  = Ok (map (fun _ => Fin b) pts).
Proof.
  intros Hp. rewrite (get_velocity_at theta p AR Hf pts Hp). f_equal.
  apply map_ext_in. intros q Hq.
  pose proof Hp as Hall. unfold real_points in Hall.
  rewrite Forall_forall in Hall. destruct (Hall q Hq) as [[x Hx] Hr].
  unfold v_of. destruct (real_point_ab p AR Hf q x Hx Hr) as [_ ->].
  rewrite (Hconst _ _ Hr), Hx. unfold vel_k, fin_pair. cbn [fst snd fmul fadd].
  f_equal. ring.
Qed.

Lemma const_psi (dt : R) (pts : list fpt) :
  real_points AR pts ->
  get_psi (map fx pts) (map (fun _ => Fin dt) (map fx pts)) theta
          (set_r p (map fr pts))
  = Ok (map fx (map (shift (dt * b)) pts)).
Proof.
  intros Hp. rewrite map_map.
  rewrite (get_psi_at theta p AR Hf pts Hp (fun _ => Fin dt)). f_equal.
  rewrite map_map. apply map_ext_in. intros q Hq.
  pose proof Hp as Hall. unfold real_points in Hall.
  rewrite Forall_forall in Hall. destruct (Hall q Hq) as [[x Hx] Hr].
  rewrite (psi_of_retime p AR Hf pts Hp q x dt Hq Hx), (Hconst _ _ Hr).
  rewrite psiR_const. cbn [shift move_to fx]. rewrite Hx. reflexivity.
Qed.

Lemma const_midpoint (d : R) (pts : list fpt) :
  real_points AR pts ->
  midpoint_step d theta (set_r p (map fr pts)) (map fx pts)
  = Ok (map fx (map (shift (d * b)) pts)).
Proof.
  intros Hp. unfold midpoint_step. rewrite (const_velocity pts Hp).
  cbn [bind].
  replace (vadd (map fx pts) (map (fmul (Fin (d / 2))) (map (fun _ => Fin b) pts)))
    with (map fx (map (shift (d / 2 * b)) pts))
    by (unfold vadd; fuse; reflexivity).
  rewrite <- (shift_fr (d / 2 * b) pts) at 1.
  rewrite (const_velocity _ (shift_real (d / 2 * b) pts Hp)). cbn [bind].
  unfold vadd. fuse. reflexivity.
Qed.

Lemma const_midpoints (d : R) (pts : list fpt) (k : nat) :
  real_points AR pts ->
  repeatM k (midpoint_step d theta (set_r p (map fr pts))) (map fx pts)
  = Ok (map fx (map (shift (INR k * (d * b))) pts)).
Proof.
  intros Hp. induction k as [|k IH].
  - cbn [repeatM INR]. rewrite Rmult_0_l, (shift_zero pts Hp). reflexivity.
  - rewrite repeatM_succ_r, IH. cbn [bind].
    rewrite <- (shift_fr (INR k * (d * b)) pts) at 1.
    rewrite (const_midpoint d _ (shift_real _ pts Hp)).
    rewrite (shift_shift _ _ pts Hp). rewrite S_INR.
    replace (INR k * (d * b) + d * b) with ((INR k + 1) * (d * b)) by ring.
    reflexivity.
Qed.

Lemma const_phi_numeric (dt : R) (pts : list fpt) :
  real_points AR pts -> (1 <= nSteps2 p)%Z ->
  get_phi_numeric (map fx pts) dt theta (set_r p (map fr pts))
  = Ok (map fx (map (shift (dt * b)) pts)).
Proof.
  intros Hp Hn. unfold get_phi_numeric.
  cbn [nSteps2 set_r set_cache].
  destruct (Z.eqb_spec (nSteps2 p) 0) as [|_]; [lia|].
  rewrite (const_midpoints _ pts _ Hp).
  rewrite INR_IZR_INZ, Z2Nat.id by lia.
  replace (IZR (nSteps2 p) * (dt / IZR (nSteps2 p) * b)) with (dt * b);
    [reflexivity|].
  field. apply not_0_IZR. lia.
Qed.

Lemma const_numeric_step (dt : R) (pts : list fpt) (c : list Z) :
  real_points AR pts -> (1 <= nSteps2 p)%Z -> length c = length pts ->
  numeric_step dt theta (set_r p (map fr pts)) (map fx pts, c)
  = Ok (map fx (map (shift (dt * b)) pts),
        cells (map fx (map (shift (dt * b)) pts)) (set_r p (map fr pts))).
Proof.
  intros Hp Hn Hc. unfold numeric_step.
  rewrite (const_psi dt pts Hp). cbn [bind].
  rewrite (const_phi_numeric dt pts Hp Hn). cbn [bind].
  rewrite vwhere_same; [reflexivity|].
  rewrite length_zipWith; unfold cells; rewrite ?length_map; auto.
Qed.

Lemma const_numeric_run (dt : R) (pts : list fpt) (k : nat) :
  real_points AR pts -> (1 <= nSteps2 p)%Z ->
  forall c, length c = length pts ->
    exists c',
      repeatM k (numeric_step dt theta (set_r p (map fr pts))) (map fx pts, c)
      = Ok (map fx (map (shift (INR k * (dt * b))) pts), c') /\
      length c' = length pts.
Proof.
  intros Hp Hn. induction k as [|k IH]; intros c Hc.
  - exists c. cbn [repeatM INR]. rewrite Rmult_0_l, (shift_zero pts Hp).
    split; [reflexivity | exact Hc].
  - destruct (IH c Hc) as (c1 & Hrun & Hc1).
    rewrite repeatM_succ_r, Hrun. cbn [bind].
    assert (Hc1' : length c1 = length (map (shift (INR k * (dt * b))) pts))
      by (rewrite length_map; exact Hc1).
    pose proof (const_numeric_step dt _ c1 (shift_real (INR k * (dt * b)) pts Hp)
                  Hn Hc1') as Hstep.
    rewrite (shift_fr (INR k * (dt * b)) pts) in Hstep.
    rewrite (shift_shift _ _ pts Hp) in Hstep.
    replace (INR k * (dt * b) + dt * b) with (INR (S k) * (dt * b)) in Hstep
      by (rewrite S_INR; ring).
    eexists. split; [exact Hstep|].
    unfold cells. now rewrite !length_map.
Qed.
End ConstantNumeric.

Section NumericConstant.
Variable params : Params.
Variable theta : list (list float).
Variables xs xsb : list (list R).
Variables n m : nat.
Variable b : R.
Hypothesis Hdom : xmin params < xmax params.
Hypothesis Hnc : (0 < nc params)%Z.
Hypothesis Hn : length theta = n.
Hypothesis Hn0 : n <> O.
Hypothesis Hbc : broadcast_to (fin_rows xs) n = Ok (fin_rows xsb).
Hypothesis Hrect : rect n m xsb.

Let AR : list (list (R * R)) := repeat (repeat (0, b) (Z.to_nat (nc params))) n.
Hypothesis Hres : mapM (resolve_row (B params)) theta = Ok (fin_field AR).
Hypothesis Hs1 : (1 <= nSteps1 params)%Z.
Hypothesis Hs2 : (1 <= nSteps2 params)%Z.

Let p' : Params :=
  resolved params (fin_field AR) (map snd (tag_rows 0 (fin_rows xsb))).
Let pts0 : list fpt := init_pts p' (fin_rows xsb).

Lemma numeric_field : real_field p' AR.
Proof.
  repeat split; try assumption.
  apply (const_rows params theta xsb n b Hnc Hn Hn0).
Qed.

Lemma numeric_points : real_points AR pts0.
Proof.
  unfold pts0, p'. rewrite init_pts_real. apply Forall_map.
  apply Forall_forall. intros xr Hxr. cbn [fx fr].
  split; [eexists; reflexivity|].
  pose proof (tag_rows_range 0 xsb) as Hrange.
  rewrite Forall_forall in Hrange. specialize (Hrange xr Hxr).
  destruct Hrect as [Hlen _]. rewrite Hlen in Hrange.
  rewrite (resolved_length theta params AR n Hres Hn). cbn in Hrange. lia.
Qed.

Lemma numeric_arrays :
  map fx pts0 = concat (fin_rows xsb) /\
  set_r p' (map fr pts0) = p'.
Proof.
  unfold pts0, init_pts. rewrite !map_map. cbn [init_pt fx fr]. split.
  - apply tag_rows_fst.
  - apply (set_r_self p').
Qed.

Lemma numeric_translates :
  integrate_numeric (fin_rows xs) theta params
  = Ok (map (map (fun v => Fin (v + b))) xsb).
Proof.
  destruct (domain_setup params theta AR xs xsb n m Hres Hn Hn0 Hbc Hrect)
    as [Hbe Hpre].
  unfold integrate_numeric. rewrite Hbe. cbn [bind]. rewrite Hpre. cbn [bind].
  fold p'. cbn [nSteps1 p' resolved set_cache].
  destruct (Z.eqb_spec (nSteps1 params) 0) as [|_]; [lia|].
  destruct numeric_arrays as [Hx Hp].
  destruct (const_numeric_run theta p' AR b numeric_field
              (const_abR params theta xsb n b Hnc Hn Hn0)
              (1 / IZR (nSteps1 params)) pts0 (Z.to_nat (nSteps1 params))
              numeric_points Hs2 (cells (map fx pts0) p'))
    as (c' & Hrun & _).
  { unfold cells. now rewrite !length_map. }
  rewrite Hp, Hx in Hrun. rewrite Hrun. cbn [bind].
  rewrite INR_IZR_INZ, Z2Nat.id by lia.
  replace (IZR (nSteps1 params) * (1 / IZR (nSteps1 params) * b)) with b
    by (field; apply not_0_IZR; lia).
  replace (map fx (map (shift b) pts0))
    with (concat (map (map (fun v => Fin (v + b))) xsb)).
  - rewrite Hn. apply (reshape_rows_concat n m); [exact Hn0|].
    apply rect_map. exact Hrect.
  - unfold pts0, p'. rewrite init_pts_real, !map_map.
    cbn [shift move_to fx fadd]. rewrite <- concat_map, <- (tag_rows_fst 0 xsb).
    rewrite !map_map. reflexivity.
Qed.
End NumericConstant.





(** X15: the step counts of [integrate_numeric] at their edges, once
    the setup of the call has succeeded: [nSteps1 = 0] raises
    [ZeroDivisionError]; a negative [nSteps1] makes no step and returns
    the broadcast input unchanged; with [nSteps1 >= 1] and
    [nSteps2 = 0] the call never returns a value. *)
Theorem integrate_numeric_step_counts
        (x theta : list (list float)) (params p : Params) (xf : list float) :
  batch_effect x theta = Ok xf ->
  precompute_affine xf theta params = Ok p ->
  (nSteps1 params = 0%Z ->
   integrate_numeric x theta params = Raise ZeroDivisionError) /\
  ((nSteps1 params < 0)%Z ->
   integrate_numeric x theta params = reshape_rows (length theta) xf) /\
  ((1 <= nSteps1 params)%Z -> nSteps2 params = 0%Z ->
   exists e, integrate_numeric x theta params = Raise e).
Proof.
  intros Hbe Hpre.
  assert (Hsteps : nSteps1 p = nSteps1 params /\ nSteps2 p = nSteps2 params).
  { unfold precompute_affine in Hpre.
    destruct (get_affine _ _ _) as [[A' r']|]; cbn [bind] in Hpre;
      [|discriminate].
    injection Hpre as <-. split; reflexivity. }
  destruct Hsteps as [H1 H2].
  unfold integrate_numeric. rewrite Hbe. cbn [bind]. rewrite Hpre. cbn [bind].
  rewrite H1. repeat split.
  - intros ->. reflexivity.
  - intros Hneg. destruct (Z.eqb_spec (nSteps1 params) 0) as [|_]; [lia|].
    replace (Z.to_nat (nSteps1 params)) with O by lia.
    reflexivity.
  - intros Hpos Hzero. destruct (Z.eqb_spec (nSteps1 params) 0) as [|_]; [lia|].
    destruct (Z.to_nat (nSteps1 params)) as [|k] eqn:Hk; [lia|].
    cbn [repeatM]. unfold numeric_step at 1.
    destruct (get_psi _ _ _ _) as [xTemp|e]; cbn [bind];
      [|eexists; reflexivity].
    unfold get_phi_numeric. rewrite H2, Hzero. cbn [Z.eqb bind].
    eexists; reflexivity.
Qed.

Lemma integrate_numeric_step_counts_witness :
  integrate_numeric [[Fin (1 / 4)]] [[Fin 1]]
                    (mkParams 0 1 2 (uniform_B 0 1) 0 1 false [] [])
  = Raise ZeroDivisionError.
Proof.
  exact (proj1 (integrate_numeric_step_counts
                  [[Fin (1 / 4)]] [[Fin 1]]
                  (mkParams 0 1 2 (uniform_B 0 1) 0 1 false [] [])
                  _ [Fin (1 / 4)] eq_refl
                  (precompute_affine_resolved
                     [[Fin 1]] (mkParams 0 1 2 (uniform_B 0 1) 0 1 false [] [])
                     _ (resolve_uniform 0 1) 1 1 [[Fin (1 / 4)]] eq_refl
                     ltac:(discriminate) ltac:(split; repeat constructor)))
               eq_refl).
Defined.

(** ** The finite-difference derivative *)

Lemma fadd_zero_r (a : float) : (a + Fin 0)%fl = a.
Proof. destruct a; cbn; try reflexivity. f_equal. ring. Qed.

Lemma add_at_zero (k : nat) (row : list float) : add_at k (Fin 0) row = row.
Proof.
  revert k. induction row as [|a row IH]; intros [|k]; cbn [add_at];
    try reflexivity.
  - now rewrite fadd_zero_r.
  - now rewrite IH.
Qed.

Lemma zero_quotient (a : float) : ((a - a) / Fin 0)%fl = NaN.
Proof.
  destruct a as [r | | |]; cbn; try reflexivity.
  rewrite Req_bool_true by reflexivity.
  rewrite Req_bool_true by ring. reflexivity.
Qed.

Lemma zipWith_diag {T U : Type} (f : T -> T -> U) (l : list T) :
  zipWith f l l = map (fun a => f a a) l.
Proof. induction l as [|a l IH]; cbn; [reflexivity | now rewrite IH]. Qed.

Lemma mapM_inv {T U : Type} (f : T -> result U) (l : list T) :
  forall r,
    mapM f l = Ok r ->
    length r = length l /\
    forall b, In b r -> exists a, In a l /\ f a = Ok b.
Proof.
  induction l as [|a l IH]; intros r H; cbn [mapM] in H.
  - injection H as <-. split; [reflexivity | intros b []].
  - destruct (f a) as [b|] eqn:Hfa; cbn [bind] in H; [|discriminate].
    destruct (mapM f l) as [bs|]; cbn [bind] in H; [|discriminate].
    injection H as <-. destruct (IH bs eq_refl) as [Hlen Hin].
    split; [cbn; now rewrite Hlen|].
    intros b' [<- | Hb'].
    + exists a. split; [now left | exact Hfa].
    + destruct (Hin b' Hb') as (a' & Ha' & Hf'). exists a'.
      split; [now right | exact Hf'].
Qed.

Lemma mapM_map {T U : Type} (f : T -> result U) (g : T -> U) (l : list T) :
  (forall a, In a l -> f a = Ok (g a)) -> mapM f l = Ok (map g l).
Proof.
  induction l as [|a l IH]; intros H; cbn [mapM map]; [reflexivity|].
  rewrite (H a) by now left. cbn [bind].
  rewrite IH by (intros a' Ha'; apply H; now right). reflexivity.
Qed.

(** X16: a zero step does not raise: with [h = 0] every bumped
    parameter batch is [theta] itself, and whenever
    [derivative_numeric] returns, it returns the points of
    [integrate_numeric] and a gradient whose entries are all
    not-a-number (the quotient [0 / 0], or [inf - inf]). *)
Theorem derivative_numeric_zero_step
        (x theta : list (list float)) (params : Params)
        (phi : list (list float)) (der : list (list (list float))) :
  derivative_numeric x theta params (Fin 0) = Ok (phi, der) ->
  integrate_numeric x theta params = Ok phi /\
  length der = length (hd [] theta) /\
  Forall (Forall (Forall (fun v => v = NaN))) der.
Proof.
  unfold derivative_numeric. intros H.
  destruct (integrate_numeric x theta params) as [phi1|] eqn:Hphi;
    cbn [bind] in H; [|discriminate].
  destruct (mapM _ _) as [d|] eqn:Hd; cbn [bind] in H; [|discriminate].
  injection H as <- <-. apply mapM_inv in Hd. destruct Hd as [Hlen Hin].
  split; [reflexivity|]. split; [now rewrite Hlen, length_seq|].
  apply Forall_forall. intros slice Hs.
  destruct (Hin slice Hs) as (k & _ & Hk). cbv zeta in Hk.
  rewrite (map_ext _ (fun row => row)) in Hk by (intros; apply add_at_zero).
  rewrite map_id, Hphi in Hk. cbn [bind] in Hk.
  apply reshape2_shape in Hk. destruct Hk as [_ Hcat].
  apply Forall_forall. intros row Hrow. apply Forall_forall. intros v Hv.
  assert (Hin' : In v (concat slice)) by (apply in_concat; eauto).
  rewrite Hcat in Hin'. apply in_concat in Hin'.
  destruct Hin' as (qrow & Hq & Hvq).
  unfold difference_quotient in Hq. rewrite zipWith_diag in Hq.
  apply in_map_iff in Hq. destruct Hq as (prow & <- & _).
  rewrite zipWith_diag in Hvq. apply in_map_iff in Hvq.
  destruct Hvq as (a & <- & _). apply zero_quotient.
Qed.

Lemma resolve_uniform_offset (b th : R) :
  mapM (resolve_row (uniform_B 0 b)) [[Fin th]]
  = Ok (fin_field (repeat (repeat (0, b * th) 2) 1)).
Proof.
  change (repeat (repeat (0, b * th) 2) 1) with (uniform_field 0 (b * th)).
  cbn. unfold fin_pair. cbn [fst snd].
  replace (0 + 0 * th) with 0 by ring.
  replace (0 + b * th) with (b * th) by ring. reflexivity.
Qed.

Lemma zero_step_run :
  derivative_numeric (fin_rows [[1 / 4]]) [[Fin 1]]
                     (two_cells (uniform_B 0 1)) (Fin 0)
  = Ok (map (map (fun v => Fin (v + 1 * 1))) [[1 / 4]], [[[NaN]]]).
Proof.
  assert (Hnum : integrate_numeric (fin_rows [[1 / 4]]) [[Fin 1]]
                                   (two_cells (uniform_B 0 1))
                 = Ok (map (map (fun v => Fin (v + 1 * 1))) [[1 / 4]])).
  { apply (numeric_translates (two_cells (uniform_B 0 1)) [[Fin 1]]
             [[1 / 4]] [[1 / 4]] 1 1 (1 * 1)); try reflexivity;
      try (cbn; lra); try (cbn; lia); try discriminate.
    - split; repeat constructor.
    - apply (resolve_uniform_offset 1 1). }
  unfold derivative_numeric. rewrite Hnum. cbn [bind].
  cbn [hd length seq mapM map add_at]. rewrite fadd_zero_r, Hnum.
  cbn [bind map]. unfold difference_quotient. cbn [zipWith concat app].
  rewrite zero_quotient. reflexivity.
Qed.

Lemma derivative_numeric_zero_step_witness :
  integrate_numeric (fin_rows [[1 / 4]]) [[Fin 1]] (two_cells (uniform_B 0 1))
  = Ok (map (map (fun v => Fin (v + 1 * 1))) [[1 / 4]]) /\
  length [[[NaN]]] = length (hd [] [[Fin 1]]) /\
  Forall (Forall (Forall (fun v => v = NaN))) [[[NaN]]].
Proof.
  exact (derivative_numeric_zero_step
           (fin_rows [[1 / 4]]) [[Fin 1]] (two_cells (uniform_B 0 1))
           _ _ zero_step_run).
Defined.

Section TranslationGradient.
Variable params : Params.
Variable theta : list (list float).
Variables xs xsb : list (list R).
Variables n m : nat.
Variable b : R.
Variable bk : nat -> R.
Variable h : R.
Hypothesis Hdom : xmin params < xmax params.
Hypothesis Hnc : (0 < nc params)%Z.
Hypothesis Hn : length theta = n.
Hypothesis Hn0 : n <> O.
Hypothesis Hbc : broadcast_to (fin_rows xs) n = Ok (fin_rows xsb).
Hypothesis Hrect : rect n m xsb.
Hypothesis Hres :
  mapM (resolve_row (B params)) theta
  = Ok (fin_field (repeat (repeat (0, b) (Z.to_nat (nc params))) n)).
Hypothesis Hbump :
  forall k, (k < length (hd [] theta))%nat ->
    mapM (resolve_row (B params)) (map (add_at k (Fin h)) theta)
    = Ok (fin_field (repeat (repeat (0, bk k) (Z.to_nat (nc params))) n)).
Hypothesis Hs1 : (1 <= nSteps1 params)%Z.
Hypothesis Hs2 : (1 <= nSteps2 params)%Z.
Hypothesis Hh : h <> 0.

Lemma translation_quotient (k : nat) :
  difference_quotient (Fin h)
                      (map (map (fun v => Fin (v + bk k))) xsb)
                      (map (map (fun v => Fin (v + b))) xsb)
  = map (map (fun _ => Fin ((bk k - b) / h))) xsb.
Proof.
  unfold difference_quotient. rewrite zipWith_map. apply map_ext.
  intros row. rewrite zipWith_map. apply map_ext. intros v.
  rewrite fsub_Fin, fdiv_Fin by exact Hh. f_equal. field. exact Hh.
Qed.

Lemma translation_gradient :
  derivative_numeric (fin_rows xs) theta params (Fin h)
  = Ok (map (map (fun v => Fin (v + b))) xsb,
        map (fun k => map (map (fun _ => Fin ((bk k - b) / h))) xsb)
            (seq 0 (length (hd [] theta)))).
Proof.
  unfold derivative_numeric.
  rewrite (numeric_translates params theta xs xsb n m b Hdom Hnc Hn Hn0 Hbc
             Hrect Hres Hs1 Hs2).
  cbn [bind].
  rewrite (mapM_map _ (fun k => map (map (fun _ => Fin ((bk k - b) / h))) xsb)).
  - reflexivity.
  - intros k Hk. apply in_seq in Hk. cbv zeta.
    rewrite (numeric_translates params (map (add_at k (Fin h)) theta)
               xs xsb n m (bk k) Hdom Hnc)
      by (try rewrite length_map; try apply Hbump; try assumption; lia).
    cbn [bind]. rewrite translation_quotient.
    rewrite (broadcast_points (fin_rows xs) (fin_rows xsb) n m Hbc Hn0)
      by (apply rect_map; exact Hrect).
    rewrite Hn. unfold reshape2.
    assert (Hshape : rect n m (map (map (fun _ : R => Fin ((bk k - b) / h))) xsb))
      by (apply rect_map; exact Hrect).
    rewrite (length_concat_rect n m _ Hshape), Nat.eqb_refl.
    now rewrite (chunks_concat n m _ Hshape).
Qed.
End TranslationGradient.



(** ** The remaining time along the loop *)

Lemma ln_monotone (x y : R) : 0 < x -> x <= y -> ln x <= ln y.
Proof.
  intros Hx [Hlt | ->]; [left; now apply ln_increasing | right; reflexivity].
Qed.

Lemma thit_nonneg (a b x xc : R) :
  (0 < a * x + b /\ x <= xc) \/ (a * x + b < 0 /\ xc <= x) ->
  (a = 0 -> b <> 0) ->
  (a <> 0 -> 0 < (a * x + b) * (a * xc + b)) ->
  0 <= thitR (a, b) x xc.
Proof.
  intros Hdir Hb Hsame. unfold thitR. cbn [fst snd].
  destruct (Req_dec_T a 0) as [Ha | Ha].
  - subst a. rewrite !Rmult_0_l, !Rplus_0_l in Hdir.
    destruct Hdir as [[Hv Hx] | [Hv Hx]].
    + unfold Rdiv. apply Rmult_le_pos; [lra|].
      left. apply Rinv_0_lt_compat. exact Hv.
    + replace ((xc - x) / b) with ((x - xc) / (- b)) by (field; lra).
      unfold Rdiv. apply Rmult_le_pos; [lra|].
      left. apply Rinv_0_lt_compat. lra.
  - specialize (Hsame Ha).
    set (U := a * x + b) in *. set (W := a * xc + b).
    assert (HU : U <> 0) by (intros H; rewrite H in Hsame; lra).
    assert (Hrho : (xc + b / a) / (x + b / a) = W / U).
    { unfold U, W. field. split; [exact HU | exact Ha]. }
    rewrite Hrho.
    assert (HW : W - U = a * (xc - x)) by (unfold U, W; ring).
    change (0 < U * W) in Hsame. clearbody U W.
    assert (HWU : W / U * U = W) by (field; exact HU).
    assert (Hpos : 0 < W / U).
    { destruct (Rtotal_order U 0) as [Hn | [|Hp]]; [|contradiction|].
      - replace (W / U) with ((- W) / (- U)) by (field; exact HU).
        apply Rdiv_lt_0_compat; nra.
      - apply Rdiv_lt_0_compat; nra. }
    destruct (Rtotal_order a 0) as [Hneg | [|Hap]]; [|contradiction|].
    + assert (Hle : W / U <= 1).
      { destruct Hdir as [[Hv Hx] | [Hv Hx]]; nra. }
      pose proof (ln_monotone _ _ Hpos Hle) as Hln. rewrite ln_1 in Hln.
      replace (ln (W / U) / a) with ((- ln (W / U)) / (- a)) by (field; lra).
      unfold Rdiv. apply Rmult_le_pos; [lra|].
      left. apply Rinv_0_lt_compat. lra.
    + assert (Hge : 1 <= W / U).
      { destruct Hdir as [[Hv Hx] | [Hv Hx]]; nra. }
      pose proof (ln_monotone _ _ Rlt_0_1 Hge) as Hln. rewrite ln_1 in Hln.
      unfold Rdiv. apply Rmult_le_pos; [lra|].
      left. apply Rinv_0_lt_compat. lra.
Qed.

Lemma Forall_Forall2_l {T U : Type} (Q : T -> Prop) (l : list T) :
  forall ys : list U,
    Forall Q l -> length l = length ys -> Forall2 (fun q _ => Q q) l ys.
Proof.
  induction l as [|q l IH]; intros [|y ys] HQ Hlen; try discriminate;
    constructor.
  - now inversion HQ.
  - apply IH; [now inversion HQ | now injection Hlen].
Qed.

Section TimedLoop.
Variable p : Params.
Variable AR : list (list (R * R)).
Hypothesis HA : A p = fin_field AR.
Hypothesis Hrows : Forall (fun row => Z.of_nat (length row) = nc p) AR.
Hypothesis Hnc : (0 < nc p)%Z.
Hypothesis Hdom : xmin p < xmax p.
Hypothesis Heps : eps_R < (xmax p - xmin p) / IZR (nc p).

(** A crossing takes a time that is not negative. *)
Lemma crossing_time (q : fpt) :
  in_cell_inv p AR q -> valid_of p q = false ->
  exists t tau,
    ft q = Fin t /\ ft (step_of p q) = Fin (t - tau) /\ 0 <= tau.
Proof.
  intros Hinv0 Hinv.
  pose proof (in_cell_hit_ok p AR HA Hrows Hnc Hdom q Hinv0 Hinv)
    as (x' & a & b & xc & Hx' & Hab & Hxc & Hv & Hne & Hz & Hthit).
  destruct Hinv0 as (x & t & Hx & Hft & Hr & Ht & Hc & Hin).
  assert (x' = x) by congruence. subst x'.
  pose proof (in_cell_invalid p AR HA Hrows Hnc Hdom q x t Hx Hft Hr Ht Hc Hin
                Hinv) as Hcase.
  cbv zeta in Hcase.
  pose proof (ab_of_real p AR HA Hrows Hnc Hdom q x Hx Hr) as Hab'.
  rewrite Hab in Hab'. unfold fin_pair in Hab'.
  assert (Habr : abR p AR (fr q) x = (a, b)).
  { destruct (abR p AR (fr q) x) as [a' b']. cbn [fst snd] in Hab'.
    injection Hab' as -> ->. reflexivity. }
  rewrite Habr in Hcase.
  pose proof (xc_of_real p AR HA Hrows Hnc Hdom q x Hx Hr) as Hxc'.
  rewrite Hxc, Habr, <- Hc in Hxc'. injection Hxc' as Hxc'.
  exists t, (thitR (a, b) x xc). split; [exact Hft|]. split.
  - unfold step_of. cbn [ft]. rewrite Hft, Hthit. reflexivity.
  - apply thit_nonneg; [| exact Hz | intros Ha; apply (Hne Ha)].
    rewrite Hxc'.
    destruct Hcase as [(Hpos & _ & _ & ->) | (Hneg & _ & _ & ->)];
      unfold velR in *; cbn [fst snd] in *; [left | right]; split; lra.
Qed.

Lemma timed_step (q : fpt) :
  timed_inv p AR q -> valid_of p q = false -> timed_inv p AR (step_of p q).
Proof.
  intros [Hinv0 (t & Hft & Ht1)] Hinv. split.
  - apply (in_cell_step p AR HA Hrows Hnc Hdom Heps q Hinv0 Hinv).
  - destruct (crossing_time q Hinv0 Hinv) as (t' & tau & Hft' & Hstep & Htau).
    assert (t' = t) by congruence. subst t'.
    exists (t - tau). split; [exact Hstep | lra].
Qed.

Lemma timed_final (q : fpt) :
  timed_inv p AR q -> trace_row_ok p (record_of trace_row p q).
Proof.
  intros [(x & t & Hx & Hft & Hr & Ht & Hc & _) (t' & Hft' & Ht1)].
  assert (t' = t) by congruence. subst t'.
  exists (psiR (abR p AR (fr q) x) x t), t, (fc q).
  unfold record_of, trace_row.
  rewrite (psi_of_real p AR HA Hrows Hnc Hdom q x Hx Hr t Hft), Hft.
  repeat split; try lra; rewrite Hc; apply (cellR_range p Hnc).
Qed.
End TimedLoop.

Section TraceRows.
Variable params : Params.
Variable theta : list (list float).
Variable AR : list (list (R * R)).
Variables xs xsb : list (list R).
Variables n m : nat.
Hypothesis Hdom : xmin params < xmax params.
Hypothesis Hnc : (0 < nc params)%Z.
Hypothesis Heps : eps_R < (xmax params - xmin params) / IZR (nc params).
Hypothesis Hres : mapM (resolve_row (B params)) theta = Ok (fin_field AR).
Hypothesis Hrows : Forall (fun row => Z.of_nat (length row) = nc params) AR.
Hypothesis Hn : length theta = n.
Hypothesis Hn0 : n <> O.
Hypothesis Hbc : broadcast_to (fin_rows xs) n = Ok (fin_rows xsb).
Hypothesis Hrect : rect n m xsb.
Hypothesis Hin : Forall (Forall (fun v => xmin params <= v <= xmax params)) xs.

Let p : Params :=
  resolved params (fin_field AR) (map snd (tag_rows 0 (fin_rows xsb))).

Lemma trace_rows_timed (fuel : nat) (res : list (float * float * float)) :
  integrate_closed_form_trace fuel (fin_rows xs) theta params = Some (Ok res) ->
  Forall (trace_row_ok p) res /\ length res = (n * m)%nat.
Proof.
  intros Htrace. unfold integrate_closed_form_trace, hop_run in Htrace.
  destruct (domain_setup params theta AR xs xsb n m Hres Hn Hn0 Hbc Hrect)
    as [Hbe Hpre].
  rewrite Hbe in Htrace. cbn [obind] in Htrace.
  rewrite Hpre in Htrace. cbn [obind] in Htrace.
  rewrite hop_init_pack in Htrace. fold p in Htrace.
  assert (Hall : Forall2 (fun row (_ : R) => trace_row_ok p row) res
                         (concat xsb)).
  { refine (hop_loop_returns trace_row theta p eq_refl
              (fun _ q (_ : R) => timed_inv p AR q)
              (fun row _ => trace_row_ok p row)
              (fun _ q _ Hq _ _ => timed_final p AR eq_refl Hrows Hnc Hdom q Hq)
              (fun _ q _ Hq _ Hv =>
                 timed_step p AR eq_refl Hrows Hnc Hdom Heps q Hq Hv)
              fuel _ _ _ 0%Z (concat xsb) res _ Htrace).
    apply aligned_init. apply Forall_Forall2_l.
    - apply Forall_forall. intros q Hq. split.
      + assert (Hinit : Forall (in_cell_inv p AR) (init_pts p (fin_rows xsb)))
          by (apply domain_init with (theta := theta) (xs := xs) (n := n)
                                     (m := m); assumption).
        rewrite Forall_forall in Hinit. apply Hinit. exact Hq.
      + unfold init_pts in Hq. apply in_map_iff in Hq.
        destruct Hq as (xr & <- & _). exists 1. split; [reflexivity | lra].
    - unfold init_pts, fin_rows.
      rewrite length_map, tag_rows_map, length_map, <- (tag_rows_fst 0 xsb).
      now rewrite length_map. }
  split.
  - clear - Hall. induction Hall; constructor; assumption.
  - apply Forall2_length in Hall. rewrite Hall.
    apply (length_concat_rect n m xsb Hrect).
Qed.
End TraceRows.



(** ** The cache of the resolved field *)

Lemma precompute_affine_refreshes
      (x : list float) (theta : list (list float)) (params : Params)
      (flag : bool) (A0 : list (list (float * float))) (r0 : list Z) :
  precompute_affine x theta (set_cache params flag A0 r0)
  = precompute_affine x theta params.
Proof.
  unfold precompute_affine, get_affine.
  cbn [precomputed set_cache B xmin xmax nc nSteps1 nSteps2 A r].
  destruct (length theta =? 0)%nat; [reflexivity|].
  destruct (mapM _ theta); reflexivity.
Qed.

(** X19: the entry points never use a cache left in the parameter
    object: whatever flag, field and batch entries [params] carries,
    [integrate_closed_form], [integrate_closed_form_trace],
    [integrate_numeric] and [derivative_closed_form] resolve the field
    anew from [B] and [theta] and give the result they give for
    [params] itself. *)
Theorem entry_points_ignore_cache
        (fuel wfuel : nat) (x theta : list (list float)) (params : Params)
        (flag : bool) (A0 : list (list (float * float))) (r0 : list Z) :
  let stale := set_cache params flag A0 r0 in
  integrate_closed_form fuel x theta stale
  = integrate_closed_form fuel x theta params /\
  integrate_closed_form_trace fuel x theta stale
  = integrate_closed_form_trace fuel x theta params /\
  integrate_numeric x theta stale = integrate_numeric x theta params /\
  derivative_closed_form fuel wfuel x theta stale
  = derivative_closed_form fuel wfuel x theta params.
Proof.
  cbv zeta.
  assert (Hrun : forall (T : Type) (record : float -> float -> Z -> T) blank,
             hop_run record theta fuel blank x (set_cache params flag A0 r0)
             = hop_run record theta fuel blank x params).
  { intros T record blank. unfold hop_run.
    destruct (batch_effect x theta) as [xf|]; cbn [obind]; [|reflexivity].
    now rewrite precompute_affine_refreshes. }
  split; [|split; [|split]].
  - unfold integrate_closed_form. now rewrite Hrun.
  - unfold integrate_closed_form_trace. apply Hrun.
  - unfold integrate_numeric.
    destruct (batch_effect x theta) as [xf|]; cbn [bind]; [|reflexivity].
    now rewrite precompute_affine_refreshes.
  - unfold derivative_closed_form, integrate_closed_form_trace.
    rewrite Hrun.
    destruct (hop_run trace_row theta fuel _ x params) as [[res|e]|];
      cbn [obind]; [|reflexivity|reflexivity].
    destruct (reshape_rows _ _); cbn [obind]; [|reflexivity].
    destruct (batch_effect x theta) as [xf|]; cbn [obind]; [|reflexivity].
    now rewrite precompute_affine_refreshes.
Qed.

(** X20: once the field is cached, the functions of the loop do not
    look at [theta] any more: with a precomputed parameter object,
    [get_velocity], [get_psi] and [get_hit_time] return for any two
    parameter batches the same result, that of the cached field. *)
Theorem precomputed_field_ignores_theta
        (theta theta' : list (list float)) (x t : list float) (p : Params) :
  precomputed p = true ->
  get_velocity x theta p = get_velocity x theta' p /\
  get_psi x t theta p = get_psi x t theta' p /\
  get_hit_time x theta p = get_hit_time x theta' p.
Proof.
  intros Hpre.
  assert (Haff : forall y th, get_affine y th p = Ok (A p, r p)).
  { intros y th. unfold get_affine. now rewrite Hpre. }
  assert (Hv : get_velocity x theta p = get_velocity x theta' p).
  { unfold get_velocity. now rewrite !Haff. }
  split; [|split].
  - exact Hv.
  - unfold get_psi. now rewrite !Haff.
  - unfold get_hit_time. now rewrite !Haff, Hv.
Qed.

Lemma precomputed_field_ignores_theta_witness :
  get_velocity [Fin (1 / 4)] [[Fin 1]] (two_cells_resolved (uniform_B 0 1) 0 1)
  = get_velocity [Fin (1 / 4)] [[Fin 2]]
                 (two_cells_resolved (uniform_B 0 1) 0 1).
Proof.
  exact (proj1 (precomputed_field_ignores_theta
                  [[Fin 1]] [[Fin 2]] [Fin (1 / 4)] []
                  (two_cells_resolved (uniform_B 0 1) 0 1) eq_refl)).
Defined.

(** ** Flattened points and their batch entries *)

Lemma nth_map_in {T U : Type} (f : T -> U) (l : list T) (d : T) (d' : U) :
  forall j, (j < length l)%nat -> nth j (map f l) d' = f (nth j l d).
Proof.
  induction l as [|a l IH]; intros [|j] Hj; cbn in *; try lia;
    [reflexivity | apply IH; lia].
Qed.

Lemma tag_rows_nth {T : Type} (d : T) (m : nat) (xb : list (list T)) :
  forall (s i j : nat),
    Forall (fun row => length row = m) xb ->
    (i < length xb)%nat -> (j < m)%nat ->
    nth (i * m + j) (tag_rows s xb) (d, 0%Z)
    = (nth j (nth i xb []) d, Z.of_nat (s + i)).
Proof.
  induction xb as [|row xb IH]; intros s i j Hrows Hi Hj; [cbn in Hi; lia|].
  inversion Hrows as [|? ? Hrow Hrest]; subst. cbn [tag_rows].
  destruct i as [|i].
  - cbn [Nat.mul Nat.add nth]. rewrite app_nth1 by (rewrite length_map; lia).
    rewrite (nth_map_in _ row d) by lia. now rewrite Nat.add_0_r.
  - rewrite app_nth2 by (rewrite length_map; cbn; lia).
    rewrite length_map.
    replace (S i * length row + j - length row)%nat
      with (i * length row + j)%nat by (cbn; lia).
    rewrite (IH (S s) i j Hrest) by (cbn in Hi; lia).
    cbn [nth]. do 2 f_equal. lia.
Qed.

(** X21: the pairing of points and batch entries: after the setup of a
    call on a batch of [n_batch] rows of [n_points] points (a single
    row is repeated for every batch entry), the point [(i, j)] is the
    entry [i * n_points + j] of the flattened array and the entry of
    [r] at that index is its batch row [i]; the two arrays have the
    same length. *)
Theorem flattened_points_keep_their_batch_entry
        (x theta xb : list (list float)) (params : Params)
        (Am : list (list (float * float))) (n m : nat) :
  length theta = n -> n <> O ->
  broadcast_to x n = Ok xb -> rect n m xb ->
  mapM (resolve_row (B params)) theta = Ok Am ->
  exists xf p,
    batch_effect x theta = Ok xf /\
    precompute_affine xf theta params = Ok p /\
    A p = Am /\
    length (r p) = length xf /\
    forall i j d,
      (i < n)%nat -> (j < m)%nat ->
      nth (i * m + j) xf d = nth j (nth i xb []) d /\
      nth (i * m + j) (r p) 0%Z = Z.of_nat i.
Proof.
  intros Hn Hn0 Hbc Hrect Hres.
  exists (concat xb), (resolved params Am (map snd (tag_rows 0 xb))).
  split; [unfold batch_effect; now rewrite Hn, Hbc|].
  split; [apply (precompute_affine_resolved theta params Am Hres n m xb Hn Hn0
                   Hrect)|].
  split; [reflexivity|].
  cbn [r resolved set_cache]. split.
  - rewrite <- (tag_rows_fst 0 xb). now rewrite !length_map.
  - intros i j d Hi Hj. destruct Hrect as [Hlen Hrows].
    pose proof (tag_rows_nth d m xb 0 i j Hrows ltac:(lia) Hj) as Hnth.
    split.
    + rewrite <- (tag_rows_fst 0 xb).
      rewrite (nth_map_in fst _ (d, 0%Z)), Hnth; [reflexivity|].
      rewrite <- (length_map fst), tag_rows_fst.
      rewrite (length_concat_rect n m xb (conj Hlen Hrows)). nia.
    + rewrite (nth_map_in snd _ (d, 0%Z)), Hnth; [reflexivity|].
      rewrite <- (length_map fst), tag_rows_fst.
      rewrite (length_concat_rect n m xb (conj Hlen Hrows)). nia.
Qed.

Lemma flattened_points_keep_their_batch_entry_witness :
  exists xf p,
    batch_effect [[Fin 0; Fin 1]] [[Fin 1]; [Fin 2]] = Ok xf /\
    precompute_affine xf [[Fin 1]; [Fin 2]] (two_cells (uniform_B 0 1)) = Ok p /\
    length (r p) = length xf.
Proof.
  destruct (flattened_points_keep_their_batch_entry
              [[Fin 0; Fin 1]] [[Fin 1]; [Fin 2]]
              [[Fin 0; Fin 1]; [Fin 0; Fin 1]]
              (two_cells (uniform_B 0 1)) _ 2 2
              eq_refl ltac:(discriminate) eq_refl
              ltac:(split; repeat constructor) eq_refl)
    as (xf & p & H1 & H2 & _ & H3 & _).
  exists xf, p. repeat split; assumption.
Defined.
(** ** Derivatives of the flow and of the hit time over the reals *)

Lemma D_plus (f g : R -> R) (x lf lg : R) :
  derivable_pt_lim f x lf -> derivable_pt_lim g x lg ->
  derivable_pt_lim (fun s => f s + g s) x (lf + lg).
Proof. exact (derivable_pt_lim_plus f g x lf lg). Qed.

Lemma D_minus (f g : R -> R) (x lf lg : R) :
  derivable_pt_lim f x lf -> derivable_pt_lim g x lg ->
  derivable_pt_lim (fun s => f s - g s) x (lf - lg).
Proof. exact (derivable_pt_lim_minus f g x lf lg). Qed.

Lemma D_mult (f g : R -> R) (x lf lg : R) :
  derivable_pt_lim f x lf -> derivable_pt_lim g x lg ->
  derivable_pt_lim (fun s => f s * g s) x (lf * g x + f x * lg).
Proof. exact (derivable_pt_lim_mult f g x lf lg). Qed.

Lemma D_div (f g : R -> R) (x lf lg : R) :
  derivable_pt_lim f x lf -> derivable_pt_lim g x lg -> g x <> 0 ->
  derivable_pt_lim (fun s => f s / g s) x ((lf * g x - lg * f x) / (g x)²).
Proof. exact (derivable_pt_lim_div f g x lf lg). Qed.

Lemma D_const (c x : R) : derivable_pt_lim (fun _ => c) x 0.
Proof. exact (derivable_pt_lim_const c x). Qed.

Lemma D_id (x : R) : derivable_pt_lim (fun s => s) x 1.
Proof. exact (derivable_pt_lim_id x). Qed.

Lemma D_value (f : R -> R) (x l l' : R) :
  derivable_pt_lim f x l -> l = l' -> derivable_pt_lim f x l'.
Proof. intros H <-. exact H. Qed.

Lemma D_affine (c d x : R) : derivable_pt_lim (fun s => c + s * d) x d.
Proof.
  apply D_value with (l := 0 + (1 * d + x * 0)); [|ring].
  apply (D_plus (fun _ => c) (fun s => s * d)); [apply D_const|].
  apply (D_mult (fun s => s) (fun _ => d)); [apply D_id|apply D_const].
Qed.

Lemma D_exp (f : R -> R) (x l : R) :
  derivable_pt_lim f x l ->
  derivable_pt_lim (fun s => exp (f s)) x (exp (f x) * l).
Proof.
  intros Hf.
  exact (derivable_pt_lim_comp f exp x l (exp (f x)) Hf
           (derivable_pt_lim_exp (f x))).
Qed.

Lemma D_ln (f : R -> R) (x l : R) :
  derivable_pt_lim f x l -> 0 < f x ->
  derivable_pt_lim (fun s => ln (f s)) x (/ f x * l).
Proof.
  intros Hf Hpos.
  exact (derivable_pt_lim_comp f ln x l (/ f x) Hf
           (derivable_pt_lim_ln (f x) Hpos)).
Qed.

Ltac derive :=
  repeat first
    [ apply D_affine | apply D_const | apply D_id
    | eapply D_minus | eapply D_plus | eapply D_div | eapply D_mult
    | eapply D_exp | eapply D_ln ].

Ltac at_zero := cbv beta; rewrite ?Rmult_0_l, ?Rplus_0_r.

(** An affine function keeps the sign of its value at zero on an
    interval around zero. *)
Lemma affine_keeps_sign (c d : R) :
  c <> 0 ->
  exists delta, 0 < delta /\
    forall s, - delta < s < delta -> 0 < c * (c + s * d).
Proof.
  intros Hc. exists (Rabs c / (Rabs d + 1)).
  pose proof (Rabs_pos d) as Hd. pose proof (Rabs_pos_lt c Hc) as Hc'.
  assert (Hden : 0 < Rabs d + 1) by lra.
  split; [apply Rdiv_lt_0_compat; lra|].
  intros s Hs.
  assert (Hs' : Rabs s < Rabs c / (Rabs d + 1)) by (apply Rabs_def1; lra).
  assert (Hsd : Rabs (s * d) < Rabs c).
  { rewrite Rabs_mult.
    apply Rle_lt_trans with (Rabs c / (Rabs d + 1) * Rabs d).
    - apply Rmult_le_compat_r; lra.
    - apply Rmult_lt_reg_r with (Rabs d + 1); [lra|].
      replace (Rabs c / (Rabs d + 1) * Rabs d * (Rabs d + 1))
        with (Rabs c * Rabs d) by (field; lra).
      nra. }
  replace (c * (c + s * d)) with (c * c + c * (s * d)) by ring.
  assert (Habs : Rabs (c * (s * d)) < c * c).
  { rewrite Rabs_mult.
    replace (c * c) with (Rabs c * Rabs c)
      by (rewrite <- Rabs_mult; apply Rabs_pos_eq; nra).
    apply Rmult_lt_compat_l; assumption. }
  apply Rabs_def2 in Habs. lra.
Qed.

(** The derivative of the flow along a direction [(ak, bk)] of the
    coefficients, in a cell whose slope is not zero. *)
Lemma flow_gradient (a b ak bk x t : R) :
  a <> 0 ->
  derivable_pt_lim (fun s => psiR (a + s * ak, b + s * bk) x t) 0
    (ak * t * exp (a * t) * (x + b / a)
     + (exp (t * a) - 1) * (bk * a - ak * b) / (a * a)).
Proof.
  intros Ha.
  destruct (affine_keeps_sign a ak Ha) as (delta & Hdelta & Hsign).
  apply derivable_pt_lim_locally_ext
    with (f := fun s => exp (t * (a + s * ak))
                        * (x + (b + s * bk) / (a + s * ak))
                        - (b + s * bk) / (a + s * ak))
         (a := - delta) (b := delta); [lra| |].
  - intros s Hs. unfold psiR. cbn [fst snd].
    destruct (Req_dec_T (a + s * ak) 0) as [Hz|_]; [|reflexivity].
    specialize (Hsign s Hs). rewrite Hz in Hsign. lra.
  - eapply D_value.
    + derive; at_zero; exact Ha.
    + at_zero. replace (a * t) with (t * a) by ring.
      unfold Rsqr. field. exact Ha.
Qed.

(** The derivative of the flow in time, in either branch. *)
Lemma flow_time_rate (ab : R * R) (x t : R) :
  derivable_pt_lim (fun h => psiR ab x (t + h)) 0
    (if Req_dec_T (fst ab) 0 then snd ab
     else exp (t * fst ab) * (fst ab * x + snd ab)).
Proof.
  unfold psiR. destruct (Req_dec_T (fst ab) 0) as [Hz|Ha].
  - eapply D_value; [derive|]. cbv beta. ring.
  - eapply D_value; [derive|]. cbv beta. rewrite Rplus_0_r. field. exact Ha.
Qed.

(** The derivative of the hit time along a direction [(ak, bk)] of the
    coefficients, for a slope and a velocity that are not zero and a
    boundary on the side the point travels to. *)
Lemma hit_time_gradient (a b ak bk x xc : R) :
  a <> 0 -> a * x + b <> 0 -> 0 < (a * xc + b) / (a * x + b) ->
  derivable_pt_lim (fun s => thitR (a + s * ak, b + s * bk) x xc) 0
    (- ak * ln ((a * xc + b) / (a * x + b)) / (a * a)
     + (x - xc) * (bk * a - ak * b) / (a * (a * x + b) * (a * xc + b))).
Proof.
  intros Ha HU Hpos.
  assert (HW : a * xc + b <> 0).
  { intros HW. rewrite HW in Hpos. unfold Rdiv in Hpos. lra. }
  destruct (affine_keeps_sign a ak Ha) as (d1 & Hd1 & Hs1).
  destruct (affine_keeps_sign (a * x + b) (ak * x + bk) HU) as (d2 & Hd2 & Hs2).
  apply derivable_pt_lim_locally_ext
    with (f := fun s => ln (((a + s * ak) * xc + (b + s * bk))
                            / ((a + s * ak) * x + (b + s * bk)))
                        / (a + s * ak))
         (a := - Rmin d1 d2) (b := Rmin d1 d2).
  - pose proof (Rmin_glb_lt d1 d2 0 Hd1 Hd2). lra.
  - intros s Hs.
    pose proof (Rmin_l d1 d2). pose proof (Rmin_r d1 d2).
    assert (Has : a + s * ak <> 0).
    { intros Hz. specialize (Hs1 s ltac:(lra)). rewrite Hz in Hs1. lra. }
    assert (HUs : (a + s * ak) * x + (b + s * bk) <> 0).
    { intros Hz. specialize (Hs2 s ltac:(lra)).
      replace (a * x + b + s * (ak * x + bk))
        with ((a + s * ak) * x + (b + s * bk)) in Hs2 by ring.
      rewrite Hz in Hs2. lra. }
    unfold thitR. cbn [fst snd].
    destruct (Req_dec_T (a + s * ak) 0) as [Hz|_]; [contradiction|].
    f_equal. f_equal. field. split; [exact Has|].
    replace (x * (a + s * ak) + (b + s * bk))
      with ((a + s * ak) * x + (b + s * bk)) by ring. exact HUs.
  - eapply D_value.
    + derive.
      * at_zero. exact HU.
      * at_zero. exact Hpos.
      * at_zero. exact Ha.
    + at_zero. unfold Rsqr. field. repeat split; assumption.
Qed.
(** ** The resolver on real operands *)

Lemma fold_fadd_fin (l : list R) :
  forall acc, fold_left fadd (map Fin l) (Fin acc) = Fin (fold_left Rplus l acc).
Proof.
  induction l as [|a l IH]; intros acc; cbn [map fold_left]; [reflexivity|].
  cbn [fadd]. apply IH.
Qed.

Lemma zipWith_fmul_fin (u : list R) :
  forall v, zipWith fmul (map Fin u) (map Fin v) = map Fin (zipWith Rmult u v).
Proof.
  induction u as [|a u IH]; intros [|b v]; cbn [map zipWith]; try reflexivity.
  cbn [fmul]. now rewrite IH.
Qed.

Lemma dot_fin (u v : list R) :
  length u = length v -> dot (map Fin u) (map Fin v) = Ok (Fin (dotR u v)).
Proof.
  intros Hlen. unfold dot, dotR. rewrite !length_map, Hlen, Nat.eqb_refl.
  now rewrite zipWith_fmul_fin, fold_fadd_fin.
Qed.

Lemma pairs_fin (n : nat) :
  forall l, length l = (2 * n)%nat ->
            pairs (map Fin l) = Ok (map fin_pair (pairsR l)).
Proof.
  induction n as [|n IH]; intros l Hl.
  - destruct l; [reflexivity|discriminate].
  - destruct l as [|a [|b l]]; cbn [length] in Hl; try lia.
    cbn [map pairs pairsR]. rewrite (IH l) by lia. reflexivity.
Qed.

Lemma length_pairsR (n : nat) :
  forall l, length l = (2 * n)%nat -> length (pairsR l) = n.
Proof.
  induction n as [|n IH]; intros l Hl.
  - destruct l; [reflexivity|discriminate].
  - destruct l as [|a [|b l]]; cbn [length] in Hl; try lia.
    cbn [pairsR length]. rewrite (IH l) by lia. reflexivity.
Qed.

Lemma nth_pairsR (c : nat) :
  forall l, (2 * c + 1 < length l)%nat ->
            nth c (pairsR l) (0, 0) = (nth (2 * c) l 0, nth (2 * c + 1) l 0).
Proof.
  induction c as [|c IH]; intros l Hl.
  - destruct l as [|a [|b l]]; cbn [length] in Hl; try lia. reflexivity.
  - destruct l as [|a [|b l]]; cbn [length] in Hl; try lia.
    cbn [pairsR nth]. rewrite (IH l) by lia.
    replace (2 * S c)%nat with (S (S (2 * c))) by lia.
    replace (S (S (2 * c)) + 1)%nat with (S (S (2 * c + 1))) by lia.
    reflexivity.
Qed.

Lemma mapM_dot_fin (th : list R) (BR : list (list R)) :
  Forall (fun row => length row = length th) BR ->
  mapM (fun row => dot row (map Fin th)) (fin_rows BR)
  = Ok (map Fin (map (fun row => dotR row th) BR)).
Proof.
  induction 1 as [|row BR Hrow _ IH]; cbn [fin_rows map mapM]; [reflexivity|].
  rewrite (dot_fin row th Hrow). cbn [bind].
  unfold fin_rows in IH. rewrite IH. reflexivity.
Qed.

Lemma resolve_row_fin (c : nat) (th : list R) (BR : list (list R)) :
  length BR = (2 * c)%nat ->
  Forall (fun row => length row = length th) BR ->
  resolve_row (fin_rows BR) (map Fin th)
  = Ok (map fin_pair (pairsR (map (fun row => dotR row th) BR))).
Proof.
  intros Hlen Hrows. unfold resolve_row.
  rewrite (mapM_dot_fin th BR Hrows). cbn [bind].
  apply (pairs_fin c). now rewrite length_map.
Qed.

(** The field of a real basis and real parameters. *)
Lemma resolve_real (c d : nat) (BR TH : list (list R)) :
  rect (2 * c) d BR ->
  Forall (fun th => length th = d) TH ->
  mapM (resolve_row (fin_rows BR)) (fin_rows TH) = Ok (fin_field (fieldR BR TH)).
Proof.
  intros [Hlen Hrows] HTH.
  induction HTH as [|th TH Hth _ IH]; [reflexivity|].
  change (fin_rows (th :: TH)) with (map Fin th :: fin_rows TH).
  cbn [mapM]. rewrite (resolve_row_fin c th BR Hlen).
  - cbn [bind]. rewrite IH. reflexivity.
  - eapply Forall_impl; [|exact Hrows]. cbn. intros row Hr. congruence.
Qed.

Lemma fin_injective (l l' : list R) : map Fin l = map Fin l' -> l = l'.
Proof.
  revert l'. induction l as [|a l IH]; intros [|b l'] H; try discriminate;
    [reflexivity|].
  cbn [map] in H. injection H as -> H. f_equal. now apply IH.
Qed.

Lemma fin_field_injective (AR AR' : list (list (R * R))) :
  fin_field AR = fin_field AR' -> AR = AR'.
Proof.
  unfold fin_field. revert AR'.
  induction AR as [|row AR IH]; intros [|row' AR'] H; try discriminate;
    [reflexivity|].
  cbn [map] in H. injection H as Hrow H. f_equal; [|now apply IH].
  clear -Hrow. revert row' Hrow.
  induction row as [|[a b] row IHr]; intros [|[a' b'] row'] H;
    try discriminate; [reflexivity|].
  cbn [map fin_pair fst snd] in H. injection H as -> -> H.
  f_equal. now apply IHr.
Qed.

(** The bump of a real row. *)
Lemma add_at_fin (s : R) (th : list R) :
  forall k, add_at k (Fin s) (map Fin th) = map Fin (add_atR k s th).
Proof.
  induction th as [|a th IH]; intros [|k]; cbn [map add_at add_atR fadd];
    try reflexivity.
  now rewrite IH.
Qed.

Lemma length_add_atR (s : R) (th : list R) :
  forall k, length (add_atR k s th) = length th.
Proof.
  induction th as [|a th IH]; intros [|k]; cbn [add_atR length];
    try reflexivity.
  now rewrite IH.
Qed.

Lemma bump_fin (k : nat) (s : R) (TH : list (list R)) :
  bump k (Fin s) (fin_rows TH) = fin_rows (map (add_atR k s) TH).
Proof.
  unfold bump, fin_rows. rewrite !map_map.
  apply map_ext. intros th. apply add_at_fin.
Qed.

Lemma fold_Rplus_acc (l : list R) :
  forall acc, fold_left Rplus l acc = acc + fold_left Rplus l 0.
Proof.
  induction l as [|a l IH]; intros acc; cbn [fold_left]; [ring|].
  rewrite (IH (acc + a)), (IH (0 + a)). ring.
Qed.

Lemma dotR_cons (a b : R) (u v : list R) :
  dotR (a :: u) (b :: v) = a * b + dotR u v.
Proof.
  unfold dotR. cbn [zipWith fold_left]. rewrite fold_Rplus_acc. ring.
Qed.

(** The inner product is linear in each component of its second
    operand. *)
Lemma dotR_add_at (s : R) (row : list R) :
  forall th k,
    length row = length th -> (k < length th)%nat ->
    dotR row (add_atR k s th) = dotR row th + s * nth k row 0.
Proof.
  induction row as [|a row IH]; intros [|b th] k Hlen Hk;
    cbn [length] in *; try lia.
  destruct k as [|k]; cbn [add_atR nth].
  - rewrite !dotR_cons. ring.
  - rewrite !dotR_cons, (IH th k) by lia. ring.
Qed.

Lemma coefR_fieldR (BR TH : list (list R)) (ri ci : Z) :
  (0 <= ri < Z.of_nat (length TH))%Z ->
  (0 <= ci)%Z -> (2 * Z.to_nat ci + 1 < length BR)%nat ->
  coefR (fieldR BR TH) ri ci
  = (dotR (nth (2 * Z.to_nat ci) BR []) (nth (Z.to_nat ri) TH []),
     dotR (nth (2 * Z.to_nat ci + 1) BR []) (nth (Z.to_nat ri) TH [])).
Proof.
  intros Hri Hci Hc. unfold coefR, fieldR.
  rewrite (nth_map_in _ _ [] []) by lia.
  rewrite nth_pairsR by (rewrite length_map; exact Hc).
  rewrite !(nth_map_in _ _ [] 0) by lia. reflexivity.
Qed.
(** ** The derivative kernels on real operands *)

Lemma dphi_time_fin (a b x t : R) :
  fwhere (Fin a ==? Fin 0)%fl (Fin b)
         (fexp (Fin t * Fin a) * (Fin a * Fin x + Fin b))%fl
  = Fin (if Req_dec_T a 0 then b else exp (t * a) * (a * x + b)).
Proof.
  cbn [feq fmul fadd fexp]. unfold Req_bool.
  now destruct (Req_dec_T a 0).
Qed.

Lemma dpsi_theta_fin (a b ak bk x t : R) :
  a <> 0 ->
  fwhere (Fin a ==? Fin 0)%fl
         (Fin t * (Fin x * Fin ak + Fin bk))%fl
         (Fin ak * Fin t * fexp (Fin a * Fin t) * (Fin x + Fin b / Fin a)
          + (fexp (Fin t * Fin a) - Fin 1)
            * (Fin bk * Fin a - Fin ak * Fin b) / (Fin a * Fin a))%fl
  = Fin (ak * t * exp (a * t) * (x + b / a)
         + (exp (t * a) - 1) * (bk * a - ak * b) / (a * a)).
Proof.
  intros Ha.
  cbn [feq fmul fadd fsub fneg fexp fdiv fwhere].
  rewrite !(Req_bool_false a 0 Ha).
  rewrite (Req_bool_false (a * a) 0) by nra.
  reflexivity.
Qed.

Lemma dthit_theta_fin (a b ak bk x xc : R) :
  a <> 0 -> a * x + b <> 0 -> 0 < (a * xc + b) / (a * x + b) ->
  fwhere (Fin a ==? Fin 0)%fl
         ((Fin x - Fin xc) * Fin bk / (Fin b * Fin b))%fl
         (fneg (Fin ak)
          * flog ((Fin a * Fin xc + Fin b) / (Fin a * Fin x + Fin b))
          / (Fin a * Fin a)
          + (Fin x - Fin xc) * (Fin bk * Fin a - Fin ak * Fin b)
            / (Fin a * (Fin a * Fin x + Fin b) * (Fin a * Fin xc + Fin b)))%fl
  = Fin (- ak * ln ((a * xc + b) / (a * x + b)) / (a * a)
         + (x - xc) * (bk * a - ak * b)
           / (a * (a * x + b) * (a * xc + b))).
Proof.
  intros Ha HU Hpos.
  assert (HW : a * xc + b <> 0).
  { intros HW. rewrite HW in Hpos. unfold Rdiv in Hpos. lra. }
  cbn [feq fmul fadd fsub fneg fwhere].
  rewrite (Req_bool_false a 0 Ha). cbn [fdiv].
  rewrite (Req_bool_false (a * x + b) 0 HU). cbn [flog].
  rewrite (Rltb_true _ _ Hpos). cbn [fmul fdiv].
  rewrite (Req_bool_false (a * a) 0) by nra.
  rewrite (Req_bool_false (a * (a * x + b) * (a * xc + b)) 0)
    by (repeat apply Rmult_integral_contrapositive_currified; assumption).
  reflexivity.
Qed.

(** A finite hit time in a cell whose slope is not zero: the velocity
    at the point is not zero and the boundary lies on the side the
    point travels to. *)
Lemma hit_k_finite (a b x xc tau : R) :
  a <> 0 ->
  hit_k (fin_pair (a, b)) (Fin x) (Fin xc) = Fin tau ->
  a * x + b <> 0 /\ 0 < (a * xc + b) / (a * x + b).
Proof.
  intros Ha. unfold hit_k, fin_pair. cbn [fst snd feq fwhere].
  rewrite (Req_bool_false a 0 Ha). cbn [fdiv].
  rewrite (Req_bool_false a 0 Ha). cbn [fadd fdiv].
  unfold Req_bool.
  destruct (Req_dec_T (x + b / a) 0) as [Hz|HU'].
  - destruct (Req_dec_T (xc + b / a) 0); [discriminate|].
    destruct (Rltb 0 (xc + b / a)); cbn [flog fdiv];
      destruct (Rltb a 0); discriminate.
  - cbn [flog]. unfold Rltb.
    destruct (Rlt_dec 0 ((xc + b / a) / (x + b / a))) as [Hpos|_].
    + intros _.
      assert (HU : a * x + b <> 0).
      { intros HU. apply HU'. field_simplify; [|exact Ha].
        replace (x * a + b) with (a * x + b) by ring.
        rewrite HU. unfold Rdiv. ring. }
      split; [exact HU|].
      replace ((a * xc + b) / (a * x + b))
        with ((xc + b / a) / (x + b / a)); [exact Hpos|].
      field. repeat split; try assumption;
        replace (x * a + b) with (a * x + b) by ring; exact HU.
    + destruct (Req_bool ((xc + b / a) / (x + b / a)) 0); cbn [fdiv fwhere];
        [destruct (Rltb a 0)|]; discriminate.
Qed.

(** Near a parameter with a finite hit time, the hit time the code
    computes for the moved coefficients is the real hit time to the
    same boundary. *)
Lemma hit_time_local (a b ak bk x xl xr : R) :
  let xc := if Rleb 0 (a * x + b) then xr else xl in
  a <> 0 -> a * x + b <> 0 -> 0 < (a * xc + b) / (a * x + b) ->
  exists delta, 0 < delta /\
    forall s, - delta < s < delta ->
      hit_k (fin_pair (a + s * ak, b + s * bk)) (Fin x)
            (Fin (if Rleb 0 (velR (a + s * ak, b + s * bk) x)
                  then xr else xl))
      = Fin (thitR (a + s * ak, b + s * bk) x xc).
Proof.
  intros xc Ha HU Hpos.
  assert (HW : a * xc + b <> 0).
  { intros HW. rewrite HW in Hpos. unfold Rdiv in Hpos. lra. }
  destruct (affine_keeps_sign a ak Ha) as (d1 & Hd1 & Hs1).
  destruct (affine_keeps_sign (a * x + b) (ak * x + bk) HU) as (d2 & Hd2 & Hs2).
  destruct (affine_keeps_sign (a * xc + b) (ak * xc + bk) HW)
    as (d3 & Hd3 & Hs3).
  exists (Rmin d1 (Rmin d2 d3)).
  split; [repeat apply Rmin_glb_lt; assumption|].
  intros s Hs.
  pose proof (Rmin_l d1 (Rmin d2 d3)). pose proof (Rmin_r d1 (Rmin d2 d3)).
  pose proof (Rmin_l d2 d3). pose proof (Rmin_r d2 d3).
  specialize (Hs1 s ltac:(lra)). specialize (Hs2 s ltac:(lra)).
  specialize (Hs3 s ltac:(lra)).
  set (a' := a + s * ak) in *. set (b' := b + s * bk) in *.
  replace (a * x + b + s * (ak * x + bk)) with (a' * x + b') in Hs2
    by (unfold a', b'; ring).
  replace (a * xc + b + s * (ak * xc + bk)) with (a' * xc + b') in Hs3
    by (unfold a', b'; ring).
  assert (Ha' : a' <> 0) by (intros Hz; rewrite Hz in Hs1; lra).
  assert (HU' : a' * x + b' <> 0) by (intros Hz; rewrite Hz in Hs2; lra).
  assert (HW' : a' * xc + b' <> 0) by (intros Hz; rewrite Hz in Hs3; lra).
  assert (Hdir : Rleb 0 (velR (a', b') x) = Rleb 0 (a * x + b)).
  { unfold velR, Rleb. cbn [fst snd].
    destruct (Rle_dec 0 (a' * x + b')), (Rle_dec 0 (a * x + b));
      try reflexivity; exfalso; nra. }
  rewrite Hdir. fold xc.
  assert (HWU : 0 < (a * xc + b) * (a * x + b)).
  { apply Rmult_lt_reg_r with (/ (a * x + b) * / (a * x + b)).
    - rewrite <- Rinv_mult. apply Rinv_0_lt_compat. nra.
    - rewrite Rmult_0_l.
      replace ((a * xc + b) * (a * x + b) * (/ (a * x + b) * / (a * x + b)))
        with ((a * xc + b) / (a * x + b)) by (field; exact HU).
      exact Hpos. }
  assert (HWU' : 0 < (a' * xc + b') * (a' * x + b')).
  { assert (Hsq : 0 < ((a * xc + b) * (a * x + b))
                      * ((a' * xc + b') * (a' * x + b'))).
    { replace (((a * xc + b) * (a * x + b)) * ((a' * xc + b') * (a' * x + b')))
        with (((a * xc + b) * (a' * xc + b')) * ((a * x + b) * (a' * x + b')))
        by ring.
      apply Rmult_lt_0_compat; assumption. }
    nra. }
  apply hit_k_fin; [intros Hz; contradiction|].
  intros _.
  assert (Hx : x + b' / a' <> 0).
  { intros Hz. apply HU'.
    replace (a' * x + b') with (a' * (x + b' / a')) by (field; exact Ha').
    rewrite Hz. ring. }
  split; [exact Hx|].
  replace ((xc + b' / a') / (x + b' / a'))
    with (((a' * xc + b') * (a' * x + b'))
          * (/ (a' * x + b') * / (a' * x + b'))).
  - apply Rmult_lt_0_compat; [exact HWU'|].
    rewrite <- Rinv_mult. apply Rinv_0_lt_compat. nra.
  - field. repeat split; try assumption;
      replace (x * a' + b') with (a' * x + b') by ring; exact HU'.
Qed.
(** ** The kernels after the setup of an entry point *)

Lemma map_fst_combine {T U : Type} (l : list T) :
  forall l' : list U, length l = length l' -> map fst (combine l l') = l.
Proof.
  induction l as [|a l IH]; intros [|b l'] H; cbn in *; try lia;
    [reflexivity|].
  f_equal. apply IH. lia.
Qed.

Lemma map_snd_combine {T U : Type} (l : list T) :
  forall l' : list U, length l = length l' -> map snd (combine l l') = l'.
Proof.
  induction l as [|a l IH]; intros [|b l'] H; cbn in *; try lia;
    [reflexivity|].
  f_equal. apply IH. lia.
Qed.

(** A derivative of every entry of a returned array, from a derivative
    at every point. *)
Lemma entrywise_derivative {E : Type} (F : R -> E -> float) (G : E -> R)
      (l : list E) :
  (forall e, In e l ->
             derivable_pt_lim (fun s => real_of (F s e)) 0 (G e)) ->
  forall i, (i < length l)%nat ->
            derivable_pt_lim (fun s => real_at (Ok (map (F s) l)) i) 0
                             (nth i (map G l) 0).
Proof.
  intros H i Hi.
  destruct l as [|d l']; [cbn in Hi; lia|]. set (l := d :: l') in *.
  rewrite (nth_map_in G l d 0 i Hi).
  apply derivable_pt_lim_ext with (f := fun s => real_of (F s (nth i l d))).
  - intros s. unfold real_at. now rewrite (nth_map_in (F s) l d NaN i Hi).
  - apply H. now apply nth_In.
Qed.

Section GradientSetup.
Variable params : Params.
Variable theta : list (list float).
Variable AR : list (list (R * R)).
Variables xs xsb : list (list R).
Variables n m : nat.
Variable ts : list R.
Hypothesis Hdom : xmin params < xmax params.
Hypothesis Hnc : (0 < nc params)%Z.
Hypothesis Hres : mapM (resolve_row (B params)) theta = Ok (fin_field AR).
Hypothesis Hrows : Forall (fun row => Z.of_nat (length row) = nc params) AR.
Hypothesis Hn : length theta = n.
Hypothesis Hn0 : n <> O.
Hypothesis Hbc : broadcast_to (fin_rows xs) n = Ok (fin_rows xsb).
Hypothesis Hrect : rect n m xsb.
Hypothesis Hts : length ts = (n * m)%nat.

Let p' : Params :=
  resolved params (fin_field AR) (map snd (tag_rows 0 (fin_rows xsb))).
Let rp : list (R * Z * R) := combine (tag_rows 0 xsb) ts.
Let pts : list fpt := map timed_pt rp.

Lemma setup_tags : length (tag_rows 0 xsb) = length ts.
Proof.
  rewrite Hts, <- (length_concat_rect n m xsb Hrect), <- (tag_rows_fst 0 xsb).
  now rewrite length_map.
Qed.

Lemma setup_length : length rp = (n * m)%nat.
Proof.
  unfold rp. rewrite length_combine, setup_tags, Hts. apply Nat.min_id.
Qed.

Lemma setup_field : real_field p' AR.
Proof.
  exact (conj eq_refl (conj eq_refl (conj Hrows (conj Hnc Hdom)))).
Qed.

Lemma setup_range (e : R * Z * R) :
  In e rp -> (0 <= snd (fst e) < Z.of_nat (length AR))%Z.
Proof.
  intros He. destruct e as [xr t]. apply in_combine_l in He.
  pose proof (tag_rows_range 0 xsb) as Hrange.
  rewrite Forall_forall in Hrange. specialize (Hrange xr He).
  destruct Hrect as [Hlen _]. rewrite Hlen in Hrange.
  rewrite (resolved_length theta params AR n Hres Hn). cbn in *. lia.
Qed.

Lemma setup_points : real_points AR pts.
Proof.
  unfold pts. apply Forall_map. apply Forall_forall. intros e He.
  cbn [timed_pt fx fr]. split; [eexists; reflexivity|].
  now apply setup_range.
Qed.

Lemma setup_fst : map fst rp = tag_rows 0 xsb.
Proof. apply map_fst_combine, setup_tags. Qed.

Lemma setup_snd : map snd rp = ts.
Proof. apply map_snd_combine, setup_tags. Qed.

Lemma setup_arrays :
  map fx pts = concat (fin_rows xsb) /\
  map ft pts = map Fin ts /\
  set_r p' (map fr pts) = p'.
Proof.
  unfold pts. rewrite !map_map. cbn [timed_pt fx ft fr].
  split; [|split].
  - unfold fin_rows. rewrite <- concat_map, <- (tag_rows_fst 0 xsb).
    rewrite <- setup_fst, !map_map. reflexivity.
  - rewrite <- setup_snd at 1. now rewrite map_map.
  - replace (map (fun e : R * Z * R => snd (fst e)) rp)
      with (r p'); [apply set_r_self|].
    unfold p'. cbn [resolved set_cache r]. unfold fin_rows.
    rewrite tag_rows_map, map_map. cbn [snd].
    rewrite <- setup_fst, map_map. reflexivity.
Qed.

(** The setup hands the call the flattened points and the refreshed
    parameter object. *)
Lemma with_setup_at {T : Type} (f : list float -> Params -> result T) :
  with_setup (fin_rows xs) theta params f
  = f (map fx pts) (set_r p' (map fr pts)).
Proof.
  destruct setup_arrays as (Hx & _ & Hp). rewrite Hx, Hp.
  unfold with_setup, batch_effect. rewrite Hn, Hbc. cbn [bind].
  rewrite (precompute_affine_resolved theta params (fin_field AR) Hres n m
             (fin_rows xsb) Hn Hn0 (rect_map Fin n m xsb Hrect)).
  reflexivity.
Qed.

Lemma setup_coefficients (e : R * Z * R) :
  In e rp ->
  ab_of p' (timed_pt e)
  = fin_pair (coefR AR (snd (fst e)) (cellR params (fst (fst e)))).
Proof.
  intros He.
  destruct (real_point_ab p' AR setup_field (timed_pt e) (fst (fst e)) eq_refl
              (setup_range e He)) as [_ Hab].
  exact Hab.
Qed.

Lemma setup_psi (g : R -> R) :
  with_setup (fin_rows xs) theta params
             (fun xf p => get_psi xf (map (fun t => Fin (g t)) ts) theta p)
  = Ok (map (fun e => Fin (psiR (coefR AR (snd (fst e))
                                       (cellR params (fst (fst e))))
                                (fst (fst e)) (g (snd e)))) rp).
Proof.
  rewrite with_setup_at.
  pose proof (get_psi_at theta p' AR setup_field pts setup_points
                (fun q => Fin (g (real_of (ft q))))) as Hpsi.
  replace (map (fun q => Fin (g (real_of (ft q)))) pts)
    with (map (fun t => Fin (g t)) ts) in Hpsi.
  - rewrite Hpsi. unfold pts. rewrite map_map. f_equal.
    apply map_ext_in. intros e He.
    rewrite (psi_of_retime p' AR setup_field pts setup_points (timed_pt e)
               (fst (fst e)) (g (real_of (ft (timed_pt e)))));
      [reflexivity| |reflexivity].
    unfold pts. now apply in_map.
  - unfold pts. rewrite map_map. cbn [timed_pt ft real_of].
    rewrite <- setup_snd at 1. now rewrite map_map.
Qed.

Lemma setup_hit_time :
  with_setup (fin_rows xs) theta params
             (fun xf p => get_hit_time xf theta p)
  = Ok (map (fun e =>
               let x := fst (fst e) in
               let ab := coefR AR (snd (fst e)) (cellR params x) in
               hit_k (fin_pair ab) (Fin x)
                     (Fin (if Rleb 0 (velR ab x)
                           then rightR params (cellR params x)
                           else leftR params (cellR params x)))) rp).
Proof.
  rewrite with_setup_at.
  rewrite (get_hit_time_at theta p' AR setup_field pts setup_points).
  unfold pts. rewrite map_map. f_equal.
  apply map_ext_in. intros e He. unfold thit_of.
  rewrite (setup_coefficients e He).
  rewrite (xc_of_real p' AR eq_refl Hrows Hnc Hdom (timed_pt e) (fst (fst e))
             eq_refl (setup_range e He)).
  reflexivity.
Qed.

Lemma setup_dphi_time (k : Z) :
  with_setup (fin_rows xs) theta params
             (fun xf p => derivative_phi_time xf (map Fin ts) theta k p)
  = Ok (map (fun e =>
               let ab := coefR AR (snd (fst e)) (cellR params (fst (fst e))) in
               Fin (if Req_dec_T (fst ab) 0 then snd ab
                    else exp (snd e * fst ab)
                         * (fst ab * fst (fst e) + snd ab))) rp).
Proof.
  rewrite with_setup_at.
  destruct setup_arrays as (_ & Ht & _). rewrite <- Ht.
  rewrite (derivative_phi_time_pts theta p' k eq_refl pts
             (real_points_ok_id p' AR setup_field pts setup_points)).
  unfold pts. rewrite map_map. f_equal.
  apply map_ext_in. intros e He. unfold dphi_time_of.
  rewrite (setup_coefficients e He). cbn [fin_pair fst snd timed_pt ft fx].
  apply dphi_time_fin.
Qed.

Lemma setup_slope (e : R * Z * R) :
  Forall (Forall (fun ab => fst ab <> 0)) AR ->
  In e rp ->
  fst (coefR AR (snd (fst e)) (cellR params (fst (fst e)))) <> 0.
Proof.
  intros Hslopes He.
  pose proof (setup_range e He) as Hr.
  pose proof (cellR_range params Hnc (fst (fst e))) as Hc.
  unfold coefR.
  assert (Hrow : In (nth (Z.to_nat (snd (fst e))) AR []) AR)
    by (apply nth_In; lia).
  rewrite Forall_forall in Hslopes, Hrows.
  pose proof (Hrows _ Hrow) as Hlen.
  pose proof (Hslopes _ Hrow) as Hcells. rewrite Forall_forall in Hcells.
  apply Hcells. apply nth_In. lia.
Qed.

(** Where every slope is not zero and every hit time is finite, every
    point has a velocity that is not zero and a boundary on the side it
    travels to. *)
Lemma setup_hit_finite (th : list float) (e : R * Z * R) :
  Forall (Forall (fun ab => fst ab <> 0)) AR ->
  with_setup (fin_rows xs) theta params
             (fun xf p => get_hit_time xf theta p) = Ok th ->
  Forall is_finite th ->
  In e rp ->
  let x := fst (fst e) in
  let c := cellR params x in
  let a := fst (coefR AR (snd (fst e)) c) in
  let b := snd (coefR AR (snd (fst e)) c) in
  let xc := if Rleb 0 (a * x + b) then rightR params c else leftR params c in
  a <> 0 /\ a * x + b <> 0 /\ 0 < (a * xc + b) / (a * x + b).
Proof.
  intros Hslopes Hth Hfin He. cbv zeta.
  rewrite setup_hit_time in Hth. injection Hth as <-.
  rewrite Forall_map, Forall_forall in Hfin.
  destruct (Hfin e He) as [tau Htau]. cbv zeta in Htau.
  pose proof (setup_slope e Hslopes He) as Ha.
  split; [exact Ha|].
  apply (hit_k_finite _ _ _ _ tau Ha).
  rewrite <- Htau. unfold velR, fin_pair. cbn [fst snd]. reflexivity.
Qed.

(** *** With a real basis *)

Variable BR : list (list R).
Variables d k : nat.
Hypothesis HB : B params = fin_rows BR.
Hypothesis HBR : rect (2 * Z.to_nat (nc params)) d BR.
Hypothesis Hk : (k < d)%nat.

Lemma setup_basis_entry (c j : Z) :
  (0 <= c <= nc params - 1)%Z -> (0 <= j <= 1)%Z ->
  B_ok (B p') (2 * c + j) (Z.of_nat k) = true /\
  B_D (B p') (2 * c + j) (Z.of_nat k)
  = Fin (nth k (nth (Z.to_nat (2 * c + j)) BR []) 0).
Proof.
  intros Hc Hj. destruct HBR as [Hlen Hrow].
  change (B p') with (B params). rewrite HB.
  assert (Hi : (0 <= 2 * c + j < Z.of_nat (length BR))%Z) by lia.
  assert (Hin : In (nth (Z.to_nat (2 * c + j)) BR []) BR)
    by (apply nth_In; lia).
  rewrite Forall_forall in Hrow. pose proof (Hrow _ Hin) as Hd.
  split.
  - apply B_ok_in_range; [unfold fin_rows; rewrite length_map; lia|].
    unfold fin_rows. apply Forall_map. apply Forall_forall.
    intros row Hr. rewrite length_map, (Hrow row Hr). lia.
  - unfold B_D, B_at.
    rewrite (py_index_ok (fin_rows BR) (2 * c + j) [])
      by (unfold fin_rows; rewrite length_map; lia).
    cbn [bind]. unfold fin_rows.
    rewrite (nth_map_in (map Fin) BR [] []) by lia.
    rewrite (py_index_ok _ (Z.of_nat k) NaN) by (rewrite length_map; lia).
    rewrite (nth_map_in Fin _ 0 NaN) by (rewrite Nat2Z.id; lia).
    now rewrite Nat2Z.id.
Qed.

Lemma setup_basis : forallb (basis_ok p' (Z.of_nat k)) pts = true.
Proof.
  apply forallb_forall. intros q Hq. unfold pts in Hq.
  apply in_map_iff in Hq. destruct Hq as (e & <- & He).
  unfold basis_ok. cbn [timed_pt fx].
  rewrite (get_cell_cellR p' Hdom).
  pose proof (cellR_range p' Hnc (fst (fst e))) as Hc.
  destruct (setup_basis_entry (cellR p' (fst (fst e))) 0 Hc ltac:(lia))
    as [H0 _].
  destruct (setup_basis_entry (cellR p' (fst (fst e))) 1 Hc ltac:(lia))
    as [H1 _].
  rewrite Z.add_0_r in H0. now rewrite H0, H1.
Qed.

(** The basis entries [B[2c, k]] and [B[2c+1, k]] of the cell of a
    point. *)
Lemma setup_directions (e : R * Z * R) :
  let c := cellR params (fst (fst e)) in
  ak_of p' (Z.of_nat k) (timed_pt e)
  = Fin (nth k (nth (2 * Z.to_nat c) BR []) 0) /\
  bk_of p' (Z.of_nat k) (timed_pt e)
  = Fin (nth k (nth (2 * Z.to_nat c + 1) BR []) 0).
Proof.
  intros c. unfold ak_of, bk_of. cbn [timed_pt fx].
  rewrite (get_cell_cellR p' Hdom).
  pose proof (cellR_range p' Hnc (fst (fst e))) as Hc.
  change (cellR p' (fst (fst e))) with c in *.
  destruct (setup_basis_entry c 0 Hc ltac:(lia)) as [_ H0].
  destruct (setup_basis_entry c 1 Hc ltac:(lia)) as [_ H1].
  rewrite Z.add_0_r in H0. rewrite H0, H1.
  replace (Z.to_nat (2 * c)) with (2 * Z.to_nat c)%nat by lia.
  replace (Z.to_nat (2 * c + 1)) with (2 * Z.to_nat c + 1)%nat by lia.
  split; reflexivity.
Qed.

Lemma setup_dpsi_theta :
  Forall (Forall (fun ab => fst ab <> 0)) AR ->
  with_setup (fin_rows xs) theta params
             (fun xf p => derivative_psi_theta xf (map Fin ts) theta
                                               (Z.of_nat k) p)
  = Ok (map (fun e =>
               let x := fst (fst e) in
               let t := snd e in
               let c := cellR params x in
               let a := fst (coefR AR (snd (fst e)) c) in
               let b := snd (coefR AR (snd (fst e)) c) in
               let ak := nth k (nth (2 * Z.to_nat c) BR []) 0 in
               let bk := nth k (nth (2 * Z.to_nat c + 1) BR []) 0 in
               Fin (ak * t * exp (a * t) * (x + b / a)
                    + (exp (t * a) - 1) * (bk * a - ak * b) / (a * a))) rp).
Proof.
  intros Hslopes.
  rewrite with_setup_at.
  destruct setup_arrays as (_ & Ht & _). rewrite <- Ht.
  rewrite (derivative_psi_theta_pts theta p' (Z.of_nat k) eq_refl pts
             (real_points_ok_id p' AR setup_field pts setup_points)
             setup_basis).
  unfold pts. rewrite map_map. f_equal.
  apply map_ext_in. intros e He. unfold dpsi_theta_of.
  destruct (setup_directions e) as [Hak Hbk].
  rewrite (setup_coefficients e He), Hak, Hbk.
  cbn [fin_pair fst snd timed_pt ft fx].
  apply dpsi_theta_fin. exact (setup_slope e Hslopes He).
Qed.

Lemma setup_dthit_theta (th : list float) :
  Forall (Forall (fun ab => fst ab <> 0)) AR ->
  with_setup (fin_rows xs) theta params
             (fun xf p => get_hit_time xf theta p) = Ok th ->
  Forall is_finite th ->
  with_setup (fin_rows xs) theta params
             (fun xf p => derivative_thit_theta xf theta (Z.of_nat k) p)
  = Ok (map (fun e =>
               let x := fst (fst e) in
               let c := cellR params x in
               let a := fst (coefR AR (snd (fst e)) c) in
               let b := snd (coefR AR (snd (fst e)) c) in
               let xc := if Rleb 0 (a * x + b)
                         then rightR params c else leftR params c in
               let ak := nth k (nth (2 * Z.to_nat c) BR []) 0 in
               let bk := nth k (nth (2 * Z.to_nat c + 1) BR []) 0 in
               Fin (- ak * ln ((a * xc + b) / (a * x + b)) / (a * a)
                    + (x - xc) * (bk * a - ak * b)
                      / (a * (a * x + b) * (a * xc + b)))) rp).
Proof.
  intros Hslopes Hth Hfin.
  rewrite with_setup_at.
  rewrite (derivative_thit_theta_pts theta p' (Z.of_nat k) eq_refl pts
             (real_points_ok_id p' AR setup_field pts setup_points)
             setup_basis).
  unfold pts. rewrite map_map. f_equal.
  apply map_ext_in. intros e He. unfold dthit_of.
  destruct (setup_directions e) as [Hak Hbk].
  destruct (setup_hit_finite th e Hslopes Hth Hfin He) as (Ha & HU & Hpos).
  rewrite (setup_coefficients e He), Hak, Hbk.
  rewrite (xc_of_real p' AR eq_refl Hrows Hnc Hdom (timed_pt e) (fst (fst e))
             eq_refl (setup_range e He)).
  cbn [fin_pair fst snd timed_pt ft fx]. unfold velR.
  apply dthit_theta_fin; assumption.
Qed.
End GradientSetup.
(** ** The field is linear in the parameters *)

Lemma fieldR_rows (c : nat) (BR TH : list (list R)) :
  length BR = (2 * c)%nat ->
  Forall (fun row => length row = c) (fieldR BR TH).
Proof.
  intros Hlen. unfold fieldR. apply Forall_map. apply Forall_forall.
  intros th _. apply length_pairsR. now rewrite length_map.
Qed.

Lemma rect_nth {T : Type} (n m : nat) (x : list (list T)) (i : nat) :
  rect n m x -> (i < n)%nat -> length (nth i x []) = m.
Proof.
  intros [Hlen Hrow] Hi. rewrite Forall_forall in Hrow.
  apply Hrow. apply nth_In. lia.
Qed.

Lemma rect_bump (n d k : nat) (s : R) (TH : list (list R)) :
  rect n d TH -> rect n d (map (add_atR k s) TH).
Proof.
  intros [Hlen Hrow]. split; [now rewrite length_map|].
  apply Forall_map. eapply Forall_impl; [|exact Hrow].
  cbn. intros th Hth. now rewrite length_add_atR.
Qed.

Lemma fieldR_bump (BR TH : list (list R)) (c d n k : nat) (s : R) (ri ci : Z) :
  rect (2 * c) d BR -> rect n d TH -> (k < d)%nat ->
  (0 <= ri < Z.of_nat n)%Z -> (0 <= ci < Z.of_nat c)%Z ->
  coefR (fieldR BR (map (add_atR k s) TH)) ri ci
  = (fst (coefR (fieldR BR TH) ri ci)
     + s * nth k (nth (2 * Z.to_nat ci) BR []) 0,
     snd (coefR (fieldR BR TH) ri ci)
     + s * nth k (nth (2 * Z.to_nat ci + 1) BR []) 0).
Proof.
  intros HBR HTH Hk Hri Hci.
  pose proof HBR as [HlenB _]. pose proof HTH as [HlenT _].
  rewrite !coefR_fieldR by (rewrite ?length_map; lia).
  cbn [fst snd].
  rewrite (nth_map_in (add_atR k s) TH [] []) by lia.
  pose proof (rect_nth n d TH (Z.to_nat ri) HTH ltac:(lia)) as Hth.
  pose proof (rect_nth (2 * c) d BR (2 * Z.to_nat ci) HBR ltac:(lia)) as H0.
  pose proof (rect_nth (2 * c) d BR (2 * Z.to_nat ci + 1) HBR ltac:(lia)) as H1.
  rewrite !dotR_add_at by lia. reflexivity.
Qed.



(** ** The derivative kernels are derivatives *)

(** X23: [derivative_phi_time] is the derivative of the flow in time:
    for real points and times in a real field, after the setup of an
    entry point, entry [i] of [derivative_phi_time(x, t)] is the
    derivative at [h = 0] of entry [i] of [get_psi(x, t + h)], in cells
    of zero slope and of nonzero slope alike. *)
Theorem phi_time_is_time_derivative
        (params : Params) (theta : list (list float))
        (AR : list (list (R * R))) (xs xsb : list (list R)) (n m : nat)
        (ts : list R) (k : Z) :
  xmin params < xmax params -> (0 < nc params)%Z ->
  mapM (resolve_row (B params)) theta = Ok (fin_field AR) ->
  Forall (fun row => Z.of_nat (length row) = nc params) AR ->
  length theta = n -> n <> O ->
  broadcast_to (fin_rows xs) n = Ok (fin_rows xsb) -> rect n m xsb ->
  length ts = (n * m)%nat ->
  exists D,
    with_setup (fin_rows xs) theta params
      (fun xf p => derivative_phi_time xf (map Fin ts) theta k p)
    = Ok (map Fin D) /\
    length D = (n * m)%nat /\
    forall i, (i < n * m)%nat ->
      derivable_pt_lim
        (fun h => real_at
                    (with_setup (fin_rows xs) theta params
                       (fun xf p =>
                          get_psi xf (map (fun t => t + Fin h)%fl (map Fin ts))
                                  theta p)) i)
        0 (nth i D 0).
Proof.
  intros Hdom Hnc Hres Hrows Hn Hn0 Hbc Hrect Hts.
  pose proof (setup_length xsb n m ts Hrect Hts) as Hlen.
  eexists. split; [|split].
  - rewrite (setup_dphi_time params theta AR xs xsb n m ts Hdom Hnc Hres
               Hrows Hn Hn0 Hbc Hrect Hts k).
    cbv zeta. rewrite <- map_map with (g := Fin). reflexivity.
  - now rewrite length_map.
  - intros i Hi.
    apply derivable_pt_lim_ext
      with (f := fun h =>
                   real_at
                     (Ok (map (fun e =>
                                 Fin (psiR (coefR AR (snd (fst e))
                                                  (cellR params (fst (fst e))))
                                           (fst (fst e)) (snd e + h)))
                              (combine (tag_rows 0 xsb) ts))) i).
    + intros h. f_equal. symmetry.
      rewrite map_map. cbn [fadd].
      apply (setup_psi params theta AR xs xsb n m ts Hdom Hnc Hres Hrows
               Hn Hn0 Hbc Hrect Hts (fun t => t + h)).
    + apply (entrywise_derivative
               (fun h e => Fin (psiR (coefR AR (snd (fst e))
                                            (cellR params (fst (fst e))))
                                     (fst (fst e)) (snd e + h))));
        [|lia].
      intros e _. cbn [real_of]. apply flow_time_rate.
Qed.

Lemma phi_time_is_time_derivative_witness :
  exists D,
    with_setup (fin_rows [[1 / 4]]) [[Fin 1]] (two_cells (uniform_B 1 0))
      (fun xf p => derivative_phi_time xf (map Fin [1 / 2]) [[Fin 1]] 0 p)
    = Ok (map Fin D) /\
    length D = (1 * 1)%nat /\
    forall i, (i < 1 * 1)%nat ->
      derivable_pt_lim
        (fun h => real_at
                    (with_setup (fin_rows [[1 / 4]]) [[Fin 1]]
                       (two_cells (uniform_B 1 0))
                       (fun xf p =>
                          get_psi xf
                                  (map (fun t => t + Fin h)%fl (map Fin [1 / 2]))
                                  [[Fin 1]] p)) i)
        0 (nth i D 0).
Proof.
  exact (phi_time_is_time_derivative
           (two_cells (uniform_B 1 0)) [[Fin 1]] (uniform_field 1 0)
           [[1 / 4]] [[1 / 4]] 1 1 [1 / 2] 0
           ltac:(cbn; lra) ltac:(cbn; lia)
           (resolve_uniform 1 0)
           ltac:(repeat constructor)
           eq_refl ltac:(discriminate) eq_refl
           ltac:(split; repeat constructor)
           eq_refl).
Defined.

Section ThetaGradient.
Variable params : Params.
Variables BR TH : list (list R).
Variable AR : list (list (R * R)).
Variables xs xsb : list (list R).
Variables n m d k : nat.
Variable ts : list R.
Hypothesis Hdom : xmin params < xmax params.
Hypothesis Hnc : (0 < nc params)%Z.
Hypothesis HB : B params = fin_rows BR.
Hypothesis HBR : rect (2 * Z.to_nat (nc params)) d BR.
Hypothesis HTH : rect n d TH.
Hypothesis Hn0 : n <> O.
Hypothesis Hk : (k < d)%nat.
Hypothesis Hbc : broadcast_to (fin_rows xs) n = Ok (fin_rows xsb).
Hypothesis Hrect : rect n m xsb.
Hypothesis Hts : length ts = (n * m)%nat.
Hypothesis Hres : mapM (resolve_row (B params)) (fin_rows TH) = Ok (fin_field AR).
Hypothesis Hslopes : Forall (Forall (fun ab => fst ab <> 0)) AR.

Let rp : list (R * Z * R) := combine (tag_rows 0 xsb) ts.
Let moved (s : R) : list (list R) := map (add_atR k s) TH.

Lemma gradient_field : AR = fieldR BR TH.
Proof.
  apply fin_field_injective.
  pose proof (resolve_real (Z.to_nat (nc params)) d BR TH HBR (proj2 HTH)) as H.
  rewrite <- HB, Hres in H. now injection H.
Qed.

Lemma gradient_rows (TH' : list (list R)) :
  Forall (fun row => Z.of_nat (length row) = nc params) (fieldR BR TH').
Proof.
  destruct HBR as [Hlen _].
  eapply Forall_impl; [|apply (fieldR_rows (Z.to_nat (nc params)) BR TH' Hlen)].
  cbn. intros row ->. lia.
Qed.

Lemma gradient_resolves (s : R) :
  mapM (resolve_row (B params)) (fin_rows (moved s))
  = Ok (fin_field (fieldR BR (moved s))).
Proof.
  rewrite HB. apply (resolve_real (Z.to_nat (nc params)) d); [exact HBR|].
  apply (rect_bump n d k s TH HTH).
Qed.

Lemma gradient_batch (TH' : list (list R)) :
  rect n d TH' -> length (fin_rows TH') = n.
Proof. intros [Hlen _]. unfold fin_rows. now rewrite length_map. Qed.

(** The coefficients of a point after the bump. *)
Lemma gradient_coefficients (s : R) (e : R * Z * R) :
  In e rp ->
  let c := cellR params (fst (fst e)) in
  coefR (fieldR BR (moved s)) (snd (fst e)) c
  = (fst (coefR AR (snd (fst e)) c)
     + s * nth k (nth (2 * Z.to_nat c) BR []) 0,
     snd (coefR AR (snd (fst e)) c)
     + s * nth k (nth (2 * Z.to_nat c + 1) BR []) 0).
Proof.
  intros He c.
  pose proof (setup_range params (fin_rows TH) AR xsb n m ts Hres
                (gradient_batch TH HTH) Hn0 Hrect Hts e He) as Hr.
  rewrite (resolved_length (fin_rows TH) params AR n Hres
             (gradient_batch TH HTH)) in Hr.
  pose proof (cellR_range params Hnc (fst (fst e))) as Hc.
  rewrite gradient_field.
  apply (fieldR_bump BR TH (Z.to_nat (nc params)) d n k s);
    try assumption; fold c; lia.
Qed.

Lemma psi_after_bump (s : R) :
  with_setup (fin_rows xs) (bump k (Fin s) (fin_rows TH)) params
    (fun xf p => get_psi xf (map Fin ts) (bump k (Fin s) (fin_rows TH)) p)
  = Ok (map (fun e =>
               Fin (psiR (coefR (fieldR BR (moved s)) (snd (fst e))
                                (cellR params (fst (fst e))))
                         (fst (fst e)) (snd e))) rp).
Proof.
  rewrite bump_fin. fold (moved s).
  exact (setup_psi params (fin_rows (moved s)) (fieldR BR (moved s))
           xs xsb n m ts Hdom Hnc (gradient_resolves s)
           (gradient_rows (moved s))
           (gradient_batch (moved s) (rect_bump n d k s TH HTH))
           Hn0 Hbc Hrect Hts (fun t => t)).
Qed.

Lemma psi_gradient_all :
  exists D,
    with_setup (fin_rows xs) (fin_rows TH) params
      (fun xf p => derivative_psi_theta xf (map Fin ts) (fin_rows TH)
                                        (Z.of_nat k) p)
    = Ok (map Fin D) /\
    length D = (n * m)%nat /\
    forall i, (i < n * m)%nat ->
      derivable_pt_lim
        (fun s => real_at
                    (with_setup (fin_rows xs) (bump k (Fin s) (fin_rows TH))
                       params
                       (fun xf p =>
                          get_psi xf (map Fin ts)
                                  (bump k (Fin s) (fin_rows TH)) p)) i)
        0 (nth i D 0).
Proof.
  pose proof (setup_length xsb n m ts Hrect Hts) as Hlen. fold rp in Hlen.
  pose proof Hres as Hres0. rewrite gradient_field in Hres0.
  eexists. split; [|split].
  - rewrite (setup_dpsi_theta params (fin_rows TH) AR xs xsb n m ts Hdom Hnc
               Hres ltac:(rewrite gradient_field; apply gradient_rows)
               (gradient_batch TH HTH) Hn0 Hbc Hrect Hts BR d k HB HBR Hk
               Hslopes).
    cbv zeta. rewrite <- map_map with (g := Fin). reflexivity.
  - rewrite length_map. exact Hlen.
  - intros i Hi.
    apply derivable_pt_lim_ext
      with (f := fun s =>
                   real_at
                     (Ok (map (fun e =>
                                 Fin (psiR (coefR (fieldR BR (moved s))
                                                  (snd (fst e))
                                                  (cellR params (fst (fst e))))
                                           (fst (fst e)) (snd e))) rp)) i).
    + intros s. f_equal. symmetry. apply psi_after_bump.
    + apply (entrywise_derivative
               (fun s e => Fin (psiR (coefR (fieldR BR (moved s))
                                            (snd (fst e))
                                            (cellR params (fst (fst e))))
                                     (fst (fst e)) (snd e))));
        [|unfold rp in *; lia].
      intros e He. cbn [real_of].
      eapply derivable_pt_lim_ext.
      * intros s. rewrite (gradient_coefficients s e He). reflexivity.
      * apply flow_gradient.
        apply (setup_slope params (fin_rows TH) AR xsb n m ts Hnc Hres
                 ltac:(rewrite gradient_field; apply gradient_rows)
                 (gradient_batch TH HTH) Hn0 Hrect Hts e Hslopes He).
Qed.

Lemma hit_after_bump (s : R) :
  with_setup (fin_rows xs) (bump k (Fin s) (fin_rows TH)) params
    (fun xf p => get_hit_time xf (bump k (Fin s) (fin_rows TH)) p)
  = Ok (map (fun e =>
               let x := fst (fst e) in
               let ab := coefR (fieldR BR (moved s)) (snd (fst e))
                               (cellR params x) in
               hit_k (fin_pair ab) (Fin x)
                     (Fin (if Rleb 0 (velR ab x)
                           then rightR params (cellR params x)
                           else leftR params (cellR params x)))) rp).
Proof.
  rewrite bump_fin. fold (moved s).
  exact (setup_hit_time params (fin_rows (moved s)) (fieldR BR (moved s))
           xs xsb n m ts Hdom Hnc (gradient_resolves s)
           (gradient_rows (moved s))
           (gradient_batch (moved s) (rect_bump n d k s TH HTH))
           Hn0 Hbc Hrect Hts).
Qed.

Lemma hit_gradient_all (th : list float) :
  with_setup (fin_rows xs) (fin_rows TH) params
    (fun xf p => get_hit_time xf (fin_rows TH) p) = Ok th ->
  Forall is_finite th ->
  exists D,
    with_setup (fin_rows xs) (fin_rows TH) params
      (fun xf p => derivative_thit_theta xf (fin_rows TH) (Z.of_nat k) p)
    = Ok (map Fin D) /\
    length D = (n * m)%nat /\
    forall i, (i < n * m)%nat ->
      derivable_pt_lim
        (fun s => real_at
                    (with_setup (fin_rows xs) (bump k (Fin s) (fin_rows TH))
                       params
                       (fun xf p =>
                          get_hit_time xf (bump k (Fin s) (fin_rows TH)) p)) i)
        0 (nth i D 0).
Proof.
  intros Hth Hfin.
  pose proof (setup_length xsb n m ts Hrect Hts) as Hlen.
  assert (Hrows : Forall (fun row => Z.of_nat (length row) = nc params) AR)
    by (rewrite gradient_field; apply gradient_rows).
  eexists. split; [|split].
  - rewrite (setup_dthit_theta params (fin_rows TH) AR xs xsb n m ts Hdom Hnc
               Hres Hrows (gradient_batch TH HTH) Hn0 Hbc Hrect Hts BR d k
               HB HBR Hk th Hslopes Hth Hfin).
    cbv zeta. rewrite <- map_map with (g := Fin). reflexivity.
  - rewrite length_map. exact Hlen.
  - intros i Hi.
    apply derivable_pt_lim_ext
      with (f := fun s =>
                   real_at
                     (Ok (map (fun e =>
                                 let x := fst (fst e) in
                                 let ab := coefR (fieldR BR (moved s))
                                                 (snd (fst e))
                                                 (cellR params x) in
                                 hit_k (fin_pair ab) (Fin x)
                                       (Fin (if Rleb 0 (velR ab x)
                                             then rightR params (cellR params x)
                                             else leftR params (cellR params x))))
                              rp)) i).
    + intros s. f_equal. symmetry. apply hit_after_bump.
    + apply (entrywise_derivative
               (fun s e =>
                  let x := fst (fst e) in
                  let ab := coefR (fieldR BR (moved s)) (snd (fst e))
                                  (cellR params x) in
                  hit_k (fin_pair ab) (Fin x)
                        (Fin (if Rleb 0 (velR ab x)
                              then rightR params (cellR params x)
                              else leftR params (cellR params x)))));
        [|unfold rp in *; lia].
      intros e He.
      destruct (setup_hit_finite params (fin_rows TH) AR xs xsb n m ts Hdom
                  Hnc Hres Hrows (gradient_batch TH HTH) Hn0 Hbc Hrect Hts
                  th e Hslopes Hth Hfin He) as (Ha & HU & Hpos).
      destruct (hit_time_local _ _
                  (nth k (nth (2 * Z.to_nat (cellR params (fst (fst e)))) BR [])
                       0)
                  (nth k (nth (2 * Z.to_nat (cellR params (fst (fst e))) + 1)
                              BR []) 0)
                  _ _ _ Ha HU Hpos) as (delta & Hdelta & Hloc).
      eapply derivable_pt_lim_locally_ext
        with (a := - delta) (b := delta);
        [lra| |apply (hit_time_gradient _ _ _ _ _ _ Ha HU Hpos)].
      intros z Hz. cbv zeta.
      rewrite (gradient_coefficients z e He). cbv zeta.
      rewrite (Hloc z Hz). reflexivity.
Qed.
End ThetaGradient.

(** X24: [derivative_psi_theta] is the derivative of the flow in the
    parameters: for a real basis, real parameters whose field has no
    zero slope, real points and times, entry [i] of
    [derivative_psi_theta(x, t, theta, k)] is the derivative at [s = 0]
    of entry [i] of [get_psi(x, t, theta')], where [theta'] is [theta]
    with [s] added to column [k], both called after the setup of an
    entry point. *)
Theorem psi_theta_is_gradient
        (params : Params) (BR TH : list (list R)) (AR : list (list (R * R)))
        (xs xsb : list (list R)) (n m d k : nat) (ts : list R) :
  xmin params < xmax params -> (0 < nc params)%Z ->
  B params = fin_rows BR -> rect (2 * Z.to_nat (nc params)) d BR ->
  rect n d TH -> n <> O -> (k < d)%nat ->
  broadcast_to (fin_rows xs) n = Ok (fin_rows xsb) -> rect n m xsb ->
  length ts = (n * m)%nat ->
  mapM (resolve_row (B params)) (fin_rows TH) = Ok (fin_field AR) ->
  Forall (Forall (fun ab => fst ab <> 0)) AR ->
  exists D,
    with_setup (fin_rows xs) (fin_rows TH) params
      (fun xf p => derivative_psi_theta xf (map Fin ts) (fin_rows TH)
                                        (Z.of_nat k) p)
    = Ok (map Fin D) /\
    length D = (n * m)%nat /\
    forall i, (i < n * m)%nat ->
      derivable_pt_lim
        (fun s => real_at
                    (with_setup (fin_rows xs) (bump k (Fin s) (fin_rows TH))
                       params
                       (fun xf p =>
                          get_psi xf (map Fin ts)
                                  (bump k (Fin s) (fin_rows TH)) p)) i)
        0 (nth i D 0).
Proof.
  intros Hdom Hnc HB HBR HTH Hn0 Hk Hbc Hrect Hts Hres Hslopes.
  exact (psi_gradient_all params BR TH AR xs xsb n m d k ts Hdom Hnc HB HBR
           HTH Hn0 Hk Hbc Hrect Hts Hres Hslopes).
Qed.

Lemma psi_theta_is_gradient_witness :
  exists D,
    with_setup (fin_rows [[1 / 4]]) (fin_rows [[1]])
      (two_cells (uniform_B 1 0))
      (fun xf p => derivative_psi_theta xf (map Fin [1 / 2]) (fin_rows [[1]])
                                        (Z.of_nat 0) p)
    = Ok (map Fin D) /\
    length D = (1 * 1)%nat /\
    forall i, (i < 1 * 1)%nat ->
      derivable_pt_lim
        (fun s => real_at
                    (with_setup (fin_rows [[1 / 4]])
                       (bump 0 (Fin s) (fin_rows [[1]]))
                       (two_cells (uniform_B 1 0))
                       (fun xf p =>
                          get_psi xf (map Fin [1 / 2])
                                  (bump 0 (Fin s) (fin_rows [[1]])) p)) i)
        0 (nth i D 0).
Proof.
  exact (psi_theta_is_gradient
           (two_cells (uniform_B 1 0)) [[1]; [0]; [1]; [0]] [[1]]
           (uniform_field 1 0) [[1 / 4]] [[1 / 4]] 1 1 1 0 [1 / 2]
           ltac:(cbn; lra) ltac:(cbn; lia)
           eq_refl
           ltac:(split; [reflexivity|repeat constructor])
           ltac:(split; repeat constructor)
           ltac:(discriminate) ltac:(lia) eq_refl
           ltac:(split; repeat constructor)
           eq_refl
           (resolve_uniform 1 0)
           ltac:(repeat constructor; cbn; lra)).
Defined.

(** X25: [derivative_thit_theta] is the derivative of the hit time in
    the parameters: for a real basis, real parameters whose field has
    no zero slope and real points whose hit times [get_hit_time] are
    all finite, entry [i] of [derivative_thit_theta(x, theta, k)] is
    the derivative at [s = 0] of entry [i] of [get_hit_time(x, theta')],
    where [theta'] is [theta] with [s] added to column [k], both called
    after the setup of an entry point. *)
Theorem thit_theta_is_gradient
        (params : Params) (BR TH : list (list R)) (AR : list (list (R * R)))
        (xs xsb : list (list R)) (n m d k : nat) (th : list float) :
  xmin params < xmax params -> (0 < nc params)%Z ->
  B params = fin_rows BR -> rect (2 * Z.to_nat (nc params)) d BR ->
  rect n d TH -> n <> O -> (k < d)%nat ->
  broadcast_to (fin_rows xs) n = Ok (fin_rows xsb) -> rect n m xsb ->
  mapM (resolve_row (B params)) (fin_rows TH) = Ok (fin_field AR) ->
  Forall (Forall (fun ab => fst ab <> 0)) AR ->
  with_setup (fin_rows xs) (fin_rows TH) params
    (fun xf p => get_hit_time xf (fin_rows TH) p) = Ok th ->
  Forall is_finite th ->
  exists D,
    with_setup (fin_rows xs) (fin_rows TH) params
      (fun xf p => derivative_thit_theta xf (fin_rows TH) (Z.of_nat k) p)
    = Ok (map Fin D) /\
    length D = (n * m)%nat /\
    forall i, (i < n * m)%nat ->
      derivable_pt_lim
        (fun s => real_at
                    (with_setup (fin_rows xs) (bump k (Fin s) (fin_rows TH))
                       params
                       (fun xf p =>
                          get_hit_time xf (bump k (Fin s) (fin_rows TH)) p)) i)
        0 (nth i D 0).
Proof.
  intros Hdom Hnc HB HBR HTH Hn0 Hk Hbc Hrect Hres Hslopes Hth Hfin.
  assert (Hts : length (repeat 0 (n * m)) = (n * m)%nat)
    by apply repeat_length.
  exact (hit_gradient_all params BR TH AR xs xsb n m d k (repeat 0 (n * m))
           Hdom Hnc HB HBR HTH Hn0 Hk Hbc Hrect Hts Hres Hslopes th Hth Hfin).
Qed.

(** The hit time of the example point [x = 1/4] in the field of slope
    one on the two cells of [[0, 1]]. *)
Lemma unit_slope_hit :
  exists th,
    with_setup (fin_rows [[1 / 4]]) (fin_rows [[1]])
      (two_cells (uniform_B 1 0))
      (fun xf p => get_hit_time xf (fin_rows [[1]]) p) = Ok th /\
    Forall is_finite th.
Proof.
  set (params := two_cells (uniform_B 1 0)).
  assert (Hnc : (0 < nc params)%Z) by (cbn; lia).
  eexists. split.
  - apply (setup_hit_time params (fin_rows [[1]]) (uniform_field 1 0)
             [[1 / 4]] [[1 / 4]] 1 1 [0]
             ltac:(cbn; lra) Hnc (resolve_uniform 1 0)
             ltac:(repeat constructor) eq_refl ltac:(discriminate) eq_refl
             ltac:(split; repeat constructor) eq_refl).
  - cbn [tag_rows combine map app fst snd]. constructor; [|constructor].
    cbv zeta. cbn [fst snd].
    pose proof (cellR_range params Hnc (1 / 4)) as Hc.
    cbn [nc params two_cells] in Hc.
    set (c := cellR params (1 / 4)) in *.
    assert (Hab : coefR (uniform_field 1 0) 0 c = (1, 0)).
    { assert (Hcases : c = 0%Z \/ c = 1%Z) by lia.
      destruct Hcases as [-> | ->]; reflexivity. }
    change (Z.of_nat 0) with 0%Z. rewrite Hab. unfold velR. cbn [fst snd].
    rewrite Rleb_true by lra.
    assert (Hright : 0 < rightR params c).
    { unfold rightR. cbn [xmin xmax nc params two_cells].
      assert (0 <= IZR c) by (apply IZR_le; lia).
      unfold eps_R. lra. }
    eexists. apply hit_k_fin; [lra|]. intros _.
    split; [lra|]. apply Rdiv_lt_0_compat; lra.
Qed.

Lemma thit_theta_is_gradient_witness :
  exists D,
    with_setup (fin_rows [[1 / 4]]) (fin_rows [[1]])
      (two_cells (uniform_B 1 0))
      (fun xf p => derivative_thit_theta xf (fin_rows [[1]]) (Z.of_nat 0) p)
    = Ok (map Fin D) /\
    length D = (1 * 1)%nat /\
    forall i, (i < 1 * 1)%nat ->
      derivable_pt_lim
        (fun s => real_at
                    (with_setup (fin_rows [[1 / 4]])
                       (bump 0 (Fin s) (fin_rows [[1]]))
                       (two_cells (uniform_B 1 0))
                       (fun xf p =>
                          get_hit_time xf (bump 0 (Fin s) (fin_rows [[1]])) p))
                    i)
        0 (nth i D 0).
Proof.
  destruct unit_slope_hit as (th & Hth & Hfin).
  exact (thit_theta_is_gradient
           (two_cells (uniform_B 1 0)) [[1]; [0]; [1]; [0]] [[1]]
           (uniform_field 1 0) [[1 / 4]] [[1 / 4]] 1 1 1 0 th
           ltac:(cbn; lra) ltac:(cbn; lia)
           eq_refl
           ltac:(split; [reflexivity|repeat constructor])
           ltac:(split; repeat constructor)
           ltac:(discriminate) ltac:(lia) eq_refl
           ltac:(split; repeat constructor)
           (resolve_uniform 1 0)
           ltac:(repeat constructor; cbn; lra)
           Hth Hfin).
Defined.
(** ** An empty batch of parameters *)

Lemma empty_batch_setup (x : list (list float)) (params : Params) :
  let err := if (length x <=? 1)%nat then ZeroDivisionError else ValueError in
  (xf <- batch_effect x [] ;; precompute_affine xf [] params) = Raise err.
Proof.
  destruct x as [|row [|row' x]]; reflexivity.
Qed.

(** X26: an empty batch of parameters ([theta] with no row) makes every
    entry point raise during its setup: [ZeroDivisionError] from the
    quotient [n_points / n_batch] of [get_affine] when [x] has at most
    one row, [ValueError] from the broadcast of [batch_effect] when [x]
    has more rows; no loop is entered. *)
Theorem empty_batch_raises
        (fuel wfuel : nat) (x : list (list float)) (params : Params)
        (h : float) :
  let err := if (length x <=? 1)%nat then ZeroDivisionError else ValueError in
  integrate_closed_form fuel x [] params = Some (Raise err) /\
  integrate_closed_form_trace fuel x [] params = Some (Raise err) /\
  integrate_numeric x [] params = Raise err /\
  derivative_closed_form fuel wfuel x [] params = Some (Raise err) /\
  derivative_numeric x [] params h = Raise err.
Proof.
  cbv zeta.
  assert (Hrun : forall T (record : float -> float -> Z -> T) (blank : T),
             hop_run record [] fuel blank x params
             = Some (Raise (if (length x <=? 1)%nat
                            then ZeroDivisionError else ValueError))).
  { intros T record blank. unfold hop_run.
    pose proof (empty_batch_setup x params) as Hs. cbv zeta in Hs.
    destruct (batch_effect x []) as [xf|e]; cbn [obind bind] in *.
    - rewrite Hs. reflexivity.
    - now injection Hs as ->. }
  assert (Hnum : integrate_numeric x [] params
                 = Raise (if (length x <=? 1)%nat
                          then ZeroDivisionError else ValueError)).
  { unfold integrate_numeric.
    pose proof (empty_batch_setup x params) as Hs. cbv zeta in Hs.
    destruct (batch_effect x []) as [xf|e]; cbn [bind] in *.
    - rewrite Hs. reflexivity.
    - now injection Hs as ->. }
  split; [|split; [|split; [|split]]].
  - unfold integrate_closed_form. rewrite Hrun. reflexivity.
  - unfold integrate_closed_form_trace. apply Hrun.
  - exact Hnum.
  - unfold derivative_closed_form, integrate_closed_form_trace.
    rewrite Hrun. reflexivity.
  - unfold derivative_numeric. rewrite Hnum. reflexivity.
Qed.
(** ** Flows that stay inside their cell *)

Lemma exp_mono (u v : R) : u <= v -> exp u <= exp v.
Proof.
  intros [H | ->]; [left; now apply exp_increasing | right; reflexivity].
Qed.

(** At a time between zero and one the flow lies between the start and
    the position at time one. *)
Lemma flow_between (ab : R * R) (x s : R) :
  0 <= s <= 1 ->
  x <= psiR ab x s <= psiR ab x 1 \/ psiR ab x 1 <= psiR ab x s <= x.
Proof.
  intros Hs. destruct ab as [a b]. unfold psiR. cbn [fst snd].
  destruct (Req_dec_T a 0) as [Ha | Ha].
  - destruct (Rle_lt_dec 0 b); [left | right]; nra.
  - set (K := x + b / a).
    set (Es := exp (s * a)). set (E1 := exp (1 * a)).
    assert (Hx : x = K - b / a) by (unfold K; ring).
    assert (He : (0 < a -> 1 <= Es <= E1) /\ (a < 0 -> E1 <= Es <= 1)).
    { split; intros Hsign.
      - split; [apply exp_ge_1; nra | apply exp_mono; nra].
      - split; [apply exp_mono; nra | apply exp_le_1; nra]. }
    destruct He as [Hpos Hneg].
    destruct (Rle_lt_dec 0 K) as [HK | HK];
      (destruct (Rlt_le_dec 0 a) as [Hsa | Hsa];
       [specialize (Hpos Hsa)
       | assert (Hsa' : a < 0) by lra; specialize (Hneg Hsa')]).
    + left.
      assert (0 <= (Es - 1) * K) by (apply Rmult_le_pos; lra).
      assert (0 <= (E1 - Es) * K) by (apply Rmult_le_pos; lra). lra.
    + right.
      assert (0 <= (1 - Es) * K) by (apply Rmult_le_pos; lra).
      assert (0 <= (Es - E1) * K) by (apply Rmult_le_pos; lra). lra.
    + right.
      assert (0 <= (Es - 1) * - K) by (apply Rmult_le_pos; lra).
      assert (0 <= (E1 - Es) * - K) by (apply Rmult_le_pos; lra). lra.
    + left.
      assert (0 <= (1 - Es) * - K) by (apply Rmult_le_pos; lra).
      assert (0 <= (Es - E1) * - K) by (apply Rmult_le_pos; lra). lra.
Qed.

Section WithinCell.
Variable p : Params.
Hypothesis Hnc : (0 < nc p)%Z.
Hypothesis Hdom : xmin p < xmax p.

Lemma cellR_mono (x y : R) : x <= y -> (cellR p x <= cellR p y)%Z.
Proof.
  intros Hxy. rewrite <- !(get_cell_cellR p Hdom).
  now apply get_cell_mono_real.
Qed.

(** A flow that ends the unit time in the cell it starts in does not
    leave that cell on the way. *)
Lemma cell_between (ab : R * R) (x s : R) :
  0 <= s <= 1 ->
  cellR p (psiR ab x 1) = cellR p x ->
  cellR p (psiR ab x s) = cellR p x.
Proof.
  intros Hs Hend.
  destruct (flow_between ab x s Hs) as [[H1 H2] | [H1 H2]].
  - pose proof (cellR_mono _ _ H1). pose proof (cellR_mono _ _ H2). lia.
  - pose proof (cellR_mono _ _ H1). pose proof (cellR_mono _ _ H2). lia.
Qed.

(** Such a flow, started in the domain, passes the test of the first
    pass of the closed-form loop. *)
Lemma start_valid (a b x : R) :
  xmin p <= x <= xmax p ->
  cellR p (psiR (a, b) x 1) = cellR p x ->
  (Rleb (leftR p (cellR p x)) (psiR (a, b) x 1)
   && Rleb (psiR (a, b) x 1) (rightR p (cellR p x))
   || Rleb 0 (velR (a, b) x) && (cellR p x =? nc p - 1)%Z
   || Rleb (velR (a, b) x) 0 && (cellR p x =? 0)%Z) = true.
Proof.
  intros Hx Hend.
  pose proof (cellR_range p Hnc x) as Hc.
  pose proof (cellR_contains p Hnc Hdom x Hx) as [Hl Hr].
  pose proof (width_pos p Hnc Hdom) as Hw.
  pose proof eps_R_pos as Heps.
  set (psi := psiR (a, b) x 1) in *.
  set (c := cellR p x) in *.
  rewrite (leftR_alt p) in *. rewrite (rightR_alt p) in *.
  assert (Hup : psi <= xmin p + (IZR c + 1) * ((xmax p - xmin p) / IZR (nc p))
                       + eps_R
                \/ (c = nc p - 1)%Z /\ 0 < velR (a, b) x).
  { destruct (Z.eq_dec c (nc p - 1)) as [Hlast | Hlast].
    - destruct (Rle_lt_dec psi
                  (xmin p + (IZR c + 1) * ((xmax p - xmin p) / IZR (nc p))
                   + eps_R)) as [Hle | Hgt]; [now left|].
      right. split; [exact Hlast|].
      destruct (Rlt_le_dec 0 (velR (a, b) x)) as [Hv | Hv]; [exact Hv|].
      exfalso.
      assert (psi <= x).
      { destruct Hv as [Hv | Hv].
        - apply (flow_backward a b x 1); [lra | exact Hv].
        - right. apply (flow_rest a b x 1 Hv). }
      lra.
    - left.
      pose proof (cellR_right p Hnc Hdom psi) as Hr'.
      rewrite Hend in Hr'. fold c in Hr'. specialize (Hr' ltac:(lia)). lra. }
  assert (Hlo : xmin p + IZR c * ((xmax p - xmin p) / IZR (nc p)) - eps_R
                <= psi
                \/ c = 0%Z /\ velR (a, b) x < 0).
  { destruct (Z.eq_dec c 0) as [Hfirst | Hfirst].
    - destruct (Rle_lt_dec
                  (xmin p + IZR c * ((xmax p - xmin p) / IZR (nc p)) - eps_R)
                  psi) as [Hle | Hgt]; [now left|].
      right. split; [exact Hfirst|].
      destruct (Rlt_le_dec (velR (a, b) x) 0) as [Hv | Hv]; [exact Hv|].
      exfalso.
      assert (x <= psi).
      { destruct Hv as [Hv | Hv].
        - apply (flow_forward a b x 1); [lra | exact Hv].
        - right. symmetry. apply (flow_rest a b x 1). now symmetry. }
      lra.
    - left.
      pose proof (cellR_left p Hnc Hdom psi) as Hl'.
      rewrite Hend in Hl'. fold c in Hl'. specialize (Hl' ltac:(lia)). lra. }
  destruct Hup as [Hup | [Hlast Hv]].
  - destruct Hlo as [Hlo | [Hfirst Hv]].
    + rewrite (Rleb_true _ _ Hlo), (Rleb_true _ _ Hup). reflexivity.
    + rewrite (Rleb_true (velR (a, b) x) 0) by lra.
      rewrite Hfirst, Z.eqb_refl. cbn. apply orb_true_r.
  - rewrite (Rleb_true 0 (velR (a, b) x)) by lra.
    rewrite Hlast, Z.eqb_refl. cbn.
    rewrite orb_true_r. reflexivity.
Qed.
End WithinCell.

(** *** The numeric integrator on such flows *)

Lemma vwhere_first {T : Type} (c : list Z) :
  forall (l l' : list T),
    length l = length c -> length l' = length c ->
    vwhere (zipWith Z.eqb c c) l l' = l.
Proof.
  unfold vwhere. induction c as [|z c IH]; intros [|a l] [|a' l'] H H';
    try discriminate; [reflexivity|].
  cbn [zipWith zipWith3]. rewrite Z.eqb_refl. cbn [fwhere].
  f_equal. apply IH; now injection H + injection H'.
Qed.

Section InCellNumeric.
Variable theta : list (list float).
Variable p : Params.
Variable AR : list (list (R * R)).
Hypothesis Hf : real_field p AR.

Lemma velocity_finite (pts : list fpt) (q : fpt) :
  real_points AR pts -> In q pts -> is_finite (v_of p q).
Proof.
  intros Hp Hq. unfold real_points in Hp. rewrite Forall_forall in Hp.
  destruct (Hp q Hq) as [[x Hx] Hr].
  destruct Hf as (_ & HA & Hrows & Hnc & Hdom).
  rewrite (v_of_real p AR HA Hrows Hnc Hdom q x Hx Hr). eexists; reflexivity.
Qed.

Lemma euler_real (d : R) (pts : list fpt) (w : fpt -> float) :
  real_points AR pts ->
  (forall q, In q pts -> is_finite (w q)) ->
  real_points AR (map (fun q => move_to (fx q + Fin d * w q)%fl q) pts).
Proof.
  intros Hp Hw. apply (real_points_moved p AR pts _ Hp).
  intros q Hq. pose proof Hp as Hall. unfold real_points in Hall.
  rewrite Forall_forall in Hall.
  destruct (Hall q Hq) as [[x ->] _]. destruct (Hw q Hq) as [v ->].
  eexists; reflexivity.
Qed.

(** One midpoint sub-step keeps real points real. *)
Lemma midpoint_real (d : R) (pts : list fpt) :
  real_points AR pts ->
  exists pts',
    midpoint_step d theta (set_r p (map fr pts)) (map fx pts)
    = Ok (map fx pts') /\
    real_points AR pts' /\ map fr pts' = map fr pts.
Proof.
  intros Hp. unfold midpoint_step.
  rewrite (get_velocity_at theta p AR Hf pts Hp). cbn [bind].
  set (mid := fun q => move_to (fx q + Fin (d / 2) * v_of p q)%fl q).
  assert (Hmid : real_points AR (map mid pts))
    by (apply (euler_real (d / 2) pts (v_of p) Hp);
        intros q Hq; apply (velocity_finite pts q Hp Hq)).
  replace (vadd (map fx pts) (map (fmul (Fin (d / 2))) (map (v_of p) pts)))
    with (map fx (map mid pts))
    by (unfold vadd; fuse; reflexivity).
  replace (map fr pts) with (map fr (map mid pts))
    by (rewrite map_map; reflexivity).
  rewrite (get_velocity_at theta p AR Hf (map mid pts) Hmid). cbn [bind].
  exists (map (fun q => move_to (fx q + Fin d * v_of p (mid q))%fl q) pts).
  split; [|split].
  - unfold vadd. fuse. reflexivity.
  - apply (euler_real d pts (fun q => v_of p (mid q)) Hp).
    intros q Hq. apply (velocity_finite (map mid pts) (mid q) Hmid).
    now apply in_map.
  - rewrite !map_map. reflexivity.
Qed.

Lemma midpoints_real (d : R) (k : nat) (pts : list fpt) :
  real_points AR pts ->
  exists pts',
    repeatM k (midpoint_step d theta (set_r p (map fr pts))) (map fx pts)
    = Ok (map fx pts') /\
    real_points AR pts' /\ map fr pts' = map fr pts.
Proof.
  intros Hp. induction k as [|k IH].
  - exists pts. split; [reflexivity|]. split; [exact Hp | reflexivity].
  - destruct IH as (pts1 & Hrun & Hp1 & Hr1).
    rewrite repeatM_succ_r, Hrun. cbn [bind]. rewrite <- Hr1.
    destruct (midpoint_real d pts1 Hp1) as (pts2 & Hstep & Hp2 & Hr2).
    exists pts2. split; [exact Hstep|]. split; [exact Hp2|]. congruence.
Qed.

(** [get_phi_numeric] returns on real points as soon as [nSteps2] is
    not zero. *)
Lemma phi_numeric_returns (dt : R) (pts : list fpt) :
  real_points AR pts -> nSteps2 p <> 0%Z ->
  exists ys,
    get_phi_numeric (map fx pts) dt theta (set_r p (map fr pts)) = Ok ys /\
    length ys = length pts.
Proof.
  intros Hp Hn. unfold get_phi_numeric. cbn [nSteps2 set_r set_cache].
  destruct (Z.eqb_spec (nSteps2 p) 0) as [|_]; [contradiction|].
  destruct (midpoints_real (dt / IZR (nSteps2 p)) (Z.to_nat (nSteps2 p)) pts Hp)
    as (pts' & Hrun & _ & Hr).
  exists (map fx pts'). split; [exact Hrun|].
  rewrite length_map. rewrite <- (length_map fr pts'), Hr. apply length_map.
Qed.

Lemma flowed_position (s : R) (pts : list fpt) (q : fpt) (x : R) :
  real_points AR pts -> In q pts -> fx q = Fin x ->
  fx (flowed p s q) = Fin (psiR (abR p AR (fr q) x) x s).
Proof.
  intros Hp Hq Hx. unfold flowed. cbn [move_to fx].
  apply (psi_of_retime p AR Hf pts Hp q x s Hq Hx).
Qed.

Lemma flowed_real (s : R) (pts : list fpt) :
  real_points AR pts -> real_points AR (map (flowed p s) pts).
Proof.
  intros Hp. apply (real_points_moved p AR pts _ Hp).
  intros q Hq. pose proof Hp as Hall. unfold real_points in Hall.
  rewrite Forall_forall in Hall. destruct (Hall q Hq) as [[x Hx] _].
  rewrite (psi_of_retime p AR Hf pts Hp q x s Hq Hx). eexists; reflexivity.
Qed.

Lemma flowed_zero (pts : list fpt) :
  real_points AR pts -> map fx (map (flowed p 0) pts) = map fx pts.
Proof.
  intros Hp. rewrite map_map. apply map_ext_in. intros q Hq.
  pose proof Hp as Hall. unfold real_points in Hall.
  rewrite Forall_forall in Hall. destruct (Hall q Hq) as [[x Hx] _].
  rewrite (flowed_position 0 pts q x Hp Hq Hx), psiR_zero. now symmetry.
Qed.

(** A point that ends the unit time in its cell is in that cell at
    every time between zero and one. *)
Lemma flowed_cell (s : R) (pts : list fpt) (q : fpt) :
  real_points AR pts -> In q pts -> 0 <= s <= 1 ->
  get_cell (fx (flowed p 1 q)) p = get_cell (fx q) p ->
  get_cell (fx (flowed p s q)) p = get_cell (fx q) p.
Proof.
  intros Hp Hq Hs Hend.
  pose proof Hp as Hall. unfold real_points in Hall.
  rewrite Forall_forall in Hall. destruct (Hall q Hq) as [[x Hx] _].
  destruct Hf as (_ & _ & _ & Hnc & Hdom).
  rewrite (flowed_position 1 pts q x Hp Hq Hx), Hx in Hend.
  rewrite (flowed_position s pts q x Hp Hq Hx), Hx.
  rewrite !(get_cell_cellR p Hdom) in *.
  now apply (cell_between p Hnc Hdom).
Qed.

(** An outer step of [integrate_numeric] between two times at which
    every point is in its starting cell takes the closed-form branch. *)
Lemma numeric_step_in_cell (dt s : R) (pts : list fpt) :
  real_points AR pts -> nSteps2 p <> 0%Z ->
  (forall q, In q pts ->
             get_cell (fx (flowed p s q)) p = get_cell (fx q) p /\
             get_cell (fx (flowed p (s + dt) q)) p = get_cell (fx q) p) ->
  numeric_step dt theta (set_r p (map fr pts))
               (map fx (map (flowed p s) pts), cells (map fx pts) p)
  = Ok (map fx (map (flowed p (s + dt)) pts), cells (map fx pts) p).
Proof.
  intros Hp Hn Hcells.
  pose proof (flowed_real s pts Hp) as Hps.
  assert (Hr : map fr (map (flowed p s) pts) = map fr pts)
    by (rewrite map_map; reflexivity).
  unfold numeric_step. rewrite <- Hr.
  assert (Htemp :
            get_psi (map fx (map (flowed p s) pts))
                    (map (fun _ => Fin dt) (map fx (map (flowed p s) pts)))
                    theta (set_r p (map fr (map (flowed p s) pts)))
            = Ok (map fx (map (flowed p (s + dt)) pts))).
  { rewrite (map_map fx (fun _ => Fin dt)).
    rewrite (get_psi_at theta p AR Hf _ Hps (fun _ => Fin dt)). f_equal.
    rewrite !map_map. apply map_ext_in. intros q Hq.
    pose proof Hp as Hall. unfold real_points in Hall.
    rewrite Forall_forall in Hall. destruct (Hall q Hq) as [[x Hx] _].
    destruct (Hcells q Hq) as [Hc _].
    pose proof (flowed_position s pts q x Hp Hq Hx) as Hpos.
    rewrite (psi_of_retime p AR Hf _ Hps (flowed p s q) _ dt
               (in_map _ _ _ Hq) Hpos).
    rewrite (flowed_position (s + dt) pts q x Hp Hq Hx).
    change (fr (flowed p s q)) with (fr q).
    rewrite Hpos, Hx in Hc.
    rewrite (same_cell_same_field p AR (fr q) x _ Hf Hc).
    now rewrite psiR_compose. }
  rewrite Htemp. cbn [bind].
  destruct (phi_numeric_returns dt _ Hps Hn) as (ys & Hnum & Hlen).
  rewrite Hnum. cbn [bind].
  assert (Hsame : cells (map fx (map (flowed p (s + dt)) pts))
                        (set_r p (map fr (map (flowed p s) pts)))
                  = cells (map fx pts) p).
  { unfold cells. rewrite !map_map. apply map_ext_in. intros q Hq.
    exact (proj2 (Hcells q Hq)). }
  rewrite Hsame.
  rewrite vwhere_first
    by (unfold cells; rewrite ?length_map in *; congruence).
  rewrite Hsame. reflexivity.
Qed.

(** The outer loop of [integrate_numeric] on points that end the unit
    time in their cells: after [k] of [N] steps every point is at its
    closed-form position of time [k / N]. *)
Lemma numeric_run_in_cell (N : nat) (pts : list fpt) :
  N <> O -> real_points AR pts -> nSteps2 p <> 0%Z ->
  (forall q, In q pts ->
             get_cell (fx (flowed p 1 q)) p = get_cell (fx q) p) ->
  forall k, (k <= N)%nat ->
    repeatM k (numeric_step (1 / INR N) theta (set_r p (map fr pts)))
            (map fx pts, cells (map fx pts) p)
    = Ok (map fx (map (flowed p (INR k / INR N)) pts), cells (map fx pts) p).
Proof.
  intros HN Hp Hn Hend.
  assert (HNpos : 0 < INR N) by (apply lt_0_INR; lia).
  induction k as [|k IH]; intros Hk.
  - cbn [repeatM INR]. unfold Rdiv. rewrite Rmult_0_l.
    now rewrite (flowed_zero pts Hp).
  - rewrite repeatM_succ_r, IH by lia. cbn [bind].
    assert (Hk1 : 0 <= INR k / INR N <= 1).
    { split; [apply Rmult_le_pos; [apply pos_INR | left; now apply Rinv_0_lt_compat]|].
      apply Rmult_le_reg_r with (INR N); [exact HNpos|].
      replace (INR k / INR N * INR N) with (INR k) by (field; lra).
      rewrite Rmult_1_l. apply le_INR. lia. }
    assert (Hk2 : 0 <= INR (S k) / INR N <= 1).
    { split; [apply Rmult_le_pos; [apply pos_INR | left; now apply Rinv_0_lt_compat]|].
      apply Rmult_le_reg_r with (INR N); [exact HNpos|].
      replace (INR (S k) / INR N * INR N) with (INR (S k)) by (field; lra).
      rewrite Rmult_1_l. apply le_INR. lia. }
    replace (INR (S k) / INR N) with (INR k / INR N + 1 / INR N) in *
      by (rewrite S_INR; field; lra).
    apply (numeric_step_in_cell (1 / INR N) (INR k / INR N) pts Hp Hn).
    intros q Hq. split.
    + apply (flowed_cell _ pts q Hp Hq Hk1 (Hend q Hq)).
    + apply (flowed_cell _ pts q Hp Hq Hk2 (Hend q Hq)).
Qed.
End InCellNumeric.

(** *** Both integrators on such flows *)

Lemma Forall2_diag {T : Type} (P : T -> T -> Prop) (l : list T) :
  Forall (fun a => P a a) l -> Forall2 P l l.
Proof. induction 1; constructor; assumption. Qed.

Section AgreeWithinCells.
Variable params : Params.
Variable theta : list (list float).
Variable AR : list (list (R * R)).
Variables xs xsb : list (list R).
Variables n m : nat.
Hypothesis Hdom : xmin params < xmax params.
Hypothesis Hnc : (0 < nc params)%Z.
Hypothesis Hres : mapM (resolve_row (B params)) theta = Ok (fin_field AR).
Hypothesis Hrows : Forall (fun row => Z.of_nat (length row) = nc params) AR.
Hypothesis Hn : length theta = n.
Hypothesis Hn0 : n <> O.
Hypothesis Hbc : broadcast_to (fin_rows xs) n = Ok (fin_rows xsb).
Hypothesis Hrect : rect n m xsb.

Let p' : Params :=
  resolved params (fin_field AR) (map snd (tag_rows 0 (fin_rows xsb))).
Let pts0 : list fpt := init_pts p' (fin_rows xsb).

Lemma agree_field : real_field p' AR.
Proof. exact (conj eq_refl (conj eq_refl (conj Hrows (conj Hnc Hdom)))). Qed.

Lemma agree_points : real_points AR pts0.
Proof.
  unfold pts0, p'. rewrite init_pts_real. apply Forall_map.
  apply Forall_forall. intros xr Hxr. cbn [fx fr].
  split; [eexists; reflexivity|].
  pose proof (tag_rows_range 0 xsb) as Hrange.
  rewrite Forall_forall in Hrange. specialize (Hrange xr Hxr).
  destruct Hrect as [Hlen _]. rewrite Hlen in Hrange.
  rewrite (resolved_length theta params AR n Hres Hn). cbn in Hrange. lia.
Qed.

Lemma agree_arrays :
  map fx pts0 = concat (fin_rows xsb) /\ set_r p' (map fr pts0) = p'.
Proof.
  unfold pts0, init_pts. rewrite !map_map. cbn [init_pt fx fr]. split.
  - apply tag_rows_fst.
  - apply (set_r_self p').
Qed.

Lemma agree_setup :
  batch_effect (fin_rows xs) theta = Ok (map fx pts0) /\
  precompute_affine (map fx pts0) theta params = Ok p'.
Proof.
  destruct agree_arrays as [Hx _]. rewrite Hx. split.
  - unfold batch_effect. rewrite Hn, Hbc. reflexivity.
  - exact (precompute_affine_resolved theta params (fin_field AR) Hres n m
             (fin_rows xsb) Hn Hn0 (rect_map Fin n m xsb Hrect)).
Qed.

(** The flow for the unit time, after the setup. *)
Lemma agree_psi :
  with_setup (fin_rows xs) theta params
    (fun xf p => get_psi xf (map (fun _ => Fin 1) xf) theta p)
  = Ok (map fx (map (flowed p' 1) pts0)).
Proof.
  destruct agree_setup as [Hbe Hpre]. destruct agree_arrays as [_ Hp].
  unfold with_setup. rewrite Hbe. cbn [bind]. rewrite Hpre. cbn [bind].
  rewrite <- Hp at 1. rewrite (map_map fx (fun _ => Fin 1)).
  rewrite (get_psi_at theta p' AR agree_field pts0 agree_points
             (fun _ => Fin 1)).
  now rewrite map_map.
Qed.

Hypothesis Hend :
  forall q, In q pts0 ->
            get_cell (fx (flowed p' 1 q)) p' = get_cell (fx q) p'.

Lemma agree_numeric :
  (1 <= nSteps1 params)%Z -> nSteps2 params <> 0%Z ->
  integrate_numeric (fin_rows xs) theta params
  = reshape_rows n (map fx (map (flowed p' 1) pts0)).
Proof.
  intros Hs1 Hs2.
  destruct agree_setup as [Hbe Hpre]. destruct agree_arrays as [_ Hp].
  unfold integrate_numeric. rewrite Hbe. cbn [bind]. rewrite Hpre.
  cbn [bind]. change (nSteps1 p') with (nSteps1 params).
  destruct (Z.eqb_spec (nSteps1 params) 0) as [|_]; [lia|].
  pose proof (numeric_run_in_cell theta p' AR agree_field
                (Z.to_nat (nSteps1 params)) pts0 ltac:(lia) agree_points Hs2
                Hend (Z.to_nat (nSteps1 params)) (Nat.le_refl _)) as Hrun.
  rewrite Hp in Hrun.
  rewrite INR_IZR_INZ, Z2Nat.id in Hrun by lia.
  rewrite Hrun. cbn [bind]. rewrite Hn.
  replace (IZR (nSteps1 params) / IZR (nSteps1 params)) with 1;
    [reflexivity|].
  field. apply not_0_IZR. lia.
Qed.

Hypothesis Hin : Forall (Forall (fun v => xmin params <= v <= xmax params)) xs.

Lemma agree_start_valid (q : fpt) : In q pts0 -> valid_of p' q = true.
Proof.
  intros Hq.
  pose proof agree_points as Hall. unfold real_points in Hall.
  rewrite Forall_forall in Hall. destruct (Hall q Hq) as [_ Hr].
  pose proof (Hend q Hq) as He.
  unfold pts0, p' in Hq. rewrite init_pts_real in Hq. fold p' in Hq.
  apply in_map_iff in Hq. destruct Hq as (xr & <- & Hxr).
  set (q := mkFpt (Fin (fst xr)) (Fin 1) (snd xr)
                  (get_cell (Fin (fst xr)) p')) in *.
  assert (Hq' : In q pts0).
  { unfold pts0, p'. rewrite init_pts_real. fold p'.
    apply in_map_iff. exists xr. split; [reflexivity | exact Hxr]. }
  rewrite (valid_of_real p' AR eq_refl Hrows Hnc Hdom q (fst xr) eq_refl Hr 1
             eq_refl).
  rewrite (flowed_position p' AR agree_field 1 pts0 q (fst xr)
             agree_points Hq' eq_refl) in He.
  unfold q in *. cbn [fx fc fr] in *. rewrite !(get_cell_cellR p' Hdom) in *.
  destruct (abR p' AR (snd xr) (fst xr)) as [a b] eqn:Eab.
  apply (start_valid p' Hnc Hdom a b (fst xr)); [|exact He].
  pose proof (broadcast_to_real _ xs xsb n Hbc Hin) as Hinb.
  pose proof (tag_rows_In_fst _ 0 xsb Hinb) as Hdomain.
  rewrite Forall_forall in Hdomain. exact (Hdomain xr Hxr).
Qed.

Lemma agree_closed_form (fuel : nat) :
  (Z.to_nat (nc params) < fuel)%nat ->
  integrate_closed_form fuel (fin_rows xs) theta params
  = Some (reshape_rows n (map fx (map (flowed p' 1) pts0))).
Proof.
  intros Hfuel.
  unfold integrate_closed_form, hop_run, batch_effect.
  rewrite Hn, Hbc. cbn [bind obind].
  rewrite (precompute_affine_resolved theta params _ Hres n m)
    by (try apply rect_map; assumption).
  cbn [obind]. rewrite hop_init_pack. fold p'. fold pts0.
  destruct (hop_loop_reaches (fun psi _ _ => psi) theta p' eq_refl
              (fun _ q y => q = y /\ In y pts0)
              (fun o y => o = fx (flowed p' 1 y))) with
      (fuel := fuel) (pts := pts0)
      (out := map (fun _ : fpt => Fin 0) pts0)
      (done := map (fun _ : fpt => false) pts0)
      (cont := 0%Z) (ys := pts0)
    as (out' & Hrun & Hout).
  - intros _ q y [-> Hy].
    pose proof agree_points as Hall. unfold real_points in Hall.
    rewrite Forall_forall in Hall. destruct (Hall y Hy) as [[x Hx] Hr].
    exact (proj1 (real_point_ab p' AR agree_field y x Hx Hr)).
  - intros _ q y [-> Hy] _. unfold record_of, flowed. cbn [move_to fx].
    unfold pts0, p' in Hy. rewrite init_pts_real in Hy.
    apply in_map_iff in Hy. destruct Hy as (xr & <- & _). reflexivity.
  - intros cont q y [-> Hy] Hinvalid.
    rewrite (agree_start_valid y Hy) in Hinvalid. discriminate.
  - apply aligned_init. apply Forall2_diag. apply Forall_forall.
    intros q Hq. split; [reflexivity | exact Hq].
  - cbn [nc p' resolved set_cache]. rewrite Z.sub_0_r. exact Hfuel.
  - rewrite Hrun. cbn [obind]. f_equal. f_equal.
    apply Forall2_eq_map in Hout. rewrite Hout, map_map. reflexivity.
Qed.
End AgreeWithinCells.


(** The example point [x = 1/4] on the two cells of [[0, 1]], in the
    field of constant velocity [1/8]: it ends the unit time at [3/8],
    in its cell. *)
Lemma slow_point_facts :
  let params := two_cells (uniform_B 0 (1 / 8)) in
  batch_effect (fin_rows [[1 / 4]]) [[Fin 1]] = Ok [Fin (1 / 4)] /\
  with_setup (fin_rows [[1 / 4]]) [[Fin 1]] params
    (fun xf p => get_psi xf (map (fun _ => Fin 1) xf) [[Fin 1]] p)
  = Ok [Fin (psiR (0, 1 / 8) (1 / 4) 1)] /\
  cells [Fin (psiR (0, 1 / 8) (1 / 4) 1)] params = cells [Fin (1 / 4)] params.
Proof.
  cbv zeta. split; [reflexivity|]. split.
  - rewrite (agree_psi (two_cells (uniform_B 0 (1 / 8))) [[Fin 1]]
               (uniform_field 0 (1 / 8)) [[1 / 4]] [[1 / 4]] 1 1
               ltac:(cbn; lra) ltac:(cbn; lia)
               (resolve_uniform 0 (1 / 8))
               ltac:(repeat constructor)
               eq_refl ltac:(discriminate) eq_refl
               ltac:(split; repeat constructor)).
    cbn [init_pts fin_rows tag_rows map app flowed move_to fx].
    set (p1 := two_cells_resolved (uniform_B 0 (1 / 8)) 0 (1 / 8)).
    f_equal. f_equal.
    change (psi_of p1 (retime (Fin 1) (init_pt p1 (Fin (1 / 4), Z.of_nat 0)))
            = Fin (psiR (0, 1 / 8) (1 / 4) 1)).
    rewrite (psi_of_real p1 (uniform_field 0 (1 / 8)) eq_refl
               ltac:(repeat constructor) ltac:(cbn; lia) ltac:(cbn; lra)
               (retime (Fin 1) (init_pt p1 (Fin (1 / 4), Z.of_nat 0)))
               (1 / 4) eq_refl ltac:(cbn; lia) 1 eq_refl).
    cbn [retime init_pt fr fst snd].
    unfold p1. rewrite two_cells_abR by (cbn; lia). reflexivity.
  - unfold cells. cbn [map]. rewrite psiR_const.
    change (get_cell ?x (two_cells (uniform_B 0 (1 / 8))))
      with (get_cell x (two_cells_resolved (uniform_B 0 (1 / 8)) 0 (1 / 8))).
    rewrite !(two_cells_cell (uniform_B 0 (1 / 8)) 0 (1 / 8) _ 0)
      by (intros; try discriminate; lra || lia).
    reflexivity.
Qed.

